(** * QR toolkit: stream protocol, QR encoder and decoder entry points

    A shallow embedding of [src/qr/qr-stream.js], [src/qr/qr-encoder.js] and
    of the two [decode] entry points, the Galois field and the format
    readers of [src/qr/qr-worker.js], followed by the properties of the
    design document that are about them and by further properties of the
    code.

    Conventions of the embedding.
    - A JS number that the code only uses as an integer is a [Z].  The
      bitwise operators of JS work on 32-bit signed integers; their
      wrap-around is written out in module [JS].
    - A JS string is the list of its UTF-16 code units, a [Uint8Array] the
      list of its bytes; storing into a [Uint8Array] reduces modulo 256.
    - A JS [Map] is a [gmap], a JS [Set] a [gset], an object literal a
      [gmap] from property names to values.
    - A function that can throw returns a [res]. *)

From Stdlib Require Import ZArith List Bool Lia String Sorted.
From stdpp Require Import gmap strings.
Import ListNotations.
Local Open Scope Z_scope.

(** ** Results of functions that can throw *)

Inductive res (A : Type) : Type :=
| Ok (a : A)
| Throw (msg : string)
| OffGrid.
Arguments Ok {A} a.
Arguments Throw {A} msg.
Arguments OffGrid {A}.

Definition rbind {A B} (x : res A) (f : A -> res B) : res B :=
  match x with
  | Ok a => f a
  | Throw m => Throw m
  | OffGrid => OffGrid
  end.

#[global] Instance res_bind : MBind res := fun A B f x => rbind x f.
#[global] Instance res_ret : MRet res := fun A a => Ok a.

(** [for (let i = lo; i < hi; i++) body], threading the state [s]. *)
Definition range (lo hi : Z) : list Z :=
  map (fun k => lo + Z.of_nat k) (seq 0 (Z.to_nat (hi - lo))).

Definition forZ {S} (lo hi : Z) (body : Z -> S -> S) (s : S) : S :=
  fold_left (fun acc i => body i acc) (range lo hi) s.

Definition forR {S} (lo hi : Z) (body : Z -> S -> res S) (s : S) : res S :=
  fold_left (fun acc i => s' ← acc; body i s') (range lo hi) (Ok s).

(** [for (let i = hi; i >= lo; i--) body]. *)
Definition forDown {S} (hi lo : Z) (body : Z -> S -> S) (s : S) : S :=
  fold_left (fun acc i => body i acc) (rev (range lo (hi + 1))) s.

(** ** JS integer operators *)

Module JS.

(** ToInt32 of an integer-valued number. *)
Definition toInt32 (z : Z) : Z := (z + 2^31) mod 2^32 - 2^31.

(** [a << n], [a >> n], [a & b], [a | b], [a ^ b]. *)
Definition shl (a n : Z) : Z := toInt32 (Z.shiftl (toInt32 a) (n mod 32)).
Definition sar (a n : Z) : Z := Z.shiftr (toInt32 a) (n mod 32).
Definition band (a b : Z) : Z := Z.land (toInt32 a) (toInt32 b).
Definition bor (a b : Z) : Z := Z.lor (toInt32 a) (toInt32 b).
Definition bxor (a b : Z) : Z := Z.lxor (toInt32 a) (toInt32 b).

(** The conversion applied by a store into a [Uint8Array]. *)
Definition toUint8 (z : Z) : Z := z mod 256.

(** [a[i]] on an array whose index [i] is inside it. *)
Definition at_ (l : list Z) (i : Z) : Z := nth (Z.to_nat i) l 0.

(** [a.length]. *)
Definition len {A} (l : list A) : Z := Z.of_nat (length l).

(** [a.slice(start, end)] for [0 <= start]. *)
Definition slice {A} (l : list A) (s e : Z) : list A :=
  firstn (Z.to_nat (Z.min e (len l) - s)) (skipn (Z.to_nat s) l).

(** [Math.ceil(a / b)] for integers [a], [b] with [b <> 0]: the quotient is
    exact below 2^53, and [Z.div] rounds down for either sign of [b]. *)
Definition ceilDiv (a b : Z) : Z := - ((- a) / b).

End JS.

(** ** qr-stream.js *)

Module QRStream.
Import JS.

Definition MAGIC : list Z := [81; 83].   (* 'QS' *)
Definition HEADER_SIZE : Z := 9.
Definition DEFAULT_CHUNK_SIZE : Z := 1800.

Definition FLAG_FIRST : Z := 0x01.
Definition FLAG_LAST : Z := 0x02.
Definition FLAG_RETRANSMIT : Z := 0x04.
Definition FLAG_ACK : Z := 0x08.

(** The inner loop of [crc16]: eight shift steps. *)
Definition crc16_bit (crc : Z) : Z :=
  if band crc 0x8000 =? 0 then shl crc 1 else bxor (shl crc 1) 0x1021.

Definition crc16_byte (crc b : Z) : Z :=
  let crc := bxor crc (shl b 8) in
  let crc := forZ 0 8 (fun _ c => crc16_bit c) crc in
  band crc 0xFFFF.

Definition crc16 (data : list Z) : Z :=
  fold_left crc16_byte data 0xFFFF.

Definition encodePacket (seq total flags : Z) (data : list Z) : list Z :=
  let checksum := crc16 data in
  map toUint8
      [ at_ MAGIC 0; at_ MAGIC 1;
        band (sar seq 8) 0xFF; band seq 0xFF;
        band (sar total 8) 0xFF; band total 0xFF;
        flags;
        band (sar checksum 8) 0xFF; band checksum 0xFF ]
  ++ map toUint8 data.

(** What [decodePacket] returns: [null], [{error: 'checksum', seq}] or
    [{seq, total, flags, data}]. *)
Inductive decoded : Type :=
| DecNull
| DecChecksum (seq : Z)
| DecPacket (seq total flags : Z) (data : list Z).

Definition decodePacket (str : list Z) : decoded :=
  if len str <? HEADER_SIZE then DecNull
  else
    let data := map toUint8 str in
    if negb (at_ data 0 =? at_ MAGIC 0) || negb (at_ data 1 =? at_ MAGIC 1)
    then DecNull
    else
      let seq := bor (shl (at_ data 2) 8) (at_ data 3) in
      let total := bor (shl (at_ data 4) 8) (at_ data 5) in
      let flags := at_ data 6 in
      let checksum := bor (shl (at_ data 7) 8) (at_ data 8) in
      let payload := skipn (Z.to_nat HEADER_SIZE) data in
      if negb (crc16 payload =? checksum) then DecChecksum seq
      else DecPacket seq total flags payload.

(** *** Sender *)

Record Sender : Type := mkSender {
  chunkSize : Z;
  sdata : list Z;
  spackets : list (list Z);
  currentIndex : Z;
  retransmitQueue : list Z
}.

(** One turn of the loop of [_createPackets]. *)
Definition createPacket (chunkSize : Z) (data : list Z) (totalChunks i : Z)
  : list Z :=
  let start := i * chunkSize in
  let end_ := Z.min (start + chunkSize) (len data) in
  let chunk := slice data start end_ in
  let flags := 0 in
  let flags := if i =? 0 then bor flags FLAG_FIRST else flags in
  let flags := if i =? totalChunks - 1 then bor flags FLAG_LAST else flags in
  encodePacket i totalChunks flags chunk.

Definition createPackets (chunkSize : Z) (data : list Z) : list (list Z) :=
  let totalChunks := ceilDiv (len data) chunkSize in
  forZ 0 totalChunks
       (fun i packets => packets ++ [createPacket chunkSize data totalChunks i])
       [].

(** [new Sender(data, options)]; [optChunk] is [options.chunkSize], absent
    or a number, and [x || DEFAULT_CHUNK_SIZE] replaces an absent or zero
    one. *)
Definition newSender (data : list Z) (optChunk : option Z) : Sender :=
  let cs := match optChunk with
            | Some c => if c =? 0 then DEFAULT_CHUNK_SIZE else c
            | None => DEFAULT_CHUNK_SIZE
            end in
  mkSender cs data (createPackets cs data) 0 [].

Definition totalPackets (s : Sender) : Z := len (spackets s).

(** [this.packets[seq]]: [None] is [undefined]. *)
Definition getPacket (s : Sender) (index : Z) : option (list Z) :=
  if index <? 0 then None else nth_error (spackets s) (Z.to_nat index).

Record nextPacket : Type := mkNext {
  np_packet : option (list Z);
  np_seq : Z;
  np_isRetransmit : bool
}.

(** [getNextPacket]: the result ([None] is [null]) and the sender after. *)
Definition getNextPacket (s : Sender) : option nextPacket * Sender :=
  match retransmitQueue s with
  | seq :: rest =>
      (Some (mkNext (getPacket s seq) seq true),
       mkSender (chunkSize s) (sdata s) (spackets s) (currentIndex s) rest)
  | [] =>
      if len (spackets s) <=? currentIndex s then (None, s)
      else
        let seq := currentIndex s in
        (Some (mkNext (getPacket s seq) seq false),
         mkSender (chunkSize s) (sdata s) (spackets s) (seq + 1) [])
  end.

Definition requestRetransmit (s : Sender) (sequences : list Z) : Sender :=
  mkSender (chunkSize s) (sdata s) (spackets s) (currentIndex s)
           (retransmitQueue s ++ sequences).

Definition resetSender (s : Sender) : Sender :=
  mkSender (chunkSize s) (sdata s) (spackets s) 0 [].

(** The calls a driver can make on a sender, and the packets that a
    sequence of calls hands out. *)
Inductive senderOp : Type :=
| OpNext
| OpRetransmit (sequences : list Z)
| OpReset.

Fixpoint runSender (s : Sender) (ops : list senderOp) : list nextPacket :=
  match ops with
  | [] => []
  | OpNext :: ops =>
      match getNextPacket s with
      | (Some np, s') => np :: runSender s' ops
      | (None, s') => runSender s' ops
      end
  | OpRetransmit sequences :: ops => runSender (requestRetransmit s sequences) ops
  | OpReset :: ops => runSender (resetSender s) ops
  end.

(** *** Receiver *)

(** The receiver's fields.  The two callbacks belong to the caller: the
    model keeps whether each is set and records every call. *)
Record Receiver : Type := mkReceiver {
  packets : gmap Z (list Z);
  rtotalPackets : option Z;
  checksumErrors : gset Z;
  onProgress : bool;
  onComplete : bool
}.

Definition newReceiver : Receiver := mkReceiver ∅ None ∅ false false.

Inductive event : Type :=
| EvProgress (received : Z) (total : Z) (missing : list Z)
| EvComplete (data : option (list Z)).

(** What [receive] returns. *)
Inductive verdict : Type :=
| Rejected (reason : string) (seq : option Z)
| Accepted (seq total : Z).

Definition psize (r : Receiver) : Z := Z.of_nat (size (packets r)).

Definition has (r : Receiver) (seq : Z) : bool :=
  bool_decide (is_Some (packets r !! seq)).

Definition getMissingSequences (r : Receiver) : list Z :=
  match rtotalPackets r with
  | None => []
  | Some total =>
      forZ 0 total
           (fun i missing => if has r i then missing else missing ++ [i]) []
  end.

Definition isComplete (r : Receiver) : bool :=
  match rtotalPackets r with
  | None => false
  | Some total => psize r =? total
  end.

(** [reassemble]: [Ok None] is [null]; reading [.length] of a missing
    chunk throws. *)
Definition reassemble (r : Receiver) : res (option (list Z)) :=
  if negb (isComplete r) then Ok None
  else
    match rtotalPackets r with
    | None => Ok None
    | Some total =>
        _ ← forR 0 total
               (fun i totalSize =>
                  match packets r !! i with
                  | Some chunk => Ok (totalSize + len chunk)
                  | None => Throw "TypeError"
                  end) 0;
        let result :=
          forZ 0 total
               (fun i acc =>
                  match packets r !! i with
                  | Some chunk => acc ++ chunk
                  | None => acc
                  end) [] in
        Ok (Some result)
    end.

(** [receive]: the receiver after the call, the callbacks invoked during
    it in order, and the value returned (or the exception). *)
Definition receive (r : Receiver) (qrData : list Z)
  : Receiver * list event * res verdict :=
  match decodePacket qrData with
  | DecNull => (r, [], Ok (Rejected "invalid" None))
  | DecChecksum seq =>
      (mkReceiver (packets r) (rtotalPackets r) ({[seq]} ∪ checksumErrors r)
                  (onProgress r) (onComplete r),
       [], Ok (Rejected "checksum" (Some seq)))
  | DecPacket seq total flags data =>
      let r1 :=
        if has r seq then r
        else mkReceiver (<[seq := data]> (packets r)) (rtotalPackets r)
                        (checksumErrors r ∖ {[seq]})
                        (onProgress r) (onComplete r) in
      let r2 :=
        match rtotalPackets r1 with
        | None => mkReceiver (packets r1) (Some total) (checksumErrors r1)
                             (onProgress r1) (onComplete r1)
        | Some _ => r1
        end in
      let ev1 :=
        if onProgress r2
        then [EvProgress (psize r2)
                         (match rtotalPackets r2 with Some t => t | None => 0 end)
                         (getMissingSequences r2)]
        else [] in
      if isComplete r2 && onComplete r2 then
        match reassemble r2 with
        | Ok d => (r2, ev1 ++ [EvComplete d], Ok (Accepted seq total))
        | Throw m => (r2, ev1, Throw m)
        | OffGrid => (r2, ev1, OffGrid)
        end
      else (r2, ev1, Ok (Accepted seq total))
  end.

Definition resetReceiver (r : Receiver) : Receiver :=
  mkReceiver ∅ None ∅ (onProgress r) (onComplete r).

(** Feeding a sequence of frames to one receiver (no reset in between):
    the callbacks of all calls, in order.  A call that throws ends the
    run, as the exception reaches the caller. *)
Fixpoint feed (r : Receiver) (frames : list (list Z)) : Receiver * list event :=
  match frames with
  | [] => (r, [])
  | f :: rest =>
      match receive r f with
      | (r', evs, Ok _) =>
          let '(r'', evs') := feed r' rest in (r'', evs ++ evs')
      | (r', evs, _) => (r', evs)
      end
  end.

Definition isCompleteEv (e : event) : bool :=
  match e with EvComplete _ => true | EvProgress _ _ _ => false end.

Definition completions (evs : list event) : nat :=
  length (filter isCompleteEv evs).

Definition isAccepted (v : res verdict) : bool :=
  match v with Ok (Accepted _ _) => true | _ => false end.

End QRStream.

(** ** qr-encoder.js *)

Module QREncoder.
Import JS.

(** *** Galois field tables *)

(** [a[i] = v] on an array whose index [i] is inside it. *)
Definition put (l : list Z) (i v : Z) : list Z := <[Z.to_nat i := v]> l.

(** [initGF]: [new Array(n)] is a list of [n] cells, a cell never written
    holding 0. *)
Definition initGF : list Z * list Z :=
  let '(_, exp, log) :=
    forZ 0 255
         (fun i '(x, exp, log) =>
            let exp := put exp i x in
            let log := put log x i in
            let x := shl x 1 in
            let x := if band x 0x100 =? 0 then x else bxor x 0x11d in
            (x, exp, log))
         (1, repeat 0 512%nat, repeat 0 256%nat) in
  let exp := forZ 255 512 (fun i exp => put exp i (at_ exp (i - 255))) exp in
  (exp, log).

Definition GF_EXP : list Z := Eval vm_compute in fst initGF.
Definition GF_LOG : list Z := Eval vm_compute in snd initGF.

Definition gfMul (x y : Z) : Z :=
  if (x =? 0) || (y =? 0) then 0
  else at_ GF_EXP (at_ GF_LOG x + at_ GF_LOG y).

Definition gfPow (x power : Z) : Z :=
  at_ GF_EXP (Z.rem (at_ GF_LOG x * power) 255).

Definition gfPolyMul (p q : list Z) : list Z :=
  let result := repeat 0 (Z.to_nat (len p + len q - 1)) in
  forZ 0 (len p)
       (fun i result =>
          forZ 0 (len q)
               (fun j result =>
                  put result (i + j)
                      (bxor (at_ result (i + j)) (gfMul (at_ p i) (at_ q j))))
               result)
       result.

Definition rsGeneratorPoly (nsym : Z) : list Z :=
  forZ 0 nsym (fun i g => gfPolyMul g [1; gfPow 2 i]) [1].

Definition rsEncode (data : list Z) (nsym : Z) : list Z :=
  let gen := rsGeneratorPoly nsym in
  let res := repeat 0 (Z.to_nat (len data + nsym)) in
  let res := forZ 0 (len data) (fun i res => put res i (at_ data i)) res in
  let res :=
    forZ 0 (len data)
         (fun i res =>
            let coef := at_ res i in
            if coef =? 0 then res
            else
              forZ 0 (len gen)
                   (fun j res =>
                      put res (i + j)
                          (bxor (at_ res (i + j)) (gfMul (at_ gen j) coef)))
                   res)
         res in
  skipn (Z.to_nat (len data)) res.

(** *** ISO tables *)

Inductive ecLevel : Type := L | M | Q | H.

Definition TOTAL_CODEWORDS : list Z :=
  [
    26; 44; 70; 100; 134; 172; 196; 242; 292; 346;
    404; 466; 532; 581; 655; 733; 815; 901; 991; 1085;
    1156; 1258; 1364; 1474; 1588; 1706; 1828; 1921; 2051; 2185;
    2323; 2465; 2611; 2761; 2876; 3034; 3196; 3362; 3532; 3706
  ].

Definition EC_BLOCKS_L : list (Z * Z * Z * Z * Z) :=
  [
    (7, 1, 19, 0, 0); (10, 1, 34, 0, 0); (15, 1, 55, 0, 0); (20, 1, 80, 0, 0);
    (26, 1, 108, 0, 0); (18, 2, 68, 0, 0); (20, 2, 78, 0, 0); (24, 2, 97, 0, 0);
    (30, 2, 116, 0, 0); (18, 2, 68, 2, 69); (20, 4, 81, 0, 0); (24, 2, 92, 2, 93);
    (26, 4, 107, 0, 0); (30, 3, 115, 1, 116); (22, 5, 87, 1, 88); (24, 5, 98, 1, 99);
    (28, 1, 107, 5, 108); (30, 5, 120, 1, 121); (28, 3, 113, 4, 114); (28, 3, 107, 5, 108);
    (28, 4, 116, 4, 117); (28, 2, 111, 7, 112); (30, 4, 121, 5, 122); (30, 6, 117, 4, 118);
    (26, 8, 106, 4, 107); (28, 10, 114, 2, 115); (30, 8, 122, 4, 123); (30, 3, 117, 10, 118);
    (30, 7, 116, 7, 117); (30, 5, 115, 10, 116); (30, 13, 115, 3, 116); (30, 17, 115, 0, 0);
    (30, 17, 115, 1, 116); (30, 13, 115, 6, 116); (30, 12, 121, 7, 122); (30, 6, 121, 14, 122);
    (30, 17, 122, 4, 123); (30, 4, 122, 18, 123); (30, 20, 117, 4, 118); (30, 19, 118, 6, 119)
  ].

Definition EC_BLOCKS_M : list (Z * Z * Z * Z * Z) :=
  [
    (10, 1, 16, 0, 0); (16, 1, 28, 0, 0); (26, 1, 44, 0, 0); (18, 2, 32, 0, 0);
    (24, 2, 43, 0, 0); (16, 4, 27, 0, 0); (18, 4, 31, 0, 0); (22, 2, 38, 2, 39);
    (22, 3, 36, 2, 37); (26, 4, 43, 1, 44); (30, 1, 50, 4, 51); (22, 6, 36, 2, 37);
    (22, 8, 37, 1, 38); (24, 4, 40, 5, 41); (24, 5, 41, 5, 42); (28, 7, 45, 3, 46);
    (28, 10, 46, 1, 47); (26, 9, 43, 4, 44); (26, 3, 44, 11, 45); (26, 3, 41, 13, 42);
    (26, 17, 42, 0, 0); (28, 17, 46, 0, 0); (28, 4, 47, 14, 48); (28, 6, 45, 14, 46);
    (28, 8, 47, 13, 48); (28, 19, 46, 4, 47); (28, 22, 45, 3, 46); (28, 3, 45, 23, 46);
    (28, 21, 45, 7, 46); (28, 19, 47, 10, 48); (28, 2, 46, 29, 47); (28, 10, 46, 23, 47);
    (28, 14, 46, 21, 47); (28, 14, 46, 23, 47); (28, 12, 47, 26, 48); (28, 6, 47, 34, 48);
    (28, 29, 46, 14, 47); (28, 13, 46, 32, 47); (28, 40, 47, 7, 48); (28, 18, 47, 31, 48)
  ].

Definition EC_BLOCKS_Q : list (Z * Z * Z * Z * Z) :=
  [
    (13, 1, 13, 0, 0); (22, 1, 22, 0, 0); (18, 2, 17, 0, 0); (26, 2, 24, 0, 0);
    (18, 2, 15, 2, 16); (24, 4, 19, 0, 0); (18, 2, 14, 4, 15); (22, 4, 18, 2, 19);
    (20, 4, 16, 4, 17); (24, 6, 19, 2, 20); (28, 4, 22, 4, 23); (26, 4, 20, 6, 21);
    (24, 8, 20, 4, 21); (20, 11, 16, 5, 17); (30, 5, 24, 7, 25); (24, 15, 19, 2, 20);
    (28, 1, 22, 15, 23); (28, 17, 22, 1, 23); (26, 17, 21, 4, 22); (30, 15, 24, 5, 25);
    (28, 17, 22, 6, 23); (30, 7, 24, 16, 25); (30, 11, 24, 14, 25); (30, 11, 24, 16, 25);
    (30, 7, 24, 22, 25); (28, 28, 22, 6, 23); (30, 8, 23, 26, 24); (30, 4, 24, 31, 25);
    (30, 1, 23, 37, 24); (30, 15, 24, 25, 25); (30, 42, 24, 1, 25); (30, 10, 24, 35, 25);
    (30, 29, 24, 19, 25); (30, 44, 24, 7, 25); (30, 39, 24, 14, 25); (30, 46, 24, 10, 25);
    (30, 49, 24, 10, 25); (30, 48, 24, 14, 25); (30, 43, 24, 22, 25); (30, 34, 24, 34, 25)
  ].

Definition EC_BLOCKS_H : list (Z * Z * Z * Z * Z) :=
  [
    (17, 1, 9, 0, 0); (28, 1, 16, 0, 0); (22, 2, 13, 0, 0); (16, 4, 9, 0, 0);
    (22, 2, 11, 2, 12); (28, 4, 15, 0, 0); (26, 4, 13, 1, 14); (26, 4, 14, 2, 15);
    (24, 4, 12, 4, 13); (28, 6, 15, 2, 16); (24, 3, 12, 8, 13); (28, 7, 14, 4, 15);
    (22, 12, 11, 4, 12); (24, 11, 12, 5, 13); (24, 11, 12, 7, 13); (30, 3, 15, 13, 16);
    (28, 2, 14, 17, 15); (28, 2, 14, 19, 15); (26, 9, 13, 16, 14); (28, 15, 15, 10, 16);
    (30, 19, 16, 6, 17); (24, 34, 13, 0, 0); (30, 16, 15, 14, 16); (30, 30, 16, 2, 17);
    (30, 22, 15, 13, 16); (30, 33, 16, 4, 17); (30, 12, 15, 28, 16); (30, 11, 15, 31, 16);
    (30, 19, 15, 26, 16); (30, 23, 15, 25, 16); (30, 23, 15, 28, 16); (30, 19, 15, 35, 16);
    (30, 11, 15, 46, 16); (30, 59, 16, 1, 17); (30, 22, 15, 41, 16); (30, 2, 15, 64, 16);
    (30, 24, 15, 46, 16); (30, 42, 15, 32, 16); (30, 10, 15, 67, 16); (30, 20, 15, 61, 16)
  ].

Definition ALIGNMENT_POSITIONS : list (list Z) :=
  [
    [];
    [6; 18];
    [6; 22];
    [6; 26];
    [6; 30];
    [6; 34];
    [6; 22; 38];
    [6; 24; 42];
    [6; 26; 46];
    [6; 28; 50];
    [6; 30; 54];
    [6; 32; 58];
    [6; 34; 62];
    [6; 26; 46; 66];
    [6; 26; 48; 70];
    [6; 26; 50; 74];
    [6; 30; 54; 78];
    [6; 30; 56; 82];
    [6; 30; 58; 86];
    [6; 34; 62; 90];
    [6; 28; 50; 72; 94];
    [6; 26; 50; 74; 98];
    [6; 30; 54; 78; 102];
    [6; 28; 54; 80; 106];
    [6; 32; 58; 84; 110];
    [6; 30; 58; 86; 114];
    [6; 34; 62; 90; 118];
    [6; 26; 50; 74; 98; 122];
    [6; 30; 54; 78; 102; 126];
    [6; 26; 52; 78; 104; 130];
    [6; 30; 56; 82; 108; 134];
    [6; 34; 60; 86; 112; 138];
    [6; 30; 58; 86; 114; 142];
    [6; 34; 62; 90; 118; 146];
    [6; 30; 54; 78; 102; 126; 150];
    [6; 24; 50; 76; 102; 128; 154];
    [6; 28; 54; 80; 106; 132; 158];
    [6; 32; 58; 84; 110; 136; 162];
    [6; 26; 54; 82; 110; 138; 166];
    [6; 30; 58; 86; 114; 142; 170]
  ].

Definition VERSION_INFO : list Z :=
  [
    0x07c94; 0x085bc; 0x09a99; 0x0a4d3; 0x0bbf6; 0x0c762; 0x0d847; 0x0e60d;
    0x0f928; 0x10b78; 0x1145d; 0x12a17; 0x13532; 0x149a6; 0x15683; 0x168c9;
    0x177ec; 0x18ec4; 0x191e1; 0x1afab; 0x1b08e; 0x1cc1a; 0x1d33f; 0x1ed75;
    0x1f250; 0x209d5; 0x216f0; 0x228ba; 0x2379f; 0x24b0b; 0x2542e; 0x26a64;
    0x27541; 0x28c69
  ].

Definition FORMAT_INFO_L : list Z :=
  [0x77c4; 0x72f3; 0x7daa; 0x789d; 0x662f; 0x6318; 0x6c41; 0x6976].

Definition FORMAT_INFO_M : list Z :=
  [0x5412; 0x5125; 0x5e7c; 0x5b4b; 0x45f9; 0x40ce; 0x4f97; 0x4aa0].

Definition FORMAT_INFO_Q : list Z :=
  [0x355f; 0x3068; 0x3f31; 0x3a06; 0x24b4; 0x2183; 0x2eda; 0x2bed].

Definition FORMAT_INFO_H : list Z :=
  [0x1689; 0x13be; 0x1ce7; 0x19d0; 0x0762; 0x0255; 0x0d0c; 0x083b].

Definition EC_BLOCKS (ec : ecLevel) : list (Z * Z * Z * Z * Z) :=
  match ec with
  | L => EC_BLOCKS_L | M => EC_BLOCKS_M | Q => EC_BLOCKS_Q | H => EC_BLOCKS_H
  end.

Definition FORMAT_INFO (ec : ecLevel) : list Z :=
  match ec with
  | L => FORMAT_INFO_L | M => FORMAT_INFO_M
  | Q => FORMAT_INFO_Q | H => FORMAT_INFO_H
  end.

(** [EC_BLOCKS[ecLevel][version - 1]] for a version in 1..40. *)
Definition ecBlocksOf (version : Z) (ec : ecLevel) : Z * Z * Z * Z * Z :=
  nth (Z.to_nat (version - 1)) (EC_BLOCKS ec) (0, 0, 0, 0, 0).

Definition getDataCapacity (version : Z) (ec : ecLevel) : Z :=
  let '(ecPerBlock, blocks1, data1, blocks2, data2) := ecBlocksOf version ec in
  blocks1 * data1 + blocks2 * data2.

(** *** Version selection and the data codewords *)

(** The test of the loop of [getVersion] at version [v]. *)
Definition fits (len : Z) (ec : ecLevel) (v : Z) : bool :=
  let capacity := getDataCapacity v ec in
  let countBits := if v <? 10 then 8 else 16 in
  let headerBits := 4 + countBits in
  let available := capacity * 8 - headerBits - 4 in
  len * 8 <=? available.

(** [getVersion]: the first [v] of 1..40 that passes the test, an
    exception when the loop ends without one. *)
Definition getVersion (data : list Z) (ec : ecLevel) : res Z :=
  match find (fits (len data) ec) (range 1 41) with
  | Some v => Ok v
  | None => Throw "Data too long for QR code (max ~2953 bytes)"
  end.

(** [while (cond) body], run for at most [fuel] turns. *)
Fixpoint while {S} (fuel : nat) (cond : S -> bool) (body : S -> S) (s : S) : S :=
  match fuel with
  | O => s
  | Datatypes.S f => if cond s then while f cond body (body s) else s
  end.

(** [for (let j = n - 1; j >= 0; j--) bits.push((value >> j) & 1)]. *)
Definition pushBits (value n : Z) (bits : list Z) : list Z :=
  forDown (n - 1) 0 (fun j bits => bits ++ [band (sar value j) 1]) bits.

(** [while (bits.length % 8 !== 0) bits.push(0)]: at most seven turns reach
    a byte boundary ([padToByte_exits]). *)
Definition padToByte (bits : list Z) : list Z :=
  while 8 (fun bits => negb (Z.rem (len bits) 8 =? 0))
        (fun bits => bits ++ [0]) bits.

(** [while (bits.length < capacity * 8) { ...push a pad byte...; padIndex++ }]:
    every turn adds eight bits, so [capacity] turns are enough
    ([padBytes_exits]). *)
Definition padBytes (capacity : Z) (bits : list Z) : list Z :=
  fst (while (Z.to_nat capacity)
             (fun '(bits, padIndex) => len bits <? capacity * 8)
             (fun '(bits, padIndex) =>
                let pad := at_ [0xec; 0x11] (Z.rem padIndex 2) in
                (pushBits pad 8 bits, padIndex + 1))
             (bits, 0)).

Definition encodeData (data : list Z) (version : Z) (ec : ecLevel) : list Z :=
  let capacity := getDataCapacity version ec in
  let bits := [0; 1; 0; 0] in
  let countBits := if version <? 10 then 8 else 16 in
  let bits := pushBits (len data) countBits bits in
  let bits :=
    forZ 0 (len data)
         (fun i bits => let byte := band (at_ data i) 0xFF in pushBits byte 8 bits)
         bits in
  let remaining := capacity * 8 - len bits in
  let bits := forZ 0 (Z.min 4 remaining) (fun _ bits => bits ++ [0]) bits in
  let bits := padToByte bits in
  let bits := padBytes capacity bits in
  forZ 0 ((len bits + 7) / 8)
       (fun k bytes =>
          let i := 8 * k in
          let byte :=
            forZ 0 8 (fun j byte => bor (shl byte 1) (at_ bits (i + j))) 0 in
          bytes ++ [byte])
       [].

Definition addErrorCorrection (dataBytes : list Z) (version : Z) (ec : ecLevel)
  : list Z :=
  let '(ecPerBlock, blocks1, data1, blocks2, data2) := ecBlocksOf version ec in
  let step (dataN : Z) :=
    fun (_ : Z) '(dataBlocks, ecBlocks, dataIndex) =>
      let block := slice dataBytes dataIndex (dataIndex + dataN) in
      (dataBlocks ++ [block], ecBlocks ++ [rsEncode block ecPerBlock],
       dataIndex + dataN) in
  let st := forZ 0 blocks1 (step data1) ([], [], 0) in
  let '(dataBlocks, ecBlocks, _) := forZ 0 blocks2 (step data2) st in
  let maxDataLen := Z.max data1 data2 in
  let result :=
    forZ 0 maxDataLen
         (fun i result =>
            fold_left (fun result block =>
                         if i <? len block then result ++ [at_ block i]
                         else result)
                      dataBlocks result)
         [] in
  forZ 0 ecPerBlock
       (fun i result =>
          fold_left (fun result block => result ++ [at_ block i])
                    ecBlocks result)
       result.

(** *** The module matrix *)

(** The two parallel grids of the encoder. *)
Record grid : Type := mkGrid {
  matrix : list (list Z);
  reserved : list (list bool)
}.

(** [m[r][c]], [None] outside the grid. *)
Definition cell {A} (m : list (list A)) (r c : Z) : option A :=
  if (r <? 0) || (c <? 0) then None
  else row ← m !! Z.to_nat r; row !! Z.to_nat c.

(** [m[r][c] = v].  Outside the grid JS either throws (no such row) or
    grows the row; the model stops with [OffGrid] there, and
    [buildSymbol_on_grid] shows that the encoder never gets there. *)
Definition setCell {A} (m : list (list A)) (r c : Z) (v : A)
  : res (list (list A)) :=
  if (r <? 0) || (c <? 0) then OffGrid
  else
    match m !! Z.to_nat r with
    | None => OffGrid
    | Some row =>
        if (Z.to_nat c <? length row)%nat
        then Ok (<[Z.to_nat r := <[Z.to_nat c := v]> row]> m)
        else OffGrid
    end.

(** [matrix[r][c] = val; reserved[r][c] = true]. *)
Definition setFunction (g : grid) (r c val : Z) : res grid :=
  m ← setCell (matrix g) r c val;
  rs ← setCell (reserved g) r c true;
  Ok (mkGrid m rs).

(** [matrix[r][c] = val]. *)
Definition setModule (g : grid) (r c val : Z) : res grid :=
  m ← setCell (matrix g) r c val;
  Ok (mkGrid m (reserved g)).

(** [reserved[r][c] = true]. *)
Definition setReserved (g : grid) (r c : Z) : res grid :=
  rs ← setCell (reserved g) r c true;
  Ok (mkGrid (matrix g) rs).

(** [reserved[r][c]]. *)
Definition isReserved (g : grid) (r c : Z) : res bool :=
  match cell (reserved g) r c with
  | Some b => Ok b
  | None => OffGrid
  end.

Definition sizeOf (version : Z) : Z := version * 4 + 17.

Definition createMatrix (version : Z) : grid * Z :=
  let size := sizeOf version in
  (mkGrid (repeat (repeat 0 (Z.to_nat size)) (Z.to_nat size))
          (repeat (repeat false (Z.to_nat size)) (Z.to_nat size)),
   size).

Definition addFinderPattern (g : grid) (row col : Z) : res grid :=
  forR (-1) 8
    (fun r g =>
       forR (-1) 8
         (fun c g =>
            let nr := row + r in
            let nc := col + c in
            if (nr <? 0) || (len (matrix g) <=? nr)
               || (nc <? 0) || (len (matrix g) <=? nc)
            then Ok g
            else
              let val :=
                if (0 <=? r) && (r <=? 6) && (0 <=? c) && (c <=? 6)
                then
                  if (r =? 0) || (r =? 6) || (c =? 0) || (c =? 6)
                     || ((2 <=? r) && (r <=? 4) && (2 <=? c) && (c <=? 4))
                  then 1 else 0
                else 0 in
              setFunction g nr nc val)
         g)
    g.

(** The first pair of loops of [addAlignmentPattern]: is some module of
    the 5x5 square that lies inside the grid already reserved? *)
Definition alignmentBlocked (g : grid) (row col : Z) : bool :=
  existsb
    (fun r =>
       existsb
         (fun c =>
            let nr := row + r in
            let nc := col + c in
            if (nr <? 0) || (len (matrix g) <=? nr)
               || (nc <? 0) || (len (matrix g) <=? nc)
            then false
            else match cell (reserved g) nr nc with
                 | Some b => b
                 | None => false
                 end)
         (range (-2) 3))
    (range (-2) 3).

Definition addAlignmentPattern (g : grid) (row col : Z) : res grid :=
  if alignmentBlocked g row col then Ok g
  else
    forR (-2) 3
      (fun r g =>
         forR (-2) 3
           (fun c g =>
              let nr := row + r in
              let nc := col + c in
              let val :=
                if (Z.abs r =? 2) || (Z.abs c =? 2) || ((r =? 0) && (c =? 0))
                then 1 else 0 in
              setFunction g nr nc val)
           g)
      g.

Definition addTimingPatterns (g : grid) (size : Z) : res grid :=
  forR 8 (size - 8)
    (fun i g =>
       let val := Z.rem (i + 1) 2 in
       g ← setModule g 6 i val;
       g ← setModule g i 6 val;
       g ← setReserved g 6 i;
       setReserved g i 6)
    g.

Definition addVersionInfo (g : grid) (size version : Z) : res grid :=
  if version <? 7 then Ok g
  else
    let info := at_ VERSION_INFO (version - 7) in
    (* bottom-left *)
    g ← forR 0 6
          (fun i g =>
             forR 0 3
               (fun j g =>
                  let bit := band (sar info (i * 3 + j)) 1 in
                  setFunction g (size - 11 + j) i bit)
               g)
          g;
    (* top-right *)
    forR 0 6
      (fun i g =>
         forR 0 3
           (fun j g =>
              let bit := band (sar info (i * 3 + j)) 1 in
              setFunction g i (size - 11 + j) bit)
           g)
      g.

Definition addFormatInfo (g : grid) (size : Z) (ec : ecLevel) (mask : Z)
  : res grid :=
  let info := at_ (FORMAT_INFO ec) mask in
  (* around the top-left finder *)
  g ← forR 0 6 (fun i g => setFunction g 8 i (band (sar info (14 - i)) 1)) g;
  g ← setFunction g 8 7 (band (sar info 8) 1);
  g ← setFunction g 8 8 (band (sar info 7) 1);
  g ← setFunction g 7 8 (band (sar info 6) 1);
  g ← forR 0 6
        (fun i g => setFunction g (5 - i) 8 (band (sar info (5 - i)) 1)) g;
  (* around the top-right and bottom-left finders *)
  g ← forR 0 8
        (fun i g => setFunction g 8 (size - 1 - i) (band (sar info i) 1)) g;
  g ← forR 0 7
        (fun i g =>
           setFunction g (size - 1 - i) 8 (band (sar info (14 - i)) 1)) g;
  (* dark module *)
  setFunction g (size - 8) 8 1.

(** The state of the loops of [placeData]. *)
Record placing : Type := mkPlacing {
  pgrid : grid;
  bitIndex : Z;
  upward : bool
}.

(** One strip of two columns, [col] being the right-hand one. *)
Definition placeStrip (bits : list Z) (size col : Z) (p : placing) : res placing :=
  p ← forR 0 size
        (fun row p =>
           let actualRow := if upward p then size - 1 - row else row in
           forR 0 2
             (fun c p =>
                let actualCol := col - c in
                b ← isReserved (pgrid p) actualRow actualCol;
                if (b : bool) then Ok p
                else if bitIndex p <? len bits
                     then
                       g ← setModule (pgrid p) actualRow actualCol
                                     (at_ bits (bitIndex p));
                       Ok (mkPlacing g (bitIndex p + 1) (upward p))
                     else
                       g ← setModule (pgrid p) actualRow actualCol 0;
                       Ok (mkPlacing g (bitIndex p) (upward p)))
             p)
        p;
  Ok (mkPlacing (pgrid p) (bitIndex p) (negb (upward p))).

(** [for (let col = ...; col >= 0; col -= 2) { if (col === 6) col = 5; ... }],
    run for at most [fuel] turns; running out of them is reported as a
    throw, which [placeColumns_onGrid] rules out. *)
Fixpoint placeColumns (fuel : nat) (bits : list Z) (size col : Z) (p : placing)
  : res placing :=
  if col <? 0 then Ok p
  else
    match fuel with
    | O => Throw "fuel"
    | Datatypes.S fuel =>
        let col := if col =? 6 then 5 else col in
        p ← placeStrip bits size col p;
        placeColumns fuel bits size (col - 2) p
    end.

Definition placeData (g : grid) (size : Z) (data : list Z) : res grid :=
  let bits := fold_left (fun bits byte => pushBits byte 8 bits) data [] in
  p ← placeColumns (Z.to_nat size) bits size (size - 1) (mkPlacing g 0 true);
  Ok (pgrid p).

(** [maskFunctions[mask](r, c)] for a mask index in 0..7. *)
Definition maskFunction (mask r c : Z) : bool :=
  match mask with
  | 0 => Z.rem (r + c) 2 =? 0
  | 1 => Z.rem r 2 =? 0
  | 2 => Z.rem c 3 =? 0
  | 3 => Z.rem (r + c) 3 =? 0
  | 4 => Z.rem (r / 2 + c / 3) 2 =? 0
  | 5 => Z.rem (r * c) 2 + Z.rem (r * c) 3 =? 0
  | 6 => Z.rem (Z.rem (r * c) 2 + Z.rem (r * c) 3) 2 =? 0
  | _ => Z.rem (Z.rem (r + c) 2 + Z.rem (r * c) 3) 2 =? 0
  end.

Definition applyMask (g : grid) (size mask : Z) : res grid :=
  forR 0 size
    (fun r g =>
       forR 0 size
         (fun c g =>
            b ← isReserved g r c;
            if negb (b : bool) && maskFunction mask r c
            then
              match cell (matrix g) r c with
              | Some v => setModule g r c (bxor v 1)
              | None => OffGrid
              end
            else Ok g)
         g)
    g.

(** [matrix[r][c]] inside the grid. *)
Definition mget (m : list (list Z)) (r c : Z) : Z :=
  at_ (nth (Z.to_nat r) m []) c.

(** A line of rule 1: [get i] is its [i]-th module. *)
Definition runPenalty (size : Z) (get : Z -> Z) (penalty : Z) : Z :=
  let '(penalty, count) :=
    forZ 1 size
         (fun i '(penalty, count) =>
            if get i =? get (i - 1) then (penalty, count + 1)
            else ((if 5 <=? count then penalty + (count - 2) else penalty), 1))
         (penalty, 1) in
  if 5 <=? count then penalty + (count - 2) else penalty.

Definition scorePenalty (m : list (list Z)) (size : Z) : Z :=
  let penalty := 0 in
  (* rule 1: rows, then columns *)
  let penalty :=
    forZ 0 size (fun r penalty => runPenalty size (fun c => mget m r c) penalty)
         penalty in
  let penalty :=
    forZ 0 size (fun c penalty => runPenalty size (fun r => mget m r c) penalty)
         penalty in
  (* rule 2: 2x2 blocks *)
  forZ 0 (size - 1)
       (fun r penalty =>
          forZ 0 (size - 1)
               (fun c penalty =>
                  let val := mget m r c in
                  if (val =? mget m r (c + 1)) && (val =? mget m (r + 1) c)
                     && (val =? mget m (r + 1) (c + 1))
                  then penalty + 3 else penalty)
               penalty)
       penalty.

(** The body of the loop of [generate] up to the masked matrix. *)
Definition buildSymbol (version : Z) (ec : ecLevel) (finalData : list Z)
           (mask : Z) : res (list (list Z) * Z) :=
  let '(g, size) := createMatrix version in
  g ← addFinderPattern g 0 0;
  g ← addFinderPattern g 0 (size - 7);
  g ← addFinderPattern g (size - 7) 0;
  g ← (if 2 <=? version
       then
         let positions := nth (Z.to_nat (version - 1)) ALIGNMENT_POSITIONS [] in
         fold_left
           (fun acc r =>
              fold_left (fun acc c => g ← acc; addAlignmentPattern g r c)
                        positions acc)
           positions (Ok g)
       else Ok g);
  g ← addTimingPatterns g size;
  g ← addVersionInfo g size version;
  g ← addFormatInfo g size ec mask;
  g ← placeData g size finalData;
  g ← applyMask g size mask;
  Ok (matrix g, size).

(** [bestMatrix] and [bestPenalty]; [None] is [null], respectively
    [Infinity]. *)
Definition best : Type := option (list (list Z)) * option Z.

Definition selectStep (version : Z) (ec : ecLevel) (finalData : list Z)
           (mask : Z) (b : best) : res best :=
  ms ← buildSymbol version ec finalData mask;
  let '(m, size) := ms in
  let penalty := scorePenalty m size in
  let better := match snd b with
                | None => true
                | Some bestPenalty => penalty <? bestPenalty
                end in
  if better then Ok (Some m, Some penalty) else Ok b.

(** A JS value of the record that [generate] returns. *)
Inductive jsval : Type :=
| VNum (n : Z)
| VMatrix (m : list (list Z)).

Definition generate (text : list Z) (ec : ecLevel) : res (gmap string jsval) :=
  version ← getVersion text ec;
  let dataBytes := encodeData text version ec in
  let finalData := addErrorCorrection dataBytes version ec in
  b ← forR 0 8 (selectStep version ec finalData) (None, None);
  match fst b with
  | None => Throw "TypeError"
  | Some bestMatrix =>
      Ok (<["matrix" := VMatrix bestMatrix]>
            (<["size" := VNum (len bestMatrix)]> ∅))
  end.

Definition getMaxCapacity (ec : ecLevel) : Z := getDataCapacity 40 ec.

End QREncoder.

(** ** The design document's own definitions

    What follows is written from the words of the design document, to be
    compared with the code above: the BCH(15,5) format word, the four
    penalty rules and the mask they select. *)

Module Design.
Import JS QREncoder.

(** EC level codes of the format word: L:01, M:00, Q:11, H:10. *)
Definition ec_code (ec : ecLevel) : Z :=
  match ec with L => 1 | M => 0 | Q => 3 | H => 2 end.

(** Remainder of [d * x^10] by the generator 0x537 over GF(2): the
    generator is subtracted at every set bit from 14 down to 10. *)
Definition bch_remainder (d : Z) : Z :=
  forDown 14 10
          (fun i r => if Z.testbit r i
                      then Z.lxor r (Z.shiftl 0x537 (i - 10)) else r)
          (Z.shiftl d 10).

(** BCH(15,5): the five data bits followed by the ten check bits. *)
Definition bch15_5 (d : Z) : Z := Z.lor (Z.shiftl d 10) (bch_remainder d).

(** The format word of [(ec, m)] XORed with [xor_mask]. *)
Definition format_word (xor_mask : Z) (ec : ecLevel) (m : Z) : Z :=
  Z.lxor (bch15_5 (Z.lor (Z.shiftl (ec_code ec) 3) m)) xor_mask.

Definition sumZ (l : list Z) : Z := fold_right Z.add 0 l.

Definition columns (m : list (list Z)) (size : Z) : list (list Z) :=
  map (fun c => map (fun row => at_ row c) m) (range 0 size).

(** Lengths of the maximal runs of equal modules of a line. *)
Fixpoint runs_from (prev count : Z) (l : list Z) : list Z :=
  match l with
  | [] => [count]
  | x :: rest => if x =? prev then runs_from prev (count + 1) rest
                 else count :: runs_from x 1 rest
  end.

Definition runs (l : list Z) : list Z :=
  match l with
  | [] => []
  | x :: rest => runs_from x 1 rest
  end.

(** P1: every run of at least 5 modules of a row or column adds
    [run_length - 2]. *)
Definition line_p1 (l : list Z) : Z :=
  sumZ (map (fun n => if 5 <=? n then n - 2 else 0) (runs l)).

Definition p1 (m : list (list Z)) (size : Z) : Z :=
  sumZ (map line_p1 m) + sumZ (map line_p1 (columns m size)).

(** P2: every 2x2 block of one colour adds 3. *)
Definition p2 (m : list (list Z)) (size : Z) : Z :=
  sumZ (map (fun r =>
               sumZ (map (fun c =>
                            let v := mget m r c in
                            if (v =? mget m r (c + 1)) && (v =? mget m (r + 1) c)
                               && (v =? mget m (r + 1) (c + 1))
                            then 3 else 0)
                         (range 0 (size - 1))))
            (range 0 (size - 1))).

(** P3: every 1:1:3:1:1 pattern (dark, light, three dark, light, dark)
    with four light modules before or after it, in a row or a column,
    adds 40. *)
Definition finder_like_after : list Z := [1; 0; 1; 1; 1; 0; 1; 0; 0; 0; 0].
Definition finder_like_before : list Z := [0; 0; 0; 0; 1; 0; 1; 1; 1; 0; 1].

Fixpoint count_finder_like (l : list Z) : Z :=
  match l with
  | [] => 0
  | _ :: rest =>
      (if bool_decide (firstn 11 l = finder_like_after)
          || bool_decide (firstn 11 l = finder_like_before)
       then 1 else 0)
      + count_finder_like rest
  end.

Definition p3 (m : list (list Z)) (size : Z) : Z :=
  40 * (sumZ (map count_finder_like m)
        + sumZ (map count_finder_like (columns m size))).

(** P4: [10 * floor(|percent_dark - 50| / 5)], the percentage being
    [100 * dark / total] as an exact fraction. *)
Definition p4 (m : list (list Z)) (size : Z) : Z :=
  let dark :=
    sumZ (map (fun row => sumZ (map (fun v => if v =? 0 then 0 else 1) row)) m) in
  let total := size * size in
  10 * (Z.abs (100 * dark - 50 * total) / (5 * total)).

Definition penalty (m : list (list Z)) (size : Z) : Z :=
  p1 m size + p2 m size + p3 m size + p4 m size.

(** The lowest index of [lo ..] at which [scores] is least. *)
Fixpoint argmin_from (lo : Z) (scores : list Z) : option (Z * Z) :=
  match scores with
  | [] => None
  | x :: rest =>
      match argmin_from (lo + 1) rest with
      | Some (i, y) => if y <? x then Some (i, y) else Some (lo, x)
      | None => Some (lo, x)
      end
  end.

(** Width of the character count of byte mode. *)
Definition count_bits (v : Z) : Z := if v <=? 9 then 8 else 16.

(** The payload of [len] bytes fits version [v]. *)
Definition admits (len : Z) (ec : ecLevel) (v : Z) : Prop :=
  4 + count_bits v + 8 * len + 4 <= 8 * getDataCapacity v ec.

(** The mask that the design document selects for the symbol of
    [finalData]: the lowest of 0..7 with least [penalty]. *)
Definition selected_mask (version : Z) (ec : ecLevel) (finalData : list Z)
  : option Z :=
  let scores :=
    map (fun mask => match buildSymbol version ec finalData mask with
                     | Ok (m, size) => penalty m size
                     | _ => 0
                     end)
        (range 0 8) in
  fst <$> argmin_from 0 scores.

(** The matrix of the symbol that the design document selects. *)
Definition design_matrix (text : list Z) (ec : ecLevel)
  : option (list (list Z)) :=
  match getVersion text ec with
  | Ok version =>
      let finalData :=
        addErrorCorrection (encodeData text version ec) version ec in
      match selected_mask version ec finalData with
      | Some mask =>
          match buildSymbol version ec finalData mask with
          | Ok (m, _) => Some m
          | _ => None
          end
      | None => None
      end
  | _ => None
  end.

(** The [matrix] field of the record that [generate] returns. *)
Definition generated_matrix (text : list Z) (ec : ecLevel)
  : option (list (list Z)) :=
  match generate text ec with
  | Ok o => match o !! "matrix"%string with
            | Some (VMatrix m) => Some m
            | _ => None
            end
  | _ => None
  end.

End Design.

(** ** qr-worker.js: the two [decode] entry points

    Both decoders work on floating-point pixel coordinates; the stages they
    call are taken as they are, each an arbitrary function that returns a
    value or throws.  What is embedded is the body of [decode]: the order of
    the stages, the early returns and the [try]/[catch] around all of it. *)

Module QRDecoder.

(** [try { body } catch (e) { return null }]. *)
Definition tryCatchNull {A} (body : res (option A)) : res (option A) :=
  match body with
  | Ok v => Ok v
  | Throw _ => Ok None
  | OffGrid => Ok None
  end.

(** [s || null] on a string: the empty string is falsy. *)
Definition orNull (s : list Z) : option (list Z) :=
  match s with
  | [] => None
  | _ :: _ => Some s
  end.

Section Stages.
(** The image buffer, the binary image, a located finder pattern, the
    ordered triple, the sampled grid, the format information. *)
Variables image binary pattern ordered modules format : Type.

Variable binarize : image -> Z -> Z -> res binary.
Variable findFinderPatterns : binary -> Z -> Z -> res (list pattern).
(** [orderPatterns]: [Ok None] is [null]. *)
Variable orderPatterns : list pattern -> res (option ordered).
(** The version estimated from the distances of the ordered patterns. *)
Variable estimateVersion : ordered -> res Z.
Variable sampleGrid : binary -> Z -> Z -> ordered -> Z -> res modules.
Variable readFormat : modules -> Z -> res format.
Variable unmask : modules -> Z -> format -> Z -> res modules.
Variable extractBits : modules -> Z -> Z -> res (list Z).
Variable decodeBits : list Z -> Z -> res (list Z).

(** The body of the first [decode] (lines 304-331). *)
Definition decodeBody (imageData : image) (width height : Z)
  : res (option (list Z)) :=
  bin ← binarize imageData width height;
  patterns ← findFinderPatterns bin width height;
  if (length patterns <? 3)%nat then Ok None
  else
    o ← orderPatterns patterns;
    match o with
    | None => Ok None
    | Some ord =>
        version ← estimateVersion ord;
        let size := version * 4 + 17 in
        m ← sampleGrid bin width height ord size;
        fmt ← readFormat m size;
        unmasked ← unmask m size fmt version;
        bits ← extractBits unmasked size version;
        result ← decodeBits bits version;
        Ok (orNull result)
    end.

Definition decode (imageData : image) (width height : Z)
  : res (option (list Z)) :=
  tryCatchNull (decodeBody imageData width height).

(** The body of the second [decode] (lines 752-786), which gives up on
    a version outside 1..10.  Its [catch] logs the exception with
    [console.error] before it returns null. *)
Definition decodeBody2 (imageData : image) (width height : Z)
  : res (option (list Z)) :=
  bin ← binarize imageData width height;
  patterns ← findFinderPatterns bin width height;
  if (length patterns <? 3)%nat then Ok None
  else
    o ← orderPatterns patterns;
    match o with
    | None => Ok None
    | Some ord =>
        version ← estimateVersion ord;
        if (version <? 1) || (10 <? version) then Ok None
        else
          m ← sampleGrid bin width height ord version;
          let size := version * 4 + 17 in
          fmt ← readFormat m size;
          unmasked ← unmask m size fmt version;
          bits ← extractBits unmasked size version;
          data ← decodeBits bits version;
          Ok (orNull data)
    end.

Definition decode2 (imageData : image) (width height : Z)
  : res (option (list Z)) :=
  tryCatchNull (decodeBody2 imageData width height).

End Stages.

Arguments decodeBody {image binary pattern ordered modules format}.
Arguments decode {image binary pattern ordered modules format}.
Arguments decodeBody2 {image binary pattern ordered modules format}.
Arguments decode2 {image binary pattern ordered modules format}.

End QRDecoder.

(** ** Predicates of the statements *)

Module Props.
Import JS QRStream QREncoder.

(** The nine header bytes of a packet. *)
Definition header (seq total flags crc : Z) : list Z :=
  [0x51; 0x53; seq / 256; seq mod 256; total / 256; total mod 256; flags;
   crc / 256; crc mod 256].

(** A frame of seq 7 whose stored CRC is not the CRC of its payload. *)
Definition corruptFrame : list Z :=
  [0x51; 0x53; 0; 7; 0; 9; 1; 0; 0; 72; 105].

(** A session whose whole stream is one packet, with [onComplete] set. *)
Definition session : Receiver := mkReceiver ∅ None ∅ false true.
Definition onlyFrame : list Z :=
  encodePacket 0 1 (bor FLAG_FIRST FLAG_LAST) [72; 105].

(** "HELLO WORLD" *)
Definition hello : list Z := [72; 69; 76; 76; 79; 32; 87; 79; 82; 76; 68].

(** A payload of six bytes 0x10, and its codewords at version 1, level Q. *)
Definition sixBytes : list Z := [16; 16; 16; 16; 16; 16].
Definition sixBytesData : list Z :=
  addErrorCorrection (encodeData sixBytes 1 Q) 1 Q.

(** A penalty of a built symbol. *)
Definition scoreOf (score : list (list Z) -> Z -> Z)
           (r : res (list (list Z) * Z)) : option Z :=
  match r with
  | Ok (m, size) => Some (score m size)
  | _ => None
  end.

(** The matrix of a built symbol. *)
Definition symbolOf (r : res (list (list Z) * Z)) : option (list (list Z)) :=
  match r with
  | Ok (m, _) => Some m
  | _ => None
  end.

(** [x] returns a value, and the value satisfies [P]. *)
Definition succeeds {A} (P : A -> Prop) (x : res A) : Prop :=
  exists a, x = Ok a /\ P a.

Definition isBit (v : Z) : Prop := v = 0 \/ v = 1.

(** An [n] x [n] array of cells that satisfy [Q]. *)
Definition shaped {A} (Q : A -> Prop) (n : Z) (m : list (list A)) : Prop :=
  len m = n /\ Forall (fun row => len row = n /\ Forall Q row) m.

(** Both grids are [n] x [n], and the modules are bits. *)
Definition onGrid (n : Z) (g : grid) : Prop :=
  shaped isBit n (matrix g) /\ shaped (fun _ => True) n (reserved g).

Definition placed (n : Z) (p : placing) : Prop := onGrid n (pgrid p).

(** The columns that the loop of [placeData] can stand on: even ones from
    6 up, odd ones below. *)
Definition stripColumn (col : Z) : Prop :=
  exists k, (col = 2 * k /\ 3 <= k) \/ (col = 2 * k + 1 /\ -1 <= k <= 1).

(** Mask [m], with matrix [mx], is the lowest one of [0 .. k) with the
    least [scorePenalty] among the symbols of [finalData]. *)
Definition leastBelow (version : Z) (ec : ecLevel) (finalData : list Z)
           (k m : Z) (mx : list (list Z)) : Prop :=
  0 <= m < k
  /\ buildSymbol version ec finalData m = Ok (mx, sizeOf version)
  /\ forall m' mx',
      0 <= m' < k ->
      buildSymbol version ec finalData m' = Ok (mx', sizeOf version) ->
      scorePenalty mx (sizeOf version) <= scorePenalty mx' (sizeOf version)
      /\ (m' < m ->
          scorePenalty mx (sizeOf version) < scorePenalty mx' (sizeOf version)).

(** The state of the loop of [generate] before mask [k]. *)
Definition selecting (version : Z) (ec : ecLevel) (finalData : list Z)
           (k : Z) (b : best) : Prop :=
  (k = 0 /\ b = (None, None))
  \/ exists m mx,
      leastBelow version ec finalData k m mx
      /\ b = (Some mx, Some (scorePenalty mx (sizeOf version))).

(** What a [decode] may return: null, or a string that is not empty. *)
Definition decodedOrNull (r : res (option (list Z))) : Prop :=
  r = Ok None \/ exists s, s <> [] /\ r = Ok (Some s).

End Props.
Import Props.

(** ** qr-stream.js: retransmit requests *)

Module QRStreamNack.
Import JS QRStream.

(** Decimal digits of a non-negative integer in front of [acc], for at most
    [fuel] digits. *)
Fixpoint digitsOf (fuel : nat) (n : Z) (acc : list Z) : list Z :=
  match fuel with
  | O => acc
  | S fuel =>
      let acc := (48 + n mod 10) :: acc in
      if n <? 10 then acc else digitsOf fuel (n / 10) acc
  end.

(** [String(n)] for an integer [n] below 10^21 in size: its decimal digits,
    after a minus sign when negative.  A number has at most
    [log2 n + 1] digits. *)
Definition numberToString (n : Z) : list Z :=
  if n <? 0 then 45 :: digitsOf (S (Z.to_nat (Z.log2 (- n)))) (- n) []
  else digitsOf (S (Z.to_nat (Z.log2 n))) n [].

(** [parts.join(sep)]. *)
Fixpoint join (sep : Z) (parts : list (list Z)) : list Z :=
  match parts with
  | [] => []
  | p :: rest =>
      match rest with
      | [] => p
      | _ :: _ => p ++ sep :: join sep rest
      end
  end.

(** [s.split(sep)] for a one-character separator. *)
Fixpoint split (sep : Z) (s : list Z) : list (list Z) :=
  match s with
  | [] => [[]]
  | c :: rest =>
      if c =? sep then [] :: split sep rest
      else
        match split sep rest with
        | p :: ps => (c :: p) :: ps
        | [] => [[c]]
        end
  end.

(** White space and line terminators of ECMAScript. *)
Definition isWhiteSpace (c : Z) : bool :=
  existsb (Z.eqb c)
          [9; 10; 11; 12; 13; 32; 160; 0x1680; 0x2028; 0x2029; 0x202F; 0x205F;
           0x3000; 0xFEFF]
  || ((0x2000 <=? c) && (c <=? 0x200A)).

Definition isDigit (c : Z) : bool := (48 <=? c) && (c <=? 57).

Fixpoint dropWhile (f : Z -> bool) (s : list Z) : list Z :=
  match s with
  | [] => []
  | c :: rest => if f c then dropWhile f rest else s
  end.

Fixpoint takeWhile (f : Z -> bool) (s : list Z) : list Z :=
  match s with
  | [] => []
  | c :: rest => if f c then c :: takeWhile f rest else []
  end.

(** [parseInt(s, 10)]: [None] is NaN.  The value is exact below 2^53. *)
Definition parseInt10 (s : list Z) : option Z :=
  let s := dropWhile isWhiteSpace s in
  let '(sign, s) :=
    match s with
    | c :: rest => if c =? 45 then (-1, rest)
                   else if c =? 43 then (1, rest) else (1, s)
    | [] => (1, s)
    end in
  match takeWhile isDigit s with
  | [] => None
  | ds => Some (sign * fold_left (fun a d => 10 * a + (d - 48)) ds 0)
  end.

Section HostText.
(** [new TextEncoder().encode] and [new TextDecoder().decode] of the host. *)
Variable utf8Encode : list Z -> list Z.
Variable utf8Decode : list Z -> list Z.

Definition createNackPacket (missingSequences : list Z) : list Z :=
  let data := utf8Encode (join 44 (map numberToString missingSequences)) in
  encodePacket 0 0 FLAG_RETRANSMIT data.

(** [parseNackPacket]: [None] is null.  The object of a checksum error has
    no [flags], and [undefined & 4] is 0. *)
Definition parseNackPacket (qrData : list Z) : option (list Z) :=
  match decodePacket qrData with
  | DecNull => None
  | DecChecksum _ => None
  | DecPacket _ _ flags data =>
      if band flags FLAG_RETRANSMIT =? 0 then None
      else
        let str := utf8Decode data in
        Some (flat_map (fun s => match parseInt10 s with
                                 | Some n => [n]
                                 | None => []
                                 end)
                       (split 44 str))
  end.

End HostText.

End QRStreamNack.

(** ** Predicates of the further statements *)

Module StreamProps.
Import JS QRStream.

(** The eight shift steps of [crc16] on one byte, after the byte is XORed
    in. *)
Definition crc16_shift8 (x : Z) : Z :=
  band (forZ 0 8 (fun _ c => crc16_bit c) x) 0xFFFF.

(** The same steps written with the operators of [Z], which agree with
    those of JS as long as the register stays below 2^31. *)
Definition crc16_bit_plain (crc : Z) : Z :=
  if Z.land crc 0x8000 =? 0 then 2 * crc else Z.lxor (2 * crc) 0x1021.

Definition crc16_shift8_plain (x : Z) : Z :=
  Z.land (forZ 0 8 (fun _ c => crc16_bit_plain c) x) 0xFFFF.

(** One shift step of the CRC register undone: the low bit tells whether
    the polynomial was XORed in. *)
Definition crc16_unshift (y : Z) : Z :=
  if Z.testbit y 0 then Z.lor (Z.shiftr (Z.lxor y 0x1021) 1) 0x8000
  else Z.shiftr y 1.

Definition crc16_unshift8 (y : Z) : Z :=
  forZ 0 8 (fun _ c => crc16_unshift c) y.

(** A receiver with the checksum error of [seq] recorded. *)
Definition withChecksumError (r : Receiver) (seq : Z) : Receiver :=
  mkReceiver (packets r) (rtotalPackets r) ({[seq]} ∪ checksumErrors r)
             (onProgress r) (onComplete r).

End StreamProps.
Import StreamProps.

Module TransferProps.
Import JS QRStream.

(** The contents of a [Uint8Array]. *)
Definition isBytes (l : list Z) : Prop := Forall (fun b => 0 <= b < 256) l.

(** The chunk and the flags that [_createPackets] gives packet [i]. *)
Definition chunkOf (cs : Z) (data : list Z) (i : Z) : list Z :=
  slice data (i * cs) (Z.min (i * cs + cs) (len data)).

Definition flagsOf (n i : Z) : Z :=
  let flags := 0 in
  let flags := if i =? 0 then bor flags FLAG_FIRST else flags in
  if i =? n - 1 then bor flags FLAG_LAST else flags.

(** [new Receiver()] with the two callbacks set or not. *)
Definition listening (p c : bool) : Receiver := mkReceiver ∅ None ∅ p c.

(** The receiver after a call of [receive], and what the call returned. *)
Definition stateOf (x : Receiver * list event * res verdict) : Receiver :=
  x.1.1.
Definition resultOf (x : Receiver * list event * res verdict) : res verdict :=
  x.2.

(** A receiver that holds chunks of the stream of [n] packets cut from
    [data], and nothing else. *)
Definition holds (cs : Z) (data : list Z) (n : Z) (r : Receiver) : Prop :=
  (forall i chunk, packets r !! i = Some chunk ->
                   0 <= i < n /\ chunk = chunkOf cs data i)
  /\ match rtotalPackets r with
     | None => packets r = ∅
     | Some t => t = n
     end.

(** The sender after [k] calls of [getNextPacket]. *)
Definition emitted (k : nat) : list senderOp := repeat OpNext k.

End TransferProps.
Import TransferProps.

Module EncoderProps.
Import JS QREncoder.

(** The longest payload that [getVersion] accepts at a level. *)
Definition longestPayload (ec : ecLevel) : Z :=
  match ec with L => 2953 | M => 2331 | Q => 1663 | H => 1273 end.

(** The message of the error that [getVersion] throws. *)
Definition tooLong : string := "Data too long for QR code (max ~2953 bytes)".

(** The number of blocks of a row of [EC_BLOCKS], and the codewords that
    the row accounts for. *)
Definition blockCount (row : Z * Z * Z * Z * Z) : Z :=
  let '(ecPerBlock, blocks1, data1, blocks2, data2) := row in
  blocks1 + blocks2.

Definition rowCodewords (row : Z * Z * Z * Z * Z) : Z :=
  let '(ecPerBlock, blocks1, data1, blocks2, data2) := row in
  blocks1 * data1 + blocks2 * data2 + (blocks1 + blocks2) * ecPerBlock.

(** A row of [EC_BLOCKS] whose numbers have the expected signs. *)
Definition rowSane (row : Z * Z * Z * Z * Z) : bool :=
  let '(ecPerBlock, blocks1, data1, blocks2, data2) := row in
  (0 <? ecPerBlock) && (0 <? blocks1) && (0 <? data1) && (0 <=? blocks2)
  && (0 <=? data2) && ((0 <? blocks2) || (data2 =? 0)).

Definition levels : list ecLevel := [L; M; Q; H].

End EncoderProps.
Import EncoderProps.

(** ** qr-worker.js: the Galois field of the decoder *)

Module QRWorker.
Import JS.

(** [a[i] = v] on an array whose index [i] is inside it. *)
Definition put (l : list Z) (i v : Z) : list Z := <[Z.to_nat i := v]> l.

(** [initGF], as in the encoder. *)
Definition initGF : list Z * list Z :=
  let '(_, exp, log) :=
    forZ 0 255
         (fun i '(x, exp, log) =>
            let exp := put exp i x in
            let log := put log x i in
            let x := shl x 1 in
            let x := if band x 0x100 =? 0 then x else bxor x 0x11d in
            (x, exp, log))
         (1, repeat 0 512%nat, repeat 0 256%nat) in
  let exp := forZ 255 512 (fun i exp => put exp i (at_ exp (i - 255))) exp in
  (exp, log).

Definition GF_EXP : list Z := Eval vm_compute in fst initGF.
Definition GF_LOG : list Z := Eval vm_compute in snd initGF.

Definition gfMul (x y : Z) : Z :=
  if (x =? 0) || (y =? 0) then 0
  else at_ GF_EXP (Z.rem (at_ GF_LOG x + at_ GF_LOG y) 255).

Definition gfDiv (x y : Z) : res Z :=
  if y =? 0 then Throw "Division by zero"
  else if x =? 0 then Ok 0
  else Ok (at_ GF_EXP (Z.rem (at_ GF_LOG x - at_ GF_LOG y + 255) 255)).

Definition gfPolyEval (p : list Z) (x : Z) : Z :=
  forZ 0 (len p) (fun i result => bxor (gfMul result x) (at_ p i)) 0.

(** [matrix[r][c]] inside the sampled grid. *)
Definition mget (m : list (list Z)) (r c : Z) : Z :=
  at_ (nth (Z.to_nat r) m []) c.

(** [['M', 'L', 'H', 'Q'][k]]; the index is two bits wide. *)
Definition ecLevels (k : Z) : QREncoder.ecLevel :=
  nth (Z.to_nat k) [QREncoder.M; QREncoder.L; QREncoder.H; QREncoder.Q]
      QREncoder.M.

(** [readFormat] of the first decoder: [{ec, mask}]. *)
Definition readFormat (matrix : list (list Z)) : QREncoder.ecLevel * Z :=
  let bits := 0 in
  let bits := forZ 0 6 (fun c bits => bor (shl bits 1) (mget matrix 8 c)) bits in
  let bits := bor (shl bits 1) (mget matrix 8 7) in
  let bits := bor (shl bits 1) (mget matrix 8 8) in
  let bits := bor (shl bits 1) (mget matrix 7 8) in
  let bits :=
    forDown 5 0 (fun r bits => bor (shl bits 1) (mget matrix r 8)) bits in
  let bits := bxor bits 0x5412 in
  (ecLevels (band (sar bits 13) 3), band (sar bits 10) 7).

(** [readFormatInfo] of the second decoder: [{ecLevel, maskPattern}]. *)
Definition readFormatInfo (matrix : list (list Z)) (size : Z)
  : QREncoder.ecLevel * Z :=
  let format1 := 0 in
  let format1 :=
    forZ 0 6 (fun i format1 => bor (shl format1 1) (mget matrix 8 i)) format1 in
  let format1 := bor (shl format1 1) (mget matrix 8 7) in
  let format1 := bor (shl format1 1) (mget matrix 8 8) in
  let format1 := bor (shl format1 1) (mget matrix 7 8) in
  let format1 :=
    forDown 5 0 (fun i format1 => bor (shl format1 1) (mget matrix i 8))
            format1 in
  let format1 := bxor format1 0x5412 in
  let ecLevelBits := band (sar format1 13) 0x3 in
  let maskPattern := band (sar format1 10) 0x7 in
  (ecLevels ecLevelBits, maskPattern).

End QRWorker.

Module GFProps.
Import JS QREncoder.

Definition isByte (z : Z) : Prop := 0 <= z < 256.

(** The products of [x] with the powers of two below 256, and the sum of
    those that the bits of [y] select. *)
Definition weights (x : Z) : list (Z * Z) :=
  map (fun j => (j, gfMul x (2 ^ j))) (range 0 8).

Definition bitsum (ws : list (Z * Z)) (y : Z) : Z :=
  fold_right (fun w acc => Z.lxor (if Z.testbit y (fst w) then snd w else 0) acc)
             0 ws.

(** Horner's rule from the accumulator [r] on. *)
Definition horner (x r : Z) (p : list Z) : Z :=
  fold_left (fun r c => Z.lxor (gfMul r x) c) p r.

(** The coefficients of [p * (X + a)], [carry] being added to the first. *)
Fixpoint conv (a carry : Z) (p : list Z) : list Z :=
  match p with
  | [] => [carry]
  | c :: p' => Z.lxor c carry :: conv a (gfMul c a) p'
  end.

Definition zeros (n : nat) : list Z := repeat 0 n.

Definition zipxor (l k : list Z) : list Z := zip_with Z.lxor l k.

End GFProps.
Import GFProps.

Module InterleaveProps.
Import JS QREncoder.

(** The first elements of the blocks that have one, and what is left of
    the blocks. *)
Definition heads (blocks : list (list Z)) : list Z :=
  flat_map (fun b => match b with [] => [] | h :: _ => [h] end) blocks.

Definition tails (blocks : list (list Z)) : list (list Z) :=
  map (fun b => match b with [] => [] | _ :: t => t end) blocks.

(** The loop of [addErrorCorrection] that interleaves the data blocks. *)
Definition interleave (n : Z) (blocks : list (list Z)) (result : list Z)
  : list Z :=
  forZ 0 n
       (fun i result =>
          fold_left (fun result block =>
                       if i <? len block then result ++ [at_ block i]
                       else result)
                    blocks result)
       result.

(** The blocks that the two loops of [addErrorCorrection] cut. *)
Definition blocksFrom (dataBytes : list Z) (start count size : Z)
  : list (list Z) :=
  map (fun t => slice dataBytes (start + t * size) (start + t * size + size))
      (range 0 count).

Definition dataBlocksOf (dataBytes : list Z) (version : Z) (ec : ecLevel)
  : list (list Z) :=
  let '(ecPerBlock, blocks1, data1, blocks2, data2) := ecBlocksOf version ec in
  blocksFrom dataBytes 0 blocks1 data1
  ++ blocksFrom dataBytes (blocks1 * data1) blocks2 data2.

Definition ecPerBlockOf (version : Z) (ec : ecLevel) : Z :=
  let '(ecPerBlock, blocks1, data1, blocks2, data2) := ecBlocksOf version ec in
  ecPerBlock.

End InterleaveProps.
Import InterleaveProps.

Module MatrixProps.
Import JS QREncoder.

(** Grid [g'] has the reserved grid of [g] and its values at the reserved
    modules. *)
Definition keeps (g g' : grid) : Prop :=
  reserved g' = reserved g
  /\ forall r c, cell (reserved g) r c = Some true ->
                 cell (matrix g') r c = cell (matrix g) r c.

(** Module [(r, c)] is reserved and holds [v]. *)
Definition fixedAt (g : grid) (r c v : Z) : Prop :=
  cell (matrix g) r c = Some v /\ cell (reserved g) r c = Some true.

(** Bit [k] of the format word of [(ec, mask)]. *)
Definition formatBit (ec : ecLevel) (mask k : Z) : Z :=
  band (sar (at_ (FORMAT_INFO ec) mask) k) 1.

(** The grid after the function patterns, and after the data. *)
Definition gridOf (r : res grid) (g : grid) : grid :=
  match r with Ok g' => g' | _ => g end.

End MatrixProps.
Import MatrixProps.

(** ** qr-worker.js: reading the data bits *)

Module QRWorkerBits.
Import JS.

(** The alphanumeric alphabet,
    ['0123456789ABCDEFGHIJKLMNOPQRSTUVWXYZ $%*+-./:']. *)
Definition chars : list Z :=
  [48; 49; 50; 51; 52; 53; 54; 55; 56; 57;
   65; 66; 67; 68; 69; 70; 71; 72; 73; 74; 75; 76; 77; 78; 79; 80; 81; 82; 83;
   84; 85; 86; 87; 88; 89; 90;
   32; 36; 37; 42; 43; 45; 46; 47; 58].

(** [s[k]]: a string of one character, [None] for undefined. *)
Definition charAt (s : list Z) (k : Z) : option (list Z) :=
  if (0 <=? k) && (k <? len s) then Some [at_ s k] else None.

Definition undefinedText : list Z :=
  [117; 110; 100; 101; 102; 105; 110; 101; 100].
Definition nanText : list Z := [78; 97; 78].

(** [result += a] where [a] is a character or undefined. *)
Definition textOf (a : option (list Z)) : list Z :=
  match a with Some x => x | None => undefinedText end.

(** [result += a + b]: undefined plus undefined is NaN. *)
Definition plusText (a b : option (list Z)) : list Z :=
  match a, b with
  | None, None => nanText
  | _, _ => textOf a ++ textOf b
  end.

(** [s.padStart(n, '0')]. *)
Definition padStart (n : Z) (s : list Z) : list Z :=
  repeat 48 (Z.to_nat (n - len s)) ++ s.

(** [String.fromCharCode(b)]. *)
Definition fromCharCode (b : Z) : list Z := [b mod 65536].

(** *** First decoder *)

(** [read(n)] of [decodeBits] with the position [i] it shares with its
    caller: the value read and the new position.  The loop ends at the end
    of [bits]. *)
Definition read (bits : list Z) (n i : Z) : Z * Z :=
  forZ 0 n
       (fun _ '(val, i) =>
          if i <? len bits then (bor (shl val 1) (at_ bits i), i + 1)
          else (val, i))
       (0, i).

(** The state of the loop of [decodeBits]; [rbroke] is set by [break]. *)
Record reader : Type := mkReader {
  rpos : Z;
  rtext : list Z;
  rbroke : bool
}.

(** One turn of [while (i < bits.length - 4)]. *)
Definition decodeTurn (bits : list Z) (v : Z) (s : reader) : reader :=
  let '(mode, i) := read bits 4 (rpos s) in
  let result := rtext s in
  if mode =? 0 then mkReader i result true
  else if mode =? 4 then
    let '(count, i) := read bits (if v <? 10 then 8 else 16) i in
    let '(i, result) :=
      forZ 0 count
           (fun _ '(i, result) =>
              let '(b, i) := read bits 8 i in
              (i, if b =? 0 then result else result ++ fromCharCode b))
           (i, result) in
    mkReader i result false
  else if mode =? 2 then
    let '(count, i) :=
      read bits (if v <? 10 then 9 else if v <? 27 then 11 else 13) i in
    let '(i, result) :=
      forZ 0 (count / 2)
           (fun _ '(i, result) =>
              let '(val, i) := read bits 11 i in
              (i, result ++ plusText (charAt chars (val / 45))
                                     (charAt chars (Z.rem val 45))))
           (i, result) in
    if Z.rem count 2 =? 0 then mkReader i result false
    else
      let '(k, i) := read bits 6 i in
      mkReader i (result ++ textOf (charAt chars k)) false
  else if mode =? 1 then
    let '(count, i) :=
      read bits (if v <? 10 then 10 else if v <? 27 then 12 else 14) i in
    let '(i, result) :=
      forZ 0 (count / 3)
           (fun _ '(i, result) =>
              let '(val, i) := read bits 10 i in
              (i, result ++ padStart 3 (QRStreamNack.numberToString val)))
           (i, result) in
    if Z.rem count 3 =? 2 then
      let '(val, i) := read bits 7 i in
      mkReader i (result ++ padStart 2 (QRStreamNack.numberToString val)) false
    else if Z.rem count 3 =? 1 then
      let '(val, i) := read bits 4 i in
      mkReader i (result ++ QRStreamNack.numberToString val) false
    else mkReader i result false
  else mkReader i result true.

(** [decodeBits(bits, v)].  Every turn reads at least four bits, so
    [bits.length] turns are enough ([decodeBits_exits]). *)
Definition decodeLoop (bits : list Z) (v : Z) : reader :=
  QREncoder.while (Z.to_nat (len bits))
        (fun s => negb (rbroke s) && (rpos s <? len bits - 4))
        (decodeTurn bits v)
        (mkReader 0 [] false).

Definition decodeBits (bits : list Z) (v : Z) : list Z :=
  rtext (decodeLoop bits v).

(** *** Second decoder *)

(** [readBits(n)] of [decodeData] at position [pos]: past the end of
    [bits] it reads zeros. *)
Definition readBits (bits : list Z) (n pos : Z) : Z * Z :=
  forZ 0 n
       (fun _ '(val, pos) => (bor (shl val 1) (at_ bits pos), pos + 1))
       (0, pos).

Definition decodeData (bits : list Z) : list Z :=
  let '(mode, pos) := readBits bits 4 0 in
  if mode =? 0 then []
  else if mode =? 4 then
    let '(count, pos) := readBits bits 8 pos in
    snd (forZ 0 count
              (fun _ '(pos, result) =>
                 let '(b, pos) := readBits bits 8 pos in
                 (pos, result ++ fromCharCode b))
              (pos, []))
  else if mode =? 2 then
    let '(count, pos) := readBits bits 9 pos in
    let '(pos, result) :=
      forZ 0 (count / 2)
           (fun _ '(pos, result) =>
              let '(val, pos) := readBits bits 11 pos in
              (pos, result ++ plusText (charAt chars (val / 45))
                                       (charAt chars (Z.rem val 45))))
           (pos, []) in
    if Z.rem count 2 =? 1 then
      let '(k, pos) := readBits bits 6 pos in
      result ++ textOf (charAt chars k)
    else result
  else if mode =? 1 then
    let '(count, pos) := readBits bits 10 pos in
    let '(pos, result) :=
      forZ 0 (count / 3)
           (fun _ '(pos, result) =>
              let '(val, pos) := readBits bits 10 pos in
              (pos, result ++ padStart 3 (QRStreamNack.numberToString val)))
           (pos, []) in
    let rem := Z.rem count 3 in
    if rem =? 2 then
      let '(val, pos) := readBits bits 7 pos in
      result ++ padStart 2 (QRStreamNack.numberToString val)
    else if rem =? 1 then
      let '(val, pos) := readBits bits 4 pos in
      result ++ QRStreamNack.numberToString val
    else result
  else [].

End QRWorkerBits.

Module BitProps.
Import JS QREncoder.

(** The bits of [value] that [pushBits] appends, the highest of [n]
    first. *)
Definition expand (value n : Z) : list Z :=
  map (fun j => band (sar value j) 1) (rev (range 0 n)).

(** The bit string that [placeData] lays out for the codewords [data]. *)
Definition codewordBits (data : list Z) : list Z :=
  fold_left (fun bits byte => pushBits byte 8 bits) data [].

(** The bits of [encodeData] before its padding: mode, count, the low
    byte of every character, and the terminator. *)
Definition segment (text : list Z) (version : Z) : list Z :=
  [0; 1; 0; 0]
    ++ expand (len text) (if version <? 10 then 8 else 16)
    ++ concat (map (fun c => expand (band c 0xFF) 8) text)
    ++ [0; 0; 0; 0].

Definition nonzero (b : Z) : bool := negb (b =? 0).

End BitProps.
Import BitProps.

(** ** qr-worker.js: reading the modules of a symbol *)

Module QRWorkerMatrix.
Import JS.

(** [getAlignPos(v, size)] for a version [v >= 1].  The quotient under
    [Math.ceil] is the exact one: with operands this small no rounding of
    the division reaches an integer. *)
Definition getAlignPos (v size : Z) : list Z :=
  if v =? 1 then []
  else
    let n := v / 7 + 2 in
    let first := 6 in
    let last := size - 7 in
    if n =? 2 then [first; last]
    else
      let step := ceilDiv (last - first) ((n - 1) * 2) * 2 in
      let pos :=
        forZ 1 (n - 1) (fun i pos => pos ++ [last - (n - 1 - i) * step])
             [first] in
      pos ++ [last].

(** [isFunc(r, c, size, v)]. *)
Definition isFunc (r c size v : Z) : bool :=
  if (r <? 9) && (c <? 9) then true
  else if (r <? 9) && (size - 8 <=? c) then true
  else if (size - 8 <=? r) && (c <? 9) then true
  else if (r =? 6) || (c =? 6) then true
  else if (r =? size - 8) && (c =? 8) then true
  else if (7 <=? v) && ((r <? 6) && (size - 11 <=? c) && (c <? size - 8))
  then true
  else if (7 <=? v) && ((c <? 6) && (size - 11 <=? r) && (r <? size - 8))
  then true
  else if 2 <=? v then
    let pos := getAlignPos v size in
    existsb
      (fun ar =>
         existsb
           (fun ac =>
              negb (((ar =? 6) && (ac =? 6))
                    || ((ar =? 6) && (ac =? size - 7))
                    || ((ar =? size - 7) && (ac =? 6)))
              && ((Z.abs (r - ar) <=? 2) && (Z.abs (c - ac) <=? 2)))
           pos)
      pos
  else false.

(** [fns[mask](r, c)] of [unmask] for a mask index in 0..7. *)
Definition fns (mask r c : Z) : bool :=
  match mask with
  | 0 => Z.rem (r + c) 2 =? 0
  | 1 => Z.rem r 2 =? 0
  | 2 => Z.rem c 3 =? 0
  | 3 => Z.rem (r + c) 3 =? 0
  | 4 => Z.rem (r / 2 + c / 3) 2 =? 0
  | 5 => Z.rem (r * c) 2 + Z.rem (r * c) 3 =? 0
  | 6 => Z.rem (Z.rem (r * c) 2 + Z.rem (r * c) 3) 2 =? 0
  | _ => Z.rem (Z.rem (r + c) 2 + Z.rem (r * c) 3) 2 =? 0
  end.

(** [unmask(matrix, size, mask, v)]: a new matrix. *)
Definition unmask (matrix : list (list Z)) (size mask v : Z)
  : list (list Z) :=
  imap (fun r row =>
          imap (fun c val =>
                  if negb (isFunc (Z.of_nat r) (Z.of_nat c) size v)
                     && fns mask (Z.of_nat r) (Z.of_nat c)
                  then bxor val 1 else val)
               row)
       matrix.

(** One strip of [extractBits], [col] being its right-hand column, on a
    matrix of [size] rows and columns. *)
Definition extractStrip (matrix : list (list Z)) (size v col : Z)
           (st : list Z * bool) : list Z * bool :=
  let '(bits, up) := st in
  (forZ 0 size
        (fun i bits =>
           let row := if up then size - 1 - i else i in
           let bits :=
             if negb (isFunc row col size v)
             then bits ++ [QRWorker.mget matrix row col] else bits in
           if (0 <? col) && negb (isFunc row (col - 1) size v)
           then bits ++ [QRWorker.mget matrix row (col - 1)] else bits)
        bits,
   negb up).

(** [for (let col = size - 1; col >= 1; col -= 2) { if (col === 6) col = 5;
    ... }], run for at most [fuel] turns; [extractColumns_fuel] shows that
    [col] turns are enough. *)
Fixpoint extractColumns (fuel : nat) (matrix : list (list Z)) (size v col : Z)
         (st : list Z * bool) : list Z * bool :=
  if col <? 1 then st
  else
    match fuel with
    | O => st
    | S fuel =>
        let col := if col =? 6 then 5 else col in
        extractColumns fuel matrix size v (col - 2)
                       (extractStrip matrix size v col st)
    end.

Definition extractBits (matrix : list (list Z)) (size v : Z) : list Z :=
  fst (extractColumns (Z.to_nat size) matrix size v (size - 1) ([], true)).

End QRWorkerMatrix.

Module SymbolProps.
Import JS QREncoder QRWorkerMatrix.

(** The modules of one strip in the order in which [placeData] and
    [extractBits] visit them. *)
Definition stripCells (size col : Z) (up : bool) : list (Z * Z) :=
  flat_map (fun row =>
              let actualRow := if up then size - 1 - row else row in
              [(actualRow, col); (actualRow, col - 1)])
           (range 0 size).

(** The modules that the column loop of [placeData] visits, in order. *)
Fixpoint placeOrder (fuel : nat) (size col : Z) (up : bool) : list (Z * Z) :=
  if col <? 0 then []
  else
    match fuel with
    | O => []
    | S fuel =>
        let col := if col =? 6 then 5 else col in
        stripCells size col up ++ placeOrder fuel size (col - 2) (negb up)
    end.

(** The modules that the column loop of [extractBits] visits, in order. *)
Fixpoint readOrder (fuel : nat) (size col : Z) (up : bool) : list (Z * Z) :=
  if col <? 1 then []
  else
    match fuel with
    | O => []
    | S fuel =>
        let col := if col =? 6 then 5 else col in
        stripCells size col up ++ readOrder fuel size (col - 2) (negb up)
    end.

(** What [placeData] does at one module, on the grid and [bitIndex]. *)
Definition placeCell (bits : list Z) (s : grid * Z) (rc : Z * Z)
  : res (grid * Z) :=
  let '(g, bitIndex) := s in
  b ← isReserved g (fst rc) (snd rc);
  if (b : bool) then Ok s
  else if bitIndex <? len bits
       then
         g' ← setModule g (fst rc) (snd rc) (at_ bits bitIndex);
         Ok (g', bitIndex + 1)
       else
         g' ← setModule g (fst rc) (snd rc) 0;
         Ok (g', bitIndex).

Definition placeCells (bits : list Z) (cs : list (Z * Z)) (s : grid * Z)
  : res (grid * Z) :=
  fold_left (fun acc rc => s' ← acc; placeCell bits s' rc) cs (Ok s).

(** [bitIndex < bits.length ? bits[bitIndex] : 0]. *)
Definition bitAt (bits : list Z) (j : Z) : Z :=
  if j <? len bits then at_ bits j else 0.

(** The modules that [isFunc] leaves to the data. *)
Definition dataCell (size v : Z) (rc : Z * Z) : bool :=
  negb (isFunc (fst rc) (snd rc) size v).

(** The values of the data modules of [cs] in matrix [m]. *)
Definition readCells (m : list (list Z)) (size v : Z) (cs : list (Z * Z))
  : list Z :=
  map (fun rc => QRWorker.mget m (fst rc) (snd rc))
      (List.filter (dataCell size v) cs).

(** The number of modules of a symbol that [isFunc] leaves to the data. *)
Definition dataModules (v : Z) : Z :=
  let size := sizeOf v in
  len (List.filter (dataCell size v)
                   (flat_map (fun r => map (fun c => (r, c)) (range 0 size))
                             (range 0 size))).

(** The grid of [generate] before the data are placed. *)
Definition functionGrid (version : Z) (ec : ecLevel) (mask : Z) : res grid :=
  let '(g, size) := createMatrix version in
  g ← addFinderPattern g 0 0;
  g ← addFinderPattern g 0 (size - 7);
  g ← addFinderPattern g (size - 7) 0;
  g ← (if 2 <=? version
       then
         let positions := nth (Z.to_nat (version - 1)) ALIGNMENT_POSITIONS [] in
         fold_left
           (fun acc r =>
              fold_left (fun acc c => g ← acc; addAlignmentPattern g r c)
                        positions acc)
           positions (Ok g)
       else Ok g);
  g ← addTimingPatterns g size;
  g ← addVersionInfo g size version;
  addFormatInfo g size ec mask.

(** What [applyMask] leaves at a module. *)
Definition maskedCell (g : grid) (mask r c : Z) : option Z :=
  match cell (reserved g) r c with
  | Some false =>
      if maskFunction mask r c
      then option_map (fun v => bxor v 1) (cell (matrix g) r c)
      else cell (matrix g) r c
  | _ => cell (matrix g) r c
  end.

Definition eqCell (x y : Z * Z) : bool :=
  (fst x =? fst y) && (snd x =? snd y).

Fixpoint distinct (l : list (Z * Z)) : bool :=
  match l with
  | [] => true
  | x :: l => negb (existsb (eqCell x) l) && distinct l
  end.

(** [isFunc] tells the reserved modules of [g] on the modules of [cs]. *)
Definition agree (g : grid) (size v : Z) (cs : list (Z * Z)) : bool :=
  forallb (fun rc =>
             match cell (reserved g) (fst rc) (snd rc) with
             | Some b => Bool.eqb b (isFunc (fst rc) (snd rc) size v)
             | None => false
             end)
          cs.

Definition inside (size : Z) (rc : Z * Z) : bool :=
  (0 <=? fst rc) && (fst rc <? size) && (0 <=? snd rc) && (snd rc <? size).

(** The checks of a version: both column loops visit the same modules of
    the symbol, each once, as many data modules as the symbol has, and for
    every level and mask [isFunc] tells the modules that [generate]
    reserves. *)
Definition versionChecked (v : Z) : bool :=
  let size := sizeOf v in
  let cs := placeOrder (Z.to_nat size) size (size - 1) true in
  forallb (fun x => x)
          (zip_with eqCell cs (readOrder (Z.to_nat size) size (size - 1) true))
  && (length cs =? length (readOrder (Z.to_nat size) size (size - 1) true))%nat
  && forallb (inside size) cs
  && distinct cs
  && (len (List.filter (dataCell size v) cs) =? dataModules v)
  && forallb (fun ec =>
                forallb (fun mask =>
                           match functionGrid v ec mask with
                           | Ok g => agree g size v cs
                           | _ => false
                           end)
                        (range 0 8))
             levels.

End SymbolProps.
Import SymbolProps.

(** ** qr-worker.js: the first [decode] with its own stages *)

Module FirstDecoder.
Import JS QREncoder QRWorkerBits QRWorkerMatrix.

Section Image.
(** The stages that work on pixels stay arbitrary. *)
Variables image binary pattern ordered : Type.
Variable binarize : image -> Z -> Z -> res binary.
Variable findFinderPatterns : binary -> Z -> Z -> res (list pattern).
Variable orderPatterns : list pattern -> res (option ordered).
Variable estimateVersion : ordered -> res Z.
Variable sampleGrid : binary -> Z -> Z -> ordered -> Z -> res (list (list Z)).

(** [decode] of the first decoder, its last four stages being
    [readFormat], [unmask] with [format.mask], [extractBits] and
    [decodeBits]; on a sampled grid of [size] rows and columns none of
    them throws. *)
Definition decode (imageData : image) (width height : Z)
  : res (option (list Z)) :=
  QRDecoder.decode
    binarize findFinderPatterns orderPatterns estimateVersion sampleGrid
    (fun m _ => Ok (QRWorker.readFormat m))
    (fun m size (format : ecLevel * Z) version =>
       Ok (unmask m size (snd format) version))
    (fun m size version => Ok (extractBits m size version))
    (fun bits version => Ok (decodeBits bits version))
    imageData width height.

End Image.

End FirstDecoder.

Module RoundTripProps.
Import JS QREncoder.

(** The image stages of a reader that is handed the matrix [m] of a symbol
    of version [v]. *)
Definition readerOf (v : Z) (m : list (list Z))
  : unit -> Z -> Z -> res (option (list Z)) :=
  FirstDecoder.decode unit unit unit unit
    (fun _ _ _ => Ok tt)
    (fun _ _ _ => Ok [tt; tt; tt])
    (fun _ => Ok (Some tt))
    (fun _ => Ok v)
    (fun _ _ _ _ _ => Ok m).

(** The versions and levels with a single block are among versions 1 to
    6, and their codewords fit the data modules. *)
Definition singleChecked (ec : ecLevel) (v : Z) : bool :=
  if blockCount (ecBlocksOf v ec) =? 1
  then (v <=? 6)
       && (8 * (getDataCapacity v ec + ecPerBlockOf v ec) <=? dataModules v)
  else true.

End RoundTripProps.
Import RoundTripProps.

(** * Properties *)

(** ** Integer operators inside their exact range *)

Section JSFacts.
Import JS.

Lemma toInt32_small z : -2147483648 <= z < 2147483648 -> toInt32 z = z.
Proof.
  intros Hz. unfold toInt32.
  change (2^31) with 2147483648 in *. change (2^32) with 4294967296.
  rewrite Z.mod_small by lia. lia.
Qed.

Lemma land_shl_low a b : 0 <= b < 2^8 -> Z.land (a * 2^8) b = 0.
Proof.
  intros Hb. apply Z.bits_inj'. intros n Hn.
  rewrite Z.land_spec, Z.bits_0.
  destruct (Z.lt_ge_cases n 8) as [Hlt | Hge].
  - rewrite Z.mul_pow2_bits_low by lia. reflexivity.
  - destruct (Z.eq_dec b 0) as [-> | Hnz].
    + rewrite Z.bits_0. apply andb_false_r.
    + assert (Hlog : Z.log2 b < 8) by (apply Z.log2_lt_pow2; lia).
      rewrite (Z.bits_above_log2 b n) by lia. apply andb_false_r.
Qed.

(** [(hi << 8) | lo] rebuilds a 16-bit number from its two bytes. *)
Lemma bor_shl_bytes x :
  0 <= x < 65536 -> bor (shl (x / 256) 8) (x mod 256) = x.
Proof.
  intros Hx.
  assert (Hhi : 0 <= x / 256 < 256)
    by (split; [apply Z.div_pos | apply Z.div_lt_upper_bound]; lia).
  assert (Hlo : 0 <= x mod 256 < 256) by (apply Z.mod_pos_bound; lia).
  unfold bor, shl. change (8 mod 32) with 8.
  rewrite (toInt32_small (x / 256)) by lia.
  rewrite Z.shiftl_mul_pow2 by lia.
  rewrite (toInt32_small (x / 256 * 2^8)) by (change (2^8) with 256; lia).
  rewrite (toInt32_small (x / 256 * 2^8)) by (change (2^8) with 256; lia).
  rewrite (toInt32_small (x mod 256)) by lia.
  pose proof (Z.add_lor_land (x / 256 * 2^8) (x mod 256)) as Hadd.
  rewrite land_shl_low in Hadd by (change (2^8) with 256; lia).
  rewrite Z.add_0_r in Hadd. rewrite Hadd.
  change (2^8) with 256. pose proof (Z.div_mod x 256). lia.
Qed.

(** [(x >> 8) & 0xFF] and [x & 0xFF] are the two bytes of [x]. *)
Lemma band_sar_hi x : 0 <= x < 65536 -> band (sar x 8) 0xFF = x / 256.
Proof.
  intros Hx. unfold band, sar. change (8 mod 32) with 8.
  rewrite (toInt32_small x) by lia.
  rewrite Z.shiftr_div_pow2 by lia. change (2^8) with 256.
  assert (Hhi : 0 <= x / 256 < 256)
    by (split; [apply Z.div_pos | apply Z.div_lt_upper_bound]; lia).
  rewrite !toInt32_small by lia.
  change 255 with (Z.ones 8). rewrite Z.land_ones by lia.
  apply Z.mod_small. change (2^8) with 256. lia.
Qed.

Lemma band_lo x : 0 <= x < 65536 -> band x 0xFF = x mod 256.
Proof.
  intros Hx. unfold band. rewrite !toInt32_small by lia.
  change 255 with (Z.ones 8). rewrite Z.land_ones by lia. reflexivity.
Qed.

Lemma band_mask16_range a : 0 <= band a 0xFFFF < 65536.
Proof.
  unfold band. rewrite (toInt32_small 65535) by lia.
  change 65535 with (Z.ones 16). rewrite Z.land_ones by lia.
  apply Z.mod_pos_bound. lia.
Qed.

Lemma toUint8_byte b : 0 <= b < 256 -> toUint8 b = b.
Proof. intros Hb. unfold toUint8. apply Z.mod_small. lia. Qed.

Lemma map_toUint8_bytes l :
  Forall (fun b => 0 <= b < 256) l -> map toUint8 l = l.
Proof.
  induction 1 as [| b l Hb _ IH]; simpl; [reflexivity |].
  rewrite toUint8_byte by assumption. now rewrite IH.
Qed.

End JSFacts.

(** ** Loops *)

Section LoopFacts.

(** An invariant of the loop state holds after a fold. *)
Lemma fold_left_invariant {S B} (P : S -> Prop) (f : S -> B -> S) l :
  (forall s b, P s -> P (f s b)) ->
  forall s, P s -> P (fold_left f l s).
Proof.
  intros Hstep. induction l as [| b l IH]; intros s Hs; cbn [fold_left].
  - exact Hs.
  - apply IH, Hstep, Hs.
Qed.

End LoopFacts.

(** ** Stream protocol *)

Section StreamFacts.
Import JS QRStream.

Lemma crc16_byte_range c b : 0 <= crc16_byte c b < 65536.
Proof. unfold crc16_byte. cbv zeta. apply band_mask16_range. Qed.

Lemma crc16_range data : 0 <= crc16 data < 65536.
Proof.
  unfold crc16.
  apply (fold_left_invariant (fun c => 0 <= c < 65536)).
  - intros c b _. apply crc16_byte_range.
  - lia.
Qed.

Lemma byte_hi x : 0 <= x < 65536 -> 0 <= x / 256 < 256.
Proof.
  intros Hx. split; [apply Z.div_pos | apply Z.div_lt_upper_bound]; lia.
Qed.

Lemma byte_lo x : 0 <= x mod 256 < 256.
Proof. apply Z.mod_pos_bound. lia. Qed.

Lemma encodePacket_layout seq total flags payload :
  0 <= seq < 65536 -> 0 <= total < 65536 -> 0 <= flags < 256 ->
  Forall (fun b => 0 <= b < 256) payload ->
  encodePacket seq total flags payload
  = header seq total flags (crc16 payload) ++ payload.
Proof.
  intros Hs Ht Hf Hp. unfold encodePacket, header.
  pose proof (crc16_range payload) as Hc.
  rewrite (band_sar_hi seq), (band_sar_hi total), (band_sar_hi (crc16 payload))
    by assumption.
  rewrite (band_lo seq), (band_lo total), (band_lo (crc16 payload))
    by assumption.
  rewrite (map_toUint8_bytes payload) by assumption.
  f_equal.
  apply map_toUint8_bytes.
  change (at_ MAGIC 0) with 0x51. change (at_ MAGIC 1) with 0x53.
  repeat (apply List.Forall_cons;
          [ first [ assumption | apply byte_hi; assumption | apply byte_lo | lia ] | ]).
  apply List.Forall_nil.
Qed.

Lemma header_bytes seq total flags crc :
  0 <= seq < 65536 -> 0 <= total < 65536 -> 0 <= flags < 256 ->
  0 <= crc < 65536 ->
  Forall (fun b => 0 <= b < 256) (header seq total flags crc).
Proof.
  intros Hs Ht Hf Hc. unfold header.
  repeat (apply List.Forall_cons;
          [ first [ assumption | apply byte_hi; assumption | apply byte_lo | lia ] | ]).
  apply List.Forall_nil.
Qed.

Lemma decodePacket_layout seq total flags payload :
  0 <= seq < 65536 -> 0 <= total < 65536 -> 0 <= flags < 256 ->
  Forall (fun b => 0 <= b < 256) payload ->
  decodePacket (header seq total flags (crc16 payload) ++ payload)
  = DecPacket seq total flags payload.
Proof.
  intros Hs Ht Hf Hp.
  pose proof (crc16_range payload) as Hc.
  unfold decodePacket.
  rewrite map_toUint8_bytes
    by (apply Forall_app; split; [apply header_bytes |]; assumption).
  replace (len (header seq total flags (crc16 payload) ++ payload) <? HEADER_SIZE)
    with false
    by (symmetry; apply Z.ltb_ge; unfold len, HEADER_SIZE;
        rewrite length_app; cbn [length header]; lia).
  unfold header, at_. cbn [app].
  change (Z.to_nat HEADER_SIZE) with 9%nat.
  change (Z.to_nat 0) with 0%nat. change (Z.to_nat 1) with 1%nat.
  change (Z.to_nat 2) with 2%nat. change (Z.to_nat 3) with 3%nat.
  change (Z.to_nat 4) with 4%nat. change (Z.to_nat 5) with 5%nat.
  change (Z.to_nat 6) with 6%nat. change (Z.to_nat 7) with 7%nat.
  change (Z.to_nat 8) with 8%nat.
  cbn [nth skipn MAGIC]. rewrite !Z.eqb_refl. cbn [negb orb].
  rewrite !bor_shl_bytes by assumption.
  rewrite Z.eqb_refl. reflexivity.
Qed.

End StreamFacts.

Section StreamClaims.
Import JS QRStream.

(** C8.  The CRC of the stream protocol passes the two test vectors of
    CRC-16/CCITT-FALSE: the empty input gives 0xFFFF and the ASCII digits
    "123456789" give 0x29B1. *)
Theorem crc16_test_vectors :
  crc16 [] = 0xFFFF
  /\ crc16 [0x31; 0x32; 0x33; 0x34; 0x35; 0x36; 0x37; 0x38; 0x39] = 0x29B1.
Proof. split; vm_compute; reflexivity. Qed.

(** C6.  Packet round trip: for [seq], [total] below 65536, a flags byte
    and a payload of fewer than 65527 bytes, decoding the encoded packet
    gives back the same four fields (so the CRC check passed); the packet
    is 9 + |payload| long and starts with the header 'Q' 'S', [seq] and
    [total] in two big-endian bytes each, the flags byte and the CRC in
    two big-endian bytes. *)
Theorem packet_roundtrip (seq total flags : Z) (payload : list Z) :
  0 <= seq < 65536 -> 0 <= total < 65536 -> 0 <= flags < 256 ->
  Forall (fun b => 0 <= b < 256) payload ->
  len payload < 65527 ->
  decodePacket (encodePacket seq total flags payload)
  = DecPacket seq total flags payload
  /\ len (encodePacket seq total flags payload) = 9 + len payload
  /\ encodePacket seq total flags payload
     = [0x51; 0x53; seq / 256; seq mod 256; total / 256; total mod 256;
        flags; crc16 payload / 256; crc16 payload mod 256] ++ payload.
Proof.
  intros Hs Ht Hf Hp _.
  rewrite encodePacket_layout by assumption.
  split; [apply decodePacket_layout; assumption |].
  split; [| reflexivity].
  unfold len. rewrite length_app. cbn [length header]. lia.
Qed.

Lemma packet_roundtrip_witness :
  decodePacket (encodePacket 258 3 2 [72; 105])
  = DecPacket 258 3 2 [72; 105]
  /\ len (encodePacket 258 3 2 [72; 105]) = 9 + len [72; 105]
  /\ encodePacket 258 3 2 [72; 105]
     = [0x51; 0x53; 258 / 256; 258 mod 256; 3 / 256; 3 mod 256;
        2; crc16 [72; 105] / 256; crc16 [72; 105] mod 256] ++ [72; 105].
Proof.
  apply (packet_roundtrip 258 3 2 [72; 105]); try lia.
  - repeat (apply List.Forall_cons; [lia |]). apply List.Forall_nil.
  - vm_compute. reflexivity.
Defined.

(** C9.  A rejected frame leaves the reassembly state alone: when
    [receive] returns [accepted: false], the packet map and [totalPackets]
    are as before and no callback ran; the checksum-error set gains the
    reported [seq] when the reason is 'checksum' and is unchanged
    otherwise. *)
Theorem receive_rejected_state (r r' : Receiver) (frame : list Z)
        (evs : list event) (reason : string) (seqo : option Z) :
  receive r frame = (r', evs, Ok (Rejected reason seqo)) ->
  packets r' = packets r
  /\ rtotalPackets r' = rtotalPackets r
  /\ onProgress r' = onProgress r /\ onComplete r' = onComplete r
  /\ evs = []
  /\ ((reason = "checksum"%string
       /\ exists seq, seqo = Some seq
                     /\ checksumErrors r' = {[seq]} ∪ checksumErrors r)
      \/ (reason <> "checksum"%string
          /\ checksumErrors r' = checksumErrors r)).
Proof.
  unfold receive. destruct (decodePacket frame) as [| seq | seq total flags data].
  - intros [= <- <- <- <-]. repeat split; try reflexivity.
    right. split; [discriminate | reflexivity].
  - intros [= <- <- <- <-]. cbn. repeat split; try reflexivity.
    left. split; [reflexivity |]. exists seq. split; reflexivity.
  - destruct (isComplete _ && onComplete _).
    + destruct (reassemble _); intros [= ].
    + intros [= ].
Qed.

Lemma receive_rejected_state_witness :
  packets (receive newReceiver corruptFrame).1.1 = packets newReceiver
  /\ rtotalPackets (receive newReceiver corruptFrame).1.1
     = rtotalPackets newReceiver
  /\ onProgress (receive newReceiver corruptFrame).1.1 = onProgress newReceiver
  /\ onComplete (receive newReceiver corruptFrame).1.1 = onComplete newReceiver
  /\ (receive newReceiver corruptFrame).1.2 = []
  /\ (("checksum"%string = "checksum"%string
       /\ exists seq, Some 7 = Some seq
                     /\ checksumErrors (receive newReceiver corruptFrame).1.1
                        = {[seq]} ∪ checksumErrors newReceiver)
      \/ ("checksum"%string <> "checksum"%string
          /\ checksumErrors (receive newReceiver corruptFrame).1.1
             = checksumErrors newReceiver)).
Proof.
  apply (receive_rejected_state newReceiver _ corruptFrame _ "checksum" (Some 7)).
  vm_compute. reflexivity.
Defined.

(** C10.  A sender over an empty payload has no packets: [totalPackets]
    is 0, the first [getNextPacket] returns null, and no sequence of calls
    ever hands out a packet (so none with the FIRST or LAST flag). *)
Theorem sender_empty_payload (optChunk : option Z) :
  let s := newSender [] optChunk in
  spackets s = []
  /\ totalPackets s = 0
  /\ getNextPacket s = (None, s)
  /\ forall ops, Forall (fun np => np_packet np = None) (runSender s ops).
Proof.
  assert (Hget : forall s i, spackets s = [] -> getPacket s i = None).
  { intros s i Hs. unfold getPacket. rewrite Hs.
    destruct (i <? 0); [reflexivity |]. destruct (Z.to_nat i); reflexivity. }
  assert (Hnone : forall ops s, spackets s = [] ->
            Forall (fun np => np_packet np = None) (runSender s ops)).
  { induction ops as [| op ops IH]; intros s Hs; cbn [runSender].
    - constructor.
    - destruct op as [| sequences |].
      + unfold getNextPacket.
        destruct (retransmitQueue s) as [| seq rest].
        * destruct (len (spackets s) <=? currentIndex s).
          -- apply IH, Hs.
          -- constructor; [apply Hget, Hs | apply IH, Hs].
        * constructor; [apply Hget, Hs | apply IH, Hs].
      + apply IH. exact Hs.
      + apply IH. exact Hs. }
  assert (Hp : forall cs, createPackets cs [] = []).
  { intros cs. unfold createPackets, ceilDiv, len. cbn [length Z.of_nat Z.opp].
    rewrite Zdiv_0_l. reflexivity. }
  cbv zeta. unfold newSender. cbn [spackets]. rewrite Hp.
  repeat split; try reflexivity.
  intros ops. apply Hnone. reflexivity.
Qed.

(** C3, as stated, fails: the frame that completes the stream, shown a
    second time, invokes [onComplete] a second time. *)
Lemma on_complete_fires_twice :
  completions (feed session [onlyFrame; onlyFrame]).2 = 2%nat
  /\ ~ (completions (feed session [onlyFrame; onlyFrame]).2 <= 1)%nat.
Proof.
  assert (H : completions (feed session [onlyFrame; onlyFrame]).2 = 2%nat)
    by (vm_compute; reflexivity).
  split; [exact H | rewrite H; lia].
Qed.

(** C3, amended.  One call of [receive] invokes [onComplete] at most once,
    after [onProgress]: it does so exactly when it accepts the frame and
    ends with received == total (and the callback is set).  Every such
    call does, also after the first. *)
Theorem receive_completion_per_call (r : Receiver) (frame : list Z) :
  completions (receive r frame).1.2
  = (if isAccepted (receive r frame).2
        && isComplete (receive r frame).1.1
        && onComplete (receive r frame).1.1
     then 1 else 0)%nat
  /\ exists progress,
      Forall (fun e => isCompleteEv e = false) progress
      /\ (receive r frame).1.2
         = progress ++ filter isCompleteEv (receive r frame).1.2.
Proof.
  destruct (receive r frame) as [[r' evs] v] eqn:E. cbn [fst snd].
  enough (H : completions evs
              = (if isAccepted v && isComplete r' && onComplete r'
                 then 1 else 0)%nat
              /\ Forall (fun e => isCompleteEv e = false)
                        (filter (fun e => negb (isCompleteEv e)) evs)
              /\ evs = filter (fun e => negb (isCompleteEv e)) evs
                       ++ filter isCompleteEv evs).
  { destruct H as (H1 & H2 & H3). split; [exact H1 |]. eauto. }
  unfold receive in E.
  destruct (decodePacket frame) as [| seq | seq total flags data].
  - injection E as <- <- <-. repeat split; constructor.
  - injection E as <- <- <-. repeat split; constructor.
  - match type of E with
    | context [isComplete ?x && onComplete ?x] => set (r2 := x) in *
    end.
    destruct (isComplete r2 && onComplete r2) eqn:Hc.
    + destruct (reassemble r2) as [d | msg |]; injection E as <- <- <-;
        cbn [isAccepted andb]; rewrite ?Hc; destruct (onProgress r2);
        repeat split; repeat constructor.
    + injection E as <- <- <-. cbn [isAccepted andb]. rewrite Hc.
      destruct (onProgress r2); repeat split; repeat constructor.
Qed.

End StreamClaims.

Section RangeFacts.

Lemma range_nil lo hi : hi <= lo -> range lo hi = [].
Proof.
  intros H. unfold range. replace (Z.to_nat (hi - lo)) with 0%nat by lia.
  reflexivity.
Qed.

Lemma range_cons lo hi : lo < hi -> range lo hi = lo :: range (lo + 1) hi.
Proof.
  intros H. unfold range.
  replace (Z.to_nat (hi - lo)) with (S (Z.to_nat (hi - (lo + 1)))) by lia.
  cbn [seq map]. f_equal; [lia |].
  rewrite <- seq_shift, map_map. apply map_ext. intros k. lia.
Qed.

Lemma in_range lo hi i : In i (range lo hi) <-> lo <= i < hi.
Proof.
  unfold range. rewrite in_map_iff. split.
  - intros (k & <- & Hk). apply in_seq in Hk. lia.
  - intros H. exists (Z.to_nat (i - lo)). split; [lia |].
    apply in_seq. lia.
Qed.

(** The first index of a range that passes a test. *)
Lemma find_range_first (f : Z -> bool) lo hi v :
  find f (range lo hi) = Some v
  <-> lo <= v < hi /\ f v = true /\ forall w, lo <= w < v -> f w = false.
Proof.
  remember (Z.to_nat (hi - lo)) as n eqn:Hn.
  revert lo Hn. induction n as [| n IH]; intros lo Hn.
  - rewrite range_nil by lia. cbn. split; [discriminate | lia].
  - rewrite range_cons by lia. cbn [find].
    destruct (f lo) eqn:Hf.
    + split.
      * intros [= <-]. repeat split; try lia. exact Hf.
      * intros (Hv & Hfv & Hmin). f_equal.
        destruct (Z.eq_dec lo v) as [| Hne]; [assumption |].
        rewrite Hmin in Hf by lia. discriminate.
    + rewrite IH by lia. split.
      * intros (Hv & Hfv & Hmin). repeat split; try lia; [exact Hfv |].
        intros w Hw. destruct (Z.eq_dec w lo) as [-> |]; [exact Hf |].
        apply Hmin. lia.
      * intros (Hv & Hfv & Hmin).
        assert (lo <> v) by (intros ->; congruence).
        repeat split; try lia; [exact Hfv |].
        intros w Hw. apply Hmin. lia.
Qed.

Lemma find_range_none (f : Z -> bool) lo hi :
  find f (range lo hi) = None <-> forall w, lo <= w < hi -> f w = false.
Proof.
  split.
  - intros H w Hw. apply (find_none f _ H). apply in_range. exact Hw.
  - intros H. destruct (find f (range lo hi)) as [v |] eqn:E; [| reflexivity].
    apply find_range_first in E. destruct E as (Hv & Hfv & _).
    rewrite H in Hfv by exact Hv. discriminate.
Qed.

End RangeFacts.

Section VersionClaims.
Import JS QREncoder Design.

Lemma fits_admits len ec v : fits len ec v = true <-> admits len ec v.
Proof.
  unfold fits, admits, count_bits. rewrite Z.leb_le.
  destruct (Z.ltb_spec v 10), (Z.leb_spec v 9); lia.
Qed.

Lemma fits_not_admits len ec v : fits len ec v = false <-> ~ admits len ec v.
Proof.
  rewrite <- fits_admits. destruct (fits len ec v); split; congruence.
Qed.

(** C5.  [getVersion] returns the smallest version of 1..40 whose data
    capacity in bits holds the 4 mode bits, the character count (8 bits up
    to version 9, 16 from version 10), the payload and the 4 terminator
    bits; it throws exactly when no version of 1..40 does. *)
Theorem getVersion_smallest (data : list Z) (ec : ecLevel) :
  (forall v, getVersion data ec = Ok v
             <-> 1 <= v <= 40 /\ admits (len data) ec v
                 /\ forall w, 1 <= w < v -> ~ admits (len data) ec w)
  /\ ((exists msg, getVersion data ec = Throw msg)
      <-> forall v, 1 <= v <= 40 -> ~ admits (len data) ec v).
Proof.
  unfold getVersion. split.
  - intros v.
    destruct (find _ _) as [v' |] eqn:E.
    + apply find_range_first in E. destruct E as (Hv & Hf & Hmin).
      apply fits_admits in Hf. split.
      * intros [= <-]. repeat split; try lia; [exact Hf |].
        intros w Hw. apply fits_not_admits, Hmin, Hw.
      * intros (Hv1 & Ha & Hmin1). f_equal.
        destruct (Z.lt_trichotomy v' v) as [Hlt | [Heq | Hgt]];
          [| exact Heq |].
        -- exfalso. apply (Hmin1 v'); [lia | exact Hf].
        -- exfalso. apply fits_admits in Ha.
           rewrite Hmin in Ha by lia. discriminate.
    + split; [discriminate |].
      intros (Hv & Ha & _). exfalso.
      apply fits_admits in Ha.
      rewrite (proj1 (find_range_none _ _ _) E) in Ha by lia. discriminate.
  - destruct (find _ _) as [v' |] eqn:E.
    + apply find_range_first in E. destruct E as (Hv & Hf & Hmin).
      split; [intros [msg [= ]] |].
      intros H. exfalso. apply (H v'); [lia |]. apply fits_admits, Hf.
    + split; [| eauto].
      intros _ v Hv. apply fits_not_admits.
      apply (proj1 (find_range_none _ _ _) E). lia.
Qed.

Example getVersion_hello :
  getVersion [72; 69; 76; 76; 79; 32; 87; 79; 82; 76; 68] M = Ok 1.
Proof. vm_compute. reflexivity. Qed.

End VersionClaims.

Section FormatClaims.
Import JS QREncoder Design.

(** C2, as stated, fails: with the XOR constant 0x5426 the word of level
    M and mask 0 would be 0x5426, and the table has 0x5412. *)
Lemma format_info_not_5426 :
  at_ (FORMAT_INFO M) 0 <> format_word 0x5426 M 0.
Proof. vm_compute. discriminate. Qed.

(** C2, amended.  For every EC level and every mask index of 0..7, the
    table entry [FORMAT_INFO[ec][m]] is the BCH(15,5) code word (generator
    0x537) of [(ec_code << 3) | m], with the codes L:01, M:00, Q:11, H:10,
    XORed with 0x5412. *)
Theorem format_info_bch (ec : ecLevel) (m : Z) :
  0 <= m < 8 ->
  at_ (FORMAT_INFO ec) m = format_word 0x5412 ec m.
Proof.
  intros Hm.
  assert (Hall : forallb (fun m => at_ (FORMAT_INFO ec) m =? format_word 0x5412 ec m)
                         (range 0 8) = true)
    by (destruct ec; vm_compute; reflexivity).
  rewrite forallb_forall in Hall.
  apply Z.eqb_eq, Hall, in_range, Hm.
Qed.

Lemma format_info_bch_witness :
  at_ (FORMAT_INFO Q) 5 = format_word 0x5412 Q 5.
Proof. apply (format_info_bch Q 5). lia. Defined.

End FormatClaims.

(** ** Computations that succeed *)

Section Succeeds.

Lemma succeeds_ok {A} (P : A -> Prop) a : P a -> succeeds P (Ok a).
Proof. intros H. exists a. split; [reflexivity | exact H]. Qed.

Lemma succeeds_bind {A B} (P : A -> Prop) (Q : B -> Prop)
      (x : res A) (k : A -> res B) :
  succeeds P x -> (forall a, P a -> succeeds Q (k a)) ->
  succeeds Q (x ≫= k).
Proof.
  intros (a & -> & Ha) Hk. exact (Hk a Ha).
Qed.

Lemma succeeds_weaken {A} (P Q : A -> Prop) x :
  succeeds P x -> (forall a, P a -> Q a) -> succeeds Q x.
Proof. intros (a & -> & Ha) H. exists a. split; [reflexivity | auto]. Qed.

(** A fold in [res] keeps an invariant that every turn keeps. *)
Lemma succeeds_fold {S B} (P : S -> Prop) (f : S -> B -> res S) l :
  (forall s b, In b l -> P s -> succeeds P (f s b)) ->
  forall s, P s ->
  succeeds P (fold_left (fun acc i => s' ← acc; f s' i) l (Ok s)).
Proof.
  induction l as [| b l IH]; intros Hstep s Hs; cbn [fold_left].
  - apply succeeds_ok, Hs.
  - destruct (Hstep s b (or_introl eq_refl) Hs) as (s1 & E & Hs1).
    change (Ok s ≫= (fun s' => f s' b)) with (f s b). rewrite E.
    apply IH; [| exact Hs1].
    intros s' b' Hin. apply Hstep. right. exact Hin.
Qed.

(** A [for] loop keeps an invariant that may depend on the index. *)
Lemma succeeds_forR_indexed {S} (P : Z -> S -> Prop) lo hi
      (body : Z -> S -> res S) :
  lo <= hi ->
  (forall i s, lo <= i < hi -> P i s -> succeeds (P (i + 1)) (body i s)) ->
  forall s, P lo s -> succeeds (P hi) (forR lo hi body s).
Proof.
  intros Hle Hstep. unfold forR.
  remember (Z.to_nat (hi - lo)) as n eqn:Hn.
  revert lo Hle Hstep Hn. induction n as [| n IH]; intros lo Hle Hstep Hn s Hs.
  - rewrite range_nil by lia. cbn. replace hi with lo by lia.
    apply succeeds_ok, Hs.
  - rewrite range_cons by lia. cbn [fold_left].
    destruct (Hstep lo s ltac:(lia) Hs) as (s1 & E & Hs1).
    change (Ok s ≫= (fun s' => body lo s')) with (body lo s). rewrite E.
    apply IH; try lia; [| exact Hs1].
    intros i s' Hi. apply Hstep. lia.
Qed.

Lemma succeeds_forR {S} (P : S -> Prop) lo hi (body : Z -> S -> res S) :
  (forall i s, lo <= i < hi -> P s -> succeeds P (body i s)) ->
  forall s, P s -> succeeds P (forR lo hi body s).
Proof.
  intros Hstep s Hs. unfold forR.
  apply (succeeds_fold P (fun s i => body i s)); [| exact Hs].
  intros s' i Hin. apply Hstep. apply in_range. exact Hin.
Qed.

End Succeeds.

(** ** The grids stay [size] x [size] *)

Section GridFacts.
Import JS QREncoder.

Lemma shaped_repeat {A} (Q : A -> Prop) n (a : A) :
  0 <= n -> Q a ->
  shaped Q n (repeat (repeat a (Z.to_nat n)) (Z.to_nat n)).
Proof.
  intros Hn Ha. unfold shaped, len. rewrite repeat_length.
  split; [lia |].
  apply List.Forall_forall. intros row Hrow.
  apply repeat_spec in Hrow. subst row.
  rewrite repeat_length. split; [lia |].
  apply List.Forall_forall. intros x Hx. apply repeat_spec in Hx. now subst x.
Qed.

Lemma shaped_weaken {A} (Q : A -> Prop) n (m : list (list A)) :
  shaped Q n m -> shaped (fun _ => True) n m.
Proof.
  intros [Hlen Hrows]. split; [exact Hlen |].
  apply List.Forall_forall. intros row Hrow.
  destruct (proj1 (List.Forall_forall _ _) Hrows row Hrow) as [Hr _].
  split; [exact Hr |]. apply List.Forall_forall. intros x _. exact I.
Qed.

Lemma shaped_row {A} (Q : A -> Prop) n m r :
  shaped Q n m -> 0 <= r < n ->
  exists row, m !! Z.to_nat r = Some row /\ len row = n /\ Forall Q row.
Proof.
  intros [Hlen Hrows] Hr. unfold len in Hlen.
  destruct (lookup_lt_is_Some_2 m (Z.to_nat r)) as [row Hrow]; [lia |].
  exists row. split; [exact Hrow |].
  apply (proj1 (List.Forall_forall _ _) Hrows).
  apply list_elem_of_In. eapply list_elem_of_lookup_2. exact Hrow.
Qed.

Lemma cell_shaped {A} (Q : A -> Prop) n m r c :
  shaped Q n m -> 0 <= r < n -> 0 <= c < n ->
  exists v, cell m r c = Some v /\ Q v.
Proof.
  intros Hm Hr Hc. unfold cell.
  destruct (shaped_row Q n m r Hm Hr) as (row & Hrow & Hlen & HQ).
  replace ((r <? 0) || (c <? 0)) with false by lia.
  rewrite Hrow. cbn. unfold len in Hlen.
  destruct (lookup_lt_is_Some_2 row (Z.to_nat c)) as [v Hv]; [lia |].
  exists v. split; [exact Hv |].
  apply (proj1 (List.Forall_forall _ _) HQ).
  apply list_elem_of_In. eapply list_elem_of_lookup_2. exact Hv.
Qed.

Lemma setCell_shaped {A} (Q : A -> Prop) n m r c v :
  shaped Q n m -> 0 <= r < n -> 0 <= c < n -> Q v ->
  succeeds (shaped Q n) (setCell m r c v).
Proof.
  intros Hm Hr Hc Hv. unfold setCell.
  destruct (shaped_row Q n m r Hm Hr) as (row & Hrow & Hlen & HQ).
  replace ((r <? 0) || (c <? 0)) with false by lia.
  rewrite Hrow. unfold len in Hlen.
  replace (Z.to_nat c <? length row)%nat with true
    by (symmetry; apply Nat.ltb_lt; lia).
  apply succeeds_ok. destruct Hm as [Hlen' Hrows].
  split.
  - unfold len in *. rewrite length_insert. exact Hlen'.
  - apply Forall_insert; [exact Hrows |].
    split.
    + unfold len. rewrite length_insert. lia.
    + apply Forall_insert; assumption.
Qed.

Lemma setFunction_onGrid n g r c v :
  onGrid n g -> 0 <= r < n -> 0 <= c < n -> isBit v ->
  succeeds (onGrid n) (setFunction g r c v).
Proof.
  intros [Hm Hr'] Hr Hc Hv. unfold setFunction.
  eapply succeeds_bind; [apply (setCell_shaped isBit n); eassumption |].
  intros m Hm1.
  eapply succeeds_bind;
    [apply (setCell_shaped (fun _ => True) n); eauto |].
  intros rs Hrs. apply succeeds_ok. split; assumption.
Qed.

Lemma setModule_onGrid n g r c v :
  onGrid n g -> 0 <= r < n -> 0 <= c < n -> isBit v ->
  succeeds (onGrid n) (setModule g r c v).
Proof.
  intros [Hm Hr'] Hr Hc Hv. unfold setModule.
  eapply succeeds_bind; [apply (setCell_shaped isBit n); eassumption |].
  intros m Hm1. apply succeeds_ok. split; assumption.
Qed.

Lemma setReserved_onGrid n g r c :
  onGrid n g -> 0 <= r < n -> 0 <= c < n ->
  succeeds (onGrid n) (setReserved g r c).
Proof.
  intros [Hm Hr'] Hr Hc. unfold setReserved.
  eapply succeeds_bind;
    [apply (setCell_shaped (fun _ => True) n); eauto |].
  intros rs Hrs. apply succeeds_ok. split; assumption.
Qed.

Lemma isReserved_onGrid n g r c :
  onGrid n g -> 0 <= r < n -> 0 <= c < n ->
  succeeds (fun _ => True) (isReserved g r c).
Proof.
  intros [_ Hr'] Hr Hc. unfold isReserved.
  destruct (cell_shaped _ n _ r c Hr' Hr Hc) as (b & -> & _).
  apply succeeds_ok. exact I.
Qed.

Lemma onGrid_len n g : onGrid n g -> len (matrix g) = n.
Proof. intros [[H _] _]. exact H. Qed.

(** *** Bits *)

Lemma band_1_bit a : isBit (band a 1).
Proof.
  unfold band, isBit. change (toInt32 1) with (Z.ones 1).
  rewrite Z.land_ones by lia. change (2 ^ 1) with 2.
  pose proof (Z.mod_pos_bound (toInt32 a) 2). lia.
Qed.

Lemma bxor_1_bit v : isBit v -> isBit (bxor v 1).
Proof. intros [-> | ->]; [right | left]; reflexivity. Qed.

Lemma at_bit l i : Forall isBit l -> isBit (at_ l i).
Proof.
  intros H. unfold at_.
  destruct (nth_in_or_default (Z.to_nat i) l 0) as [Hin | ->].
  - apply (proj1 (List.Forall_forall _ _) H), Hin.
  - left. reflexivity.
Qed.

Lemma pushBits_bits value n bits :
  Forall isBit bits -> Forall isBit (pushBits value n bits).
Proof.
  intros H. unfold pushBits, forDown.
  apply (fold_left_invariant (Forall isBit)); [| exact H].
  intros s j Hs. apply Forall_app. split; [exact Hs |].
  constructor; [apply band_1_bit | constructor].
Qed.

End GridFacts.

Section PatternFacts.
Import JS QREncoder.

Lemma fold_left_invariant_in {S B} (P : S -> Prop) (f : S -> B -> S) l :
  (forall s b, In b l -> P s -> P (f s b)) ->
  forall s, P s -> P (fold_left f l s).
Proof.
  induction l as [| b l IH]; intros Hstep s Hs; cbn [fold_left].
  - exact Hs.
  - apply IH.
    + intros s' b' Hin. apply Hstep. right. exact Hin.
    + apply Hstep; [left; reflexivity | exact Hs].
Qed.

(** A nest of [if]s that ends in 0 or 1 is a bit. *)
Ltac bit_cases :=
  repeat match goal with
         | |- context [if ?b then _ else _] => destruct b
         end;
  first [left; reflexivity | right; reflexivity].

Ltac bounds E :=
  repeat rewrite orb_false_iff in E;
  repeat rewrite Z.ltb_ge in E; repeat rewrite Z.leb_gt in E.

Lemma addFinderPattern_onGrid n g row col :
  onGrid n g -> succeeds (onGrid n) (addFinderPattern g row col).
Proof.
  intros Hg. unfold addFinderPattern.
  apply succeeds_forR; [| exact Hg]. intros r g1 Hr Hg1.
  apply succeeds_forR; [| exact Hg1]. intros c g2 Hc Hg2.
  cbv zeta. rewrite (onGrid_len n g2 Hg2).
  destruct ((row + r <? 0) || (n <=? row + r) || (col + c <? 0)
            || (n <=? col + c)) eqn:E.
  - apply succeeds_ok, Hg2.
  - bounds E. apply setFunction_onGrid; [exact Hg2 | lia | lia |].
    bit_cases.
Qed.

Lemma addAlignmentPattern_onGrid n g row col :
  onGrid n g -> 2 <= row <= n - 3 -> 2 <= col <= n - 3 ->
  succeeds (onGrid n) (addAlignmentPattern g row col).
Proof.
  intros Hg Hrow Hcol. unfold addAlignmentPattern.
  destruct (alignmentBlocked g row col); [apply succeeds_ok, Hg |].
  apply succeeds_forR; [| exact Hg]. intros r g1 Hr Hg1.
  apply succeeds_forR; [| exact Hg1]. intros c g2 Hc Hg2.
  cbv zeta. apply setFunction_onGrid; [exact Hg2 | lia | lia |].
  bit_cases.
Qed.

Lemma addTimingPatterns_onGrid n g :
  21 <= n -> onGrid n g -> succeeds (onGrid n) (addTimingPatterns g n).
Proof.
  intros Hn Hg. unfold addTimingPatterns.
  apply succeeds_forR; [| exact Hg]. intros i g1 Hi Hg1. cbv zeta.
  assert (Hbit : isBit (Z.rem (i + 1) 2)).
  { pose proof (Z.rem_bound_pos (i + 1) 2). unfold isBit. lia. }
  eapply succeeds_bind; [apply setModule_onGrid; eauto; lia |].
  intros g2 Hg2.
  eapply succeeds_bind; [apply setModule_onGrid; eauto; lia |].
  intros g3 Hg3.
  eapply succeeds_bind; [apply setReserved_onGrid; eauto; lia |].
  intros g4 Hg4.
  apply setReserved_onGrid; eauto; lia.
Qed.

Lemma addVersionInfo_onGrid n g version :
  21 <= n -> onGrid n g -> succeeds (onGrid n) (addVersionInfo g n version).
Proof.
  intros Hn Hg. unfold addVersionInfo.
  destruct (version <? 7); [apply succeeds_ok, Hg |]. cbv zeta.
  eapply succeeds_bind.
  - apply succeeds_forR; [| exact Hg]. intros i g1 Hi Hg1.
    apply succeeds_forR; [| exact Hg1]. intros j g2 Hj Hg2.
    cbv zeta. apply setFunction_onGrid; [exact Hg2 | lia | lia |].
    apply band_1_bit.
  - intros g1 Hg1.
    apply succeeds_forR; [| exact Hg1]. intros i g2 Hi Hg2.
    apply succeeds_forR; [| exact Hg2]. intros j g3 Hj Hg3.
    cbv zeta. apply setFunction_onGrid; [exact Hg3 | lia | lia |].
    apply band_1_bit.
Qed.

Lemma addFormatInfo_onGrid n g ec mask :
  21 <= n -> onGrid n g -> succeeds (onGrid n) (addFormatInfo g n ec mask).
Proof.
  intros Hn Hg. unfold addFormatInfo. cbv zeta.
  assert (Hloop : forall lo hi (f g : Z -> Z) (v : Z -> Z) g0,
             (forall i, lo <= i < hi -> 0 <= f i < n /\ 0 <= g i < n) ->
             onGrid n g0 ->
             succeeds (onGrid n)
               (forR lo hi (fun i g' => setFunction g' (f i) (g i) (band (v i) 1))
                     g0)).
  { intros lo hi f0 g0 v g1 Hfg Hg1.
    apply succeeds_forR; [| exact Hg1]. intros i g' Hi Hg'.
    apply setFunction_onGrid;
      [exact Hg' | apply Hfg, Hi | apply Hfg, Hi | apply band_1_bit]. }
  eapply (succeeds_bind (onGrid n)).
  { apply (Hloop 0 6 (fun _ => 8) (fun i => i)); [lia | exact Hg]. }
  clear g Hg. intros g Hg.
  eapply (succeeds_bind (onGrid n)).
  { apply setFunction_onGrid; [exact Hg | lia | lia | apply band_1_bit]. }
  clear g Hg. intros g Hg.
  eapply (succeeds_bind (onGrid n)).
  { apply setFunction_onGrid; [exact Hg | lia | lia | apply band_1_bit]. }
  clear g Hg. intros g Hg.
  eapply (succeeds_bind (onGrid n)).
  { apply setFunction_onGrid; [exact Hg | lia | lia | apply band_1_bit]. }
  clear g Hg. intros g Hg.
  eapply (succeeds_bind (onGrid n)).
  { apply (Hloop 0 6 (fun i => 5 - i) (fun _ => 8)); [lia | exact Hg]. }
  clear g Hg. intros g Hg.
  eapply (succeeds_bind (onGrid n)).
  { apply (Hloop 0 8 (fun _ => 8) (fun i => n - 1 - i)); [lia | exact Hg]. }
  clear g Hg. intros g Hg.
  eapply (succeeds_bind (onGrid n)).
  { apply (Hloop 0 7 (fun i => n - 1 - i) (fun _ => 8)); [lia | exact Hg]. }
  clear g Hg. intros g Hg.
  apply setFunction_onGrid; [exact Hg | lia | lia | right; reflexivity].
Qed.

End PatternFacts.

Section PlacementFacts.
Import JS QREncoder.

Lemma placeStrip_onGrid n bits col p :
  Forall isBit bits -> 1 <= col < n -> placed n p ->
  succeeds (placed n) (placeStrip bits n col p).
Proof.
  intros Hbits Hcol Hp. unfold placeStrip.
  eapply (succeeds_bind (placed n)).
  - apply succeeds_forR; [| exact Hp]. intros row p1 Hrow Hp1. cbv zeta.
    apply succeeds_forR; [| exact Hp1]. intros c p2 Hc Hp2. cbv zeta.
    assert (Hr : 0 <= (if upward p1 then n - 1 - row else row) < n)
      by (destruct (upward p1); lia).
    eapply (succeeds_bind (fun _ => True)).
    + apply (isReserved_onGrid n); [exact Hp2 | exact Hr | lia].
    + intros b _. destruct b; [apply succeeds_ok, Hp2 |].
      destruct (bitIndex p2 <? len bits).
      * eapply (succeeds_bind (onGrid n)).
        -- apply setModule_onGrid; [exact Hp2 | exact Hr | lia |].
           apply at_bit, Hbits.
        -- intros g Hg. apply succeeds_ok. exact Hg.
      * eapply (succeeds_bind (onGrid n)).
        -- apply setModule_onGrid; [exact Hp2 | exact Hr | lia |].
           left. reflexivity.
        -- intros g Hg. apply succeeds_ok. exact Hg.
  - intros p1 Hp1. apply succeeds_ok. exact Hp1.
Qed.

Lemma placeColumns_onGrid n bits :
  Forall isBit bits ->
  forall fuel col p,
    col < Z.of_nat fuel -> col < n -> stripColumn col -> placed n p ->
    succeeds (placed n) (placeColumns fuel bits n col p).
Proof.
  intros Hbits. induction fuel as [| fuel IH]; intros col p Hfuel Hcol Hstrip Hp.
  - cbn [placeColumns]. replace (col <? 0) with true by lia.
    apply succeeds_ok, Hp.
  - cbn [placeColumns]. destruct (Z.ltb_spec col 0) as [Hneg | Hpos].
    + apply succeeds_ok, Hp.
    + cbv zeta. destruct Hstrip as (k & Hk).
      eapply (succeeds_bind (placed n)).
      * apply placeStrip_onGrid; [exact Hbits | | exact Hp].
        destruct (Z.eqb_spec col 6); lia.
      * intros p1 Hp1. apply IH; [| | | exact Hp1].
        -- destruct (Z.eqb_spec col 6); lia.
        -- destruct (Z.eqb_spec col 6); lia.
        -- destruct (Z.eqb_spec col 6) as [-> | Hne].
           ++ exists 1. lia.
           ++ destruct Hk as [[-> Hk] | [-> Hk]].
              ** exists (k - 1). lia.
              ** exists (k - 1). lia.
Qed.

Lemma placeData_onGrid n g data :
  21 <= n -> (exists k, n - 1 = 2 * k) -> onGrid n g ->
  succeeds (onGrid n) (placeData g n data).
Proof.
  intros Hn (k & Hk) Hg. unfold placeData. cbv zeta.
  eapply (succeeds_bind (placed n)).
  - apply placeColumns_onGrid; [| lia | lia | exists k; lia | exact Hg].
    apply (fold_left_invariant (Forall isBit)); [| constructor].
    intros bits byte Hb. apply pushBits_bits, Hb.
  - intros p Hp. apply succeeds_ok, Hp.
Qed.

Lemma applyMask_onGrid n g mask :
  onGrid n g -> succeeds (onGrid n) (applyMask g n mask).
Proof.
  intros Hg. unfold applyMask.
  apply succeeds_forR; [| exact Hg]. intros r g1 Hr Hg1.
  apply succeeds_forR; [| exact Hg1]. intros c g2 Hc Hg2.
  eapply (succeeds_bind (fun _ => True)).
  - apply (isReserved_onGrid n); assumption.
  - intros b _.
    destruct (negb b && maskFunction mask r c); [| apply succeeds_ok, Hg2].
    destruct (cell_shaped isBit n (matrix g2) r c (proj1 Hg2) Hr Hc)
      as (v & -> & Hv).
    apply setModule_onGrid; [exact Hg2 | exact Hr | exact Hc |].
    apply bxor_1_bit, Hv.
Qed.

Lemma alignment_positions_inside version :
  1 <= version <= 40 ->
  Forall (fun p => 2 <= p <= sizeOf version - 3)
         (nth (Z.to_nat (version - 1)) ALIGNMENT_POSITIONS []).
Proof.
  intros Hv.
  assert (Hall :
            forallb (fun v =>
                       forallb (fun p => (2 <=? p) && (p <=? sizeOf v - 3))
                               (nth (Z.to_nat (v - 1)) ALIGNMENT_POSITIONS []))
                    (range 1 41) = true)
    by (vm_compute; reflexivity).
  rewrite forallb_forall in Hall.
  specialize (Hall version (proj2 (in_range 1 41 version) ltac:(lia))).
  rewrite forallb_forall in Hall.
  apply List.Forall_forall. intros p Hp.
  specialize (Hall p Hp). lia.
Qed.

(** Every symbol that the loop of [generate] builds stays on the grid: no
    write or read leaves the [size] x [size] arrays, and the result is a
    [size] x [size] matrix of bits. *)
Lemma buildSymbol_on_grid version ec finalData mask :
  1 <= version <= 40 ->
  succeeds (fun ms => ms.2 = sizeOf version
                      /\ shaped isBit (sizeOf version) ms.1)
           (buildSymbol version ec finalData mask).
Proof.
  intros Hv. unfold buildSymbol, createMatrix. cbv beta iota zeta.
  set (n := sizeOf version).
  assert (Hn : 21 <= n) by (unfold n, sizeOf; lia).
  assert (Hodd : exists k, n - 1 = 2 * k)
    by (exists (2 * version + 8); unfold n, sizeOf; lia).
  assert (Hg0 : onGrid n (mkGrid (repeat (repeat 0 (Z.to_nat n)) (Z.to_nat n))
                                 (repeat (repeat false (Z.to_nat n)) (Z.to_nat n)))).
  { split; apply shaped_repeat; first [lia | left; reflexivity | exact I]. }
  revert Hg0. generalize (mkGrid (repeat (repeat 0 (Z.to_nat n)) (Z.to_nat n))
                                 (repeat (repeat false (Z.to_nat n)) (Z.to_nat n))).
  intros g Hg.
  eapply (succeeds_bind (onGrid n)); [apply addFinderPattern_onGrid, Hg |].
  clear g Hg. intros g Hg.
  eapply (succeeds_bind (onGrid n)); [apply addFinderPattern_onGrid, Hg |].
  clear g Hg. intros g Hg.
  eapply (succeeds_bind (onGrid n)); [apply addFinderPattern_onGrid, Hg |].
  clear g Hg. intros g Hg.
  eapply (succeeds_bind (onGrid n)).
  { destruct (2 <=? version); [| apply succeeds_ok, Hg]. cbv zeta.
    pose proof (alignment_positions_inside version Hv) as Hpos.
    fold n in Hpos. rewrite List.Forall_forall in Hpos.
    apply (fold_left_invariant_in (succeeds (onGrid n)));
      [| apply succeeds_ok, Hg].
    intros acc r Hr Hacc.
    apply (fold_left_invariant_in (succeeds (onGrid n))); [| exact Hacc].
    intros acc' c Hc Hacc'.
    eapply (succeeds_bind (onGrid n)); [exact Hacc' |].
    intros g' Hg'. apply addAlignmentPattern_onGrid; auto. }
  clear g Hg. intros g Hg.
  eapply (succeeds_bind (onGrid n)); [apply addTimingPatterns_onGrid; assumption |].
  clear g Hg. intros g Hg.
  eapply (succeeds_bind (onGrid n)); [apply addVersionInfo_onGrid; assumption |].
  clear g Hg. intros g Hg.
  eapply (succeeds_bind (onGrid n)); [apply addFormatInfo_onGrid; assumption |].
  clear g Hg. intros g Hg.
  eapply (succeeds_bind (onGrid n)); [apply placeData_onGrid; assumption |].
  clear g Hg. intros g Hg.
  eapply (succeeds_bind (onGrid n)); [apply applyMask_onGrid; assumption |].
  clear g Hg. intros g Hg.
  apply succeeds_ok. split; [reflexivity | exact (proj1 Hg)].
Qed.

End PlacementFacts.

Section LoopExits.
Import JS QREncoder.

(** A [while] loop whose measure fits its fuel stops because its test
    fails, not because the fuel ends. *)
Lemma while_exits {S} (mu : S -> nat) (cond : S -> bool) (body : S -> S) :
  (forall s, cond s = true -> (mu (body s) < mu s)%nat) ->
  forall fuel s, (mu s <= fuel)%nat -> cond (while fuel cond body s) = false.
Proof.
  intros Hdec. induction fuel as [| fuel IH]; intros s Hs; cbn [while].
  - destruct (cond s) eqn:E; [| reflexivity].
    specialize (Hdec s E). lia.
  - destruct (cond s) eqn:E; [| exact E].
    apply IH. specialize (Hdec s E). lia.
Qed.

Lemma len_app {A} (l1 l2 : list A) : len (l1 ++ l2) = len l1 + len l2.
Proof. unfold len. rewrite length_app. lia. Qed.

Lemma len_nonneg {A} (l : list A) : 0 <= len l.
Proof. unfold len. lia. Qed.

Lemma pushBits_len value n bits :
  0 <= n -> len (pushBits value n bits) = len bits + n.
Proof.
  intros Hn. unfold pushBits, forDown.
  replace (n - 1 + 1) with n by lia.
  assert (H : forall l bs,
             len (fold_left (fun acc i => acc ++ [band (sar value i) 1]) l bs)
             = len bs + len l).
  { induction l as [| i l IH]; intros bs; cbn [fold_left].
    - unfold len at 3. cbn. lia.
    - rewrite IH, len_app. unfold len. cbn. lia. }
  rewrite H. unfold len at 2. rewrite length_rev. unfold range.
  rewrite length_map, length_seq. lia.
Qed.

(** The loop that pads to a byte boundary ends on one. *)
Lemma padToByte_exits bits : Z.rem (len (padToByte bits)) 8 = 0.
Proof.
  unfold padToByte.
  assert (H : negb (Z.rem (len (while 8 (fun bits => negb (Z.rem (len bits) 8 =? 0))
                                      (fun bits => bits ++ [0]) bits)) 8 =? 0)
              = false).
  { apply (while_exits
             (fun bits => Z.to_nat ((8 - len bits mod 8) mod 8))
             (fun bits => negb (Z.rem (len bits) 8 =? 0))
             (fun bits => bits ++ [0])).
    - intros s Hs. apply negb_true_iff, Z.eqb_neq in Hs.
      rewrite len_app. change (len [0]) with 1.
      pose proof (len_nonneg s) as Hlen.
      rewrite Z.rem_mod_nonneg in Hs by lia.
      apply Z2Nat.inj_lt; [apply Z.mod_pos_bound; lia .. |].
      revert Hs Hlen. generalize (len s). intros z Hs Hlen.
      Z.div_mod_to_equations. lia.
    - pose proof (Z.mod_pos_bound (8 - len bits mod 8) 8). lia. }
  apply negb_false_iff, Z.eqb_eq in H. exact H.
Qed.

(** The loop that appends pad bytes ends with the capacity filled. *)
Lemma padBytes_exits capacity bits : capacity * 8 <= len (padBytes capacity bits).
Proof.
  unfold padBytes.
  assert (H : (let '(bits, _) :=
                 while (Z.to_nat capacity)
                       (fun '(bits, padIndex) => len bits <? capacity * 8)
                       (fun '(bits, padIndex) =>
                          let pad := at_ [0xec; 0x11] (Z.rem padIndex 2) in
                          (pushBits pad 8 bits, padIndex + 1))
                       (bits, 0)
               in len bits <? capacity * 8) = false).
  { apply (while_exits
             (fun '(bits, _) => Z.to_nat ((capacity * 8 - len bits + 7) / 8))
             (fun '(bits, padIndex) => len bits <? capacity * 8)).
    - intros [s i] Hs. apply Z.ltb_lt in Hs. cbv beta iota zeta.
      rewrite pushBits_len by lia.
      apply Z2Nat.inj_lt; [apply Z.div_pos; lia | apply Z.div_pos; lia |].
      Z.div_mod_to_equations. lia.
    - cbv beta iota. pose proof (len_nonneg bits).
      assert ((capacity * 8 - len bits + 7) / 8 <= Z.max 0 capacity)
        by (Z.div_mod_to_equations; lia).
      lia. }
  destruct (while _ _ _ _) as [r i]. cbn [fst].
  apply Z.ltb_ge, H.
Qed.

End LoopExits.

Section PenaltyFacts.
Import JS QREncoder Design.

(** A loop that adds [f i] in turn [i] computes a sum. *)
Lemma forZ_sum lo hi (g : Z -> Z -> Z) (f : Z -> Z) :
  (forall i acc, lo <= i < hi -> g i acc = acc + f i) ->
  forall a, forZ lo hi g a = a + sumZ (map f (range lo hi)).
Proof.
  intros Hg. unfold forZ.
  assert (H : forall l, (forall i, In i l -> lo <= i < hi) ->
                        forall a, fold_left (fun acc i => g i acc) l a
                                  = a + sumZ (map f l)).
  { induction l as [| i l IH]; intros Hl a; cbn [fold_left map sumZ fold_right].
    - lia.
    - rewrite IH by (intros j Hj; apply Hl; right; exact Hj).
      rewrite Hg by (apply Hl; left; reflexivity).
      fold (sumZ (map f l)). lia. }
  apply H. intros i Hi. apply in_range, Hi.
Qed.

(** The loop of rule 1 over one line adds what the runs of the line add. *)
Lemma runPenalty_line size (get : Z -> Z) penalty :
  1 <= size ->
  runPenalty size get penalty = penalty + line_p1 (map get (range 0 size)).
Proof.
  intros Hsize. unfold runPenalty, forZ, line_p1.
  rewrite (range_cons 0 size) by lia. cbn [map runs]. change (0 + 1) with 1.
  set (step := fun (acc : Z * Z) (i : Z) =>
                 let '(penalty, count) := acc in
                 if get i =? get (i - 1) then (penalty, count + 1)
                 else (if 5 <=? count then penalty + (count - 2) else penalty, 1)).
  set (score := fun n : Z => if 5 <=? n then n - 2 else 0).
  assert (H : forall n i pen count,
             n = Z.to_nat (size - i) -> 1 <= i ->
             (let '(p, c) := fold_left step (range i size) (pen, count) in
              if 5 <=? c then p + (c - 2) else p)
             = pen + sumZ (map score
                               (runs_from (get (i - 1)) count
                                          (map get (range i size))))).
  { induction n as [| n IH]; intros i pen count Hn Hi.
    - rewrite range_nil by lia. cbn. unfold score. destruct (5 <=? count); lia.
    - rewrite (range_cons i size) by lia. cbn [fold_left map runs_from].
      unfold step at 2. cbv beta iota.
      destruct (Z.eqb_spec (get i) (get (i - 1))) as [Heq | Hne].
      + rewrite (IH (i + 1)) by lia.
        replace (i + 1 - 1) with i by lia. rewrite Heq. reflexivity.
      + rewrite (IH (i + 1)) by lia.
        replace (i + 1 - 1) with i by lia.
        cbn [map sumZ fold_right]. fold (sumZ (map score (runs_from (get i) 1
                                              (map get (range (i + 1) size))))).
        unfold score at 2. destruct (5 <=? count); lia. }
  specialize (H (Z.to_nat (size - 1)) 1 penalty 1 eq_refl ltac:(lia)).
  change (1 - 1) with 0 in H. exact H.
Qed.

(** A list is the list of its elements by index. *)
Lemma list_by_index {A} (d : A) (l : list A) :
  l = map (fun i => nth (Z.to_nat i) l d) (range 0 (len l)).
Proof.
  unfold range, len. rewrite Z.sub_0_r, Nat2Z.id, map_map.
  induction l as [| a l IH]; [reflexivity |].
  cbn [length seq map]. f_equal.
  rewrite <- seq_shift, map_map. rewrite IH at 1.
  apply map_ext. intros k.
  replace (Z.to_nat (0 + Z.of_nat (S k))) with (S (Z.to_nat (0 + Z.of_nat k)))
    by lia.
  reflexivity.
Qed.

Lemma rows_by_index size (m : list (list Z)) :
  shaped (fun _ => True) size m ->
  m = map (fun r => map (fun c => mget m r c) (range 0 size)) (range 0 size).
Proof.
  intros [Hlen Hrows].
  rewrite (list_by_index [] m) at 1. rewrite Hlen.
  apply map_ext_in. intros r Hr. apply in_range in Hr.
  unfold mget, at_.
  assert (Hrow : len (nth (Z.to_nat r) m []) = size).
  { apply (proj1 (List.Forall_forall _ _) Hrows (nth (Z.to_nat r) m [])).
    apply nth_In. unfold len in Hlen. lia. }
  rewrite (list_by_index 0 (nth (Z.to_nat r) m [])) at 1. rewrite Hrow.
  reflexivity.
Qed.

(** On a [size] x [size] matrix [scorePenalty] is P1 + P2 of the design
    document. *)
Lemma scorePenalty_p1_p2 m size :
  1 <= size -> shaped (fun _ => True) size m ->
  scorePenalty m size = p1 m size + p2 m size.
Proof.
  intros Hsize Hm. unfold scorePenalty, p1, p2. cbv zeta.
  rewrite (forZ_sum 0 (size - 1) _
             (fun r => sumZ (map (fun c =>
                                    if (mget m r c =? mget m r (c + 1))
                                       && (mget m r c =? mget m (r + 1) c)
                                       && (mget m r c =? mget m (r + 1) (c + 1))
                                    then 3 else 0)
                                 (range 0 (size - 1))))).
  2:{ intros r acc Hr. apply forZ_sum. intros c acc' Hc.
      destruct (_ && _); lia. }
  rewrite (forZ_sum 0 size _
             (fun c => line_p1 (map (fun r => mget m r c) (range 0 size))))
    by (intros c acc Hc; apply runPenalty_line, Hsize).
  rewrite (forZ_sum 0 size _
             (fun r => line_p1 (map (fun c => mget m r c) (range 0 size))))
    by (intros r acc Hr; apply runPenalty_line, Hsize).
  rewrite Z.add_0_l. f_equal. f_equal.
  - f_equal.
    transitivity (map line_p1
                      (map (fun r => map (fun c => mget m r c) (range 0 size))
                           (range 0 size))).
    + rewrite map_map. reflexivity.
    + f_equal. symmetry. apply (rows_by_index size m Hm).
  - f_equal. unfold columns. rewrite map_map. apply map_ext. intros c. f_equal.
    transitivity (map (fun row => at_ row c)
                      (map (fun r => nth (Z.to_nat r) m []) (range 0 size))).
    + rewrite map_map. reflexivity.
    + f_equal. rewrite <- (proj1 Hm). symmetry. apply list_by_index.
Qed.

End PenaltyFacts.

Section Selection.
Import JS QREncoder Design.

Variables (version : Z) (ec : ecLevel) (finalData : list Z).
Hypothesis Hversion : 1 <= version <= 40.

Lemma selectStep_selecting k b :
  0 <= k -> selecting version ec finalData k b ->
  succeeds (selecting version ec finalData (k + 1)) (selectStep version ec finalData k b).
Proof.
  intros Hk Hb. unfold selectStep.
  destruct (buildSymbol_on_grid version ec finalData k Hversion)
    as ([mk sz] & Ek & Hsz & Hshape).
  cbn [fst snd] in Hsz, Hshape. subst sz.
  rewrite Ek.
  change (Ok (mk, sizeOf version) ≫= ?f) with (f (mk, sizeOf version)).
  cbv beta iota zeta.
  destruct Hb as [[-> ->] | (m & mx & (Hm & Em & Hleast) & ->)]; cbn [snd].
  - apply succeeds_ok. right. exists 0, mk. split; [| reflexivity].
    split; [lia |]. split; [exact Ek |].
    intros m' mx' Hm' Em'. assert (m' = 0) by lia. subst m'.
    rewrite Ek in Em'. injection Em' as <-. lia.
  - destruct (Z.ltb_spec (scorePenalty mk (sizeOf version))
                          (scorePenalty mx (sizeOf version))) as [Hlt | Hge];
      apply succeeds_ok; right.
    + exists k, mk. split; [| reflexivity].
      split; [lia |]. split; [exact Ek |].
      intros m' mx' Hm' Em'.
      destruct (Z.eq_dec m' k) as [-> | Hne].
      * rewrite Ek in Em'. injection Em' as <-. lia.
      * destruct (Hleast m' mx' ltac:(lia) Em'). lia.
    + exists m, mx. split; [| reflexivity].
      split; [lia |]. split; [exact Em |].
      intros m' mx' Hm' Em'.
      destruct (Z.eq_dec m' k) as [-> | Hne].
      * rewrite Ek in Em'. injection Em' as <-. lia.
      * apply Hleast; [lia | exact Em'].
Qed.

Lemma select_loop :
  exists m mx,
    leastBelow version ec finalData 8 m mx
    /\ forR 0 8 (selectStep version ec finalData) (None, None)
       = Ok (Some mx, Some (scorePenalty mx (sizeOf version))).
Proof.
  assert (Hloop : succeeds (selecting version ec finalData 8)
                    (forR 0 8 (selectStep version ec finalData) (None, None))).
  { apply (succeeds_forR_indexed (selecting version ec finalData) 0 8); [lia | |].
    - intros i s Hi Hs. apply selectStep_selecting; [lia | exact Hs].
    - left. split; reflexivity. }
  destruct Hloop as (b & E & Hb).
  destruct Hb as [[H8 _] | (m & mx & Hleast & ->)]; [lia |].
  exists m, mx. split; [exact Hleast | exact E].
Qed.

End Selection.

Section GenerateClaims.
Import JS QREncoder Design.

Lemma getVersion_range text ec v : getVersion text ec = Ok v -> 1 <= v <= 40.
Proof.
  unfold getVersion. intros H.
  destruct (find _ _) as [v' |] eqn:E; [| discriminate].
  injection H as <-. apply find_range_first in E. lia.
Qed.

(** What [generate] returns for a payload of version [v]: the record of
    the matrix of the selected mask and of its side length. *)
Lemma generate_selected text ec v :
  getVersion text ec = Ok v ->
  exists m mx,
    leastBelow v ec (addErrorCorrection (encodeData text v ec) v ec) 8 m mx
    /\ shaped isBit (sizeOf v) mx
    /\ generate text ec
       = Ok (<["matrix"%string := VMatrix mx]>
               (<["size"%string := VNum (sizeOf v)]> ∅)).
Proof.
  intros Hv. pose proof (getVersion_range text ec v Hv) as Hr.
  destruct (select_loop v ec (addErrorCorrection (encodeData text v ec) v ec) Hr)
    as (m & mx & Hleast & Eloop).
  exists m, mx. split; [exact Hleast |].
  destruct Hleast as (Hm & Em & _).
  destruct (buildSymbol_on_grid v ec
              (addErrorCorrection (encodeData text v ec) v ec) m Hr)
    as (ms & Ems & _ & Hshape).
  rewrite Em in Ems. injection Ems as <-. cbn [fst] in Hshape.
  split; [exact Hshape |].
  unfold generate. rewrite Hv.
  change (Ok v ≫= ?f) with (f v). cbv beta zeta.
  rewrite Eloop.
  change (Ok ?b ≫= ?f) with (f b). cbv beta. cbn [fst].
  rewrite (proj1 Hshape). reflexivity.
Qed.

End GenerateClaims.

Section EncoderClaims.
Import JS QREncoder Design.

(** C4, as stated, fails: the record that [generate] returns has no
    [version] field. *)
Lemma generate_has_no_version :
  ~ exists o, generate hello M = Ok o /\ is_Some (o !! "version"%string).
Proof.
  destruct (generate_selected hello M 1 ltac:(vm_compute; reflexivity))
    as (m & mx & _ & _ & E).
  intros (o & Eo & Hversion). rewrite E in Eo. injection Eo as <-.
  rewrite !lookup_insert_ne, lookup_empty in Hversion by discriminate.
  destruct Hversion as [x Hx]. discriminate.
Qed.

(** C4, amended.  For a payload that fits some version of 1..40 at the
    requested EC level, [generate] returns the record of the two fields
    [matrix] and [size] (there is no [version] field), where
    [size = version * 4 + 17] for the version that [getVersion] selects and
    [matrix] has [size] rows of [size] modules, each 0 or 1. *)
Theorem generate_record (text : list Z) (ec : ecLevel) (v : Z) :
  getVersion text ec = Ok v ->
  exists mx,
    generate text ec
    = Ok (<["matrix"%string := VMatrix mx]>
            (<["size"%string := VNum (v * 4 + 17)]> ∅))
    /\ len mx = v * 4 + 17
    /\ Forall (fun row => len row = v * 4 + 17 /\ Forall isBit row) mx.
Proof.
  intros Hv. destruct (generate_selected text ec v Hv) as (m & mx & _ & Hs & E).
  exists mx. split; [exact E |]. exact Hs.
Qed.

Lemma generate_record_witness :
  exists mx,
    generate hello M
    = Ok (<["matrix"%string := VMatrix mx]>
            (<["size"%string := VNum (1 * 4 + 17)]> ∅))
    /\ len mx = 1 * 4 + 17
    /\ Forall (fun row => len row = 1 * 4 + 17 /\ Forall isBit row) mx.
Proof.
  apply (generate_record hello M 1). vm_compute. reflexivity.
Defined.

(** C1, as stated, fails: for six bytes 0x10 at level Q the design
    document's penalty P1+P2+P3+P4 is least for mask 0, and [generate]
    returns the symbol of mask 7.  Mask 7 has the least P1+P2 (267 against
    268) and pays 10 for P4, mask 0 pays nothing; P3 is 40 for both. *)
Lemma generate_not_design_mask :
  selected_mask 1 Q sixBytesData = Some 0
  /\ generated_matrix sixBytes Q = symbolOf (buildSymbol 1 Q sixBytesData 7)
  /\ design_matrix sixBytes Q = symbolOf (buildSymbol 1 Q sixBytesData 0)
  /\ generated_matrix sixBytes Q <> design_matrix sixBytes Q
  /\ scoreOf penalty (buildSymbol 1 Q sixBytesData 0) = Some 308
  /\ scoreOf penalty (buildSymbol 1 Q sixBytesData 7) = Some 317
  /\ scoreOf scorePenalty (buildSymbol 1 Q sixBytesData 0) = Some 268
  /\ scoreOf scorePenalty (buildSymbol 1 Q sixBytesData 7) = Some 267
  /\ scoreOf p3 (buildSymbol 1 Q sixBytesData 0) = Some 40
  /\ scoreOf p3 (buildSymbol 1 Q sixBytesData 7) = Some 40.
Proof.
  repeat (split; [vm_compute; first [reflexivity | discriminate] |]).
  vm_compute. reflexivity.
Qed.

(** C1, amended.  [generate] returns the symbol of the mask of 0..7 with
    the least P1 + P2, which is all that [scorePenalty] adds up (P3 and P4
    are not computed); among masks of equal score it takes the lowest. *)
Theorem generate_least_scorePenalty (text : list Z) (ec : ecLevel) (v : Z) :
  getVersion text ec = Ok v ->
  exists mask mx,
    0 <= mask < 8
    /\ buildSymbol v ec (addErrorCorrection (encodeData text v ec) v ec) mask
       = Ok (mx, sizeOf v)
    /\ generated_matrix text ec = Some mx
    /\ forall mask' mx',
        0 <= mask' < 8 ->
        buildSymbol v ec (addErrorCorrection (encodeData text v ec) v ec) mask'
        = Ok (mx', sizeOf v) ->
        scorePenalty mx' (sizeOf v) = p1 mx' (sizeOf v) + p2 mx' (sizeOf v)
        /\ p1 mx (sizeOf v) + p2 mx (sizeOf v)
           <= p1 mx' (sizeOf v) + p2 mx' (sizeOf v)
        /\ (mask' < mask ->
            p1 mx (sizeOf v) + p2 mx (sizeOf v)
            < p1 mx' (sizeOf v) + p2 mx' (sizeOf v)).
Proof.
  intros Hv. pose proof (getVersion_range text ec v Hv) as Hr.
  destruct (generate_selected text ec v Hv)
    as (m & mx & (Hm & Em & Hleast) & Hshape & E).
  exists m, mx. split; [exact Hm |]. split; [exact Em |].
  split.
  { unfold generated_matrix. rewrite E.
    rewrite lookup_insert_eq. reflexivity. }
  assert (Hsize : 1 <= sizeOf v) by (unfold sizeOf; lia).
  intros mask' mx' Hmask' Em'.
  destruct (buildSymbol_on_grid v ec
              (addErrorCorrection (encodeData text v ec) v ec) mask' Hr)
    as (ms & Ems & _ & Hshape').
  rewrite Em' in Ems. injection Ems as <-. cbn [fst] in Hshape'.
  destruct (Hleast mask' mx' Hmask' Em') as [Hle Hlt].
  rewrite (scorePenalty_p1_p2 mx) in Hle, Hlt
    by (try exact Hsize; apply (shaped_weaken isBit), Hshape).
  rewrite (scorePenalty_p1_p2 mx') in Hle, Hlt
    by (try exact Hsize; apply (shaped_weaken isBit), Hshape').
  split; [| split; assumption].
  apply scorePenalty_p1_p2; [exact Hsize |].
  apply (shaped_weaken isBit), Hshape'.
Qed.

Lemma generate_least_scorePenalty_witness :
  exists mask mx,
    0 <= mask < 8
    /\ buildSymbol 1 M (addErrorCorrection (encodeData hello 1 M) 1 M) mask
       = Ok (mx, sizeOf 1)
    /\ generated_matrix hello M = Some mx
    /\ forall mask' mx',
        0 <= mask' < 8 ->
        buildSymbol 1 M (addErrorCorrection (encodeData hello 1 M) 1 M) mask'
        = Ok (mx', sizeOf 1) ->
        scorePenalty mx' (sizeOf 1) = p1 mx' (sizeOf 1) + p2 mx' (sizeOf 1)
        /\ p1 mx (sizeOf 1) + p2 mx (sizeOf 1)
           <= p1 mx' (sizeOf 1) + p2 mx' (sizeOf 1)
        /\ (mask' < mask ->
            p1 mx (sizeOf 1) + p2 mx (sizeOf 1)
            < p1 mx' (sizeOf 1) + p2 mx' (sizeOf 1)).
Proof.
  apply (generate_least_scorePenalty hello M 1). vm_compute. reflexivity.
Defined.

End EncoderClaims.

Section DecoderClaims.
Import QRDecoder.

Variables image binary pattern ordered modules format : Type.
Variable binarize : image -> Z -> Z -> res binary.
Variable findFinderPatterns : binary -> Z -> Z -> res (list pattern).
Variable orderPatterns : list pattern -> res (option ordered).
Variable estimateVersion : ordered -> res Z.
Variable sampleGrid : binary -> Z -> Z -> ordered -> Z -> res modules.
Variable readFormat : modules -> Z -> res format.
Variable unmask : modules -> Z -> format -> Z -> res modules.
Variable extractBits : modules -> Z -> Z -> res (list Z).
Variable decodeBits : list Z -> Z -> res (list Z).

Local Abbreviation body1 :=
  (decodeBody binarize findFinderPatterns orderPatterns estimateVersion
              sampleGrid readFormat unmask extractBits decodeBits).
Local Abbreviation body2 :=
  (decodeBody2 binarize findFinderPatterns orderPatterns estimateVersion
               sampleGrid readFormat unmask extractBits decodeBits).
Local Abbreviation decode1 :=
  (decode binarize findFinderPatterns orderPatterns estimateVersion
          sampleGrid readFormat unmask extractBits decodeBits).
Local Abbreviation decode2' :=
  (decode2 binarize findFinderPatterns orderPatterns estimateVersion
           sampleGrid readFormat unmask extractBits decodeBits).

Lemma orNull_decoded s : decodedOrNull (Ok (orNull s)).
Proof.
  destruct s as [| c s]; [left; reflexivity |].
  right. exists (c :: s). split; [discriminate | reflexivity].
Qed.

Lemma tryCatchNull_decoded body :
  (forall v, body = Ok v -> decodedOrNull (Ok v)) ->
  decodedOrNull (tryCatchNull body).
Proof.
  intros H. destruct body as [v | msg |]; cbn [tryCatchNull].
  - apply H. reflexivity.
  - left. reflexivity.
  - left. reflexivity.
Qed.

(** Case analysis on the next stage of a body. *)
Ltac stage :=
  match goal with
  | |- (Ok ?a ≫= ?f) = _ -> _ => change (Ok a ≫= f) with (f a); cbv beta
  | |- (?x ≫= _) = Ok _ -> _ =>
      destruct x; [| intros [= ] | intros [= ]]
  | |- (if ?b then _ else _) = _ -> _ => destruct b
  | |- match ?o with Some _ => _ | None => _ end = _ -> _ => destruct o
  | |- Ok _ = Ok _ -> _ => intros [= <-]
  end.

Lemma decodeBody_decoded img w h v :
  body1 img w h = Ok v -> decodedOrNull (Ok v).
Proof.
  unfold decodeBody. repeat stage;
    first [left; reflexivity | apply orNull_decoded].
Qed.

Lemma decodeBody2_decoded img w h v :
  body2 img w h = Ok v -> decodedOrNull (Ok v).
Proof.
  unfold decodeBody2. repeat stage;
    first [left; reflexivity | apply orNull_decoded].
Qed.


End DecoderClaims.

(** * Further properties of the code *)

Section NackFacts.
Import JS QRStream QRStreamNack.

Lemma isDigit_digit n : 0 <= n -> isDigit (48 + n mod 10) = true.
Proof.
  intros Hn. unfold isDigit. pose proof (Z.mod_pos_bound n 10). lia.
Qed.

Lemma digitsOf_app fuel n acc : digitsOf fuel n acc = digitsOf fuel n [] ++ acc.
Proof.
  revert n acc. induction fuel as [| fuel IH]; intros n acc; cbn [digitsOf].
  - reflexivity.
  - cbv zeta. destruct (n <? 10); [reflexivity |].
    rewrite (IH _ (_ :: acc)), (IH _ [_]). rewrite <- app_assoc. reflexivity.
Qed.

(** With enough fuel the digits read back as the number. *)
Lemma digitsOf_value fuel n :
  0 <= n -> (Z.to_nat (Z.log2 n) < fuel)%nat ->
  Forall (fun c => isDigit c = true) (digitsOf fuel n [])
  /\ digitsOf fuel n [] <> []
  /\ forall a, fold_left (fun a d => 10 * a + (d - 48)) (digitsOf fuel n []) a
               = a * 10 ^ Z.of_nat (length (digitsOf fuel n [])) + n.
Proof.
  revert n. induction fuel as [| fuel IH]; intros n Hn Hfuel; [lia |].
  cbn [digitsOf]. cbv zeta. destruct (Z.ltb_spec n 10) as [Hlt | Hge].
  - split; [constructor; [apply isDigit_digit, Hn | constructor] |].
    split; [discriminate |].
    intros a. cbn. rewrite Z.mod_small by lia. lia.
  - assert (Hq : 0 <= n / 10) by (apply Z.div_pos; lia).
    assert (Hlog : (Z.to_nat (Z.log2 (n / 10)) < fuel)%nat).
    { assert (Z.log2 (n / 10) < Z.log2 n); [| pose proof (Z.log2_nonneg (n / 10)); lia].
      assert (Hle : Z.log2 (n / 10) <= Z.log2 (n / 2))
        by (apply Z.log2_le_mono; Z.div_mod_to_equations; lia).
      rewrite <- Z.div2_div, Z.div2_spec, Z.log2_shiftr in Hle by lia.
      assert (1 <= Z.log2 n) by (apply Z.log2_le_pow2; lia).
      lia. }
    destruct (IH (n / 10) Hq Hlog) as (Hd & Hne & Hv).
    rewrite digitsOf_app.
    split; [apply Forall_app; split;
            [exact Hd | constructor; [apply isDigit_digit, Hn | constructor]] |].
    split; [destruct (digitsOf fuel (n / 10) []); [congruence | discriminate] |].
    intros a. rewrite fold_left_app, Hv. cbn [fold_left].
    rewrite length_app. cbn [length].
    rewrite Nat2Z.inj_add, Z.pow_add_r by lia. change (10 ^ Z.of_nat 1) with 10.
    pose proof (Z.div_mod n 10). lia.
Qed.

Lemma takeWhile_all f s : Forall (fun c => f c = true) s -> takeWhile f s = s.
Proof.
  induction 1 as [| c s Hc _ IH]; cbn [takeWhile]; [reflexivity |].
  rewrite Hc, IH. reflexivity.
Qed.

(** [parseInt] reads back what [String] writes. *)
Lemma parseInt10_numberToString n :
  0 <= n -> parseInt10 (numberToString n) = Some n.
Proof.
  intros Hn. unfold numberToString. replace (n <? 0) with false by lia.
  destruct (digitsOf_value (S (Z.to_nat (Z.log2 n))) n Hn ltac:(lia))
    as (Hd & Hne & Hv).
  remember (digitsOf (S (Z.to_nat (Z.log2 n))) n []) as ds eqn:Eds.
  destruct ds as [| d ds]; [congruence |].
  assert (Hd0 : isDigit d = true) by (inversion Hd; assumption).
  unfold parseInt10. cbn [dropWhile].
  assert (Hws : isWhiteSpace d = false).
  { unfold isDigit in Hd0. unfold isWhiteSpace. cbn [existsb].
    repeat match goal with
           | |- context [d =? ?k] => replace (d =? k) with false by lia
           end.
    cbn [orb]. lia. }
  rewrite Hws.
  assert (H45 : (d =? 45) = false) by (unfold isDigit in Hd0; lia).
  assert (H43 : (d =? 43) = false) by (unfold isDigit in Hd0; lia).
  rewrite H45, H43. rewrite (takeWhile_all isDigit (d :: ds) Hd).
  rewrite (Hv 0). f_equal. lia.
Qed.

Lemma numberToString_ascii n :
  0 <= n -> Forall (fun c => 48 <= c <= 57) (numberToString n).
Proof.
  intros Hn. unfold numberToString. replace (n <? 0) with false by lia.
  destruct (digitsOf_value (S (Z.to_nat (Z.log2 n))) n Hn ltac:(lia)) as (Hd & _).
  eapply List.Forall_impl; [| exact Hd]. cbv beta. intros c Hc. unfold isDigit in Hc. lia.
Qed.

Lemma split_no_sep sep s :
  Forall (fun c => c <> sep) s -> split sep s = [s].
Proof.
  induction 1 as [| c s Hc _ IH]; cbn [split]; [reflexivity |].
  replace (c =? sep) with false by lia. rewrite IH. reflexivity.
Qed.

Lemma split_app_sep sep p s :
  Forall (fun c => c <> sep) p -> split sep (p ++ sep :: s) = p :: split sep s.
Proof.
  induction 1 as [| c p Hc _ IH]; cbn [split app].
  - rewrite Z.eqb_refl. reflexivity.
  - replace (c =? sep) with false by lia. rewrite IH. reflexivity.
Qed.

(** Splitting a joined list of parts without separators gives the parts
    back, except that no part at all reads as one empty part. *)
Lemma split_join sep parts :
  Forall (Forall (fun c => c <> sep)) parts -> parts <> [] ->
  split sep (join sep parts) = parts.
Proof.
  induction 1 as [| p parts Hp Hparts IH]; intros Hne; [congruence |].
  cbn [join]. destruct parts as [| q parts].
  - apply split_no_sep, Hp.
  - rewrite split_app_sep by exact Hp. f_equal. apply IH. discriminate.
Qed.

Lemma join_ascii parts :
  Forall (Forall (fun c => 48 <= c <= 57)) parts ->
  Forall (fun c => 0 <= c < 128) (join 44 parts).
Proof.
  induction 1 as [| p parts Hp Hparts IH]; cbn [join]; [constructor |].
  assert (Hp' : Forall (fun c => 0 <= c < 128) p)
    by (eapply List.Forall_impl; [| exact Hp]; cbv beta; lia).
  destruct parts as [| q parts]; [exact Hp' |].
  apply Forall_app. split; [exact Hp' |]. constructor; [lia | exact IH].
Qed.

Section HostTextFacts.
Variable utf8Encode : list Z -> list Z.
Variable utf8Decode : list Z -> list Z.
(** ASCII text is its own UTF-8 encoding. *)
Hypothesis utf8Encode_ascii :
  forall s, Forall (fun c => 0 <= c < 128) s -> utf8Encode s = s.
Hypothesis utf8Decode_ascii :
  forall s, Forall (fun c => 0 <= c < 128) s -> utf8Decode s = s.

(** X1.  NACK round trip: parsing the retransmit request built for a list
    of sequence numbers (non-negative, below 2^53) gives the list back; the
    request for no sequence at all parses as the empty list. *)
Theorem nack_roundtrip (missing : list Z) :
  Forall (fun n => 0 <= n < 2^53) missing ->
  parseNackPacket utf8Decode (createNackPacket utf8Encode missing) = Some missing.
Proof.
  intros Hm. unfold createNackPacket, parseNackPacket. cbv zeta.
  assert (Hparts : Forall (Forall (fun c => 48 <= c <= 57)) (map numberToString missing)).
  { apply List.Forall_map. eapply List.Forall_impl; [| exact Hm]. cbv beta.
    intros n Hn. apply numberToString_ascii. lia. }
  pose proof (join_ascii _ Hparts) as Hascii.
  rewrite utf8Encode_ascii by exact Hascii.
  assert (Hbytes : Forall (fun b => 0 <= b < 256) (join 44 (map numberToString missing)))
    by (eapply List.Forall_impl; [| exact Hascii]; cbv beta; lia).
  rewrite encodePacket_layout, decodePacket_layout;
    try exact Hbytes; try (unfold FLAG_RETRANSMIT; lia).
  change (band FLAG_RETRANSMIT FLAG_RETRANSMIT =? 0) with false. cbv iota.
  rewrite utf8Decode_ascii by exact Hascii. f_equal.
  destruct missing as [| n missing]; [reflexivity |].
  rewrite split_join.
  - clear Hparts Hascii Hbytes. induction Hm as [| k l Hk _ IH]; [reflexivity |].
    cbn [map flat_map]. rewrite parseInt10_numberToString by lia.
    rewrite IH. reflexivity.
  - eapply List.Forall_impl; [| exact Hparts]. cbv beta. intros p Hp.
    eapply List.Forall_impl; [| exact Hp]. cbv beta. lia.
  - discriminate.
Qed.

End HostTextFacts.

Lemma nack_roundtrip_witness :
  parseNackPacket (fun s => s) (createNackPacket (fun s => s) [3; 17; 42])
  = Some [3; 17; 42].
Proof.
  apply (nack_roundtrip (fun s => s) (fun s => s)).
  - intros s _. reflexivity.
  - intros s _. reflexivity.
  - repeat (apply List.Forall_cons; [lia |]). apply List.Forall_nil.
Defined.

End NackFacts.

Section CrcFacts.
Import JS QRStream.

Lemma lxor_lt_pow2 a b n :
  0 <= n -> 0 <= a < 2 ^ n -> 0 <= b < 2 ^ n -> 0 <= Z.lxor a b < 2 ^ n.
Proof.
  intros Hn Ha Hb. split; [apply Z.lxor_nonneg; lia |].
  destruct (Z.eq_dec n 0) as [-> | Hn0].
  { change (2 ^ 0) with 1 in *. replace a with 0 by lia. replace b with 0 by lia.
    reflexivity. }
  destruct (Z.eq_dec (Z.lxor a b) 0) as [-> | Hne]; [lia |].
  apply Z.log2_lt_pow2; [pose proof (proj2 (Z.lxor_nonneg a b)); lia |].
  eapply Z.le_lt_trans; [apply Z.log2_lxor; lia |].
  apply Z.max_lub_lt.
  - destruct (Z.eq_dec a 0) as [-> | ?]; [cbn; lia |].
    apply Z.log2_lt_pow2; lia.
  - destruct (Z.eq_dec b 0) as [-> | ?]; [cbn; lia |].
    apply Z.log2_lt_pow2; lia.
Qed.

(** One shift step below 2^24 is the step on [Z], and doubles the bound. *)
Lemma lxor_16bit a b :
  0 <= a < 65536 -> 0 <= b < 65536 -> 0 <= Z.lxor a b < 65536.
Proof. intros Ha Hb. apply (lxor_lt_pow2 a b 16); [lia | exact Ha | exact Hb]. Qed.

Lemma crc16_bit_plain_eq k u :
  13 <= k <= 24 -> 0 <= u < 2 ^ k ->
  crc16_bit u = crc16_bit_plain u /\ 0 <= crc16_bit_plain u < 2 ^ (k + 1).
Proof.
  intros Hk Hu.
  assert (H24 : 2 ^ k <= 2 ^ 24) by (apply Z.pow_le_mono_r; lia).
  change (2 ^ 24) with 16777216 in H24.
  assert (Hpow : 2 ^ (k + 1) = 2 * 2 ^ k) by (rewrite Z.pow_add_r by lia; change (2 ^ 1) with 2; lia).
  assert (Hshl : shl u 1 = 2 * u).
  { unfold shl. change (1 mod 32) with 1. rewrite (toInt32_small u) by lia.
    rewrite Z.shiftl_mul_pow2 by lia. change (2 ^ 1) with 2.
    rewrite toInt32_small by lia. lia. }
  assert (Hx : 0 <= Z.lxor (2 * u) 4129 < 2 ^ (k + 1)).
  { apply lxor_lt_pow2; [lia | lia |].
    assert (2 ^ 13 <= 2 ^ (k + 1)) by (apply Z.pow_le_mono_r; lia).
    change (2 ^ 13) with 8192 in *. lia. }
  unfold crc16_bit, crc16_bit_plain. rewrite Hshl.
  unfold band, bxor. rewrite !toInt32_small by lia.
  destruct (Z.land u 32768 =? 0); (split; [reflexivity | lia]).
Qed.

Lemma crc16_shift8_plain_eq x :
  0 <= x < 65536 -> crc16_shift8 x = crc16_shift8_plain x.
Proof.
  intros Hx. unfold crc16_shift8, crc16_shift8_plain, forZ.
  assert (H : forall l k u,
             13 <= k -> k + Z.of_nat (length l) <= 24 -> 0 <= u < 2 ^ k ->
             fold_left (fun acc (_ : Z) => crc16_bit acc) l u
             = fold_left (fun acc (_ : Z) => crc16_bit_plain acc) l u
             /\ 0 <= fold_left (fun acc (_ : Z) => crc16_bit_plain acc) l u
                < 2 ^ (k + Z.of_nat (length l))).
  { induction l as [| i l IH]; intros k u Hk Hl Hu; cbn [fold_left length].
    - rewrite Z.add_0_r. split; [reflexivity | exact Hu].
    - cbn [length] in Hl.
      destruct (crc16_bit_plain_eq k u ltac:(lia) Hu) as [E Hr].
      rewrite E. destruct (IH (k + 1) (crc16_bit_plain u) ltac:(lia) ltac:(lia) Hr)
        as [E' Hr'].
      split; [exact E' |].
      replace (k + Z.of_nat (S (length l))) with (k + 1 + Z.of_nat (length l)) by lia.
      exact Hr'. }
  destruct (H (range 0 8) 16 x ltac:(lia) ltac:(unfold range; rewrite length_map, length_seq; lia)
              ltac:(change (2 ^ 16) with 65536; lia)) as [E Hr].
  rewrite E.
  assert (H24 : 2 ^ (16 + Z.of_nat (length (range 0 8))) <= 2 ^ 24)
    by (apply Z.pow_le_mono_r; [lia | unfold range; rewrite length_map, length_seq; lia]).
  change (2 ^ 24) with 16777216 in H24.
  unfold band. rewrite !toInt32_small by lia. reflexivity.
Qed.

(** The eight shift steps are undone by [crc16_unshift8] on every 16-bit
    register value. *)
Lemma crc16_shift8_undone x :
  0 <= x < 65536 -> crc16_unshift8 (crc16_shift8 x) = x.
Proof.
  intros Hx. rewrite crc16_shift8_plain_eq by exact Hx.
  assert (Hall : forallb (fun hi =>
                    forallb (fun lo =>
                      crc16_unshift8 (crc16_shift8_plain (hi * 256 + lo))
                      =? hi * 256 + lo) (range 0 256))
                         (range 0 256) = true)
    by (vm_compute; reflexivity).
  rewrite forallb_forall in Hall.
  assert (Hhi : In (x / 256) (range 0 256))
    by (apply in_range; split; [apply Z.div_pos | apply Z.div_lt_upper_bound]; lia).
  specialize (Hall _ Hhi). rewrite forallb_forall in Hall.
  assert (Hlo : In (x mod 256) (range 0 256))
    by (apply in_range, Z.mod_pos_bound; lia).
  specialize (Hall _ Hlo). apply Z.eqb_eq in Hall.
  replace (x / 256 * 256 + x mod 256) with x in Hall
    by (rewrite (Z.div_mod x 256) at 1 by lia; lia).
  exact Hall.
Qed.

Lemma shl8_byte b : 0 <= b < 256 -> shl b 8 = b * 256.
Proof.
  intros Hb. unfold shl. change (8 mod 32) with 8.
  rewrite (toInt32_small b) by lia. rewrite Z.shiftl_mul_pow2 by lia.
  change (2 ^ 8) with 256. apply toInt32_small. lia.
Qed.

(** The byte XORed into the register. *)
Lemma crc16_xor_in c b :
  0 <= c < 65536 -> 0 <= b < 256 ->
  bxor c (shl b 8) = Z.lxor c (b * 256) /\ 0 <= Z.lxor c (b * 256) < 65536.
Proof.
  intros Hc Hb. rewrite shl8_byte by exact Hb. unfold bxor.
  rewrite !toInt32_small by lia. split; [reflexivity |].
  apply lxor_16bit; lia.
Qed.

Lemma crc16_byte_shift8 c b : crc16_byte c b = crc16_shift8 (bxor c (shl b 8)).
Proof. unfold crc16_byte, crc16_shift8. reflexivity. Qed.

(** Two register values stay different over the same byte, and one value
    becomes different over two different bytes. *)
Lemma crc16_byte_inj c1 b1 c2 b2 :
  0 <= c1 < 65536 -> 0 <= c2 < 65536 -> 0 <= b1 < 256 -> 0 <= b2 < 256 ->
  crc16_byte c1 b1 = crc16_byte c2 b2 ->
  Z.lxor c1 (b1 * 256) = Z.lxor c2 (b2 * 256).
Proof.
  intros Hc1 Hc2 Hb1 Hb2 H. rewrite !crc16_byte_shift8 in H.
  destruct (crc16_xor_in c1 b1 Hc1 Hb1) as [E1 R1].
  destruct (crc16_xor_in c2 b2 Hc2 Hb2) as [E2 R2].
  rewrite E1, E2 in H.
  apply (f_equal crc16_unshift8) in H.
  rewrite !crc16_shift8_undone in H by assumption. exact H.
Qed.

Lemma fold_left_cons {A B} (f : A -> B -> A) (b : B) (l : list B) (a : A) :
  fold_left f (b :: l) a = fold_left f l (f a b).
Proof. reflexivity. Qed.

Lemma crc16_fold_range data init :
  0 <= init < 65536 -> 0 <= fold_left crc16_byte data init < 65536.
Proof.
  intros Hinit.
  apply (fold_left_invariant (fun c => 0 <= c < 65536)); [| exact Hinit].
  intros c b _. apply crc16_byte_range.
Qed.

Lemma crc16_fold_inj data c1 c2 :
  Forall (fun b => 0 <= b < 256) data ->
  0 <= c1 < 65536 -> 0 <= c2 < 65536 ->
  fold_left crc16_byte data c1 = fold_left crc16_byte data c2 -> c1 = c2.
Proof.
  intros Hdata. revert c1 c2.
  induction Hdata as [| b data Hb _ IH]; intros c1 c2 Hc1 Hc2 H.
  - exact H.
  - rewrite !fold_left_cons in H. apply IH in H; try apply crc16_byte_range.
    apply crc16_byte_inj in H; try assumption.
    apply (f_equal (fun x => Z.lxor x (b * 256))) in H.
    rewrite !Z.lxor_assoc, !Z.lxor_nilpotent, !Z.lxor_0_r in H. exact H.
Qed.

(** Changing one byte of the data changes the CRC. *)
Lemma crc16_one_byte pre b b' suf :
  Forall (fun b => 0 <= b < 256) suf ->
  0 <= b < 256 -> 0 <= b' < 256 -> b <> b' ->
  crc16 (pre ++ b :: suf) <> crc16 (pre ++ b' :: suf).
Proof.
  intros Hsuf Hb Hb' Hne H. unfold crc16 in H.
  rewrite !fold_left_app, !fold_left_cons in H.
  assert (Hs : 0 <= fold_left crc16_byte pre 65535 < 65536)
    by (apply crc16_fold_range; lia).
  apply crc16_fold_inj in H; try assumption; try apply crc16_byte_range.
  apply crc16_byte_inj in H; try assumption.
  apply (f_equal (Z.lxor (fold_left crc16_byte pre 65535))) in H.
  rewrite <- !Z.lxor_assoc, !Z.lxor_nilpotent, !Z.lxor_0_l in H. lia.
Qed.

(** What [decodePacket] does with nine well-formed header bytes in front of
    a payload of bytes. *)
Lemma decodePacket_header seq total flags crc payload :
  0 <= seq < 65536 -> 0 <= total < 65536 -> 0 <= flags < 256 ->
  0 <= crc < 65536 ->
  Forall (fun b => 0 <= b < 256) payload ->
  decodePacket (header seq total flags crc ++ payload)
  = if crc16 payload =? crc then DecPacket seq total flags payload
    else DecChecksum seq.
Proof.
  intros Hs Ht Hf Hc Hp.
  unfold decodePacket.
  rewrite map_toUint8_bytes
    by (apply Forall_app; split; [apply header_bytes |]; assumption).
  replace (len (header seq total flags crc ++ payload) <? HEADER_SIZE)
    with false
    by (symmetry; apply Z.ltb_ge; unfold len, HEADER_SIZE;
        rewrite length_app; cbn [length header]; lia).
  unfold header, at_. cbn [app].
  change (Z.to_nat HEADER_SIZE) with 9%nat.
  change (Z.to_nat 0) with 0%nat. change (Z.to_nat 1) with 1%nat.
  change (Z.to_nat 2) with 2%nat. change (Z.to_nat 3) with 3%nat.
  change (Z.to_nat 4) with 4%nat. change (Z.to_nat 5) with 5%nat.
  change (Z.to_nat 6) with 6%nat. change (Z.to_nat 7) with 7%nat.
  change (Z.to_nat 8) with 8%nat.
  cbn [nth skipn MAGIC]. rewrite !Z.eqb_refl. cbn [negb orb].
  rewrite !bor_shl_bytes by assumption.
  change (drop 0 payload) with payload.
  destruct (crc16 payload =? crc); reflexivity.
Qed.

(** X2.  A packet whose payload has one byte changed on the way is always
    caught by the checksum: [decodePacket] reports the checksum error with
    the packet's [seq], and [receive] rejects the frame with reason
    'checksum', records [seq] among the checksum errors and changes nothing
    else. *)
Theorem one_byte_corruption_detected
        (r : Receiver) (seq total flags : Z) (pre suf : list Z) (b b' : Z) :
  0 <= seq < 65536 -> 0 <= total < 65536 -> 0 <= flags < 256 ->
  Forall (fun x => 0 <= x < 256) pre -> Forall (fun x => 0 <= x < 256) suf ->
  0 <= b < 256 -> 0 <= b' < 256 -> b <> b' ->
  exists hdr,
    encodePacket seq total flags (pre ++ b :: suf) = hdr ++ pre ++ b :: suf
    /\ length hdr = 9%nat
    /\ decodePacket (hdr ++ pre ++ b' :: suf) = DecChecksum seq
    /\ receive r (hdr ++ pre ++ b' :: suf)
       = (withChecksumError r seq, [], Ok (Rejected "checksum" (Some seq))).
Proof.
  intros Hs Ht Hf Hpre Hsuf Hb Hb' Hne.
  exists (header seq total flags (crc16 (pre ++ b :: suf))).
  assert (Hp : Forall (fun x => 0 <= x < 256) (pre ++ b :: suf))
    by (apply Forall_app; split; [| constructor]; assumption).
  assert (Hp' : Forall (fun x => 0 <= x < 256) (pre ++ b' :: suf))
    by (apply Forall_app; split; [| constructor]; assumption).
  split; [apply encodePacket_layout; assumption |].
  split; [reflexivity |].
  assert (Hdec : decodePacket (header seq total flags (crc16 (pre ++ b :: suf))
                                 ++ pre ++ b' :: suf) = DecChecksum seq).
  { rewrite decodePacket_header; try assumption; [| apply crc16_range].
    destruct (Z.eqb_spec (crc16 (pre ++ b' :: suf)) (crc16 (pre ++ b :: suf)))
      as [E |]; [| reflexivity].
    symmetry in E. apply crc16_one_byte in E; [destruct E | assumption ..]. }
  split; [exact Hdec |].
  unfold receive. rewrite Hdec. reflexivity.
Qed.

Lemma one_byte_corruption_detected_witness :
  exists hdr,
    encodePacket 7 9 1 ([72] ++ 105 :: [33]) = hdr ++ [72] ++ 105 :: [33]
    /\ length hdr = 9%nat
    /\ decodePacket (hdr ++ [72] ++ 106 :: [33]) = DecChecksum 7
    /\ receive newReceiver (hdr ++ [72] ++ 106 :: [33])
       = (withChecksumError newReceiver 7, [],
          Ok (Rejected "checksum" (Some 7))).
Proof.
  apply (one_byte_corruption_detected newReceiver 7 9 1 [72] [33] 105 106);
    try lia; repeat (apply List.Forall_cons; [lia |]); apply List.Forall_nil.
Defined.

End CrcFacts.

Section SenderFacts.
Import JS QRStream.

Lemma forZ_push {A} (f : Z -> A) lo hi (l : list A) :
  forZ lo hi (fun i acc => acc ++ [f i]) l = l ++ map f (range lo hi).
Proof.
  unfold forZ. generalize (range lo hi) as idx. intros idx. revert l.
  induction idx as [| i idx IH]; intros l; cbn [fold_left map].
  - now rewrite app_nil_r.
  - rewrite IH, <- app_assoc. reflexivity.
Qed.

Lemma forZ_concat {A} lo hi (g : Z -> list A -> list A) (f : Z -> list A) :
  (forall i acc, lo <= i < hi -> g i acc = acc ++ f i) ->
  forall a, forZ lo hi g a = a ++ concat (map f (range lo hi)).
Proof.
  intros Hg. unfold forZ.
  assert (H : forall l, (forall i, In i l -> lo <= i < hi) ->
                        forall a, fold_left (fun acc i => g i acc) l a
                                  = a ++ concat (map f l)).
  { induction l as [| i l IH]; intros Hl a; cbn [fold_left map concat].
    - now rewrite app_nil_r.
    - rewrite IH by (intros j Hj; apply Hl; now right).
      rewrite Hg by (apply Hl; now left). now rewrite <- app_assoc. }
  apply H. intros i Hi. now apply in_range.
Qed.

Lemma range_length lo hi : length (range lo hi) = Z.to_nat (hi - lo).
Proof. unfold range. now rewrite length_map, length_seq. Qed.

Lemma range_snoc lo hi : lo <= hi -> range lo (hi + 1) = range lo hi ++ [hi].
Proof.
  intros H. unfold range.
  replace (Z.to_nat (hi + 1 - lo)) with (S (Z.to_nat (hi - lo))) by lia.
  rewrite seq_S, map_app. cbn [map plus]. do 2 f_equal. lia.
Qed.

Lemma range_nth_error lo hi i :
  0 <= i < hi - lo -> nth_error (range lo hi) (Z.to_nat i) = Some (lo + i).
Proof.
  intros Hi. unfold range.
  rewrite nth_error_map, nth_error_seq.
  destruct (Nat.ltb_spec (Z.to_nat i) (Z.to_nat (hi - lo))) as [_ | H]; [| lia].
  cbn [option_map]. f_equal. lia.
Qed.

Lemma range_NoDup lo hi : NoDup (range lo hi).
Proof.
  unfold range. apply NoDup_fmap_2; [| apply NoDup_seq].
  intros a b H. lia.
Qed.

Lemma createPackets_map cs data :
  createPackets cs data
  = map (createPacket cs data (ceilDiv (len data) cs))
        (range 0 (ceilDiv (len data) cs)).
Proof. unfold createPackets. cbv zeta. now rewrite forZ_push. Qed.

Lemma ceilDiv_bounds a b :
  0 <= a -> 0 < b -> 0 <= ceilDiv a b /\ a <= ceilDiv a b * b
                     /\ (ceilDiv a b - 1) * b < a.
Proof.
  intros Ha Hb. unfold ceilDiv.
  pose proof (Z.div_mod (- a) b ltac:(lia)) as E.
  pose proof (Z.mod_pos_bound (- a) b Hb) as M.
  repeat split; nia.
Qed.

Lemma flagsOf_values n i :
  flagsOf n i = (if i =? 0 then 1 else 0) + (if i =? n - 1 then 2 else 0).
Proof.
  unfold flagsOf. cbv zeta.
  destruct (i =? 0), (i =? n - 1); reflexivity.
Qed.

Lemma flagsOf_range n i : 0 <= flagsOf n i < 256.
Proof. rewrite flagsOf_values. destruct (i =? 0), (i =? n - 1); lia. Qed.

Lemma slice_bytes data s e : isBytes data -> isBytes (slice data s e).
Proof.
  intros H. unfold slice, isBytes. apply Forall_take, Forall_drop, H.
Qed.

Lemma createPacket_layout cs data n i :
  isBytes data -> 0 <= i < n -> n < 65536 ->
  createPacket cs data n i
  = header i n (flagsOf n i) (crc16 (chunkOf cs data i)) ++ chunkOf cs data i.
Proof.
  intros Hd Hi Hn. unfold createPacket. cbv zeta.
  change (slice data (i * cs) (Z.min (i * cs + cs) (len data)))
    with (chunkOf cs data i).
  change (if i =? n - 1
          then bor (if i =? 0 then bor 0 FLAG_FIRST else 0) FLAG_LAST
          else if i =? 0 then bor 0 FLAG_FIRST else 0)
    with (flagsOf n i).
  apply encodePacket_layout; [lia | lia | apply flagsOf_range |].
  apply slice_bytes, Hd.
Qed.

Lemma createPacket_decode cs data n i :
  isBytes data -> 0 <= i < n -> n < 65536 ->
  decodePacket (createPacket cs data n i)
  = DecPacket i n (flagsOf n i) (chunkOf cs data i).
Proof.
  intros Hd Hi Hn. rewrite createPacket_layout by assumption.
  rewrite decodePacket_header;
    [ | lia | lia | apply flagsOf_range | apply crc16_range
      | apply slice_bytes, Hd ].
  now rewrite Z.eqb_refl.
Qed.

Lemma chunkOf_take cs data k :
  0 < cs ->
  chunkOf cs data (Z.of_nat k)
  = firstn (Z.to_nat cs) (skipn (k * Z.to_nat cs) data).
Proof.
  intros Hcs. unfold chunkOf, slice.
  replace (Z.to_nat (Z.of_nat k * cs)) with (k * Z.to_nat cs)%nat by nia.
  destruct (Z.le_gt_cases (Z.of_nat k * cs + cs) (len data)) as [Hle | Hgt].
  - f_equal. lia.
  - rewrite !firstn_all2; [reflexivity | |];
      rewrite length_skipn; unfold len in *; nia.
Qed.

Lemma chunks_take cs data k :
  0 < cs ->
  concat (map (chunkOf cs data) (range 0 (Z.of_nat k)))
  = firstn (k * Z.to_nat cs) data.
Proof.
  intros Hcs. induction k as [| k IH].
  - reflexivity.
  - replace (Z.of_nat (S k)) with (Z.of_nat k + 1) by lia.
    rewrite range_snoc by lia.
    rewrite map_app, concat_app, IH. cbn [map concat].
    rewrite app_nil_r, chunkOf_take by exact Hcs.
    rewrite take_take_drop. f_equal. lia.
Qed.

Lemma chunks_concat cs data :
  0 < cs ->
  concat (map (chunkOf cs data) (range 0 (ceilDiv (len data) cs))) = data.
Proof.
  intros Hcs.
  destruct (ceilDiv_bounds (len data) cs (len_nonneg data) Hcs) as (H0 & Hn & _).
  rewrite <- (Z2Nat.id (ceilDiv (len data) cs)) by exact H0.
  rewrite chunks_take by exact Hcs.
  apply firstn_all2. unfold len in *. nia.
Qed.

Lemma getPacket_new data cs i :
  0 < cs -> 0 <= i < ceilDiv (len data) cs ->
  getPacket (newSender data (Some cs)) i
  = Some (createPacket cs data (ceilDiv (len data) cs) i).
Proof.
  intros Hcs Hi. unfold getPacket, newSender.
  destruct (Z.eqb_spec cs 0) as [-> | _]; [lia |].
  cbn [spackets]. destruct (Z.ltb_spec i 0) as [? | _]; [lia |].
  rewrite createPackets_map, nth_error_map, range_nth_error by lia.
  reflexivity.
Qed.

(** X3.  A sender made from a byte array with a positive chunk size cuts
    it into ceil(length / chunkSize) packets.  Packet [i] decodes to
    sequence number [i], that total, and the [i]-th chunk; its FIRST flag is
    set exactly for [i = 0] and its LAST flag exactly for the last packet;
    every chunk but the last has [chunkSize] bytes, and the chunks in order
    make up the data again. *)
Theorem sender_packets (data : list Z) (cs : Z) :
  isBytes data -> 0 < cs -> ceilDiv (len data) cs < 65536 ->
  let s := newSender data (Some cs) in
  let n := ceilDiv (len data) cs in
  totalPackets s = n
  /\ (forall i, 0 <= i < n ->
        exists frame flags chunk,
          getPacket s i = Some frame
          /\ decodePacket frame = DecPacket i n flags chunk
          /\ chunk = slice data (i * cs) (i * cs + cs)
          /\ (i < n - 1 -> len chunk = cs)
          /\ 0 < len chunk <= cs
          /\ (band flags FLAG_FIRST <> 0 <-> i = 0)
          /\ (band flags FLAG_LAST <> 0 <-> i = n - 1))
  /\ (forall i, n <= i -> getPacket s i = None)
  /\ concat (map (fun i => slice data (i * cs) (i * cs + cs)) (range 0 n))
     = data.
Proof.
  intros Hd Hcs Hn s n.
  destruct (ceilDiv_bounds (len data) cs (len_nonneg data) Hcs)
    as (H0 & Hup & Hlow).
  fold n in H0, Hup, Hlow, Hn.
  assert (Hchunk : forall i, slice data (i * cs) (i * cs + cs)
                             = chunkOf cs data i).
  { intros i. unfold chunkOf, slice. do 2 f_equal. lia. }
  assert (Htot : totalPackets s = n).
  { unfold totalPackets, s, newSender.
    destruct (Z.eqb_spec cs 0) as [-> | _]; [lia |].
    cbn [spackets]. rewrite createPackets_map. fold n. unfold len.
    rewrite length_map, range_length. lia. }
  split; [exact Htot |]. split; [| split].
  - intros i Hi.
    exists (createPacket cs data n i), (flagsOf n i), (chunkOf cs data i).
    split; [apply getPacket_new; assumption |].
    split; [apply createPacket_decode; assumption |].
    split; [now rewrite Hchunk |].
    assert (Hlen : len (chunkOf cs data i)
                   = Z.min (i * cs + cs) (len data) - i * cs).
    { unfold chunkOf, slice, len. rewrite length_firstn, length_skipn.
      fold (len data). pose proof (len_nonneg data).
      assert (0 < len data) by nia.
      assert (i * cs < len data) by nia.
      unfold len in *. lia. }
    assert (0 < len data) by nia.
    split; [intros Hlt; rewrite Hlen; nia |].
    split; [rewrite Hlen; nia |].
    rewrite flagsOf_values.
    destruct (Z.eqb_spec i 0), (Z.eqb_spec i (n - 1));
      repeat match goal with
             | |- context [band ?a ?b] =>
                 let v := eval vm_compute in (band a b) in
                 change (band a b) with v
             end; lia.
  - intros i Hi. unfold getPacket.
    destruct (Z.ltb_spec i 0) as [? | _]; [reflexivity |].
    apply nth_error_None. fold (len (spackets s)) in *.
    unfold totalPackets, len in Htot. lia.
  - rewrite (map_ext _ _ Hchunk). apply chunks_concat, Hcs.
Qed.

Lemma sender_packets_witness :
  let data := [10; 20; 30; 40; 50] in
  let s := newSender data (Some 2) in
  let n := ceilDiv (len data) 2 in
  totalPackets s = n
  /\ (forall i, 0 <= i < n ->
        exists frame flags chunk,
          getPacket s i = Some frame
          /\ decodePacket frame = DecPacket i n flags chunk
          /\ chunk = slice data (i * 2) (i * 2 + 2)
          /\ (i < n - 1 -> len chunk = 2)
          /\ 0 < len chunk <= 2
          /\ (band flags FLAG_FIRST <> 0 <-> i = 0)
          /\ (band flags FLAG_LAST <> 0 <-> i = n - 1))
  /\ (forall i, n <= i -> getPacket s i = None)
  /\ concat (map (fun i => slice data (i * 2) (i * 2 + 2)) (range 0 n))
     = data.
Proof.
  apply (sender_packets [10; 20; 30; 40; 50] 2).
  - repeat (apply List.Forall_cons; [lia |]). apply List.Forall_nil.
  - lia.
  - vm_compute. reflexivity.
Defined.

(** The packets handed out from index [c] on when nothing is queued. *)
Lemma runSender_from (s : Sender) (k : nat) :
  retransmitQueue s = [] -> 0 <= currentIndex s ->
  runSender s (emitted k)
  = map (fun i => mkNext (getPacket s i) i false)
        (range (currentIndex s)
               (Z.max (currentIndex s)
                      (Z.min (currentIndex s + Z.of_nat k) (totalPackets s)))).
Proof.
  revert s. induction k as [| k IH]; intros s Hq Hc.
  - cbn [emitted repeat runSender]. rewrite range_nil by lia. reflexivity.
  - cbn [emitted repeat runSender]. unfold getNextPacket. rewrite Hq.
    fold (totalPackets s).
    destruct (Z.leb_spec (totalPackets s) (currentIndex s)) as [Hle | Hlt].
    + fold (emitted k). rewrite IH by assumption.
      rewrite !range_nil by lia. reflexivity.
    + fold (emitted k).
      rewrite IH by (cbn [retransmitQueue currentIndex]; first [reflexivity | lia]).
      unfold totalPackets, getPacket in *. cbn [currentIndex spackets].
      rewrite (range_cons (currentIndex s)) by lia.
      cbn [map]. do 3 f_equal. lia.
Qed.

(** X4.  Calling [getNextPacket] [k] times on a new sender hands out the
    packets 0, 1, ... in order, none marked as a retransmission, and stops
    after the last one: the calls beyond [totalPackets] return [null]. *)
Theorem sender_emits_in_order (data : list Z) (optChunk : option Z) (k : nat) :
  let s := newSender data optChunk in
  runSender s (emitted k)
  = map (fun i => mkNext (getPacket s i) i false)
        (range 0 (Z.min (Z.of_nat k) (totalPackets s)))
  /\ forall i, In i (range 0 (Z.min (Z.of_nat k) (totalPackets s))) ->
               is_Some (getPacket s i).
Proof.
  intros s. split.
  - rewrite runSender_from by (first [reflexivity | cbn; lia]).
    change (currentIndex s) with 0.
    assert (0 <= totalPackets s) by apply len_nonneg.
    do 2 f_equal. lia.
  - intros i Hi. apply in_range in Hi. unfold getPacket.
    destruct (Z.ltb_spec i 0) as [? | _]; [lia |].
    destruct (nth_error (spackets s) (Z.to_nat i)) eqn:E; [eexists; reflexivity |].
    apply nth_error_None in E. unfold totalPackets, len in Hi. lia.
Qed.

Lemma runSender_queue (s : Sender) (k : nat) :
  runSender s (emitted (length (retransmitQueue s) + k))
  = map (fun q => mkNext (getPacket s q) q true) (retransmitQueue s)
    ++ runSender (mkSender (chunkSize s) (sdata s) (spackets s)
                           (currentIndex s) [])
                 (emitted k).
Proof.
  destruct s as [cs d ps c q]. cbn [retransmitQueue chunkSize sdata spackets
                                    currentIndex].
  induction q as [| x q IH].
  - reflexivity.
  - cbn [length plus emitted repeat runSender]. unfold getNextPacket.
    cbn [retransmitQueue chunkSize sdata spackets currentIndex map app].
    f_equal. exact IH.
Qed.

(** X5.  Sequences passed to [requestRetransmit] are served before
    anything else, in the order requested and marked as retransmissions;
    the regular order then resumes where it stood.  The sequences are not
    checked: one outside the packet list is served with an undefined
    packet. *)
Theorem retransmit_served_first (s : Sender) (sequences : list Z) (k : nat) :
  retransmitQueue s = [] ->
  runSender (requestRetransmit s sequences)
            (emitted (length sequences + k))
  = map (fun q => mkNext (getPacket s q) q true) sequences
    ++ runSender s (emitted k)
  /\ forall q, In q sequences -> q < 0 \/ totalPackets s <= q ->
               getPacket s q = None.
Proof.
  intros Hq. split.
  - destruct s as [cs d ps c q].
    cbn [retransmitQueue] in Hq. subst q.
    exact (runSender_queue (mkSender cs d ps c sequences) k).
  - intros q _ [Hneg | Hbig]; unfold getPacket.
    + destruct (Z.ltb_spec q 0); [reflexivity | lia].
    + destruct (Z.ltb_spec q 0); [reflexivity |].
      apply nth_error_None. unfold totalPackets, len in Hbig. lia.
Qed.

Lemma retransmit_served_first_witness :
  let s := newSender [1; 2; 3] (Some 1) in
  runSender (requestRetransmit s [2; 7]) (emitted (length [2; 7] + 1))
  = map (fun q => mkNext (getPacket s q) q true) [2; 7]
    ++ runSender s (emitted 1)
  /\ forall q, In q [2; 7] -> q < 0 \/ totalPackets s <= q ->
               getPacket s q = None.
Proof.
  apply (retransmit_served_first (newSender [1; 2; 3] (Some 1)) [2; 7] 1).
  reflexivity.
Defined.

End SenderFacts.

Section ReceiverFacts.
Import JS QRStream.

Lemma forZ_filter (keep : Z -> bool) lo hi (l : list Z) :
  forZ lo hi (fun i missing => if keep i then missing else missing ++ [i]) l
  = l ++ List.filter (fun i => negb (keep i)) (range lo hi).
Proof.
  unfold forZ. generalize (range lo hi) as idx. intros idx. revert l.
  induction idx as [| i idx IH]; intros l; cbn [fold_left List.filter].
  - now rewrite app_nil_r.
  - rewrite IH. destruct (keep i); cbn [negb]; [reflexivity |].
    now rewrite <- app_assoc.
Qed.

Lemma has_true r i : has r i = true <-> is_Some (packets r !! i).
Proof. unfold has. apply bool_decide_eq_true. Qed.

Lemma has_false r i : has r i = false <-> packets r !! i = None.
Proof.
  unfold has. rewrite bool_decide_eq_false, <- eq_None_not_Some. reflexivity.
Qed.

Lemma range_sorted lo hi : StronglySorted Z.lt (range lo hi).
Proof.
  destruct (Z.le_gt_cases hi lo) as [H | H].
  - rewrite range_nil by exact H. constructor.
  - remember (Z.to_nat (hi - lo)) as k eqn:Ek. revert lo H Ek.
    induction k as [| k IH]; intros lo H Ek; [lia |].
    rewrite range_cons by lia. constructor.
    + destruct (Z.eq_dec (lo + 1) hi) as [<- | Hne].
      * rewrite range_nil by lia. constructor.
      * apply IH; lia.
    + apply List.Forall_forall. intros x Hx. apply in_range in Hx. lia.
Qed.

Lemma filter_sorted {A} (R : A -> A -> Prop) (f : A -> bool) l :
  StronglySorted R l -> StronglySorted R (List.filter f l).
Proof.
  induction 1 as [| a l Hs IH Ha]; cbn [List.filter]; [constructor |].
  destruct (f a); [| exact IH].
  constructor; [exact IH |].
  apply List.Forall_forall. intros x Hx. apply List.filter_In in Hx.
  rewrite List.Forall_forall in Ha. apply Ha, Hx.
Qed.

Lemma filter_none {A} (f : A -> bool) l :
  Forall (fun x => f x = false) l -> List.filter f l = [].
Proof.
  induction 1 as [| a l Ha _ IH]; cbn [List.filter]; [reflexivity |].
  rewrite Ha. exact IH.
Qed.

(** X6.  [getMissingSequences] lists, in increasing order, exactly the
    sequence numbers below [totalPackets] for which no packet is stored;
    before the first accepted frame, when the total is not known, it lists
    nothing. *)
Theorem missing_sequences (r : Receiver) :
  (forall i, In i (getMissingSequences r)
             <-> exists total, rtotalPackets r = Some total
                               /\ 0 <= i < total /\ packets r !! i = None)
  /\ StronglySorted Z.lt (getMissingSequences r).
Proof.
  unfold getMissingSequences. destruct (rtotalPackets r) as [total |].
  - rewrite forZ_filter. cbn [app]. split.
    + intros i. rewrite List.filter_In, in_range, negb_true_iff, has_false.
      split.
      * intros [Hi Hn]. exists total. auto.
      * intros (t & [= <-] & Hi & Hn). auto.
    + apply filter_sorted, range_sorted.
  - split; [| constructor].
    intros i. split; [intros [] | intros (t & [=] & _)].
Qed.

(** X7.  [receive] never replaces a stored packet and never changes a total
    that is set: the first payload stored for a sequence number and the
    total of the first accepted frame stay, whatever frames follow.  The
    callbacks are left as they are. *)
Theorem receive_keeps_entries (r : Receiver) (frame : list Z) :
  let r' := stateOf (receive r frame) in
  (forall seq chunk, packets r !! seq = Some chunk ->
                     packets r' !! seq = Some chunk)
  /\ (forall t, rtotalPackets r = Some t -> rtotalPackets r' = Some t)
  /\ onProgress r' = onProgress r /\ onComplete r' = onComplete r.
Proof.
  unfold receive, stateOf.
  destruct (decodePacket frame) as [| seq | seq total flags data];
    cbn [fst snd packets rtotalPackets onProgress onComplete];
    [auto | auto |].
  set (r1 := if has r seq then r else _).
  set (r2 := match rtotalPackets r1 with None => _ | Some _ => r1 end).
  assert (H1 : (forall s chunk, packets r !! s = Some chunk ->
                                packets r1 !! s = Some chunk)
               /\ rtotalPackets r1 = rtotalPackets r
               /\ onProgress r1 = onProgress r /\ onComplete r1 = onComplete r).
  { subst r1. destruct (has r seq) eqn:Hh; [auto |].
    cbn [packets rtotalPackets onProgress onComplete].
    split; [| split; [reflexivity | split; reflexivity]].
    intros s chunk Hs. apply has_false in Hh.
    rewrite lookup_insert_ne; [exact Hs |]. intros ->. congruence. }
  destruct H1 as (Hp1 & Ht1 & Hop1 & Hoc1).
  assert (H2 : packets r2 = packets r1
               /\ (forall t, rtotalPackets r1 = Some t -> rtotalPackets r2 = Some t)
               /\ onProgress r2 = onProgress r1 /\ onComplete r2 = onComplete r1).
  { subst r2. destruct (rtotalPackets r1) eqn:E;
      [split; [reflexivity | split; [intros t Ht; congruence | split; reflexivity]] |].
    cbn [packets rtotalPackets onProgress onComplete].
    split; [reflexivity | split; [intros t [=] | split; reflexivity]]. }
  destruct H2 as (Hp2 & Ht2 & Hop2 & Hoc2).
  assert (Hgoal : (forall s chunk, packets r !! s = Some chunk ->
                                   packets r2 !! s = Some chunk)
                  /\ (forall t, rtotalPackets r = Some t ->
                                rtotalPackets r2 = Some t)
                  /\ onProgress r2 = onProgress r /\ onComplete r2 = onComplete r).
  { split; [| split; [| split; congruence]].
    - intros s chunk Hs. rewrite Hp2. auto.
    - intros t Ht. apply Ht2. congruence. }
  clearbody r1 r2.
  destruct (isComplete r2 && onComplete r2); [| exact Hgoal].
  destruct (reassemble r2); exact Hgoal.
Qed.

(** X8.  A frame with total 1 and a sequence number other than 0, which
    [decodePacket] accepts, makes a new receiver whose [onComplete] is set
    throw: one packet of one is stored, so the stream counts as complete,
    and [reassemble] reads the length of the packet 0 that is not there.
    The frame is stored all the same. *)
Theorem stray_sequence_throws (p : bool) (seq flags : Z) (payload : list Z) :
  1 <= seq < 65536 -> 0 <= flags < 256 -> isBytes payload ->
  let out := receive (listening p true) (encodePacket seq 1 flags payload) in
  resultOf out = Throw "TypeError"
  /\ packets (stateOf out) !! seq = Some payload
  /\ isComplete (stateOf out) = true.
Proof.
  intros Hs Hf Hp out. subst out. unfold receive.
  rewrite encodePacket_layout by (first [assumption | lia]).
  rewrite decodePacket_header by (first [assumption | lia | apply crc16_range]).
  rewrite Z.eqb_refl.
  assert (Hh : has (listening p true) seq = false)
    by (apply has_false; apply lookup_empty).
  rewrite Hh. cbn [rtotalPackets listening packets onProgress onComplete
                   checksumErrors].
  set (r2 := mkReceiver _ _ _ _ _).
  assert (Hc : isComplete r2 = true).
  { unfold isComplete, psize, r2. cbn [rtotalPackets packets].
    rewrite map_size_insert_None by apply lookup_empty.
    rewrite map_size_empty. reflexivity. }
  rewrite Hc.
  assert (Hr : reassemble r2 = Throw "TypeError").
  { unfold reassemble. rewrite Hc. cbn [negb rtotalPackets r2].
    unfold forR. rewrite (range_cons 0 1) by lia. rewrite range_nil by lia.
    cbn [fold_left packets r2].
    rewrite lookup_insert_ne by lia. rewrite lookup_empty. reflexivity. }
  cbn [onComplete r2 andb]. fold r2. rewrite Hr.
  unfold resultOf, stateOf. cbn [fst snd].
  repeat split; [| exact Hc].
  unfold r2. cbn [packets]. apply lookup_insert_eq.
Qed.

Lemma stray_sequence_throws_witness :
  let out := receive (listening false true) (encodePacket 5 1 3 [72; 105]) in
  resultOf out = Throw "TypeError"
  /\ packets (stateOf out) !! 5 = Some [72; 105]
  /\ isComplete (stateOf out) = true.
Proof.
  apply (stray_sequence_throws false 5 3 [72; 105]); try lia.
  repeat (apply List.Forall_cons; [lia |]). apply List.Forall_nil.
Defined.

End ReceiverFacts.

Section Transfer.
Import JS QRStream.

Variable data : list Z.
Variable cs : Z.
Hypothesis data_bytes : isBytes data.
Hypothesis cs_pos : 0 < cs.
Hypothesis total_16bit : ceilDiv (len data) cs < 65536.

Local Abbreviation n := (ceilDiv (len data) cs).
Local Abbreviation packet := (createPacket cs data (ceilDiv (len data) cs)).
Local Abbreviation chunk := (chunkOf cs data).

Lemma holds_listening p c : holds cs data n (listening p c).
Proof.
  split; [| reflexivity].
  intros i ch H. cbn [listening packets] in H.
  rewrite lookup_empty in H. discriminate H.
Qed.

(** A receiver with all [n] packets holds every one of them. *)
Lemma holds_complete r :
  holds cs data n r -> isComplete r = true ->
  rtotalPackets r = Some n
  /\ forall i, 0 <= i < n -> packets r !! i = Some (chunk i).
Proof.
  intros [Hin Htot] Hc. unfold isComplete in Hc.
  destruct (rtotalPackets r) as [t |]; [| discriminate Hc].
  subst t. split; [reflexivity |].
  apply Z.eqb_eq in Hc. unfold psize in Hc.
  set (full := list_to_set (range 0 n) : gset Z).
  assert (Hsub : dom (packets r) ⊆ full).
  { intros i Hi. apply elem_of_dom in Hi. destruct Hi as [ch Hi].
    apply Hin in Hi. apply elem_of_list_to_set, list_elem_of_In, in_range.
    tauto. }
  assert (Hsize : size full = size (dom (packets r))).
  { unfold full. rewrite size_list_to_set by apply range_NoDup.
    rewrite size_dom, range_length.
    change (length (range 0 n)) with (length (range 0 n)). lia. }
  assert (Heq : dom (packets r) = full).
  { apply set_subseteq_size_eq; [exact Hsub | lia]. }
  intros i Hi.
  assert (Hd : i ∈ dom (packets r)).
  { rewrite Heq. apply elem_of_list_to_set, list_elem_of_In, in_range. lia. }
  apply elem_of_dom in Hd. destruct Hd as [ch Hch].
  destruct (Hin _ _ Hch) as [_ ->]. exact Hch.
Qed.

Lemma reassemble_holds r :
  holds cs data n r -> isComplete r = true -> reassemble r = Ok (Some data).
Proof.
  intros Hh Hc. destruct (holds_complete r Hh Hc) as [Ht Hall].
  unfold reassemble. rewrite Hc, Ht. cbn [negb].
  assert (Hloop : succeeds (fun _ => True)
            (forR 0 n
               (fun i totalSize =>
                  match packets r !! i with
                  | Some ch => Ok (totalSize + len ch)
                  | None => Throw "TypeError"
                  end) 0)).
  { apply succeeds_forR; [| exact I].
    intros i s Hi _. rewrite (Hall i Hi). eexists. split; [reflexivity | exact I]. }
  destruct Hloop as (a & -> & _).
  rewrite (forZ_concat 0 n _ chunk).
  - cbn [app]. rewrite chunks_concat by exact cs_pos. reflexivity.
  - intros i acc Hi. rewrite (Hall i Hi). reflexivity.
Qed.

(** One packet of the stream received. *)
Lemma receive_packet r i :
  holds cs data n r -> 0 <= i < n ->
  exists r' evs,
    receive r (packet i) = (r', evs, Ok (Accepted i n))
    /\ holds cs data n r'
    /\ rtotalPackets r' = Some n
    /\ packets r' = <[i := chunk i]> (packets r)
    /\ onComplete r' = onComplete r
    /\ (isComplete r' = true -> onComplete r = true ->
        exists evs', evs = evs' ++ [EvComplete (Some data)]).
Proof.
  intros [Hin Htot] Hi. unfold receive.
  rewrite createPacket_decode by (first [assumption | lia]).
  set (r1 := if has r i then r else _).
  assert (H1 : packets r1 = <[i := chunk i]> (packets r)
               /\ rtotalPackets r1 = rtotalPackets r
               /\ onComplete r1 = onComplete r).
  { subst r1. destruct (has r i) eqn:Hh.
    - apply has_true in Hh. destruct Hh as [ch Hch].
      destruct (Hin _ _ Hch) as [_ ->].
      rewrite insert_id by exact Hch. auto.
    - cbn [packets rtotalPackets onComplete]. auto. }
  destruct H1 as (Hp1 & Ht1 & Hc1). clearbody r1.
  set (r2 := match rtotalPackets r1 with None => _ | Some _ => r1 end).
  assert (H2 : packets r2 = packets r1 /\ rtotalPackets r2 = Some n
               /\ onComplete r2 = onComplete r1).
  { subst r2. rewrite Ht1. destruct (rtotalPackets r) as [t |].
    - subst t. rewrite Ht1. auto.
    - cbn [packets rtotalPackets onComplete]. auto. }
  destruct H2 as (Hp2 & Ht2 & Hc2). clearbody r2.
  assert (Hh2 : holds cs data n r2).
  { split; [| now rewrite Ht2].
    intros j ch. rewrite Hp2, Hp1.
    destruct (Z.eq_dec i j) as [<- | Hne].
    - rewrite lookup_insert_eq. intros [= <-]. auto.
    - rewrite lookup_insert_ne by exact Hne. apply Hin. }
  set (ev1 := if onProgress r2 then _ else []).
  destruct (isComplete r2) eqn:Hcomp; cbn [andb].
  - destruct (onComplete r2) eqn:Hon.
    + rewrite (reassemble_holds r2 Hh2 Hcomp).
      exists r2, (ev1 ++ [EvComplete (Some data)]).
      split; [reflexivity |]. split; [exact Hh2 |]. split; [exact Ht2 |].
      split; [congruence |]. split; [congruence |].
      intros _ _. exists ev1. reflexivity.
    + exists r2, ev1.
      split; [reflexivity |]. split; [exact Hh2 |]. split; [exact Ht2 |].
      split; [congruence |]. split; congruence.
  - exists r2, ev1.
    split; [reflexivity |]. split; [exact Hh2 |]. split; [exact Ht2 |].
    split; [congruence |]. split; congruence.
Qed.

Lemma packet_inj i j :
  0 <= i < n -> 0 <= j < n -> packet i = packet j -> i = j.
Proof.
  intros Hi Hj E. apply (f_equal decodePacket) in E.
  rewrite !createPacket_decode in E by (first [assumption | lia]).
  now injection E.
Qed.

Lemma feed_packets frames :
  (forall f, In f frames -> exists i, 0 <= i < n /\ f = packet i) ->
  forall r, holds cs data n r ->
  exists r' evs,
    feed r frames = (r', evs)
    /\ holds cs data n r'
    /\ onComplete r' = onComplete r
    /\ (forall i ch, packets r !! i = Some ch -> packets r' !! i = Some ch)
    /\ (forall i, 0 <= i < n -> In (packet i) frames ->
                  packets r' !! i = Some (chunk i))
    /\ (frames <> [] -> isComplete r' = true -> onComplete r = true ->
        exists evs', evs = evs' ++ [EvComplete (Some data)]).
Proof.
  induction frames as [| f frames IH]; intros Hf r Hr.
  - exists r, []. cbn [feed].
    split; [reflexivity |]. split; [exact Hr |]. split; [reflexivity |].
    split; [auto |]. split; [intros i _ [] |].
    intros H. now destruct H.
  - destruct (Hf f (or_introl eq_refl)) as (i & Hi & ->).
    destruct (receive_packet r i Hr Hi)
      as (r1 & evs1 & E1 & Hr1 & Ht1 & Hp1 & Hc1 & Hev1).
    destruct (IH (fun g Hg => Hf g (or_intror Hg)) r1 Hr1)
      as (r' & evs' & E' & Hr' & Hc' & Hmono & Hall & Hev').
    exists r', (evs1 ++ evs'). cbn [feed]. rewrite E1, E'.
    split; [reflexivity |]. split; [exact Hr' |].
    split; [congruence |]. split; [| split].
    + intros j ch Hj. apply Hmono. rewrite Hp1.
      destruct (Z.eq_dec i j) as [<- | Hne].
      * destruct Hr as [Hin _]. destruct (Hin _ _ Hj) as [_ ->].
        apply lookup_insert_eq.
      * rewrite lookup_insert_ne by exact Hne. exact Hj.
    + intros j Hj [Heq | Hin].
      * apply packet_inj in Heq; [| assumption ..]. subst j.
        apply Hmono. rewrite Hp1. apply lookup_insert_eq.
      * apply Hall; assumption.
    + intros _ Hcomp Hon. destruct frames as [| g frames].
      * cbn [feed] in E'. injection E' as <- <-.
        destruct (Hev1 Hcomp Hon) as [e ->].
        exists e. now rewrite app_nil_r.
      * destruct (Hev' ltac:(discriminate) Hcomp ltac:(congruence)) as [e ->].
        exists (evs1 ++ e). now rewrite app_assoc.
Qed.

(** X9.  A transfer ends with the sender's data whatever the order of the
    frames: when a new receiver is fed frames that are packets of one
    sender, each of them at least once, in any order and with any
    repetitions, no call throws, the receiver ends complete with nothing
    missing, [reassemble] returns the sender's bytes, and with [onComplete]
    set the last callback made is [onComplete] with those bytes. *)
Theorem transfer_complete (p c : bool) (frames : list (list Z)) :
  data <> [] ->
  (forall f, In f frames <-> In f (spackets (newSender data (Some cs)))) ->
  exists r evs,
    feed (listening p c) frames = (r, evs)
    /\ isComplete r = true
    /\ getMissingSequences r = []
    /\ reassemble r = Ok (Some data)
    /\ (c = true -> exists evs', evs = evs' ++ [EvComplete (Some data)]).
Proof.
  intros Hne Hframes.
  destruct (ceilDiv_bounds (len data) cs (len_nonneg data) cs_pos)
    as (H0 & Hup & Hlow).
  assert (Hlen : 0 < len data) by (destruct data; [congruence | unfold len; cbn; lia]).
  assert (Hn : 0 < n) by nia.
  assert (Hsp : spackets (newSender data (Some cs)) = map packet (range 0 n)).
  { unfold newSender. destruct (Z.eqb_spec cs 0) as [-> | _]; [lia |].
    cbn [spackets]. apply createPackets_map. }
  rewrite Hsp in Hframes.
  assert (Hf : forall f, In f frames -> exists i, 0 <= i < n /\ f = packet i).
  { intros f Hin. apply Hframes, in_map_iff in Hin.
    destruct Hin as (i & <- & Hi). apply in_range in Hi. eauto. }
  destruct (feed_packets frames Hf (listening p c) (holds_listening p c))
    as (r & evs & E & Hr & Hc & _ & Hall & Hev).
  assert (Hall' : forall i, 0 <= i < n -> packets r !! i = Some (chunk i)).
  { intros i Hi. apply Hall; [exact Hi |].
    apply Hframes, in_map, in_range, Hi. }
  assert (Hnonempty : frames <> []).
  { intros ->. apply (Hframes (packet 0)). apply in_map, in_range. lia. }
  assert (Htot : rtotalPackets r = Some n).
  { destruct Hr as [Hin Ht]. destruct (rtotalPackets r) as [t |]; [congruence |].
    rewrite Ht in Hall'. specialize (Hall' 0 ltac:(lia)).
    rewrite lookup_empty in Hall'. discriminate Hall'. }
  assert (Hcomp : isComplete r = true).
  { unfold isComplete. rewrite Htot. apply Z.eqb_eq. unfold psize.
    assert (Heq : dom (packets r) = list_to_set (range 0 n)).
    { apply leibniz_equiv. intros i. rewrite elem_of_dom, elem_of_list_to_set,
        list_elem_of_In, in_range. split.
      - intros [ch Hch]. destruct Hr as [Hin _]. apply Hin in Hch. tauto.
      - intros Hi. rewrite Hall' by exact Hi. eexists. reflexivity. }
    rewrite <- size_dom, Heq, size_list_to_set by apply range_NoDup.
    rewrite range_length. lia. }
  exists r, evs. split; [exact E |]. split; [exact Hcomp |].
  split; [| split].
  - unfold getMissingSequences. rewrite Htot, forZ_filter. cbn [app].
    assert (Hnone : Forall (fun i => negb (has r i) = false) (range 0 n)).
    { apply List.Forall_forall. intros i Hi. apply in_range in Hi.
      apply negb_false_iff, has_true. rewrite Hall' by exact Hi.
      eexists. reflexivity. }
    apply filter_none, Hnone.
  - apply reassemble_holds; assumption.
  - intros ->. apply Hev; [exact Hnonempty | exact Hcomp | reflexivity].
Qed.

End Transfer.

Section TransferWitness.
Import JS QRStream.

Lemma transfer_complete_witness :
  exists r evs,
    feed (listening true true)
         (let ps := spackets (newSender [1; 2; 3] (Some 2)) in
          [nth 1 ps []; nth 0 ps []; nth 1 ps []]) = (r, evs)
    /\ isComplete r = true
    /\ getMissingSequences r = []
    /\ reassemble r = Ok (Some [1; 2; 3])
    /\ (true = true -> exists evs', evs = evs' ++ [EvComplete (Some [1; 2; 3])]).
Proof.
  apply (transfer_complete [1; 2; 3] 2).
  - repeat (apply List.Forall_cons; [lia |]). apply List.Forall_nil.
  - lia.
  - vm_compute. reflexivity.
  - discriminate.
  - intros f. vm_compute. tauto.
Defined.

End TransferWitness.

Section CapacityFacts.
Import JS QREncoder.

Lemma capacity_table :
  forallb (fun ec =>
             (getMaxCapacity ec - 3 =? longestPayload ec)
             && forallb (fun v =>
                           getDataCapacity v ec - (if v <? 10 then 2 else 3)
                           <=? getMaxCapacity ec - 3)
                        (range 1 41))
          levels = true.
Proof. vm_compute. reflexivity. Qed.

Lemma capacity_level ec :
  getMaxCapacity ec - 3 = longestPayload ec
  /\ forall v, 1 <= v <= 40 ->
               getDataCapacity v ec - (if v <? 10 then 2 else 3)
               <= getMaxCapacity ec - 3.
Proof.
  pose proof capacity_table as H. rewrite forallb_forall in H.
  assert (Hin : In ec levels) by (destruct ec; cbn; tauto).
  specialize (H ec Hin). apply andb_true_iff in H. destruct H as [H1 H2].
  split; [apply Z.eqb_eq, H1 |].
  intros v Hv. rewrite forallb_forall in H2.
  apply Z.leb_le, H2, in_range. lia.
Qed.

Lemma fits_bound n ec v :
  fits n ec v = true
  <-> n <= getDataCapacity v ec - (if v <? 10 then 2 else 3).
Proof.
  unfold fits. cbv zeta. rewrite Z.leb_le.
  destruct (v <? 10); lia.
Qed.

(** X10.  [getVersion] accepts a payload exactly when it is at most
    2953, 2331, 1663 or 1273 bytes long at level L, M, Q or H, which is
    three bytes less than what [getMaxCapacity] reports for the level; a
    longer payload, one of [getMaxCapacity] bytes among them, gets the
    error, whose message names 2953 at every level. *)
Theorem getVersion_limit (data : list Z) (ec : ecLevel) :
  ((exists v, getVersion data ec = Ok v) <-> len data <= longestPayload ec)
  /\ (getVersion data ec = Throw tooLong <-> longestPayload ec < len data)
  /\ longestPayload ec = getMaxCapacity ec - 3.
Proof.
  destruct (capacity_level ec) as [Hmax Hall].
  assert (Hok : (exists v, getVersion data ec = Ok v)
                <-> len data <= longestPayload ec).
  { unfold getVersion. split.
    - intros [v Hv].
      destruct (find _ _) as [w |] eqn:E; [| discriminate Hv].
      apply find_range_first in E. destruct E as (Hw & Hf & _).
      apply fits_bound in Hf. specialize (Hall w ltac:(lia)). lia.
    - intros Hlen.
      destruct (find _ _) as [w |] eqn:E; [eexists; reflexivity |].
      exfalso. rewrite find_range_none in E.
      specialize (E 40 ltac:(lia)).
      assert (Hf : fits (len data) ec 40 = true).
      { apply fits_bound. change (40 <? 10) with false. cbv iota.
        fold (getMaxCapacity ec). lia. }
      congruence. }
  split; [exact Hok |]. split; [| lia].
  split.
  - intros Ht. destruct (Z.le_gt_cases (len data) (longestPayload ec)) as [Hle |];
      [| lia].
    apply Hok in Hle. destruct Hle as [v Hv]. congruence.
  - intros Hlt. unfold getVersion.
    destruct (find _ _) as [w |] eqn:E; [| reflexivity].
    exfalso. assert (Hex : exists v, getVersion data ec = Ok v).
    { exists w. unfold getVersion. now rewrite E. }
    apply Hok in Hex. lia.
Qed.

End CapacityFacts.

Section EncodeDataFacts.
Import JS QREncoder.

Lemma while_invariant {S} (P : S -> Prop) (cond : S -> bool) (body : S -> S) :
  (forall s, P s -> cond s = true -> P (body s)) ->
  forall fuel s, P s -> P (while fuel cond body s).
Proof.
  intros Hstep. induction fuel as [| fuel IH]; intros s Hs; cbn [while].
  - exact Hs.
  - destruct (cond s) eqn:E; [| exact Hs]. apply IH, Hstep; assumption.
Qed.

Lemma forZ_invariant {S} (P : S -> Prop) lo hi (body : Z -> S -> S) :
  (forall i s, lo <= i < hi -> P s -> P (body i s)) ->
  forall s, P s -> P (forZ lo hi body s).
Proof.
  intros Hstep s Hs. unfold forZ.
  apply (fold_left_invariant_in P (fun acc i => body i acc)); [| exact Hs].
  intros s' i Hi. apply Hstep. now apply in_range.
Qed.

(** A loop that adds [k] to a measure at every turn. *)
Lemma forZ_measure {S} (mu : S -> Z) (k : Z) lo hi (body : Z -> S -> S) :
  lo <= hi ->
  (forall i s, lo <= i < hi -> mu (body i s) = mu s + k) ->
  forall s, mu (forZ lo hi body s) = mu s + k * (hi - lo).
Proof.
  intros Hle Hstep. unfold forZ.
  remember (Z.to_nat (hi - lo)) as n eqn:Hn. revert lo Hle Hstep Hn.
  induction n as [| n IH]; intros lo Hle Hstep Hn s.
  - rewrite range_nil by lia. cbn [fold_left].
    replace (hi - lo) with 0 by lia. lia.
  - rewrite range_cons by lia. cbn [fold_left].
    assert (Hstep' : forall i s', lo + 1 <= i < hi -> mu (body i s') = mu s' + k)
      by (intros i s' Hi; apply Hstep; lia).
    rewrite (IH (lo + 1) ltac:(lia) Hstep' ltac:(lia)).
    rewrite Hstep by lia. ring.
Qed.

Lemma bor_shl_bit b v :
  0 <= b < 128 -> isBit v -> bor (shl b 1) v = 2 * b + v.
Proof.
  intros Hb Hv. unfold bor, shl. change (1 mod 32) with 1.
  rewrite (toInt32_small b) by lia.
  rewrite Z.shiftl_mul_pow2 by lia. change (2 ^ 1) with 2.
  rewrite (toInt32_small (b * 2)) by lia.
  rewrite (toInt32_small (b * 2)) by lia.
  assert (Hv' : 0 <= v < 2) by (destruct Hv; lia).
  rewrite (toInt32_small v) by lia.
  assert (Hland : Z.land (b * 2) v = 0).
  { apply Z.bits_inj'. intros n Hn. rewrite Z.land_spec, Z.bits_0.
    destruct (Z.eq_dec n 0) as [-> | Hn0].
    - replace (b * 2) with (2 * b) by lia. rewrite Z.testbit_even_0.
      reflexivity.
    - replace (Z.testbit v n) with false; [apply andb_false_r |].
      symmetry. destruct Hv as [-> | ->]; [apply Z.bits_0 |].
      apply Z.bits_above_log2; cbn; lia. }
  rewrite <- Z.lxor_lor by exact Hland.
  rewrite <- Z.add_nocarry_lxor by exact Hland. lia.
Qed.

(** Eight bits read into a byte. *)
Lemma byte_of_bits (bits : list Z) (i : Z) :
  Forall isBit bits ->
  0 <= forZ 0 8 (fun j byte => bor (shl byte 1) (at_ bits (i + j))) 0 < 256.
Proof.
  intros Hbits.
  assert (H : forall k : nat, (k <= 8)%nat ->
             0 <= fold_left (fun acc j => bor (shl acc 1) (at_ bits (i + j)))
                            (range 0 (Z.of_nat k)) 0 < 2 ^ Z.of_nat k).
  { induction k as [| k IH]; intros Hk.
    - change (Z.of_nat 0) with 0. rewrite range_nil by lia.
      cbn [fold_left]. change (2 ^ 0) with 1. lia.
    - replace (Z.of_nat (S k)) with (Z.of_nat k + 1) by lia.
      rewrite range_snoc by lia. rewrite fold_left_app. cbn [fold_left].
      specialize (IH ltac:(lia)).
      assert (Hp : 2 ^ Z.of_nat k <= 2 ^ 7) by (apply Z.pow_le_mono_r; lia).
      change (2 ^ 7) with 128 in Hp.
      rewrite bor_shl_bit; [| lia | apply at_bit, Hbits].
      rewrite Z.pow_add_r by lia. change (2 ^ 1) with 2.
      destruct (at_bit bits (i + Z.of_nat k) Hbits) as [-> | ->]; lia. }
  specialize (H 8%nat ltac:(lia)). change (2 ^ Z.of_nat 8) with 256 in H.
  exact H.
Qed.



End EncodeDataFacts.

Section FieldFacts.
Import JS QREncoder.

Lemma worker_tables : QRWorker.GF_EXP = GF_EXP /\ QRWorker.GF_LOG = GF_LOG.
Proof. split; reflexivity. Qed.

Lemma gf_tables :
  forallb (fun x => (0 <=? at_ GF_LOG x) && (at_ GF_LOG x <? 255)
                    && (at_ GF_EXP (at_ GF_LOG x) =? x))
          (range 1 256)
  && forallb (fun k => (1 <=? at_ GF_EXP k) && (at_ GF_EXP k <? 256)
                       && (at_ GF_LOG (at_ GF_EXP k) =? k mod 255)
                       && (at_ GF_EXP k =? at_ GF_EXP (k mod 255)))
             (range 0 510) = true.
Proof. vm_compute. reflexivity. Qed.

Lemma log_facts x :
  1 <= x < 256 -> 0 <= at_ GF_LOG x < 255 /\ at_ GF_EXP (at_ GF_LOG x) = x.
Proof.
  intros Hx. pose proof gf_tables as H. apply andb_true_iff in H.
  destruct H as [H _]. rewrite forallb_forall in H.
  specialize (H x (proj2 (in_range 1 256 x) Hx)).
  apply andb_true_iff in H. destruct H as [H H3].
  apply andb_true_iff in H. destruct H as [H1 H2].
  apply Z.leb_le in H1. apply Z.ltb_lt in H2. apply Z.eqb_eq in H3. lia.
Qed.

Lemma exp_facts k :
  0 <= k < 510 ->
  1 <= at_ GF_EXP k < 256
  /\ at_ GF_LOG (at_ GF_EXP k) = k mod 255
  /\ at_ GF_EXP k = at_ GF_EXP (k mod 255).
Proof.
  intros Hk. pose proof gf_tables as H. apply andb_true_iff in H.
  destruct H as [_ H]. rewrite forallb_forall in H.
  specialize (H k (proj2 (in_range 0 510 k) Hk)).
  apply andb_true_iff in H. destruct H as [H H4].
  apply andb_true_iff in H. destruct H as [H H3].
  apply andb_true_iff in H. destruct H as [H1 H2].
  apply Z.leb_le in H1. apply Z.ltb_lt in H2.
  apply Z.eqb_eq in H3. apply Z.eqb_eq in H4. lia.
Qed.

Lemma gfMul_nonzero x y :
  1 <= x < 256 -> 1 <= y < 256 ->
  gfMul x y = at_ GF_EXP (at_ GF_LOG x + at_ GF_LOG y).
Proof.
  intros Hx Hy. unfold gfMul.
  destruct (Z.eqb_spec x 0); [lia |]. destruct (Z.eqb_spec y 0); [lia |].
  reflexivity.
Qed.

Lemma gfMul_0_l y : gfMul 0 y = 0.
Proof. reflexivity. Qed.

Lemma gfMul_0_r x : gfMul x 0 = 0.
Proof. unfold gfMul. now rewrite orb_true_r. Qed.

Lemma gfMul_comm x y : gfMul x y = gfMul y x.
Proof. unfold gfMul. now rewrite orb_comm, Z.add_comm. Qed.

Lemma gfMul_byte x y : isByte x -> isByte y -> isByte (gfMul x y).
Proof.
  intros Hx Hy. unfold isByte in *.
  destruct (Z.eq_dec x 0) as [-> | Hx0]; [rewrite gfMul_0_l; lia |].
  destruct (Z.eq_dec y 0) as [-> | Hy0]; [rewrite gfMul_0_r; lia |].
  rewrite gfMul_nonzero by lia.
  destruct (log_facts x ltac:(lia)) as [Lx _].
  destruct (log_facts y ltac:(lia)) as [Ly _].
  destruct (exp_facts (at_ GF_LOG x + at_ GF_LOG y) ltac:(lia)) as [E _]. lia.
Qed.

Lemma gfMul_zero_iff x y :
  isByte x -> isByte y -> (gfMul x y = 0 <-> x = 0 \/ y = 0).
Proof.
  intros Hx Hy. unfold isByte in *. split.
  - intros H.
    destruct (Z.eq_dec x 0) as [-> | Hx0]; [now left |].
    destruct (Z.eq_dec y 0) as [-> | Hy0]; [now right |].
    rewrite gfMul_nonzero in H by lia.
    destruct (log_facts x ltac:(lia)) as [Lx _].
    destruct (log_facts y ltac:(lia)) as [Ly _].
    destruct (exp_facts (at_ GF_LOG x + at_ GF_LOG y) ltac:(lia)) as [E _]. lia.
  - intros [-> | ->]; [apply gfMul_0_l | apply gfMul_0_r].
Qed.

Lemma gfMul_1_r x : isByte x -> gfMul x 1 = x.
Proof.
  intros Hx. unfold isByte in Hx.
  destruct (Z.eq_dec x 0) as [-> | Hx0]; [reflexivity |].
  rewrite gfMul_nonzero by lia.
  change (at_ GF_LOG 1) with 0. rewrite Z.add_0_r.
  apply log_facts. lia.
Qed.

Lemma gfMul_1_l x : isByte x -> gfMul 1 x = x.
Proof. intros Hx. rewrite gfMul_comm. apply gfMul_1_r, Hx. Qed.

(** The logarithm of a product of two non-zero bytes. *)
Lemma gfMul_log x y :
  1 <= x < 256 -> 1 <= y < 256 ->
  1 <= gfMul x y < 256
  /\ at_ GF_LOG (gfMul x y) = (at_ GF_LOG x + at_ GF_LOG y) mod 255.
Proof.
  intros Hx Hy. rewrite gfMul_nonzero by lia.
  destruct (log_facts x Hx) as [Lx _]. destruct (log_facts y Hy) as [Ly _].
  destruct (exp_facts (at_ GF_LOG x + at_ GF_LOG y) ltac:(lia)) as (E1 & E2 & _).
  split; assumption.
Qed.

Lemma gfMul_assoc x y z :
  isByte x -> isByte y -> isByte z ->
  gfMul (gfMul x y) z = gfMul x (gfMul y z).
Proof.
  intros Hx Hy Hz. unfold isByte in *.
  destruct (Z.eq_dec x 0) as [-> | Hx0]; [now rewrite !gfMul_0_l |].
  destruct (Z.eq_dec y 0) as [-> | Hy0];
    [now rewrite gfMul_0_l, gfMul_0_r, gfMul_0_l |].
  destruct (Z.eq_dec z 0) as [-> | Hz0]; [now rewrite !gfMul_0_r |].
  destruct (log_facts x ltac:(lia)) as [Lx _].
  destruct (log_facts y ltac:(lia)) as [Ly _].
  destruct (log_facts z ltac:(lia)) as [Lz _].
  destruct (gfMul_log x y ltac:(lia) ltac:(lia)) as [Bxy Lxy].
  destruct (gfMul_log y z ltac:(lia) ltac:(lia)) as [Byz Lyz].
  rewrite (gfMul_nonzero (gfMul x y) z) by lia.
  rewrite (gfMul_nonzero x (gfMul y z)) by lia.
  rewrite Lxy, Lyz.
  pose proof (Z.mod_pos_bound (at_ GF_LOG x + at_ GF_LOG y) 255 ltac:(lia)).
  pose proof (Z.mod_pos_bound (at_ GF_LOG y + at_ GF_LOG z) 255 ltac:(lia)).
  destruct (exp_facts ((at_ GF_LOG x + at_ GF_LOG y) mod 255 + at_ GF_LOG z)
                      ltac:(lia)) as (_ & _ & ->).
  destruct (exp_facts (at_ GF_LOG x + (at_ GF_LOG y + at_ GF_LOG z) mod 255)
                      ltac:(lia)) as (_ & _ & ->).
  f_equal. rewrite Z.add_mod_idemp_l, Z.add_mod_idemp_r by lia.
  f_equal. lia.
Qed.

Lemma gf_linear_table :
  forallb (fun x =>
             let ws := weights x in
             forallb (fun y => gfMul x y =? bitsum ws y) (range 0 256))
          (range 0 256) = true.
Proof. vm_compute. reflexivity. Qed.

Lemma gfMul_bitsum x y :
  isByte x -> isByte y -> gfMul x y = bitsum (weights x) y.
Proof.
  intros Hx Hy. pose proof gf_linear_table as H.
  rewrite forallb_forall in H.
  specialize (H x (proj2 (in_range 0 256 x) Hx)). cbv zeta in H.
  rewrite forallb_forall in H.
  apply Z.eqb_eq, H, in_range, Hy.
Qed.

Lemma lxor_shuffle a b c d :
  Z.lxor (Z.lxor a b) (Z.lxor c d) = Z.lxor (Z.lxor a c) (Z.lxor b d).
Proof.
  rewrite !Z.lxor_assoc. f_equal.
  rewrite <- !Z.lxor_assoc. f_equal. apply Z.lxor_comm.
Qed.

Lemma bitsum_lxor ws y z :
  bitsum ws (Z.lxor y z) = Z.lxor (bitsum ws y) (bitsum ws z).
Proof.
  induction ws as [| [j m] ws IH]; cbn [bitsum fold_right fst snd].
  - reflexivity.
  - fold (bitsum ws (Z.lxor y z)). fold (bitsum ws y). fold (bitsum ws z).
    rewrite IH, Z.lxor_spec, lxor_shuffle. f_equal.
    destruct (Z.testbit y j), (Z.testbit z j); cbn [xorb];
      [now rewrite Z.lxor_nilpotent | now rewrite Z.lxor_0_r
       | now rewrite Z.lxor_0_l | reflexivity].
Qed.

Lemma lxor_byte a b : isByte a -> isByte b -> isByte (Z.lxor a b).
Proof.
  unfold isByte. intros Ha Hb. change 256 with (2 ^ 8).
  apply lxor_lt_pow2; [lia | exact Ha | exact Hb].
Qed.

Lemma bxor_byte a b : isByte a -> isByte b -> bxor a b = Z.lxor a b.
Proof.
  unfold isByte. intros Ha Hb. unfold bxor.
  now rewrite !toInt32_small by lia.
Qed.

Lemma gfMul_lxor_r x y z :
  isByte x -> isByte y -> isByte z ->
  gfMul x (Z.lxor y z) = Z.lxor (gfMul x y) (gfMul x z).
Proof.
  intros Hx Hy Hz.
  rewrite !gfMul_bitsum by (first [assumption | apply lxor_byte; assumption]).
  apply bitsum_lxor.
Qed.

Lemma gfMul_lxor_l x y z :
  isByte x -> isByte y -> isByte z ->
  gfMul (Z.lxor x y) z = Z.lxor (gfMul x z) (gfMul y z).
Proof.
  intros Hx Hy Hz. rewrite !(gfMul_comm _ z). now apply gfMul_lxor_r.
Qed.

(** The decoder's product, which reduces the exponent, is the encoder's. *)
Lemma worker_gfMul x y :
  isByte x -> isByte y -> QRWorker.gfMul x y = gfMul x y.
Proof.
  intros Hx Hy. unfold isByte in *. unfold QRWorker.gfMul, gfMul.
  destruct (Z.eqb_spec x 0) as [| Hx0]; [reflexivity |].
  destruct (Z.eqb_spec y 0) as [| Hy0]; [reflexivity |].
  cbn [orb].
  change QRWorker.GF_EXP with GF_EXP. change QRWorker.GF_LOG with GF_LOG.
  destruct (log_facts x ltac:(lia)) as [Lx _].
  destruct (log_facts y ltac:(lia)) as [Ly _].
  rewrite Z.rem_mod_nonneg by lia.
  symmetry. apply exp_facts. lia.
Qed.

End FieldFacts.

Section ListFacts.
Import JS QREncoder.

Lemma fold_left_map_arg {A B C} (f : A -> B -> A) (g : C -> B) l a :
  fold_left f (map g l) a = fold_left (fun a x => f a (g x)) l a.
Proof. revert a. induction l as [| x l IH]; intros a; cbn; [reflexivity | apply IH]. Qed.

Lemma fold_left_ext_in {A B} (f g : A -> B -> A) l :
  (forall a x, In x l -> f a x = g a x) ->
  forall a, fold_left f l a = fold_left g l a.
Proof.
  induction l as [| x l IH]; intros H a; cbn [fold_left]; [reflexivity |].
  rewrite H by now left. apply IH. intros a' y Hy. apply H. now right.
Qed.

Lemma range_shift lo hi :
  range (lo + 1) (hi + 1) = map (fun j => j + 1) (range lo hi).
Proof.
  unfold range. replace (hi + 1 - (lo + 1)) with (hi - lo) by lia.
  rewrite map_map. apply map_ext. intros k. lia.
Qed.

(** A loop over the indices of [x :: l] is a first turn and the loop over
    the indices of [l], shifted by one. *)
Lemma forZ_cons {S} (x : Z) (l : list Z) (body : Z -> S -> S) (s : S) :
  forZ 0 (len (x :: l)) body s
  = forZ 0 (len l) (fun j s => body (j + 1) s) (body 0 s).
Proof.
  unfold forZ. replace (len (x :: l)) with (len l + 1)
    by (unfold len; cbn [length]; lia).
  rewrite range_cons by (pose proof (len_nonneg l); lia).
  cbn [fold_left].
  rewrite (range_shift 0 (len l)), fold_left_map_arg. reflexivity.
Qed.

Lemma forZ_ext {S} lo hi (f g : Z -> S -> S) :
  (forall i s, lo <= i < hi -> f i s = g i s) ->
  forall s, forZ lo hi f s = forZ lo hi g s.
Proof.
  intros H s. unfold forZ. apply fold_left_ext_in.
  intros a i Hi. apply H. now apply in_range.
Qed.

Lemma forZ_indexed {S} (P : Z -> S -> Prop) lo hi (body : Z -> S -> S) :
  lo <= hi ->
  (forall i s, lo <= i < hi -> P i s -> P (i + 1) (body i s)) ->
  forall s, P lo s -> P hi (forZ lo hi body s).
Proof.
  intros Hle Hstep. unfold forZ.
  remember (Z.to_nat (hi - lo)) as n eqn:Hn.
  revert lo Hle Hstep Hn. induction n as [| n IH]; intros lo Hle Hstep Hn s Hs.
  - rewrite range_nil by lia. cbn. replace hi with lo by lia. exact Hs.
  - rewrite range_cons by lia. cbn [fold_left].
    apply IH; [lia | | lia |].
    + intros i s' Hi. apply Hstep. lia.
    + apply Hstep; [lia | exact Hs].
Qed.

Lemma forZ_at {S} (f : S -> Z -> S) (p : list Z) (a : S) :
  forZ 0 (len p) (fun i r => f r (at_ p i)) a = fold_left f p a.
Proof.
  unfold forZ.
  transitivity (fold_left f (map (fun i => nth (Z.to_nat i) p 0)
                                 (range 0 (len p))) a).
  - rewrite fold_left_map_arg. reflexivity.
  - rewrite <- (list_by_index 0 p). reflexivity.
Qed.

Lemma at_cons_succ x l j : 0 <= j -> at_ (x :: l) (j + 1) = at_ l j.
Proof.
  intros Hj. unfold at_.
  replace (Z.to_nat (j + 1)) with (S (Z.to_nat j)) by lia. reflexivity.
Qed.

Lemma at_byte l i : isBytes l -> isByte (at_ l i).
Proof.
  intros H. unfold at_.
  destruct (nth_in_or_default (Z.to_nat i) l 0) as [Hin | ->].
  - apply (proj1 (List.Forall_forall _ _) H), Hin.
  - unfold isByte. lia.
Qed.

Lemma zeros_length n : length (zeros n) = n.
Proof. apply repeat_length. Qed.

Lemma zeros_app n m : zeros n ++ zeros m = zeros (n + m).
Proof. unfold zeros. symmetry. apply repeat_app. Qed.

Lemma zeros_bytes n : isBytes (zeros n).
Proof.
  apply List.Forall_forall. intros x Hx. apply repeat_spec in Hx. subst x.
  lia.
Qed.

Lemma zipxor_zeros_r l : zipxor l (zeros (length l)) = l.
Proof.
  induction l as [| c l IH]; [reflexivity |].
  cbn. rewrite Z.lxor_0_r. f_equal. exact IH.
Qed.

Lemma zipxor_zeros_l l : zipxor (zeros (length l)) l = l.
Proof.
  induction l as [| c l IH]; [reflexivity |].
  cbn. f_equal. exact IH.
Qed.

Lemma zipxor_zeros_l' n l : length l = n -> zipxor (zeros n) l = l.
Proof. intros <-. apply zipxor_zeros_l. Qed.

Lemma zipxor_zeros_r' n l : length l = n -> zipxor l (zeros n) = l.
Proof. intros <-. apply zipxor_zeros_r. Qed.

Lemma zipxor_assoc a b c : zipxor (zipxor a b) c = zipxor a (zipxor b c).
Proof.
  revert b c. induction a as [| x a IH]; intros [| y b] [| z c];
    try reflexivity.
  cbn. rewrite Z.lxor_assoc. f_equal. apply IH.
Qed.

Lemma zipxor_app a1 a2 b1 b2 :
  length a1 = length b1 ->
  zipxor (a1 ++ a2) (b1 ++ b2) = zipxor a1 b1 ++ zipxor a2 b2.
Proof. apply zip_with_app. Qed.

Lemma zipxor_length a b :
  length a = length b -> length (zipxor a b) = length a.
Proof. intros H. unfold zipxor. rewrite length_zip_with. lia. Qed.

Lemma zipxor_bytes a b : isBytes a -> isBytes b -> isBytes (zipxor a b).
Proof.
  intros Ha. revert b. induction Ha as [| x a Hx _ IH]; intros b Hb.
  - constructor.
  - destruct Hb as [| y b Hy Hb]; [constructor |].
    cbn. constructor; [apply lxor_byte; assumption | apply IH, Hb].
Qed.

(** [a[k] ^= v] adds a list that is [v] at [k] and 0 elsewhere. *)
Lemma insert_xor (R : list Z) (k : nat) v :
  (k < length R)%nat ->
  <[k := Z.lxor (nth k R 0) v]> R
  = zipxor R (zeros k ++ v :: zeros (length R - k - 1)).
Proof.
  revert k. induction R as [| c R IH]; intros k Hk; [cbn in Hk; lia |].
  destruct k as [| k].
  - cbn. f_equal. rewrite Nat.sub_0_r. symmetry. apply zipxor_zeros_r.
  - cbn. rewrite Z.lxor_0_r. f_equal. apply IH. cbn in Hk. lia.
Qed.

Lemma put_xor (R : list Z) (k v : Z) :
  isBytes R -> isByte v -> 0 <= k < len R ->
  put R k (bxor (at_ R k) v)
  = zipxor R (zeros (Z.to_nat k) ++ v :: zeros (length R - Z.to_nat k - 1)).
Proof.
  intros HR Hv Hk. unfold put.
  rewrite bxor_byte by (first [apply at_byte, HR | exact Hv]).
  unfold at_. apply insert_xor. unfold len in Hk. lia.
Qed.

(** The loop [for j: res[o + j] ^= F(gs[j])]. *)
Lemma row_closed (F : Z -> Z) (gs : list Z) :
  (forall g, isByte g -> isByte (F g)) -> isBytes gs ->
  forall (o : Z) (res : list Z),
    isBytes res -> 0 <= o -> o + len gs <= len res ->
    forZ 0 (len gs)
         (fun j res => put res (o + j) (bxor (at_ res (o + j)) (F (at_ gs j))))
         res
    = zipxor res (zeros (Z.to_nat o) ++ map F gs
                  ++ zeros (length res - Z.to_nat o - length gs)).
Proof.
  intros HF Hgs. induction Hgs as [| g gs Hg Hgs IH]; intros o res Hres Ho Hlen.
  - unfold forZ. rewrite range_nil by (unfold len; cbn; lia).
    cbn [fold_left map app length]. rewrite zeros_app.
    replace (Z.to_nat o + (length res - Z.to_nat o - 0))%nat with (length res)
      by (unfold len in Hlen; cbn in Hlen; lia).
    symmetry. apply zipxor_zeros_r.
  - assert (Hlen' : o + 1 + len gs <= len res)
      by (unfold len in *; cbn [length] in Hlen; lia).
    rewrite forZ_cons. rewrite Z.add_0_r.
    change (at_ (g :: gs) 0) with g.
    rewrite put_xor; [| exact Hres | apply HF, Hg | pose proof (len_nonneg gs); lia].
    set (U := zeros (Z.to_nat o) ++ F g :: zeros (length res - Z.to_nat o - 1)).
    assert (HU : length U = length res).
    { unfold U. rewrite length_app, zeros_length. cbn [length].
      rewrite zeros_length. pose proof (len_nonneg gs). unfold len in *. lia. }
    assert (HUb : isBytes U).
    { unfold U. apply Forall_app. split; [apply zeros_bytes |].
      constructor; [apply HF, Hg | apply zeros_bytes]. }
    rewrite (forZ_ext 0 (len gs) _
               (fun j res0 =>
                  put res0 (o + 1 + j)
                      (bxor (at_ res0 (o + 1 + j)) (F (at_ gs j))))).
    2:{ intros j s Hj. rewrite at_cons_succ by lia.
        replace (o + (j + 1)) with (o + 1 + j) by lia. reflexivity. }
    rewrite IH;
      [| apply zipxor_bytes; assumption | lia
       | unfold len in *; rewrite zipxor_length by (symmetry; exact HU); lia].
    rewrite zipxor_assoc. f_equal.
    rewrite zipxor_length by (symmetry; exact HU).
    set (no := Z.to_nat o). set (m := (length res - no - 1)%nat).
    set (X := map F gs ++ zeros (m - length gs)).
    assert (HX : length X = m).
    { unfold X. rewrite length_app, length_map, zeros_length.
      unfold m, no, len in *. lia. }
    replace (zeros (Z.to_nat (o + 1)) ++ map F gs
             ++ zeros (length res - Z.to_nat (o + 1) - length gs))
      with (zeros no ++ 0 :: X).
    2:{ unfold X, m, no. replace (Z.to_nat (o + 1)) with (S (Z.to_nat o)) by lia.
        change (zeros (S (Z.to_nat o))) with (0 :: zeros (Z.to_nat o)).
        change (0 :: zeros (Z.to_nat o)) with (zeros 1 ++ zeros (Z.to_nat o)).
        rewrite zeros_app, Nat.add_comm, <- zeros_app, <- app_assoc.
        f_equal. change (zeros 1) with [0]. cbn [app]. do 3 f_equal. lia. }
    replace (zeros no ++ map F (g :: gs)
             ++ zeros (length res - no - length (g :: gs)))
      with (zeros no ++ F g :: X).
    2:{ unfold X, m. cbn [map app length]. do 4 f_equal. lia. }
    unfold U. fold no. fold m.
    rewrite zipxor_app by (now rewrite !zeros_length).
    rewrite <- (zeros_length no) at 2. rewrite zipxor_zeros_r.
    f_equal. cbn. rewrite Z.lxor_0_r. f_equal.
    rewrite <- HX. apply zipxor_zeros_l.
Qed.

End ListFacts.

Section HornerFacts.
Import JS QREncoder.

Variable x : Z.
Hypothesis x_byte : isByte x.

Lemma horner_byte r p : isByte r -> isBytes p -> isByte (horner x r p).
Proof.
  intros Hr Hp. revert r Hr. induction Hp as [| c p Hc _ IH]; intros r Hr.
  - exact Hr.
  - cbn [horner fold_left]. apply IH. apply lxor_byte; [| exact Hc].
    apply gfMul_byte; assumption.
Qed.

Lemma horner_app r p q : horner x r (p ++ q) = horner x (horner x r p) q.
Proof. apply fold_left_app. Qed.

Lemma horner_zeros n : horner x 0 (zeros n) = 0.
Proof. induction n as [| n IH]; [reflexivity | exact IH]. Qed.

Lemma horner_xor p q r s :
  length p = length q -> isBytes p -> isBytes q -> isByte r -> isByte s ->
  horner x (Z.lxor r s) (zipxor p q)
  = Z.lxor (horner x r p) (horner x s q).
Proof.
  intros Hlen Hp. revert q r s Hlen.
  induction Hp as [| c p Hc Hp IH]; intros [| d q] r s Hlen Hq Hr Hs;
    try discriminate Hlen.
  - reflexivity.
  - apply Forall_cons in Hq. destruct Hq as [Hd Hq].
    cbn [zipxor zip_with horner fold_left].
    rewrite gfMul_lxor_l by assumption.
    rewrite lxor_shuffle.
    apply IH;
      [cbn in Hlen; lia | exact Hq
       | apply lxor_byte; [apply gfMul_byte |]; assumption
       | apply lxor_byte; [apply gfMul_byte |]; assumption].
Qed.

Lemma horner_xor0 p q :
  length p = length q -> isBytes p -> isBytes q ->
  horner x 0 (zipxor p q) = Z.lxor (horner x 0 p) (horner x 0 q).
Proof.
  intros Hlen Hp Hq.
  apply (horner_xor p q 0 0 Hlen Hp Hq); unfold isByte; lia.
Qed.

Lemma horner_scale c r p :
  isByte c -> isByte r -> isBytes p ->
  horner x (gfMul c r) (map (gfMul c) p) = gfMul c (horner x r p).
Proof.
  intros Hc Hr Hp. revert r Hr. induction Hp as [| d p Hd _ IH]; intros r Hr.
  - reflexivity.
  - cbn [map horner fold_left].
    rewrite gfMul_assoc by assumption.
    rewrite <- gfMul_lxor_r by (first [assumption | apply gfMul_byte; assumption]).
    apply IH. apply lxor_byte; [apply gfMul_byte |]; assumption.
Qed.

Lemma horner_scale0 c p :
  isByte c -> isBytes p ->
  horner x 0 (map (gfMul c) p) = gfMul c (horner x 0 p).
Proof.
  intros Hc Hp. rewrite <- horner_scale by (first [assumption | unfold isByte; lia]).
  now rewrite gfMul_0_r.
Qed.

(** What a shifted multiple of a polynomial with root [x] evaluates to. *)
Lemma horner_shifted_multiple c gen i m :
  isByte c -> isBytes gen -> horner x 0 gen = 0 ->
  horner x 0 (zeros i ++ map (fun g => gfMul g c) gen ++ zeros m) = 0.
Proof.
  intros Hc Hgen Hroot.
  rewrite !horner_app, horner_zeros.
  rewrite (map_ext _ (gfMul c)) by (intros g; apply gfMul_comm).
  rewrite horner_scale0, Hroot, gfMul_0_r by assumption.
  apply horner_zeros.
Qed.

End HornerFacts.

Section GeneratorFacts.
Import JS QREncoder.

Lemma conv_length a k p : length (conv a k p) = S (length p).
Proof.
  revert k. induction p as [| c p IH]; intros k; cbn; [reflexivity |].
  now rewrite IH.
Qed.

Lemma conv_bytes a k p :
  isByte a -> isByte k -> isBytes p -> isBytes (conv a k p).
Proof.
  intros Ha Hk Hp. revert k Hk. induction Hp as [| c p Hc _ IH]; intros k Hk.
  - repeat constructor; apply Hk.
  - cbn [conv]. constructor; [apply lxor_byte; assumption |].
    apply IH, gfMul_byte; assumption.
Qed.

Lemma conv_carry a k p :
  zipxor (k :: zeros (length p)) (conv a 0 p) = conv a k p.
Proof.
  destruct p as [| d p].
  - cbn. now rewrite Z.lxor_0_r.
  - cbn [length conv]. change (zeros (S (length p))) with (0 :: zeros (length p)).
    change (zipxor (k :: 0 :: zeros (length p))
                   (Z.lxor d 0 :: conv a (gfMul d a) p))
      with (Z.lxor k (Z.lxor d 0)
            :: zipxor (zeros (S (length p))) (conv a (gfMul d a) p)).
    rewrite Z.lxor_0_r, Z.lxor_comm. f_equal.
    apply zipxor_zeros_l', conv_length.
Qed.

(** Horner's rule on [p * (X + a)]. *)
Lemma conv_horner x a p :
  isByte x -> isByte a -> isBytes p ->
  forall r k s, isByte r -> isByte k -> isByte s ->
    Z.lxor (gfMul r x) k = gfMul s (Z.lxor x a) ->
    horner x r (conv a k p) = gfMul (horner x s p) (Z.lxor x a).
Proof.
  intros Hx Ha Hp. induction Hp as [| c p Hc _ IH]; intros r k s Hr Hk Hs E.
  - exact E.
  - cbn [conv horner fold_left].
    assert (Hxa : isByte (Z.lxor x a)) by (apply lxor_byte; assumption).
    apply IH.
    + apply lxor_byte; [apply gfMul_byte; assumption |].
      apply lxor_byte; assumption.
    + apply gfMul_byte; assumption.
    + apply lxor_byte; [apply gfMul_byte; assumption | exact Hc].
    + rewrite (Z.lxor_comm c k), <- Z.lxor_assoc, E.
      assert (HT : isByte (gfMul s (Z.lxor x a)))
        by (apply gfMul_byte; assumption).
      rewrite (gfMul_lxor_l (gfMul s (Z.lxor x a)) c x) by assumption.
      rewrite (gfMul_lxor_l (gfMul s x) c (Z.lxor x a))
        by (first [assumption | apply gfMul_byte; assumption]).
      rewrite Z.lxor_assoc, <- (gfMul_lxor_r c x a) by assumption.
      f_equal.
      rewrite (gfMul_assoc s (Z.lxor x a) x) by assumption.
      rewrite (gfMul_comm (Z.lxor x a) x).
      symmetry. apply gfMul_assoc; assumption.
Qed.

(** [gfPolyMul p [1, a]] multiplies by [X + a]. *)
Lemma gfPolyMul_rows a (ps : list Z) :
  isByte a -> isBytes ps ->
  forall (o : Z) (res : list Z),
    isBytes res -> 0 <= o -> len res = o + len ps + 1 ->
    forZ 0 (len ps)
         (fun i res =>
            forZ 0 (len [1; a])
                 (fun j res =>
                    put res (o + i + j)
                        (bxor (at_ res (o + i + j))
                              (gfMul (at_ ps i) (at_ [1; a] j))))
                 res)
         res
    = zipxor res (zeros (Z.to_nat o) ++ conv a 0 ps).
Proof.
  intros Ha Hps. induction Hps as [| c ps Hc Hps IH]; intros o res Hres Ho Hlen.
  - change (len (@nil Z)) with 0. unfold forZ at 1.
    rewrite (range_nil 0 0) by lia.
    cbn [fold_left conv]. change [0] with (zeros 1). rewrite zeros_app.
    replace (Z.to_nat o + 1)%nat with (length res)
      by (unfold len in Hlen; cbn in Hlen; lia).
    symmetry. apply zipxor_zeros_r.
  - assert (Hlen' : len res = o + 1 + len ps + 1)
      by (unfold len in *; cbn [length] in Hlen; lia).
    pose proof (len_nonneg ps) as Hps0.
    rewrite forZ_cons. rewrite Z.add_0_r.
    change (at_ (c :: ps) 0) with c.
    assert (Hq : isBytes [1; a])
      by (repeat constructor; first [apply Ha | lia]).
    rewrite (row_closed (gfMul c) [1; a]);
      [| intros g Hg; apply gfMul_byte; assumption | exact Hq | exact Hres
       | exact Ho | change (len [1; a]) with 2; lia].
    cbn [map length]. rewrite gfMul_1_r by exact Hc.
    set (U := zeros (Z.to_nat o) ++ [c; gfMul c a]
              ++ zeros (length res - Z.to_nat o - 2)).
    assert (HU : length U = length res).
    { unfold U. rewrite !length_app, !zeros_length. cbn [length].
      unfold len in *. lia. }
    assert (HUb : isBytes U).
    { unfold U. apply Forall_app. split; [apply zeros_bytes |].
      apply Forall_app. split; [| apply zeros_bytes].
      repeat constructor; first [apply Hc | apply gfMul_byte; assumption]. }
    rewrite (forZ_ext 0 (len ps) _
               (fun i res0 =>
                  forZ 0 (len [1; a])
                       (fun j res1 =>
                          put res1 (o + 1 + i + j)
                              (bxor (at_ res1 (o + 1 + i + j))
                                    (gfMul (at_ ps i) (at_ [1; a] j))))
                       res0)).
    2:{ intros i s Hi. apply forZ_ext. intros j s' Hj.
        rewrite at_cons_succ by lia.
        replace (o + (i + 1) + j) with (o + 1 + i + j) by lia. reflexivity. }
    rewrite IH;
      [| apply zipxor_bytes; assumption | lia
       | unfold len in *; rewrite zipxor_length by (symmetry; exact HU); lia].
    rewrite zipxor_assoc. f_equal.
    unfold U. replace (Z.to_nat (o + 1)) with (Z.to_nat o + 1)%nat by lia.
    rewrite <- zeros_app, <- app_assoc.
    rewrite zipxor_app by (now rewrite !zeros_length).
    rewrite <- (zeros_length (Z.to_nat o)) at 2. rewrite zipxor_zeros_r.
    f_equal. cbn [zeros repeat app conv zipxor zip_with].
    rewrite !Z.lxor_0_r. f_equal.
    replace (length res - Z.to_nat o - 2)%nat with (length ps)
      by (unfold len in *; lia).
    apply conv_carry.
Qed.

Lemma gfPolyMul_linear a p :
  isByte a -> isBytes p -> gfPolyMul p [1; a] = conv a 0 p.
Proof.
  intros Ha Hp. unfold gfPolyMul. cbv zeta.
  rewrite (forZ_ext 0 (len p) _
             (fun i res0 =>
                forZ 0 (len [1; a])
                     (fun j res1 =>
                        put res1 (0 + i + j)
                            (bxor (at_ res1 (0 + i + j))
                                  (gfMul (at_ p i) (at_ [1; a] j))))
                     res0)) by reflexivity.
  rewrite (gfPolyMul_rows a p Ha Hp 0);
    [| apply zeros_bytes | lia
     | unfold len; rewrite repeat_length; change (length [1; a]) with 2%nat; lia].
  cbn [Z.to_nat zeros repeat app].
  assert (Hl : Z.to_nat (len p + len [1; a] - 1) = length (conv a 0 p)).
  { rewrite conv_length. unfold len. cbn [length]. lia. }
  rewrite Hl. apply zipxor_zeros_l.
Qed.

Lemma gfPow_2_byte t : 0 <= t -> isByte (gfPow 2 t).
Proof.
  intros Ht. unfold gfPow. change (at_ GF_LOG 2) with 1. rewrite Z.mul_1_l.
  rewrite Z.rem_mod_nonneg by lia.
  pose proof (Z.mod_pos_bound t 255 ltac:(lia)) as Hm.
  destruct (exp_facts (t mod 255) ltac:(lia)) as [E _].
  unfold isByte. lia.
Qed.

(** The generator polynomial is monic of degree [nsym] and vanishes at the
    first [nsym] powers of 2. *)
Lemma rsGeneratorPoly_roots nsym :
  0 <= nsym ->
  isBytes (rsGeneratorPoly nsym)
  /\ len (rsGeneratorPoly nsym) = nsym + 1
  /\ at_ (rsGeneratorPoly nsym) 0 = 1
  /\ forall t, 0 <= t < nsym -> horner (gfPow 2 t) 0 (rsGeneratorPoly nsym) = 0.
Proof.
  intros Hn. unfold rsGeneratorPoly.
  apply (forZ_indexed
           (fun i g => isBytes g /\ len g = i + 1 /\ at_ g 0 = 1
                       /\ forall t, 0 <= t < i -> horner (gfPow 2 t) 0 g = 0)
           0 nsym _ Hn).
  - intros i g Hi (Hg & Hlen & Hhead & Hroots).
    assert (Ha : isByte (gfPow 2 i)) by (apply gfPow_2_byte; lia).
    rewrite gfPolyMul_linear by assumption.
    split; [apply conv_bytes; first [assumption | unfold isByte; lia] |].
    split; [unfold len in *; rewrite conv_length; lia |].
    split.
    + destruct g as [| c g]; [unfold len in Hlen; cbn in Hlen; lia |].
      change (at_ (c :: g) 0) with c in Hhead. subst c. reflexivity.
    + intros t Ht.
      assert (Hx : isByte (gfPow 2 t)) by (apply gfPow_2_byte; lia).
      rewrite (conv_horner (gfPow 2 t) (gfPow 2 i) g Hx Ha Hg 0 0 0)
        by (first [unfold isByte; lia | reflexivity]).
      destruct (Z.eq_dec t i) as [-> | Hne].
      * rewrite Z.lxor_nilpotent. apply gfMul_0_r.
      * rewrite Hroots by lia. apply gfMul_0_l.
  - split; [repeat constructor; lia |].
    split; [reflexivity |]. split; [reflexivity |]. intros t Ht. lia.
Qed.

End GeneratorFacts.

Section ReedSolomon.
Import JS QREncoder.

Lemma take_succ_nth (l : list Z) (i : nat) :
  (i < length l)%nat -> firstn (S i) l = firstn i l ++ [nth i l 0].
Proof.
  revert i. induction l as [| c l IH]; intros i Hi; [cbn in Hi; lia |].
  destruct i as [| i]; [reflexivity |].
  cbn [firstn nth app]. f_equal. apply IH. cbn in Hi. lia.
Qed.

Lemma drop_nth (l : list Z) (i : nat) :
  (i < length l)%nat -> skipn i l = nth i l 0 :: skipn (S i) l.
Proof.
  revert i. induction l as [| c l IH]; intros i Hi; [cbn in Hi; lia |].
  destruct i as [| i]; [reflexivity |].
  cbn [skipn nth]. apply IH. cbn in Hi. lia.
Qed.

Lemma take_zeros_cons n (t : list Z) :
  firstn (S n) (zeros n ++ 0 :: t) = zeros (S n).
Proof.
  induction n as [| n IH]; [reflexivity |].
  change (zeros (S n) ++ 0 :: t) with (0 :: (zeros n ++ 0 :: t)).
  change (firstn (S (S n)) (0 :: (zeros n ++ 0 :: t)))
    with (0 :: firstn (S n) (zeros n ++ 0 :: t)).
  rewrite IH. reflexivity.
Qed.

(** The loop [for i: res[o + i] = ds[i]]. *)
Lemma copy_closed (ds : list Z) :
  forall (o : Z) (res : list Z),
    0 <= o -> o + len ds <= len res ->
    forZ 0 (len ds) (fun i res => put res (o + i) (at_ ds i)) res
    = firstn (Z.to_nat o) res ++ ds ++ skipn (Z.to_nat o + length ds) res.
Proof.
  induction ds as [| d ds IH]; intros o res Ho Hlen.
  - unfold forZ. rewrite range_nil by (unfold len; cbn; lia).
    cbn [fold_left app length]. rewrite Nat.add_0_r. symmetry. apply firstn_skipn.
  - assert (Hlen' : o + 1 + len ds <= len res)
      by (unfold len in *; cbn [length] in Hlen; lia).
    pose proof (len_nonneg ds) as Hds.
    rewrite forZ_cons. rewrite Z.add_0_r. change (at_ (d :: ds) 0) with d.
    rewrite (forZ_ext 0 (len ds) _
               (fun i res0 => put res0 (o + 1 + i) (at_ ds i))).
    2:{ intros i s Hi. rewrite at_cons_succ by lia.
        replace (o + (i + 1)) with (o + 1 + i) by lia. reflexivity. }
    rewrite IH; [| lia | unfold put, len in *; rewrite length_insert; lia].
    unfold put. set (no := Z.to_nat o).
    assert (Hno : (no < length res)%nat) by (unfold no, len in *; lia).
    rewrite (insert_take_drop res no d Hno).
    replace (Z.to_nat (o + 1)) with (S no) by (unfold no; lia).
    assert (Hl : length (firstn no res ++ [d]) = S no).
    { rewrite length_app, length_firstn. cbn [length]. lia. }
    change (firstn no res ++ d :: skipn (S no) res)
      with (firstn no res ++ [d] ++ skipn (S no) res).
    rewrite (app_assoc (firstn no res) [d] (skipn (S no) res)).
    rewrite (take_app_length' _ _ (S no) (eq_sym Hl)).
    rewrite (drop_app_add' _ _ (S no) (length ds) (eq_sym Hl)).
    rewrite skipn_skipn, <- app_assoc. cbn [app length].
    do 4 f_equal. lia.
Qed.

Lemma zeros_split n m : zeros (n + m) = zeros n ++ zeros m.
Proof. symmetry. apply zeros_app. Qed.

(** The remainder that [rsEncode] returns: [nsym] bytes that complete the
    data to a multiple of the generator polynomial. *)
Lemma rsEncode_multiple data nsym :
  isBytes data -> 0 <= nsym ->
  isBytes (rsEncode data nsym)
  /\ len (rsEncode data nsym) = nsym
  /\ forall x, isByte x -> horner x 0 (rsGeneratorPoly nsym) = 0 ->
               horner x 0 (data ++ rsEncode data nsym) = 0.
Proof.
  intros Hd Hn. unfold rsEncode. cbv zeta.
  destruct (rsGeneratorPoly_roots nsym Hn) as (Hgb & Hgl & Hgh & _).
  set (gen := rsGeneratorPoly nsym) in *. clearbody gen.
  pose proof (len_nonneg data) as Hk.
  set (k := Z.to_nat (len data)).
  set (e := Z.to_nat nsym).
  assert (Hke : Z.to_nat (len data + nsym) = (k + e)%nat) by (unfold k, e; lia).
  assert (Hkl : k = length data) by (unfold k, len; lia).
  rewrite Hke.
  (* the copy of the data *)
  rewrite (forZ_ext 0 (len data) (fun i res => put res i (at_ data i))
                    (fun i res => put res (0 + i) (at_ data i)))
    by reflexivity.
  rewrite copy_closed
    by (first [lia | unfold len; rewrite repeat_length; unfold len in *; lia]).
  change (Z.to_nat 0) with 0%nat. rewrite take_0. cbn [app Nat.add].
  fold (zeros (k + e)). rewrite zeros_split, <- Hkl.
  rewrite (drop_app_length' _ _ k (eq_sym (zeros_length k))).
  set (res1 := data ++ zeros e).
  assert (Hres1 : isBytes res1)
    by (apply Forall_app; split; [exact Hd | apply zeros_bytes]).
  assert (Hlen1 : length res1 = (k + e)%nat)
    by (unfold res1; rewrite length_app, zeros_length; lia).
  (* the division *)
  set (body := fun (i : Z) (res : list Z) => _).
  assert (Hinv :
    (fun i res =>
       isBytes res /\ length res = (k + e)%nat
       /\ firstn (Z.to_nat i) res = zeros (Z.to_nat i)
       /\ forall x, isByte x -> horner x 0 gen = 0 ->
                    horner x 0 res = horner x 0 res1)
      (len data) (forZ 0 (len data) body res1)).
  { apply forZ_indexed; [lia | |].
    - intros i res Hi (Hb & Hl & Hz & Hh). unfold body.
      set (ni := Z.to_nat i).
      assert (Hni : (ni < length res)%nat) by (unfold ni; lia).
      assert (Hcoef : isByte (at_ res i)) by (apply at_byte, Hb).
      replace (Z.to_nat (i + 1)) with (S ni) by (unfold ni; lia).
      destruct (Z.eqb_spec (at_ res i) 0) as [E0 | Hne].
      + split; [exact Hb |]. split; [exact Hl |]. split; [| exact Hh].
        rewrite take_succ_nth by exact Hni. fold ni in Hz. rewrite Hz.
        unfold at_ in E0. fold ni in E0. rewrite E0.
        change [0] with (zeros 1). rewrite zeros_app, Nat.add_1_r. reflexivity.
      + rewrite (row_closed (fun g => gfMul g (at_ res i)) gen);
          [| intros g Hg; apply gfMul_byte; assumption | exact Hgb | exact Hb
           | lia | unfold len in *; lia].
        fold ni.
        set (S := zeros ni ++ map (fun g => gfMul g (at_ res i)) gen
                  ++ zeros (length res - ni - length gen)).
        assert (HSl : length S = length res).
        { unfold S. rewrite !length_app, length_map, !zeros_length.
          unfold len, ni in *. lia. }
        assert (HSb : isBytes S).
        { unfold S. apply Forall_app. split; [apply zeros_bytes |].
          apply Forall_app. split; [| apply zeros_bytes].
          apply List.Forall_forall. intros y Hy. apply in_map_iff in Hy.
          destruct Hy as (g & <- & Hg).
          apply gfMul_byte; [| exact Hcoef].
          apply (proj1 (List.Forall_forall _ _) Hgb), Hg. }
        split; [apply zipxor_bytes; assumption |].
        split; [rewrite zipxor_length by (symmetry; exact HSl); exact Hl |].
        split.
        * destruct gen as [| g0 gen']; [unfold len in Hgl; cbn in Hgl; lia |].
          change (at_ (g0 :: gen') 0) with g0 in Hgh. subst g0.
          assert (Hsplit : res = zeros ni ++ at_ res i :: skipn (Datatypes.S ni) res).
          { rewrite <- (firstn_skipn ni res) at 1. fold ni in Hz. rewrite Hz.
            f_equal. apply drop_nth, Hni. }
          rewrite Hsplit at 1. unfold S. cbn [map app].
          rewrite gfMul_1_l by exact Hcoef.
          rewrite zipxor_app by reflexivity.
          rewrite (zipxor_zeros_r' ni (zeros ni) (zeros_length ni)).
          cbn [zipxor zip_with]. rewrite Z.lxor_nilpotent.
          apply take_zeros_cons.
        * intros x Hx Hroot.
          rewrite horner_xor0 by (first [assumption | symmetry; exact HSl]).
          unfold S. rewrite horner_shifted_multiple by assumption.
          rewrite Z.lxor_0_r. apply Hh; assumption.
    - split; [exact Hres1 |]. split; [exact Hlen1 |].
      split; [reflexivity |]. intros x _ _. reflexivity. }
  destruct Hinv as (Hb & Hl & Hz & Hh).
  set (resf := forZ 0 (len data) body res1) in *. clearbody resf.
  fold k in Hz.
  set (rem := skipn k resf).
  assert (Hrem : resf = zeros k ++ rem).
  { unfold rem. rewrite <- Hz. symmetry. apply firstn_skipn. }
  assert (Hreml : length rem = e) by (unfold rem; rewrite length_skipn; lia).
  assert (Hremb : isBytes rem) by (apply Forall_drop, Hb).
  split; [exact Hremb |]. split; [unfold len, e in *; lia |].
  intros x Hx Hroot.
  assert (Hsum : data ++ rem = zipxor res1 resf).
  { rewrite Hrem. unfold res1.
    rewrite zipxor_app by (rewrite zeros_length; lia).
    rewrite (zipxor_zeros_r' k data (eq_sym Hkl)).
    rewrite (zipxor_zeros_l' e rem Hreml). reflexivity. }
  rewrite Hsum, horner_xor0 by (first [assumption | lia]).
  rewrite (Hh x Hx Hroot). apply Z.lxor_nilpotent.
Qed.

Lemma gfPolyEval_horner p x :
  isBytes p -> isByte x -> QRWorker.gfPolyEval p x = horner x 0 p.
Proof.
  intros Hp Hx. unfold QRWorker.gfPolyEval.
  rewrite (forZ_at (fun r c => bxor (QRWorker.gfMul r x) c) p 0).
  unfold horner.
  assert (H : forall r, isByte r ->
             fold_left (fun r c => bxor (QRWorker.gfMul r x) c) p r
             = fold_left (fun r c => Z.lxor (gfMul r x) c) p r).
  { induction Hp as [| c p Hc _ IH]; intros r Hr; [reflexivity |].
    cbn [fold_left]. rewrite worker_gfMul by assumption.
    rewrite bxor_byte by (first [exact Hc | apply gfMul_byte; assumption]).
    apply IH. apply lxor_byte; [apply gfMul_byte; assumption | exact Hc]. }
  apply H. unfold isByte. lia.
Qed.

(** X12.  [rsEncode] returns [nsym] bytes that make the block a codeword:
    the data followed by them, read as a polynomial and evaluated with the
    decoder's [gfPolyEval], vanishes at each of the first [nsym] powers of
    2, which are computed by [gfPow].  All syndromes of an undamaged block
    are zero. *)
Theorem rsEncode_syndromes_vanish (data : list Z) (nsym i : Z) :
  isBytes data -> 0 <= i < nsym ->
  QRWorker.gfPolyEval (data ++ rsEncode data nsym) (gfPow 2 i) = 0
  /\ len (rsEncode data nsym) = nsym
  /\ isBytes (rsEncode data nsym).
Proof.
  intros Hd Hi.
  destruct (rsEncode_multiple data nsym Hd ltac:(lia)) as (Hb & Hl & Hroot).
  destruct (rsGeneratorPoly_roots nsym ltac:(lia)) as (_ & _ & _ & Hg).
  assert (Hx : isByte (gfPow 2 i)) by (apply gfPow_2_byte; lia).
  split; [| split; assumption].
  rewrite gfPolyEval_horner;
    [| apply Forall_app; split; assumption | exact Hx].
  apply Hroot; [exact Hx | apply Hg, Hi].
Qed.

Lemma rsEncode_syndromes_vanish_witness :
  QRWorker.gfPolyEval (hello ++ rsEncode hello 7) (gfPow 2 3) = 0
  /\ len (rsEncode hello 7) = 7
  /\ isBytes (rsEncode hello 7).
Proof.
  apply (rsEncode_syndromes_vanish hello 7 3); [| lia].
  repeat (apply List.Forall_cons; [lia |]). apply List.Forall_nil.
Defined.

End ReedSolomon.

Section FieldTheorems.
Import JS QREncoder.

(** X13.  On bytes, [gfMul] with XOR as addition obeys the laws of a field:
    it stays within the bytes, is commutative and associative, distributes
    over XOR, has 1 as its unit and no zero divisors.  The tables that
    [initGF] fills are what makes it so. *)
Theorem gfMul_field (x y z : Z) :
  isByte x -> isByte y -> isByte z ->
  isByte (gfMul x y)
  /\ gfMul x y = gfMul y x
  /\ gfMul (gfMul x y) z = gfMul x (gfMul y z)
  /\ gfMul x (bxor y z) = bxor (gfMul x y) (gfMul x z)
  /\ gfMul x 1 = x
  /\ (gfMul x y = 0 <-> x = 0 \/ y = 0).
Proof.
  intros Hx Hy Hz.
  split; [apply gfMul_byte; assumption |].
  split; [apply gfMul_comm |].
  split; [apply gfMul_assoc; assumption |].
  split.
  - rewrite !bxor_byte by (first [assumption | apply gfMul_byte; assumption]).
    apply gfMul_lxor_r; assumption.
  - split; [apply gfMul_1_r, Hx | apply gfMul_zero_iff; assumption].
Qed.

Lemma gfMul_field_witness :
  isByte (gfMul 87 131)
  /\ gfMul 87 131 = gfMul 131 87
  /\ gfMul (gfMul 87 131) 200 = gfMul 87 (gfMul 131 200)
  /\ gfMul 87 (bxor 131 200) = bxor (gfMul 87 131) (gfMul 87 200)
  /\ gfMul 87 1 = 87
  /\ (gfMul 87 131 = 0 <-> 87 = 0 \/ 131 = 0).
Proof. apply (gfMul_field 87 131 200); unfold isByte; lia. Defined.

(** X14.  The decoder's [gfMul], which reduces the sum of the logarithms
    modulo 255, returns what the encoder's returns on all bytes; its
    [gfDiv] undoes a multiplication by a non-zero byte and throws for a
    zero divisor, also when the dividend is zero. *)
Theorem worker_field_ops (x y : Z) :
  isByte x -> isByte y ->
  QRWorker.gfMul x y = gfMul x y
  /\ (y <> 0 -> QRWorker.gfDiv (QRWorker.gfMul x y) y = Ok x)
  /\ QRWorker.gfDiv x 0 = Throw "Division by zero".
Proof.
  intros Hx Hy. split; [apply worker_gfMul; assumption |].
  split; [| reflexivity].
  intros Hy0. rewrite worker_gfMul by assumption.
  unfold isByte in *. unfold QRWorker.gfDiv.
  destruct (Z.eqb_spec y 0) as [| _]; [contradiction |].
  destruct (Z.eq_dec x 0) as [-> | Hx0]; [reflexivity |].
  destruct (gfMul_log x y ltac:(lia) ltac:(lia)) as [Hm Hlog].
  destruct (Z.eqb_spec (gfMul x y) 0) as [E | _]; [lia |].
  change QRWorker.GF_EXP with GF_EXP. change QRWorker.GF_LOG with GF_LOG.
  rewrite Hlog.
  destruct (log_facts x ltac:(lia)) as [Lx Ex].
  destruct (log_facts y ltac:(lia)) as [Ly _].
  pose proof (Z.mod_pos_bound (at_ GF_LOG x + at_ GF_LOG y) 255 ltac:(lia)) as Hb.
  rewrite Z.rem_mod_nonneg by lia.
  replace (((at_ GF_LOG x + at_ GF_LOG y) mod 255 - at_ GF_LOG y + 255) mod 255)
    with (at_ GF_LOG x); [now rewrite Ex |].
  rewrite <- Zplus_mod_idemp_l. rewrite Zminus_mod_idemp_l.
  replace (at_ GF_LOG x + at_ GF_LOG y - at_ GF_LOG y) with (at_ GF_LOG x) by lia.
  rewrite Zplus_mod_idemp_l.
  replace (at_ GF_LOG x + 255) with (at_ GF_LOG x + 1 * 255) by lia.
  rewrite Z.mod_add by lia. symmetry. apply Z.mod_small. lia.
Qed.

Lemma worker_field_ops_witness :
  QRWorker.gfMul 87 131 = gfMul 87 131
  /\ (131 <> 0 -> QRWorker.gfDiv (QRWorker.gfMul 87 131) 131 = Ok 87)
  /\ QRWorker.gfDiv 87 0 = Throw "Division by zero".
Proof. apply (worker_field_ops 87 131); unfold isByte; lia. Defined.

End FieldTheorems.

Section InterleaveFacts.
Import JS QREncoder.

Lemma ec_table :
  forallb (fun ec =>
             forallb (fun v =>
                        rowSane (ecBlocksOf v ec)
                        && (rowCodewords (ecBlocksOf v ec)
                            =? at_ TOTAL_CODEWORDS (v - 1)))
                     (range 1 41))
          levels = true.
Proof. vm_compute. reflexivity. Qed.

Lemma ec_row version ec :
  1 <= version <= 40 ->
  rowSane (ecBlocksOf version ec) = true
  /\ rowCodewords (ecBlocksOf version ec) = at_ TOTAL_CODEWORDS (version - 1).
Proof.
  intros Hv. pose proof ec_table as H. rewrite forallb_forall in H.
  assert (Hin : In ec levels) by (destruct ec; cbn; tauto).
  specialize (H ec Hin). rewrite forallb_forall in H.
  specialize (H version (proj2 (in_range 1 41 version) ltac:(lia))).
  apply andb_true_iff in H. destruct H as [H1 H2].
  split; [exact H1 | apply Z.eqb_eq, H2].
Qed.

Lemma heads_tails blocks : Permutation (heads blocks ++ concat (tails blocks))
                                       (concat blocks).
Proof.
  induction blocks as [| b blocks IH]; [constructor |].
  destruct b as [| h t]; cbn [heads tails flat_map map concat app].
  - exact IH.
  - fold (heads blocks). fold (tails blocks). constructor.
    rewrite <- IH. rewrite !app_assoc. apply Permutation_app_tail.
    apply Permutation_app_comm.
Qed.

(** One turn of the interleaving loop at index 0 takes the heads. *)
Lemma column_heads blocks result :
  fold_left (fun result block =>
               if 0 <? len block then result ++ [at_ block 0] else result)
            blocks result
  = result ++ heads blocks.
Proof.
  revert result. induction blocks as [| b blocks IH]; intros result.
  - cbn. now rewrite app_nil_r.
  - cbn [fold_left heads flat_map]. fold (heads blocks). rewrite IH.
    destruct b as [| h t].
    + reflexivity.
    + replace (0 <? len (h :: t)) with true
        by (symmetry; apply Z.ltb_lt; unfold len; cbn [length]; lia).
      change (at_ (h :: t) 0) with h. now rewrite <- app_assoc.
Qed.

(** A later turn is the turn before on the tails. *)
Lemma column_tails i blocks result :
  0 <= i ->
  fold_left (fun result block =>
               if i + 1 <? len block then result ++ [at_ block (i + 1)]
               else result)
            blocks result
  = fold_left (fun result block =>
                 if i <? len block then result ++ [at_ block i] else result)
              (tails blocks) result.
Proof.
  intros Hi. revert result.
  induction blocks as [| b blocks IH]; intros result; [reflexivity |].
  cbn [fold_left tails map]. fold (tails blocks). rewrite <- IH. f_equal.
  destruct b as [| h t].
  - replace (i + 1 <? len (@nil Z)) with false
      by (symmetry; apply Z.ltb_ge; unfold len; cbn; lia).
    replace (i <? len (@nil Z)) with false
      by (symmetry; apply Z.ltb_ge; unfold len; cbn; lia).
    reflexivity.
  - rewrite at_cons_succ by exact Hi.
    replace (i + 1 <? len (h :: t)) with (i <? len t); [reflexivity |].
    unfold len. cbn [length].
    destruct (Z.ltb_spec i (Z.of_nat (length t))),
             (Z.ltb_spec (i + 1) (Z.of_nat (S (length t)))); lia.
Qed.

Lemma interleave_succ n blocks result :
  0 <= n ->
  interleave (n + 1) blocks result
  = interleave n (tails blocks) (result ++ heads blocks).
Proof.
  intros Hn. unfold interleave, forZ.
  rewrite range_cons by lia. cbn [fold_left]. rewrite column_heads.
  rewrite (range_shift 0 n), fold_left_map_arg.
  apply fold_left_ext_in. intros acc i Hi. apply in_range in Hi.
  apply column_tails. lia.
Qed.

(** Interleaving loses and repeats nothing. *)
Lemma interleave_permutation (n : nat) :
  forall blocks result,
    Forall (fun b => len b <= Z.of_nat n) blocks ->
    Permutation (interleave (Z.of_nat n) blocks result)
                (result ++ concat blocks).
Proof.
  induction n as [| n IH]; intros blocks result Hlen.
  - unfold interleave, forZ. rewrite range_nil by lia. cbn [fold_left].
    replace (concat blocks) with (@nil Z); [now rewrite app_nil_r |].
    symmetry. induction Hlen as [| b blocks Hb _ IHb]; [reflexivity |].
    cbn [concat]. rewrite IHb. destruct b; [reflexivity |].
    unfold len in Hb. cbn in Hb. lia.
  - replace (Z.of_nat (S n)) with (Z.of_nat n + 1) by lia.
    rewrite interleave_succ by lia.
    rewrite IH.
    + rewrite <- app_assoc. apply Permutation_app_head, heads_tails.
    + unfold tails. apply List.Forall_forall. intros t Ht.
      apply in_map_iff in Ht. destruct Ht as (b & <- & Hb).
      pose proof (proj1 (List.Forall_forall _ _) Hlen b Hb) as Hbl.
      destruct b; unfold len in *; cbn [length] in *; lia.
Qed.

(** A single block comes out as it is. *)
Lemma interleave_single b result :
  interleave (len b) [b] result = result ++ b.
Proof.
  unfold interleave.
  rewrite (forZ_ext 0 (len b) _ (fun i result => result ++ [at_ b i])).
  - rewrite forZ_push. f_equal. symmetry. apply (list_by_index 0 b).
  - intros i s Hi. cbn [fold_left].
    replace (i <? len b) with true by (symmetry; apply Z.ltb_lt; lia).
    reflexivity.
Qed.

Lemma slice_inside {A} (l : list A) s d :
  0 <= s -> 0 <= d -> s + d <= len l ->
  slice l s (s + d) = firstn (Z.to_nat d) (skipn (Z.to_nat s) l).
Proof.
  intros Hs Hd Hl. unfold slice. f_equal. lia.
Qed.

Lemma blocksFrom_concat (dataBytes : list Z) start size (count : nat) :
  0 <= start -> 0 <= size ->
  start + Z.of_nat count * size <= len dataBytes ->
  concat (blocksFrom dataBytes start (Z.of_nat count) size)
  = firstn (count * Z.to_nat size) (skipn (Z.to_nat start) dataBytes).
Proof.
  intros Hs Hd. unfold blocksFrom. induction count as [| n IH]; intros Hl.
  - reflexivity.
  - replace (Z.of_nat (S n)) with (Z.of_nat n + 1) by lia.
    rewrite range_snoc by lia. rewrite map_app, concat_app, IH by nia.
    cbn [map concat]. rewrite app_nil_r.
    rewrite slice_inside by nia.
    replace (Z.to_nat (start + Z.of_nat n * size))
      with (n * Z.to_nat size + Z.to_nat start)%nat by nia.
    rewrite <- skipn_skipn.
    rewrite take_take_drop. f_equal. lia.
Qed.

Lemma blocksFrom_blocks (dataBytes : list Z) start count size :
  isBytes dataBytes -> 0 <= start -> 0 <= size -> 0 <= count ->
  start + count * size <= len dataBytes ->
  Forall (fun b => isBytes b /\ len b = size)
         (blocksFrom dataBytes start count size).
Proof.
  intros Hb Hs Hd Hc Hl. unfold blocksFrom.
  apply List.Forall_forall. intros b Hin. apply in_map_iff in Hin.
  destruct Hin as (t & <- & Ht). apply in_range in Ht.
  split; [apply slice_bytes, Hb |].
  rewrite slice_inside by nia.
  unfold len. rewrite length_firstn, length_skipn. unfold len in Hl. nia.
Qed.

(** The two loops that cut the blocks and encode them. *)
Lemma split_loop (dataBytes : list Z) (e d : Z) (count : Z) dbs ebs idx :
  0 <= count ->
  forZ 0 count
       (fun (_ : Z) '(dataBlocks, ecBlocks, dataIndex) =>
          let block := slice dataBytes dataIndex (dataIndex + d) in
          (dataBlocks ++ [block], ecBlocks ++ [rsEncode block e],
           dataIndex + d))
       (dbs, ebs, idx)
  = (dbs ++ blocksFrom dataBytes idx count d,
     ebs ++ map (fun b => rsEncode b e) (blocksFrom dataBytes idx count d),
     idx + count * d).
Proof.
  intros Hc.
  apply (forZ_indexed
           (fun i st =>
              st = (dbs ++ blocksFrom dataBytes idx i d,
                    ebs ++ map (fun b => rsEncode b e)
                               (blocksFrom dataBytes idx i d),
                    idx + i * d))
           0 count _ Hc).
  - intros i st Hi ->. cbv zeta. unfold blocksFrom.
    rewrite range_snoc by lia. rewrite !map_app, !app_assoc. cbn [map].
    f_equal. lia.
  - unfold blocksFrom. rewrite range_nil by lia. cbn [map].
    rewrite !app_nil_r. f_equal. lia.
Qed.

End InterleaveFacts.

Section ErrorCorrectionFacts.
Import JS QREncoder.

(** The loop over the EC blocks is the interleaving loop, as every EC block
    has [ecPerBlock] codewords. *)
Lemma ec_interleave e blocks result :
  Forall (fun b => len b = e) blocks ->
  forZ 0 e
       (fun i result =>
          fold_left (fun result block => result ++ [at_ block i]) blocks result)
       result
  = interleave e blocks result.
Proof.
  intros Hb. unfold interleave. apply forZ_ext. intros i s Hi.
  apply fold_left_ext_in. intros acc b Hin.
  rewrite (proj1 (List.Forall_forall _ _) Hb b Hin).
  replace (i <? e) with true by (symmetry; apply Z.ltb_lt; lia).
  reflexivity.
Qed.

Lemma blocksFrom_length dataBytes start count size :
  0 <= count -> len (blocksFrom dataBytes start count size) = count.
Proof.
  intros Hc. unfold blocksFrom, len. rewrite length_map, range_length. lia.
Qed.

Lemma concat_len_const (e : Z) (l : list (list Z)) :
  Forall (fun b => len b = e) l -> len (concat l) = len l * e.
Proof.
  induction 1 as [| b l Hb _ IH]; [reflexivity |].
  cbn [concat]. rewrite len_app, IH, Hb. unfold len. cbn [length]. lia.
Qed.

Lemma addErrorCorrection_unfold dataBytes version ec :
  1 <= version <= 40 -> isBytes dataBytes ->
  len dataBytes = getDataCapacity version ec ->
  addErrorCorrection dataBytes version ec
  = interleave (ecPerBlockOf version ec)
               (map (fun b => rsEncode b (ecPerBlockOf version ec))
                    (dataBlocksOf dataBytes version ec))
               (interleave (let '(_, _, data1, _, data2) :=
                              ecBlocksOf version ec in Z.max data1 data2)
                           (dataBlocksOf dataBytes version ec) []).
Proof.
  intros Hv Hb Hlen.
  destruct (ec_row version ec Hv) as [Hsane _].
  unfold addErrorCorrection, dataBlocksOf, ecPerBlockOf, getDataCapacity in *.
  destruct (ecBlocksOf version ec) as [[[[e b1] d1] b2] d2].
  unfold rowSane in Hsane.
  repeat (apply andb_true_iff in Hsane; destruct Hsane as [Hsane ?]).
  cbv zeta.
  rewrite split_loop by lia. rewrite split_loop by lia.
  cbn [app]. rewrite Z.add_0_l.
  rewrite <- map_app.
  apply ec_interleave.
  apply List.Forall_forall. intros r Hr. apply in_map_iff in Hr.
  destruct Hr as (b & <- & Hin).
  assert (Hbb : isBytes b).
  { apply in_app_or in Hin. unfold blocksFrom in Hin.
    destruct Hin as [Hin | Hin]; apply in_map_iff in Hin;
      destruct Hin as (t & <- & _); apply slice_bytes, Hb. }
  apply rsEncode_multiple; [exact Hbb | lia].
Qed.

Lemma isBytes_forallb l :
  forallb (fun b => (0 <=? b) && (b <? 256)) l = true -> isBytes l.
Proof.
  intros H. rewrite forallb_forall in H. apply List.Forall_forall.
  intros b Hb. specialize (H b Hb). apply andb_true_iff in H.
  destruct H as [H1 H2]. apply Z.leb_le in H1. apply Z.ltb_lt in H2. lia.
Qed.

(** X15.  [addErrorCorrection] cuts the data codewords into the blocks of
    the version's [EC_BLOCKS] row, which together are the data again, and
    returns the data codewords and the [ecPerBlock] codewords that
    [rsEncode] adds to each block, each exactly once, in interleaved order:
    [TOTAL_CODEWORDS[version - 1]] bytes in all.  With a single block the
    result is the data followed by its EC codewords. *)
Theorem addErrorCorrection_codewords
        (dataBytes : list Z) (version : Z) (ec : ecLevel) :
  1 <= version <= 40 -> isBytes dataBytes ->
  len dataBytes = getDataCapacity version ec ->
  let blocks := dataBlocksOf dataBytes version ec in
  let e := ecPerBlockOf version ec in
  let final := addErrorCorrection dataBytes version ec in
  concat blocks = dataBytes
  /\ Permutation final
                 (dataBytes ++ concat (map (fun b => rsEncode b e) blocks))
  /\ len final = at_ TOTAL_CODEWORDS (version - 1)
  /\ isBytes final
  /\ (len blocks = 1 -> final = dataBytes ++ rsEncode dataBytes e).
Proof.
  intros Hv Hb Hlen blocks e final.
  assert (Hun := addErrorCorrection_unfold dataBytes version ec Hv Hb Hlen).
  fold final blocks e in Hun.
  destruct (ec_row version ec Hv) as [Hsane Htot].
  unfold blocks, e, dataBlocksOf, ecPerBlockOf, getDataCapacity in *.
  destruct (ecBlocksOf version ec) as [[[[e0 b1] d1] b2] d2].
  unfold rowSane in Hsane. unfold rowCodewords in Htot.
  apply andb_true_iff in Hsane. destruct Hsane as [Hsane H6].
  apply andb_true_iff in Hsane. destruct Hsane as [Hsane H5].
  apply andb_true_iff in Hsane. destruct Hsane as [Hsane H4].
  apply andb_true_iff in Hsane. destruct Hsane as [Hsane H3].
  apply andb_true_iff in Hsane. destruct Hsane as [H1 H2].
  apply Z.ltb_lt in H1, H2, H3. apply Z.leb_le in H4, H5.
  clear blocks e.
  set (blocks1 := blocksFrom dataBytes 0 b1 d1) in *.
  set (blocks2 := blocksFrom dataBytes (b1 * d1) b2 d2) in *.
  assert (HB1 : Forall (fun b => isBytes b /\ len b = d1) blocks1)
    by (apply blocksFrom_blocks; first [assumption | nia]).
  assert (HB2 : Forall (fun b => isBytes b /\ len b = d2) blocks2)
    by (apply blocksFrom_blocks; first [assumption | nia]).
  assert (Hcat : concat (blocks1 ++ blocks2) = dataBytes).
  { rewrite concat_app. unfold blocks1, blocks2.
    rewrite <- (Z2Nat.id b1) by lia. rewrite <- (Z2Nat.id b2) by lia.
    rewrite !blocksFrom_concat by (rewrite ?Z2Nat.id by lia; nia).
    rewrite Z2Nat.id by lia.
    change (Z.to_nat 0) with 0%nat. rewrite drop_0.
    replace (Z.to_nat (b1 * d1)) with (Z.to_nat b1 * Z.to_nat d1)%nat by nia.
    rewrite take_take_drop. apply firstn_all2. unfold len in Hlen. nia. }
  assert (Hmax : Forall (fun b => len b <= Z.of_nat (Z.to_nat (Z.max d1 d2)))
                        (blocks1 ++ blocks2)).
  { apply Forall_app. split.
    - eapply List.Forall_impl; [| exact HB1]. cbn. intros b [_ Hl]. lia.
    - eapply List.Forall_impl; [| exact HB2]. cbn. intros b [_ Hl]. lia. }
  set (ecb := map (fun b => rsEncode b e0) (blocks1 ++ blocks2)) in *.
  assert (Hecb : Forall (fun r => isBytes r /\ len r = e0) ecb).
  { unfold ecb. apply List.Forall_forall. intros r Hr. apply in_map_iff in Hr.
    destruct Hr as (b & <- & Hin).
    assert (Hbb : isBytes b).
    { apply in_app_or in Hin.
      destruct Hin as [Hin | Hin];
        [apply (proj1 (List.Forall_forall _ _) HB1 b Hin)
        | apply (proj1 (List.Forall_forall _ _) HB2 b Hin)]. }
    destruct (rsEncode_multiple b e0 Hbb ltac:(lia)) as (Hr1 & Hr2 & _).
    split; assumption. }
  assert (Hperm1 : Permutation (interleave (Z.max d1 d2) (blocks1 ++ blocks2) [])
                               dataBytes).
  { rewrite <- (Z2Nat.id (Z.max d1 d2)) by lia.
    rewrite interleave_permutation by exact Hmax.
    cbn [app]. now rewrite Hcat. }
  assert (Hperm : Permutation final (dataBytes ++ concat ecb)).
  { rewrite Hun. rewrite <- (Z2Nat.id e0) by lia.
    rewrite interleave_permutation.
    - apply Permutation_app_tail, Hperm1.
    - eapply List.Forall_impl; [| exact Hecb]. cbn. intros r [_ Hl]. lia. }
  split; [exact Hcat |]. split; [exact Hperm |].
  assert (Hblen : len (blocks1 ++ blocks2) = b1 + b2).
  { rewrite len_app. unfold blocks1, blocks2.
    rewrite !blocksFrom_length by lia. reflexivity. }
  split; [| split].
  - unfold len at 1. rewrite (Permutation_length Hperm).
    fold (len (dataBytes ++ concat ecb)). rewrite len_app, Hlen.
    rewrite (concat_len_const e0)
      by (eapply List.Forall_impl; [| exact Hecb]; cbn; tauto).
    unfold ecb, len at 1. rewrite length_map.
    fold (len (blocks1 ++ blocks2)). rewrite Hblen. lia.
  - apply (Permutation_Forall (Permutation_sym Hperm)).
    apply Forall_app. split; [exact Hb |].
    apply Forall_concat.
    eapply List.Forall_impl; [| exact Hecb]. cbn. tauto.
  - intros Hone. rewrite Hblen in Hone.
    assert (b1 = 1) by lia. assert (b2 = 0) by lia. subst b1 b2.
    assert (d2 = 0).
    { apply orb_true_iff in H6. destruct H6 as [H6 | H6];
        [apply Z.ltb_lt in H6; lia | apply Z.eqb_eq in H6; exact H6]. }
    subst d2.
    assert (Hd1 : d1 = len dataBytes) by lia.
    assert (Hblocks : blocks1 ++ blocks2 = [dataBytes]).
    { unfold blocks1, blocks2, blocksFrom.
      rewrite (range_cons 0 1), (range_nil (0 + 1) 1), (range_nil 0 0) by lia.
      cbn [map app]. f_equal.
      replace (0 + 0 * d1) with 0 by lia.
      rewrite slice_inside by lia.
      change (Z.to_nat 0) with 0%nat. rewrite drop_0.
      apply firstn_all2. unfold len in Hd1. lia. }
    rewrite Hun. unfold ecb. rewrite Hblocks. cbn [map].
    replace (Z.max d1 0) with (len dataBytes) by lia.
    rewrite interleave_single. cbn [app].
    destruct (rsEncode_multiple dataBytes e0 Hb ltac:(lia)) as (_ & Hr2 & _).
    rewrite <- Hr2 at 1. apply interleave_single.
Qed.

Lemma addErrorCorrection_codewords_witness :
  let dataBytes := encodeData hello 1 L in
  let blocks := dataBlocksOf dataBytes 1 L in
  let e := ecPerBlockOf 1 L in
  let final := addErrorCorrection dataBytes 1 L in
  concat blocks = dataBytes
  /\ Permutation final
                 (dataBytes ++ concat (map (fun b => rsEncode b e) blocks))
  /\ len final = at_ TOTAL_CODEWORDS (1 - 1)
  /\ isBytes final
  /\ (len blocks = 1 -> final = dataBytes ++ rsEncode dataBytes e).
Proof.
  apply (addErrorCorrection_codewords (encodeData hello 1 L) 1 L).
  - lia.
  - apply isBytes_forallb. vm_compute. reflexivity.
  - vm_compute. reflexivity.
Defined.

End ErrorCorrectionFacts.

Section FrameFacts.
Import JS QREncoder.

Lemma bind_ok {A B} (x : res A) (k : A -> res B) b :
  x ≫= k = Ok b -> exists a, x = Ok a /\ k a = Ok b.
Proof. destruct x as [a | m |]; cbn; intros H; [eauto | discriminate ..]. Qed.

Lemma fold_res_stuck {S B} (f : S -> B -> res S) l (x : res S) :
  (forall s, x <> Ok s) ->
  forall s, fold_left (fun acc i => s' ← acc; f s' i) l x <> Ok s.
Proof.
  revert x. induction l as [| b l IH]; intros x Hx s; cbn [fold_left].
  - apply Hx.
  - apply IH. intros s' E. apply bind_ok in E. destruct E as (a & E & _).
    apply (Hx a E).
Qed.

Lemma fold_res_ok {S B} (P : S -> Prop) (f : S -> B -> res S) l :
  (forall s b s', In b l -> P s -> f s b = Ok s' -> P s') ->
  forall s s', P s ->
    fold_left (fun acc i => s0 ← acc; f s0 i) l (Ok s) = Ok s' -> P s'.
Proof.
  induction l as [| b l IH]; intros Hstep s s' Hs E; cbn [fold_left] in E.
  - now injection E as <-.
  - change (Ok s ≫= (fun s0 => f s0 b)) with (f s b) in E.
    destruct (f s b) as [s1 | m |] eqn:E1.
    + apply (IH (fun s b s' Hb => Hstep s b s' (or_intror Hb)) s1 s'); [| exact E].
      apply (Hstep s b s1 (or_introl eq_refl) Hs E1).
    + exfalso. revert E. apply fold_res_stuck. discriminate.
    + exfalso. revert E. apply fold_res_stuck. discriminate.
Qed.

Lemma forR_ok {S} (P : S -> Prop) lo hi (body : Z -> S -> res S) :
  (forall i s s', lo <= i < hi -> P s -> body i s = Ok s' -> P s') ->
  forall s s', P s -> forR lo hi body s = Ok s' -> P s'.
Proof.
  intros Hstep s s' Hs E. unfold forR in E.
  apply (fold_res_ok P (fun s i => body i s) (range lo hi)) with (s := s);
    [| exact Hs | exact E].
  intros s0 i s1 Hi. apply Hstep. now apply in_range.
Qed.

Lemma forR_ok_indexed {S} (P : Z -> S -> Prop) lo hi (body : Z -> S -> res S) :
  lo <= hi ->
  (forall i s s', lo <= i < hi -> P i s -> body i s = Ok s' -> P (i + 1) s') ->
  forall s s', P lo s -> forR lo hi body s = Ok s' -> P hi s'.
Proof.
  intros Hle Hstep. unfold forR.
  remember (Z.to_nat (hi - lo)) as n eqn:Hn.
  revert lo Hle Hstep Hn. induction n as [| n IH]; intros lo Hle Hstep Hn s s' Hs E.
  - rewrite range_nil in E by lia. cbn in E. injection E as <-.
    replace hi with lo by lia. exact Hs.
  - rewrite range_cons in E by lia. cbn [fold_left] in E.
    change (Ok s ≫= (fun s0 => body lo s0)) with (body lo s) in E.
    destruct (body lo s) as [s1 | m |] eqn:E1.
    + apply (IH (lo + 1) ltac:(lia)
                (fun i s s' Hi => Hstep i s s' ltac:(lia)) ltac:(lia) s1 s');
        [| exact E].
      apply (Hstep lo s s1 ltac:(lia) Hs E1).
    + exfalso. revert E. apply fold_res_stuck. discriminate.
    + exfalso. revert E. apply fold_res_stuck. discriminate.
Qed.

Lemma cell_setCell {A} (m m' : list (list A)) r c v r' c' :
  setCell m r c v = Ok m' ->
  cell m' r' c' = if (r' =? r) && (c' =? c) then Some v else cell m r' c'.
Proof.
  unfold setCell. destruct ((r <? 0) || (c <? 0)) eqn:Hneg; [discriminate |].
  apply orb_false_iff in Hneg. destruct Hneg as [Hr Hc].
  apply Z.ltb_ge in Hr, Hc.
  destruct (m !! Z.to_nat r) as [row |] eqn:Hrow; [| discriminate].
  destruct (Z.to_nat c <? length row)%nat eqn:Hlt; [| discriminate].
  apply Nat.ltb_lt in Hlt. intros [= <-].
  unfold cell.
  destruct ((r' <? 0) || (c' <? 0)) eqn:Hneg'.
  - apply orb_true_iff in Hneg'.
    replace ((r' =? r) && (c' =? c)) with false; [reflexivity |].
    symmetry. apply andb_false_iff.
    destruct Hneg' as [H | H]; apply Z.ltb_lt in H;
      [left | right]; apply Z.eqb_neq; lia.
  - apply orb_false_iff in Hneg'. destruct Hneg' as [Hr' Hc'].
    apply Z.ltb_ge in Hr', Hc'.
    rewrite list_lookup_insert.
    assert (Hrl : (Z.to_nat r < length m)%nat)
      by (apply lookup_lt_is_Some; eauto).
    destruct (Z.eqb_spec r' r) as [-> | Hne].
    + rewrite decide_True by (split; [reflexivity | exact Hrl]).
      rewrite Hrow. cbn [mbind option_bind andb].
      rewrite list_lookup_insert.
      destruct (Z.eqb_spec c' c) as [-> | Hnc].
      * now rewrite decide_True by (split; [reflexivity | exact Hlt]).
      * rewrite decide_False by lia. reflexivity.
    + rewrite decide_False by lia. reflexivity.
Qed.

Lemma setModule_cells g r c v g' :
  setModule g r c v = Ok g' ->
  reserved g' = reserved g
  /\ forall r' c', cell (matrix g') r' c'
                   = if (r' =? r) && (c' =? c) then Some v
                     else cell (matrix g) r' c'.
Proof.
  unfold setModule. intros H. apply bind_ok in H.
  destruct H as (m & Hm & [= <-]). cbn [reserved matrix].
  split; [reflexivity |]. intros r' c'. now apply cell_setCell.
Qed.

Lemma setFunction_cells g r c v g' :
  setFunction g r c v = Ok g' ->
  forall r' c',
    cell (matrix g') r' c'
    = (if (r' =? r) && (c' =? c) then Some v else cell (matrix g) r' c')
    /\ cell (reserved g') r' c'
       = (if (r' =? r) && (c' =? c) then Some true
          else cell (reserved g) r' c').
Proof.
  unfold setFunction. intros H. apply bind_ok in H.
  destruct H as (m & Hm & H). apply bind_ok in H.
  destruct H as (rs & Hrs & [= <-]). cbn [reserved matrix].
  intros r' c'. split; now apply cell_setCell.
Qed.

Lemma isReserved_cell g r c b :
  isReserved g r c = Ok b -> cell (reserved g) r c = Some b.
Proof.
  unfold isReserved. destruct (cell (reserved g) r c); [| discriminate].
  now intros [= ->].
Qed.

Lemma keeps_refl g : keeps g g.
Proof. split; [reflexivity | auto]. Qed.

(** Writing a module that is not reserved keeps the reserved ones. *)
Lemma keeps_setModule g0 g r c v g' :
  keeps g0 g -> cell (reserved g) r c = Some false ->
  setModule g r c v = Ok g' -> keeps g0 g'.
Proof.
  intros [Hres Hval] Hfree H. apply setModule_cells in H.
  destruct H as [Hres' Hcells]. split; [congruence |].
  intros r' c' Hr. rewrite Hcells.
  destruct ((r' =? r) && (c' =? c)) eqn:E; [| apply Hval, Hr].
  apply andb_true_iff in E. destruct E as [E1 E2].
  apply Z.eqb_eq in E1, E2. subst r' c'.
  rewrite Hres in Hfree. congruence.
Qed.

Lemma placeStrip_keeps g0 bits size col p p' :
  keeps g0 (pgrid p) -> placeStrip bits size col p = Ok p' ->
  keeps g0 (pgrid p').
Proof.
  intros Hk H. unfold placeStrip in H. apply bind_ok in H.
  destruct H as (p1 & H1 & [= <-]). cbn [pgrid].
  revert H1. apply (forR_ok (fun p => keeps g0 (pgrid p))); [| exact Hk].
  intros row p2 p3 _ Hk2.
  apply (forR_ok (fun p => keeps g0 (pgrid p))); [| exact Hk2].
  intros c p4 p5 _ Hk4 H. apply bind_ok in H.
  destruct H as (b & Hb & H). apply isReserved_cell in Hb.
  destruct b; [now injection H as <- |].
  destruct (bitIndex p4 <? len bits); apply bind_ok in H;
    destruct H as (g & Hg & [= <-]); cbn [pgrid];
    eapply keeps_setModule; eassumption.
Qed.

Lemma placeColumns_keeps g0 bits size fuel :
  forall col p p',
    keeps g0 (pgrid p) -> placeColumns fuel bits size col p = Ok p' ->
    keeps g0 (pgrid p').
Proof.
  induction fuel as [| fuel IH]; intros col p p' Hk H; cbn [placeColumns] in H.
  - destruct (col <? 0); [now injection H as <- | discriminate].
  - destruct (col <? 0); [now injection H as <- |].
    apply bind_ok in H. destruct H as (p1 & H1 & H).
    eapply IH; [| exact H]. eapply placeStrip_keeps; eassumption.
Qed.

Lemma placeData_keeps g size data g' :
  placeData g size data = Ok g' -> keeps g g'.
Proof.
  unfold placeData. cbv zeta. intros H. apply bind_ok in H.
  destruct H as (p & Hp & [= <-]).
  eapply placeColumns_keeps; [| exact Hp]. apply keeps_refl.
Qed.

Lemma applyMask_keeps g size mask g' :
  applyMask g size mask = Ok g' -> keeps g g'.
Proof.
  unfold applyMask.
  apply (forR_ok (keeps g)); [| apply keeps_refl].
  intros r g1 g2 _ Hk1.
  apply (forR_ok (keeps g)); [| exact Hk1].
  intros c g3 g4 _ Hk3 H. apply bind_ok in H.
  destruct H as (b & Hb & H). apply isReserved_cell in Hb.
  destruct b; cbn [negb andb] in H; [now injection H as <- |].
  destruct (maskFunction mask r c); [| now injection H as <-].
  destruct (cell (matrix g3) r c) as [v |]; [| discriminate].
  eapply keeps_setModule; eassumption.
Qed.

Lemma keeps_trans g0 g1 g2 : keeps g0 g1 -> keeps g1 g2 -> keeps g0 g2.
Proof.
  intros [R1 V1] [R2 V2]. split; [congruence |].
  intros r c Hr. rewrite V2 by (rewrite R1; exact Hr). apply V1, Hr.
Qed.

(** X16.  [placeData] and [applyMask] never touch a function module: the
    grid of reserved modules and the value of every reserved module are
    after them what they were before, whatever the data and the mask. *)
Theorem function_modules_kept
        (g : grid) (size : Z) (data : list Z) (mask : Z) (g1 g2 : grid) :
  placeData g size data = Ok g1 -> applyMask g1 size mask = Ok g2 ->
  reserved g1 = reserved g /\ reserved g2 = reserved g
  /\ forall r c, cell (reserved g) r c = Some true ->
                 cell (matrix g1) r c = cell (matrix g) r c
                 /\ cell (matrix g2) r c = cell (matrix g) r c.
Proof.
  intros H1 H2. apply placeData_keeps in H1. apply applyMask_keeps in H2.
  pose proof (keeps_trans _ _ _ H1 H2) as H3.
  destruct H1 as [R1 V1]. destruct H3 as [R3 V3].
  split; [exact R1 |]. split; [exact R3 |].
  intros r c Hr. split; [apply V1, Hr | apply V3, Hr].
Qed.

End FrameFacts.

Section FunctionWitness.
Import JS QREncoder.

Lemma function_modules_kept_witness :
  let g := gridOf (addFinderPattern (fst (createMatrix 1)) 0 0)
                  (fst (createMatrix 1)) in
  let g1 := gridOf (placeData g 21 [1; 2; 3]) g in
  let g2 := gridOf (applyMask g1 21 0) g1 in
  reserved g1 = reserved g /\ reserved g2 = reserved g
  /\ forall r c, cell (reserved g) r c = Some true ->
                 cell (matrix g1) r c = cell (matrix g) r c
                 /\ cell (matrix g2) r c = cell (matrix g) r c.
Proof.
  apply (function_modules_kept
           (gridOf (addFinderPattern (fst (createMatrix 1)) 0 0)
                   (fst (createMatrix 1)))
           21 [1; 2; 3] 0);
    vm_compute; reflexivity.
Defined.

End FunctionWitness.

Section FormatFacts.
Import JS QREncoder.

Lemma setFunction_fixed_same g r c v g' :
  setFunction g r c v = Ok g' -> fixedAt g' r c v.
Proof.
  intros H. destruct (setFunction_cells g r c v g' H r c) as [Hm Hr].
  rewrite !Z.eqb_refl in Hm, Hr. split; assumption.
Qed.

Lemma setFunction_fixed_other g r c v g' r0 c0 v0 :
  setFunction g r c v = Ok g' -> r0 <> r \/ c0 <> c ->
  fixedAt g r0 c0 v0 -> fixedAt g' r0 c0 v0.
Proof.
  intros H Hne [Hm Hr].
  destruct (setFunction_cells g r c v g' H r0 c0) as [Hm' Hr'].
  replace ((r0 =? r) && (c0 =? c)) with false in Hm', Hr'.
  - split; congruence.
  - symmetry. apply andb_false_iff.
    destruct Hne; [left | right]; now apply Z.eqb_neq.
Qed.

(** A loop of [setFunction] that stays away from a module. *)
Lemma forR_fixed_other (fr fc fv : Z -> Z) lo hi g g' r0 c0 v0 :
  (forall i, lo <= i < hi -> r0 <> fr i \/ c0 <> fc i) ->
  forR lo hi (fun i g => setFunction g (fr i) (fc i) (fv i)) g = Ok g' ->
  fixedAt g r0 c0 v0 -> fixedAt g' r0 c0 v0.
Proof.
  intros Hne H Hfix. revert H.
  apply (forR_ok (fun g => fixedAt g r0 c0 v0)); [| exact Hfix].
  intros i s s' Hi Hs E.
  eapply setFunction_fixed_other; [exact E | apply Hne, Hi | exact Hs].
Qed.

(** A loop of [setFunction] that writes a module once. *)
Lemma forR_fixed_at (fr fc fv : Z -> Z) lo hi g g' k :
  lo <= k < hi ->
  (forall i, k < i < hi -> fr k <> fr i \/ fc k <> fc i) ->
  forR lo hi (fun i g => setFunction g (fr i) (fc i) (fv i)) g = Ok g' ->
  fixedAt g' (fr k) (fc k) (fv k).
Proof.
  intros Hk Hne H.
  assert (Hinv : k < hi -> fixedAt g' (fr k) (fc k) (fv k)).
  { apply (forR_ok_indexed
             (fun i g => k < i -> fixedAt g (fr k) (fc k) (fv k)) lo hi
             (fun i g => setFunction g (fr i) (fc i) (fv i)) ltac:(lia))
      with (s := g); [| intros Hlt; lia | exact H].
    intros i s s' Hi Hs E Hlt.
    destruct (Z.eq_dec i k) as [-> | Hik].
    - eapply setFunction_fixed_same, E.
    - eapply setFunction_fixed_other; [exact E | apply Hne; lia |].
      apply Hs. lia. }
  apply Hinv. lia.
Qed.

(** Where [addFormatInfo] leaves the copy of the format word that lies
    around the top-left finder. *)
Lemma addFormatInfo_cells g size ec mask g' :
  21 <= size -> addFormatInfo g size ec mask = Ok g' ->
  (forall i, 0 <= i <= 5 -> fixedAt g' 8 i (formatBit ec mask (14 - i)))
  /\ fixedAt g' 8 7 (formatBit ec mask 8)
  /\ fixedAt g' 8 8 (formatBit ec mask 7)
  /\ fixedAt g' 7 8 (formatBit ec mask 6)
  /\ (forall r, 0 <= r <= 5 -> fixedAt g' r 8 (formatBit ec mask r)).
Proof.
  intros Hsize H. unfold addFormatInfo in H. cbv zeta in H.
  fold (formatBit ec mask 8) in H. fold (formatBit ec mask 7) in H.
  fold (formatBit ec mask 6) in H.
  apply bind_ok in H. destruct H as (g1 & H1 & H).
  apply bind_ok in H. destruct H as (g2 & H2 & H).
  apply bind_ok in H. destruct H as (g3 & H3 & H).
  apply bind_ok in H. destruct H as (g4 & H4 & H).
  apply bind_ok in H. destruct H as (g5 & H5 & H).
  apply bind_ok in H. destruct H as (g6 & H6 & H).
  apply bind_ok in H. destruct H as (g7 & H7 & H8).
  (* the loops, in the shape of the lemmas *)
  change (forR 0 6 (fun i g => setFunction g ((fun _ => 8) i) ((fun i => i) i)
                                 ((fun i => formatBit ec mask (14 - i)) i)) g
          = Ok g1) in H1.
  change (forR 0 6 (fun i g => setFunction g ((fun i => 5 - i) i) ((fun _ => 8) i)
                                 ((fun i => formatBit ec mask (5 - i)) i)) g4
          = Ok g5) in H5.
  change (forR 0 8 (fun i g => setFunction g ((fun _ => 8) i)
                                 ((fun i => size - 1 - i) i)
                                 ((fun i => formatBit ec mask i) i)) g5
          = Ok g6) in H6.
  change (forR 0 7 (fun i g => setFunction g ((fun i => size - 1 - i) i)
                                 ((fun _ => 8) i)
                                 ((fun i => formatBit ec mask (14 - i)) i)) g6
          = Ok g7) in H7.
  assert (Hlate : forall r0 c0 v0,
             0 <= r0 <= 8 -> 0 <= c0 <= 8 ->
             fixedAt g5 r0 c0 v0 -> fixedAt g' r0 c0 v0).
  { intros r0 c0 v0 Hr0 Hc0 Hf.
    eapply setFunction_fixed_other; [exact H8 | lia |].
    eapply forR_fixed_other; [| exact H7 |]; [cbv beta; intros; lia |].
    eapply forR_fixed_other; [| exact H6 |]; [cbv beta; intros; lia |].
    exact Hf. }
  split; [| split; [| split; [| split]]].
  - intros i Hi. apply Hlate; [lia | lia |].
    eapply forR_fixed_other; [| exact H5 |]; [cbv beta; intros; lia |].
    eapply setFunction_fixed_other; [exact H4 | lia |].
    eapply setFunction_fixed_other; [exact H3 | lia |].
    eapply setFunction_fixed_other; [exact H2 | lia |].
    apply (forR_fixed_at (fun _ => 8) (fun i => i)
                         (fun i => formatBit ec mask (14 - i)) 0 6 g g1 i);
      [lia | cbv beta; intros; lia | exact H1].
  - apply Hlate; [lia | lia |].
    eapply forR_fixed_other; [| exact H5 |]; [cbv beta; intros; lia |].
    eapply setFunction_fixed_other; [exact H4 | lia |].
    eapply setFunction_fixed_other; [exact H3 | lia |].
    eapply setFunction_fixed_same, H2.
  - apply Hlate; [lia | lia |].
    eapply forR_fixed_other; [| exact H5 |]; [cbv beta; intros; lia |].
    eapply setFunction_fixed_other; [exact H4 | lia |].
    eapply setFunction_fixed_same, H3.
  - apply Hlate; [lia | lia |].
    eapply forR_fixed_other; [| exact H5 |]; [cbv beta; intros; lia |].
    eapply setFunction_fixed_same, H4.
  - intros r Hr. apply Hlate; [lia | lia |].
    pose proof (forR_fixed_at (fun i => 5 - i) (fun _ => 8)
                              (fun i => formatBit ec mask (5 - i))
                              0 6 g4 g5 (5 - r) ltac:(lia)
                              ltac:(cbv beta; intros; lia) H5) as Hf.
    cbv beta in Hf. replace (5 - (5 - r)) with r in Hf by lia. exact Hf.
Qed.

End FormatFacts.

Section FormatReadBack.
Import JS QREncoder.

Lemma cell_mget (m : list (list Z)) r c v :
  cell m r c = Some v -> QRWorker.mget m r c = v.
Proof.
  unfold cell, QRWorker.mget, at_.
  destruct ((r <? 0) || (c <? 0)); [discriminate |].
  rewrite !nth_lookup.
  destruct (m !! Z.to_nat r) as [row |]; [| discriminate].
  cbn. intros ->. reflexivity.
Qed.

(** What the two readers return from the fifteen modules they read. *)
Lemma readFormat_bits (m : list (list Z)) (size : Z) ec mask :
  0 <= mask < 8 ->
  (forall i, 0 <= i <= 5 -> QRWorker.mget m 8 i = formatBit ec mask (14 - i)) ->
  QRWorker.mget m 8 7 = formatBit ec mask 8 ->
  QRWorker.mget m 8 8 = formatBit ec mask 7 ->
  QRWorker.mget m 7 8 = formatBit ec mask 6 ->
  (forall r, 0 <= r <= 5 -> QRWorker.mget m r 8 = formatBit ec mask r) ->
  QRWorker.readFormat m = (ec, mask)
  /\ QRWorker.readFormatInfo m size = (ec, mask).
Proof.
  intros Hmask Hrow H87 H88 H78 Hcol.
  unfold QRWorker.readFormat, QRWorker.readFormatInfo. cbv zeta.
  unfold forZ, forDown.
  change (range 0 6) with [0; 1; 2; 3; 4; 5].
  change (rev (range 0 (5 + 1))) with [5; 4; 3; 2; 1; 0].
  cbn [fold_left].
  rewrite (Hrow 0), (Hrow 1), (Hrow 2), (Hrow 3), (Hrow 4), (Hrow 5) by lia.
  rewrite (Hcol 0), (Hcol 1), (Hcol 2), (Hcol 3), (Hcol 4), (Hcol 5) by lia.
  rewrite H87, H88, H78.
  assert (Hm : mask = 0 \/ mask = 1 \/ mask = 2 \/ mask = 3
               \/ mask = 4 \/ mask = 5 \/ mask = 6 \/ mask = 7) by lia.
  destruct ec;
    destruct Hm as [-> | [-> | [-> | [-> | [-> | [-> | [-> | ->]]]]]]];
    vm_compute; split; reflexivity.
Qed.

(** X17.  The decoders read back from a symbol the level and the mask
    that it was built with: [readFormat] and [readFormatInfo], applied to
    the matrix of any version, data and mask, return the [ecLevel] and the
    [mask] given to [addFormatInfo].  Neither the data nor the masking
    reaches the modules that they read. *)
Theorem format_read_back
        (version : Z) (ec : ecLevel) (finalData : list Z) (mask : Z)
        (m : list (list Z)) (size : Z) :
  1 <= version <= 40 -> 0 <= mask < 8 ->
  buildSymbol version ec finalData mask = Ok (m, size) ->
  QRWorker.readFormat m = (ec, mask)
  /\ QRWorker.readFormatInfo m size = (ec, mask).
Proof.
  intros Hv Hmask H. unfold buildSymbol, createMatrix in H.
  cbv beta iota zeta in H.
  apply bind_ok in H. destruct H as (g1 & _ & H).
  apply bind_ok in H. destruct H as (g2 & _ & H).
  apply bind_ok in H. destruct H as (g3 & _ & H).
  apply bind_ok in H. destruct H as (g4 & _ & H).
  apply bind_ok in H. destruct H as (g5 & _ & H).
  apply bind_ok in H. destruct H as (g6 & _ & H).
  apply bind_ok in H. destruct H as (g7 & H7 & H).
  apply bind_ok in H. destruct H as (g8 & H8 & H).
  apply bind_ok in H. destruct H as (g9 & H9 & H).
  injection H as <- <-.
  apply addFormatInfo_cells in H7; [| unfold sizeOf; lia].
  destruct H7 as (F1 & F2 & F3 & F4 & F5).
  pose proof (keeps_trans _ _ _ (placeData_keeps _ _ _ _ H8)
                          (applyMask_keeps _ _ _ _ H9)) as [_ Hk].
  assert (Hread : forall r c v, fixedAt g7 r c v ->
                                QRWorker.mget (matrix g9) r c = v).
  { intros r c v [Hm Hr]. apply cell_mget. rewrite Hk by exact Hr. exact Hm. }
  apply readFormat_bits; [exact Hmask | | | | |].
  - intros i Hi. apply Hread, F1, Hi.
  - apply Hread, F2.
  - apply Hread, F3.
  - apply Hread, F4.
  - intros r Hr. apply Hread, F5, Hr.
Qed.

Lemma format_read_back_witness :
  let m := default [] (symbolOf (buildSymbol 1 Q [1; 2; 3] 5)) in
  QRWorker.readFormat m = (Q, 5) /\ QRWorker.readFormatInfo m 21 = (Q, 5).
Proof.
  apply (format_read_back 1 Q [1; 2; 3] 5); [lia | lia |].
  vm_compute. reflexivity.
Defined.

End FormatReadBack.

Section BitFacts.
Import JS QREncoder QRWorkerBits.

Lemma placeData_codewordBits g size data :
  placeData g size data
  = (p ← placeColumns (Z.to_nat size) (codewordBits data) size (size - 1)
                      (mkPlacing g 0 true);
     Ok (pgrid p)).
Proof. reflexivity. Qed.

Lemma pushBits_expand value n bits :
  pushBits value n bits = bits ++ expand value n.
Proof.
  unfold pushBits, forDown, expand. replace (n - 1 + 1) with n by lia.
  generalize (rev (range 0 n)) as l. intros l. revert bits.
  induction l as [| j l IH]; intros bits; cbn [fold_left map].
  - now rewrite app_nil_r.
  - rewrite IH, <- app_assoc. reflexivity.
Qed.

Lemma expand_length value n : 0 <= n -> len (expand value n) = n.
Proof.
  intros Hn. unfold expand, len.
  rewrite length_map, length_rev, range_length. lia.
Qed.

Lemma expand_nth value n t :
  0 <= t < n -> at_ (expand value n) t = band (sar value (n - 1 - t)) 1.
Proof.
  intros Ht. unfold at_, expand. apply nth_error_nth.
  rewrite nth_error_map, nth_error_rev, range_length.
  destruct (Nat.ltb_spec (Z.to_nat t) (Z.to_nat (n - 0))) as [_ | H]; [| lia].
  replace (Z.to_nat (n - 0) - S (Z.to_nat t))%nat with (Z.to_nat (n - 1 - t))
    by lia.
  rewrite range_nth_error by lia. cbn [option_map]. do 3 f_equal.
Qed.

Lemma at_app_r (pre l : list Z) i :
  0 <= i -> at_ (pre ++ l) (len pre + i) = at_ l i.
Proof.
  intros Hi. unfold at_, len. rewrite app_nth2 by lia.
  f_equal. lia.
Qed.

Lemma at_app_l (l post : list Z) i :
  0 <= i < len l -> at_ (l ++ post) i = at_ l i.
Proof.
  intros Hi. unfold at_, len in *. apply app_nth1. lia.
Qed.

Lemma sar_div x j :
  0 <= x < 2147483648 -> 0 <= j < 32 -> sar x j = x / 2 ^ j.
Proof.
  intros Hx Hj. unfold sar. rewrite toInt32_small by lia.
  rewrite Z.mod_small by lia. apply Z.shiftr_div_pow2. lia.
Qed.

Lemma band_1_mod y : 0 <= y < 2147483648 -> band y 1 = y mod 2.
Proof.
  intros Hy. unfold band. rewrite toInt32_small by lia.
  change (toInt32 1) with (Z.ones 1). rewrite Z.land_ones by lia.
  reflexivity.
Qed.

Lemma bor_shl_wide b v :
  0 <= b < 2 ^ 29 -> isBit v -> bor (shl b 1) v = 2 * b + v.
Proof.
  intros Hb Hv. change (2 ^ 29) with 536870912 in Hb.
  unfold bor, shl. change (1 mod 32) with 1.
  rewrite (toInt32_small b) by lia.
  rewrite Z.shiftl_mul_pow2 by lia. change (2 ^ 1) with 2.
  rewrite (toInt32_small (b * 2)) by lia.
  rewrite (toInt32_small (b * 2)) by lia.
  assert (Hv' : 0 <= v < 2) by (destruct Hv; lia).
  rewrite (toInt32_small v) by lia.
  assert (Hland : Z.land (b * 2) v = 0).
  { apply Z.bits_inj'. intros n Hn. rewrite Z.land_spec, Z.bits_0.
    destruct (Z.eq_dec n 0) as [-> | Hn0].
    - replace (b * 2) with (2 * b) by lia. rewrite Z.testbit_even_0.
      reflexivity.
    - replace (Z.testbit v n) with false; [apply andb_false_r |].
      symmetry. destruct Hv as [-> | ->]; [apply Z.bits_0 |].
      apply Z.bits_above_log2; cbn; lia. }
  rewrite <- Z.lxor_lor by exact Hland.
  rewrite <- Z.add_nocarry_lxor by exact Hland. lia.
Qed.

(** The value of the bits read so far, [t] of [n]. *)
Lemma prefix_value x n t :
  0 <= x < 2 ^ n -> 0 <= t < n -> n <= 29 ->
  2 * (x / 2 ^ (n - t)) + (x / 2 ^ (n - 1 - t)) mod 2 = x / 2 ^ (n - 1 - t).
Proof.
  intros Hx Ht Hn.
  replace (n - t) with ((n - 1 - t) + 1) by lia.
  rewrite Z.pow_add_r by lia. change (2 ^ 1) with 2.
  rewrite <- Z.div_div by (try apply Z.pow_pos_nonneg; lia).
  generalize (x / 2 ^ (n - 1 - t)). intros y.
  pose proof (Z.div_mod y 2 ltac:(lia)). lia.
Qed.

Lemma expand_bits value n : Forall isBit (expand value n).
Proof.
  unfold expand. apply List.Forall_forall. intros b Hb.
  apply in_map_iff in Hb. destruct Hb as (j & <- & _). apply band_1_bit.
Qed.

Lemma div_pow2_bounds x k : 0 <= x -> 0 <= k -> 0 <= x / 2 ^ k <= x.
Proof.
  intros Hx Hk. assert (Hp : 0 < 2 ^ k) by (apply Z.pow_pos_nonneg; lia).
  split; [apply Z.div_pos; lia |].
  apply Z.div_le_upper_bound; [lia | nia].
Qed.

(** One turn of the loops of [read] and [readBits] inside the bits of [x]. *)
Lemma read_step pre post x n t :
  0 <= x < 2 ^ n -> 0 <= t < n -> n <= 29 ->
  bor (shl (x / 2 ^ (n - t)) 1) (at_ (pre ++ expand x n ++ post) (len pre + t))
  = x / 2 ^ (n - (t + 1)).
Proof.
  intros Hx Ht Hn.
  assert (Hp : 2 ^ n <= 2 ^ 29) by (apply Z.pow_le_mono_r; lia).
  change (2 ^ 29) with 536870912 in Hp.
  rewrite at_app_r by lia.
  rewrite at_app_l by (rewrite expand_length; lia).
  rewrite expand_nth by lia.
  rewrite sar_div by lia.
  assert (Hq : 0 <= x / 2 ^ (n - 1 - t) <= x)
    by (apply div_pow2_bounds; lia).
  rewrite band_1_mod by lia.
  assert (Hr : 0 <= x / 2 ^ (n - t) <= x)
    by (apply div_pow2_bounds; lia).
  rewrite bor_shl_wide.
  - replace (n - (t + 1)) with (n - 1 - t) by lia.
    apply prefix_value; lia.
  - change (2 ^ 29) with 536870912. lia.
  - unfold isBit. pose proof (Z.mod_pos_bound (x / 2 ^ (n - 1 - t)) 2). lia.
Qed.

(** [read] of the first [t] of the [n] bits of [x]. *)
Lemma read_prefix pre post x n t :
  0 <= x < 2 ^ n -> 0 <= t <= n -> n <= 29 ->
  read (pre ++ expand x n ++ post) t (len pre)
  = (x / 2 ^ (n - t), len pre + t).
Proof.
  intros Hx Ht Hn. unfold read.
  apply (forZ_indexed
           (fun k (s : Z * Z) => s = (x / 2 ^ (n - k), len pre + k))).
  - lia.
  - intros k s Hk ->.
    replace (len pre + k <? len (pre ++ expand x n ++ post)) with true.
    + rewrite read_step by lia. f_equal. lia.
    + symmetry. apply Z.ltb_lt. rewrite !len_app, expand_length by lia.
      pose proof (len_nonneg post). lia.
  - rewrite Z.sub_0_r, Z.add_0_r, Z.div_small by lia. reflexivity.
Qed.

Lemma read_expand pre post x n :
  0 <= x < 2 ^ n -> 0 <= n <= 29 ->
  read (pre ++ expand x n ++ post) n (len pre) = (x, len pre + n).
Proof.
  intros Hx Hn. rewrite read_prefix by lia.
  rewrite Z.sub_diag. change (2 ^ 0) with 1. now rewrite Z.div_1_r.
Qed.

Lemma readBits_prefix pre post x n t :
  0 <= x < 2 ^ n -> 0 <= t <= n -> n <= 29 ->
  readBits (pre ++ expand x n ++ post) t (len pre)
  = (x / 2 ^ (n - t), len pre + t).
Proof.
  intros Hx Ht Hn. unfold readBits.
  apply (forZ_indexed
           (fun k (s : Z * Z) => s = (x / 2 ^ (n - k), len pre + k))).
  - lia.
  - intros k s Hk ->. rewrite read_step by lia. f_equal. lia.
  - rewrite Z.sub_0_r, Z.add_0_r, Z.div_small by lia. reflexivity.
Qed.

Lemma readBits_expand pre post x n :
  0 <= x < 2 ^ n -> 0 <= n <= 29 ->
  readBits (pre ++ expand x n ++ post) n (len pre) = (x, len pre + n).
Proof.
  intros Hx Hn. rewrite readBits_prefix by lia.
  rewrite Z.sub_diag. change (2 ^ 0) with 1. now rewrite Z.div_1_r.
Qed.

(** A loop whose body does not look at its index, one turn unrolled. *)
Lemma forZ_const_cons {S} (x : Z) (l : list Z) (f : S -> S) (s : S) :
  forZ 0 (len (x :: l)) (fun _ => f) s = forZ 0 (len l) (fun _ => f) (f s).
Proof. apply (forZ_cons x l (fun _ => f)). Qed.

Lemma fromCharCode_byte b : isByte b -> fromCharCode b = [b].
Proof. intros Hb. unfold fromCharCode, isByte in *. now rewrite Z.mod_small by lia. Qed.

(** The byte loop of [decodeBits] over the bits of [bytes]. *)
Lemma read_bytes bits bytes : forall pre post result,
  isBytes bytes ->
  bits = pre ++ concat (map (fun b => expand b 8) bytes) ++ post ->
  forZ 0 (len bytes)
       (fun _ '(i, result) =>
          let '(b, i) := read bits 8 i in
          (i, if b =? 0 then result else result ++ fromCharCode b))
       (len pre, result)
  = (len pre + 8 * len bytes, result ++ List.filter nonzero bytes).
Proof.
  induction bytes as [| b bytes IH]; intros pre post result Hb E.
  - change (len []) with 0. unfold forZ. rewrite range_nil by lia.
    cbn [fold_left List.filter]. rewrite app_nil_r. f_equal. lia.
  - apply Forall_cons_1 in Hb. destruct Hb as [Hb Hbs].
    rewrite (forZ_const_cons b bytes).
    cbn [map concat] in E. rewrite <- app_assoc in E.
    assert (Hr : read bits 8 (len pre) = (b, len pre + 8))
      by (rewrite E; apply read_expand; change (2 ^ 8) with 256; lia).
    cbv beta iota. rewrite Hr. cbv iota.
    assert (E' : bits = (pre ++ expand b 8)
                          ++ concat (map (fun b => expand b 8) bytes) ++ post)
      by (rewrite E, <- app_assoc; reflexivity).
    pose proof (IH (pre ++ expand b 8) post
                   (if b =? 0 then result else result ++ fromCharCode b)
                   Hbs E') as H.
    rewrite len_app, expand_length in H by lia. rewrite H.
    replace (len (b :: bytes)) with (len bytes + 1)
      by (unfold len; cbn [length]; lia).
    f_equal; [lia |]. cbn [List.filter]. unfold nonzero at 2.
    destruct (b =? 0); cbn [negb]; [reflexivity |].
    rewrite fromCharCode_byte by exact Hb. now rewrite <- app_assoc.
Qed.

(** The byte loop of [decodeData] over the bits of [bytes]. *)
Lemma readBits_bytes bits bytes : forall pre post result,
  isBytes bytes ->
  bits = pre ++ concat (map (fun b => expand b 8) bytes) ++ post ->
  forZ 0 (len bytes)
       (fun _ '(pos, result) =>
          let '(b, pos) := readBits bits 8 pos in
          (pos, result ++ fromCharCode b))
       (len pre, result)
  = (len pre + 8 * len bytes, result ++ bytes).
Proof.
  induction bytes as [| b bytes IH]; intros pre post result Hb E.
  - change (len []) with 0. unfold forZ. rewrite range_nil by lia.
    cbn [fold_left]. rewrite app_nil_r. f_equal. lia.
  - apply Forall_cons_1 in Hb. destruct Hb as [Hb Hbs].
    rewrite (forZ_const_cons b bytes).
    cbn [map concat] in E. rewrite <- app_assoc in E.
    assert (Hr : readBits bits 8 (len pre) = (b, len pre + 8))
      by (rewrite E; apply readBits_expand; change (2 ^ 8) with 256; lia).
    cbv beta iota. rewrite Hr. cbv iota.
    assert (E' : bits = (pre ++ expand b 8)
                          ++ concat (map (fun b => expand b 8) bytes) ++ post)
      by (rewrite E, <- app_assoc; reflexivity).
    pose proof (IH (pre ++ expand b 8) post (result ++ fromCharCode b)
                   Hbs E') as H.
    rewrite len_app, expand_length in H by lia. rewrite H.
    replace (len (b :: bytes)) with (len bytes + 1)
      by (unfold len; cbn [length]; lia).
    f_equal; [lia |].
    rewrite fromCharCode_byte by exact Hb. now rewrite <- app_assoc.
Qed.

Lemma pushBits_fold_map (g : Z -> Z) (l : list Z) : forall acc,
  fold_left (fun bits c => pushBits (g c) 8 bits) l acc
  = acc ++ concat (map (fun c => expand (g c) 8) l).
Proof.
  induction l as [| b l IH]; intros acc; cbn [fold_left map concat].
  - now rewrite app_nil_r.
  - rewrite IH, pushBits_expand, <- app_assoc. reflexivity.
Qed.

Lemma pushBits_fold (l : list Z) acc :
  fold_left (fun bits byte => pushBits byte 8 bits) l acc
  = acc ++ concat (map (fun b => expand b 8) l).
Proof. apply (pushBits_fold_map (fun b => b)). Qed.

Lemma codewordBits_concat l :
  codewordBits l = concat (map (fun b => expand b 8) l).
Proof. unfold codewordBits. now rewrite pushBits_fold. Qed.

Lemma codewordBits_app l k :
  codewordBits (l ++ k) = codewordBits l ++ codewordBits k.
Proof. now rewrite !codewordBits_concat, map_app, concat_app. Qed.

Lemma concat_expand_len (g : Z -> Z) (l : list Z) :
  len (concat (map (fun c => expand (g c) 8) l)) = 8 * len l.
Proof.
  induction l as [| b l IH]; [reflexivity |].
  cbn [map concat]. rewrite len_app, IH, expand_length by lia.
  unfold len. cbn [length]. lia.
Qed.

Lemma concat_expand_bits (g : Z -> Z) (l : list Z) :
  Forall isBit (concat (map (fun c => expand (g c) 8) l)).
Proof.
  induction l as [| b l IH]; [constructor |].
  cbn [map concat]. apply Forall_app. split; [apply expand_bits | exact IH].
Qed.

(** Eight bits packed into a byte by [encodeData] are the bits that
    [placeData] unpacks. *)
Lemma expand_packed b0 b1 b2 b3 b4 b5 b6 b7 (rest : list Z) :
  isBit b0 -> isBit b1 -> isBit b2 -> isBit b3 ->
  isBit b4 -> isBit b5 -> isBit b6 -> isBit b7 ->
  expand (forZ 0 8
               (fun j byte =>
                  bor (shl byte 1)
                      (at_ (b0 :: b1 :: b2 :: b3 :: b4 :: b5 :: b6 :: b7 :: rest)
                           (8 * 0 + j))) 0) 8
  = [b0; b1; b2; b3; b4; b5; b6; b7].
Proof.
  intros H0 H1 H2 H3 H4 H5 H6 H7.
  destruct H0 as [-> | ->], H1 as [-> | ->], H2 as [-> | ->], H3 as [-> | ->],
           H4 as [-> | ->], H5 as [-> | ->], H6 as [-> | ->], H7 as [-> | ->];
    vm_compute; reflexivity.
Qed.

Lemma packed_bytes (k : nat) : forall B : list Z,
  Forall isBit B -> len B = 8 * Z.of_nat k ->
  concat (map (fun b => expand b 8)
              (map (fun j => forZ 0 8
                               (fun t byte => bor (shl byte 1) (at_ B (8 * j + t)))
                               0)
                   (range 0 (Z.of_nat k))))
  = B.
Proof.
  induction k as [| k IH]; intros B HB HL.
  - destruct B; [reflexivity | unfold len in HL; cbn [length] in HL; lia].
  - destruct B as [| b0 [| b1 [| b2 [| b3 [| b4 [| b5 [| b6 [| b7 B']]]]]]]];
      try (unfold len in HL; cbn [length] in HL; lia).
    repeat match goal with
           | H : Forall isBit (_ :: _) |- _ =>
               apply Forall_cons_1 in H; destruct H as [? H]
           end.
    replace (Z.of_nat (S k)) with (Z.of_nat k + 1) by lia.
    rewrite range_cons by lia. rewrite (range_shift 0 (Z.of_nat k)).
    cbn [map concat]. rewrite expand_packed by assumption.
    cbn [app]. do 8 f_equal.
    etransitivity;
      [| apply (IH B'); [exact HB | unfold len in *; cbn [length] in HL; lia]].
    f_equal. rewrite !map_map. apply map_ext_in. intros j Hj.
    apply in_range in Hj. f_equal. apply forZ_ext. intros t byte Ht.
    f_equal. replace (8 * (j + 1) + t) with (len [b0; b1; b2; b3; b4; b5; b6; b7] + (8 * j + t))
      by (change (len [b0; b1; b2; b3; b4; b5; b6; b7]) with 8; lia).
    apply (at_app_r [b0; b1; b2; b3; b4; b5; b6; b7] B'). lia.
Qed.

Lemma band_byte c : isByte (band c 0xFF).
Proof.
  unfold band, isByte. change (toInt32 255) with (Z.ones 8).
  rewrite Z.land_ones by lia. apply Z.mod_pos_bound. lia.
Qed.

(** [encodeData] fills the capacity with bytes, and its codewords, as
    [placeData] lays them out, start with the mode, the count, the
    characters and the terminator. *)
Lemma encodeData_stream text v ec :
  fits (len text) ec v = true ->
  len (encodeData text v ec) = getDataCapacity v ec
  /\ isBytes (encodeData text v ec)
  /\ exists pad, codewordBits (encodeData text v ec) = segment text v ++ pad.
Proof.
  intros Hfits. unfold encodeData. cbv zeta.
  set (capacity := getDataCapacity v ec).
  set (countBits := if v <? 10 then 8 else 16).
  assert (Hcb : countBits = 8 \/ countBits = 16)
    by (unfold countBits; destruct (v <? 10); auto).
  assert (Hcap : len text * 8 <= capacity * 8 - (4 + countBits) - 4)
    by (unfold fits in Hfits; apply Z.leb_le in Hfits; exact Hfits).
  pose proof (len_nonneg text) as Hlen.
  rewrite pushBits_expand.
  pose proof (forZ_at (fun bits c => pushBits (band c 0xFF) 8 bits) text
                      ([0; 1; 0; 0] ++ expand (len text) countBits)) as E2.
  cbv beta in E2. rewrite E2. clear E2.
  rewrite (pushBits_fold_map (fun c => band c 0xFF)).
  set (bits2 := ([0; 1; 0; 0] ++ expand (len text) countBits)
                  ++ concat (map (fun c => expand (band c 0xFF) 8) text)).
  assert (L2 : len bits2 = 4 + countBits + 8 * len text).
  { unfold bits2. rewrite !len_app, expand_length by lia.
    rewrite (concat_expand_len (fun c => band c 0xFF)).
    change (len [0; 1; 0; 0]) with 4. lia. }
  assert (B2 : Forall isBit bits2).
  { unfold bits2. repeat apply Forall_app_2.
    - repeat (apply List.Forall_cons;
              [first [left; reflexivity | right; reflexivity] |]).
      apply List.Forall_nil.
    - apply expand_bits.
    - apply (concat_expand_bits (fun c => band c 0xFF)). }
  replace (Z.min 4 (capacity * 8 - len bits2)) with 4 by lia.
  rewrite (forZ_push (fun _ => 0) 0 4 bits2).
  change (map (fun _ : Z => 0) (range 0 4)) with [0; 0; 0; 0].
  assert (E3 : bits2 ++ [0; 0; 0; 0] = segment text v).
  { unfold bits2, segment. fold countBits. now rewrite <- !app_assoc. }
  rewrite E3.
  assert (L3 : len (segment text v) = 8 + countBits + 8 * len text).
  { rewrite <- E3, len_app, L2. change (len [0; 0; 0; 0]) with 4. lia. }
  assert (B3 : Forall isBit (segment text v)).
  { rewrite <- E3. apply Forall_app_2; [exact B2 |].
    repeat (apply List.Forall_cons; [left; reflexivity |]).
    apply List.Forall_nil. }
  clearbody bits2. clear E3 L2 B2 bits2.
  set (bits3 := segment text v) in *.
  assert (Hpad : padToByte bits3 = bits3).
  { unfold padToByte. cbn [while].
    replace (Z.rem (len bits3) 8 =? 0) with true; [reflexivity |].
    symmetry. apply Z.eqb_eq. rewrite L3.
    destruct Hcb as [-> | ->].
    - replace (8 + 8 + 8 * len text) with ((2 + len text) * 8) by lia.
      apply Z.rem_mul. lia.
    - replace (8 + 16 + 8 * len text) with ((3 + len text) * 8) by lia.
      apply Z.rem_mul. lia. }
  rewrite Hpad.
  set (bits4 := padBytes capacity bits3).
  assert (H4 : (exists k, len bits4 = 8 * k) /\ len bits4 <= capacity * 8
               /\ Forall isBit bits4 /\ exists pad, bits4 = bits3 ++ pad).
  { assert (Hinv : (fun st : list Z * Z =>
                      (exists k, len (fst st) = 8 * k)
                      /\ len (fst st) <= capacity * 8
                      /\ Forall isBit (fst st)
                      /\ exists pad, fst st = bits3 ++ pad)
                     (while (Z.to_nat capacity)
                        (fun '(bits, padIndex) => len bits <? capacity * 8)
                        (fun '(bits, padIndex) =>
                           let pad := at_ [0xec; 0x11] (Z.rem padIndex 2) in
                           (pushBits pad 8 bits, padIndex + 1))
                        (bits3, 0))).
    { apply while_invariant.
      - intros [bits pi] ([k Hk] & Hle & Hb & [pad Hp]) Hc. cbn [fst] in *.
        apply Z.ltb_lt in Hc. rewrite pushBits_len by lia.
        split; [exists (k + 1); lia |]. split; [lia |].
        split; [apply pushBits_bits, Hb |].
        rewrite pushBits_expand, Hp, <- app_assoc. eexists. reflexivity.
      - cbn [fst]. split; [| split; [lia | split; [exact B3 |]]].
        + destruct Hcb as [E | E]; rewrite L3, E;
            [exists (2 + len text) | exists (3 + len text)]; lia.
        + exists []. now rewrite app_nil_r. }
    exact Hinv. }
  destruct H4 as (_ & Hle & B4 & [pad Hp]).
  pose proof (padBytes_exits capacity bits3) as Hge. fold bits4 in Hge.
  assert (L4 : len bits4 = capacity * 8) by lia.
  clearbody bits4.
  replace ((len bits4 + 7) / 8) with capacity
    by (rewrite L4; apply Z.div_unique with (r := 7); lia).
  rewrite forZ_push. cbn [app].
  assert (Hc0 : 0 <= capacity) by lia.
  split; [| split].
  - unfold len. rewrite length_map, range_length. lia.
  - apply List.Forall_forall. intros b Hb. apply in_map_iff in Hb.
    destruct Hb as (k & <- & _). apply byte_of_bits, B4.
  - exists pad. rewrite <- Hp, codewordBits_concat.
    rewrite <- (Z2Nat.id capacity Hc0).
    apply packed_bytes; [exact B4 | lia].
Qed.

Lemma encodeData_segment text v ec :
  fits (len text) ec v = true ->
  exists pad, codewordBits (encodeData text v ec) = segment text v ++ pad.
Proof. intros H. apply (encodeData_stream text v ec H). Qed.

(** [read] never moves back, and moves by [n] where [n] bits are left. *)
Lemma read_mono bits n i : i <= snd (read bits n i).
Proof.
  unfold read.
  apply (forZ_invariant (fun s : Z * Z => i <= snd s)); [| cbn; lia].
  intros k [val j] _ Hs. cbn [snd] in *.
  destruct (j <? len bits); cbn [snd]; lia.
Qed.

Lemma read_advance bits n i :
  0 <= n -> i + n <= len bits -> snd (read bits n i) = i + n.
Proof.
  intros Hn Hi. unfold read.
  assert (H : (fun k (s : Z * Z) => snd s = i + k) n
                (forZ 0 n
                      (fun _ '(val, i) =>
                         if i <? len bits
                         then (bor (shl val 1) (at_ bits i), i + 1)
                         else (val, i))
                      (0, i))).
  { apply forZ_indexed; [lia | | cbn; lia].
    intros k [val j] Hk Hs. cbn [snd] in *. subst j.
    replace (i + k <? len bits) with true by (symmetry; apply Z.ltb_lt; lia).
    cbn [snd]. lia. }
  exact H.
Qed.

(** A loop of reads never moves back. *)
Lemma reads_mono bits (n count : Z) (g : Z -> list Z -> list Z) i result :
  i <= fst (forZ 0 count
                 (fun _ '(i, result) =>
                    let '(b, i) := read bits n i in (i, g b result))
                 (i, result)).
Proof.
  apply (forZ_invariant (fun s : Z * list Z => i <= fst s)); [| cbn; lia].
  intros k [j r] _ Hs. cbn [fst] in *.
  pose proof (read_mono bits n j) as Hm.
  destruct (read bits n j) as [b j']. cbn [fst snd] in *. lia.
Qed.

(** A turn of [decodeBits] that begins with four bits to read breaks or
    moves by at least four bits. *)
Lemma decodeTurn_advances bits v s :
  rpos s + 4 <= len bits ->
  rbroke (decodeTurn bits v s) = true
  \/ rpos s + 4 <= rpos (decodeTurn bits v s).
Proof.
  intros Hs. unfold decodeTurn.
  pose proof (read_advance bits 4 (rpos s) ltac:(lia) Hs) as H4.
  destruct (read bits 4 (rpos s)) as [mode i]. cbn [snd] in H4. subst i.
  destruct (mode =? 0); [left; reflexivity |].
  destruct (mode =? 4).
  { match goal with
    | |- context [read bits ?n ?i] =>
        pose proof (read_mono bits n i) as H1;
        destruct (read bits n i) as [count i1]
    end.
    cbn [snd] in H1.
    pose proof (reads_mono bits 8 count
                  (fun b result => if b =? 0 then result
                                   else result ++ fromCharCode b)
                  i1 (rtext s)) as H2.
    cbv beta in H2.
    destruct (forZ 0 count _ (i1, rtext s)) as [i2 r2].
    cbn [fst rpos] in *. right. lia. }
  destruct (mode =? 2).
  { match goal with
    | |- context [read bits ?n ?i] =>
        pose proof (read_mono bits n i) as H1;
        destruct (read bits n i) as [count i1]
    end.
    cbn [snd] in H1.
    pose proof (reads_mono bits 11 (count / 2)
                  (fun val result =>
                     result ++ plusText (charAt chars (val / 45))
                                        (charAt chars (Z.rem val 45)))
                  i1 (rtext s)) as H2.
    cbv beta in H2.
    destruct (forZ 0 (count / 2) _ (i1, rtext s)) as [i2 r2].
    cbn [fst] in H2.
    destruct (Z.rem count 2 =? 0); [cbn [rpos]; right; lia |].
    pose proof (read_mono bits 6 i2) as H3.
    destruct (read bits 6 i2) as [k i3]. cbn [snd rpos] in *. right. lia. }
  destruct (mode =? 1); [| left; reflexivity].
  match goal with
  | |- context [read bits ?n ?i] =>
      pose proof (read_mono bits n i) as H1;
      destruct (read bits n i) as [count i1]
  end.
  cbn [snd] in H1.
  pose proof (reads_mono bits 10 (count / 3)
                (fun val result =>
                   result ++ padStart 3 (QRStreamNack.numberToString val))
                i1 (rtext s)) as H2.
  cbv beta in H2.
  destruct (forZ 0 (count / 3) _ (i1, rtext s)) as [i2 r2].
  cbn [fst] in H2.
  destruct (Z.rem count 3 =? 2).
  { pose proof (read_mono bits 7 i2) as H3.
    destruct (read bits 7 i2) as [k i3]. cbn [snd rpos] in *. right. lia. }
  destruct (Z.rem count 3 =? 1).
  { pose proof (read_mono bits 4 i2) as H3.
    destruct (read bits 4 i2) as [k i3]. cbn [snd rpos] in *. right. lia. }
  cbn [rpos]. right. lia.
Qed.

(** The loop of [decodeBits] ends because its test fails or it breaks. *)
Lemma decodeBits_exits bits v :
  negb (rbroke (decodeLoop bits v))
  && (rpos (decodeLoop bits v) <? len bits - 4) = false.
Proof.
  unfold decodeLoop.
  apply (while_exits
           (fun s => if rbroke s then 0%nat else Z.to_nat (len bits - rpos s))
           (fun s => negb (rbroke s) && (rpos s <? len bits - 4))).
  - intros s Hc. apply andb_true_iff in Hc. destruct Hc as [Hb Hp].
    apply negb_true_iff in Hb. apply Z.ltb_lt in Hp. rewrite Hb.
    destruct (decodeTurn_advances bits v s ltac:(lia)) as [H | H].
    + rewrite H. lia.
    + destruct (rbroke (decodeTurn bits v s)); lia.
  - cbn [rbroke rpos]. lia.
Qed.

Lemma while_stops {S} (cond : S -> bool) (body : S -> S) fuel s :
  cond s = false -> while fuel cond body s = s.
Proof. intros H. destruct fuel; cbn [while]; [| rewrite H]; reflexivity. Qed.

(** [decodeBits] on a byte segment, whatever follows it. *)
Lemma decodeBits_segment text v tail :
  len text < (if v <? 10 then 256 else 65536) ->
  decodeBits (segment text v ++ tail) v
  = List.filter nonzero (map (fun c => band c 0xFF) text).
Proof.
  intros Hlen. pose proof (len_nonneg text) as Hnn.
  set (cb := if v <? 10 then 8 else 16).
  assert (Hcb : (cb = 8 \/ cb = 16) /\ len text < 2 ^ cb).
  { unfold cb. destruct (v <? 10);
      [change (2 ^ 8) with 256 | change (2 ^ 16) with 65536]; split; auto. }
  destruct Hcb as [Hcb Hlt].
  set (bytes := map (fun c => band c 0xFF) text).
  assert (Hbytes : isBytes bytes).
  { unfold bytes. apply List.Forall_forall. intros b Hb.
    apply in_map_iff in Hb. destruct Hb as (c & <- & _). apply band_byte. }
  assert (Lb : len bytes = len text)
    by (unfold bytes, len; now rewrite length_map).
  set (bits := segment text v ++ tail).
  assert (E1 : bits = [] ++ expand 4 4
                         ++ (expand (len text) cb
                               ++ concat (map (fun b => expand b 8) bytes)
                               ++ expand 0 4 ++ tail)).
  { unfold bits, segment, bytes. fold cb. rewrite map_map.
    change (expand 4 4) with [0; 1; 0; 0].
    change (expand 0 4) with [0; 0; 0; 0].
    cbn [app]. now rewrite <- !app_assoc. }
  assert (E2 : bits = expand 4 4 ++ expand (len text) cb
                         ++ (concat (map (fun b => expand b 8) bytes)
                               ++ expand 0 4 ++ tail))
    by exact E1.
  assert (E3 : bits = (expand 4 4 ++ expand (len text) cb)
                        ++ concat (map (fun b => expand b 8) bytes)
                        ++ (expand 0 4 ++ tail))
    by (rewrite E2, !app_assoc; reflexivity).
  assert (E4 : bits = ((expand 4 4 ++ expand (len text) cb)
                         ++ concat (map (fun b => expand b 8) bytes))
                        ++ expand 0 4 ++ tail)
    by (rewrite E3, !app_assoc; reflexivity).
  assert (L : len bits = 8 + cb + 8 * len text + len tail).
  { rewrite E4, !len_app, !expand_length by lia.
    rewrite (concat_expand_len (fun b => b)), Lb. lia. }
  pose proof (len_nonneg tail) as Htail.
  assert (R1 : read bits 4 0 = (4, 4)).
  { rewrite E1. apply (read_expand [] _ 4 4); [change (2 ^ 4) with 16 |]; lia. }
  assert (R2 : read bits cb 4 = (len text, 4 + cb)).
  { rewrite E2.
    apply (read_expand (expand 4 4) _ (len text) cb);
      destruct Hcb as [-> | ->]; lia. }
  assert (R3 : forZ 0 (len text)
                    (fun _ '(i, result) =>
                       let '(b, i) := read bits 8 i in
                       (i, if b =? 0 then result else result ++ fromCharCode b))
                    (4 + cb, [])
               = (4 + cb + 8 * len text, List.filter nonzero bytes)).
  { pose proof (read_bytes bits bytes (expand 4 4 ++ expand (len text) cb)
                           (expand 0 4 ++ tail) [] Hbytes E3) as H.
    rewrite len_app, !expand_length, Lb in H by lia. exact H. }
  assert (R4 : read bits 4 (4 + cb + 8 * len text)
               = (0, 4 + cb + 8 * len text + 4)).
  { pose proof (read_expand
                  ((expand 4 4 ++ expand (len text) cb)
                     ++ concat (map (fun b => expand b 8) bytes))
                  tail 0 4 ltac:(change (2 ^ 4) with 16; lia) ltac:(lia)) as H.
    rewrite <- E4 in H.
    rewrite !len_app, !expand_length in H by lia.
    rewrite (concat_expand_len (fun b => b)), Lb in H. exact H. }
  unfold decodeBits, decodeLoop. fold bits.
  assert (T1 : decodeTurn bits v (mkReader 0 [] false)
               = mkReader (4 + cb + 8 * len text) (List.filter nonzero bytes)
                          false).
  { unfold decodeTurn. cbn [rpos rtext]. rewrite R1.
    cbv iota beta zeta. change (4 =? 0) with false. change (4 =? 4) with true.
    cbv iota. fold cb. rewrite R2. cbv iota beta. rewrite R3. reflexivity. }
  assert (T2 : decodeTurn bits v
                 (mkReader (4 + cb + 8 * len text) (List.filter nonzero bytes)
                           false)
               = mkReader (4 + cb + 8 * len text + 4)
                          (List.filter nonzero bytes) true).
  { unfold decodeTurn. cbn [rpos rtext]. rewrite R4. reflexivity. }
  destruct (Z.to_nat (len bits)) as [| [| fuel]] eqn:Ef; [lia | lia |].
  cbn [while rbroke rpos negb andb].
  replace (0 <? len bits - 4) with true by (symmetry; apply Z.ltb_lt; lia).
  rewrite T1. cbn [rbroke rpos negb andb].
  destruct (4 + cb + 8 * len text <? len bits - 4); [| reflexivity].
  rewrite T2. rewrite while_stops by reflexivity. reflexivity.
Qed.

(** [decodeData] on a byte segment with an 8-bit count. *)
Lemma decodeData_segment text v tail :
  v < 10 -> len text < 256 ->
  decodeData (segment text v ++ tail) = map (fun c => band c 0xFF) text.
Proof.
  intros Hv Hlen. pose proof (len_nonneg text) as Hnn.
  set (bytes := map (fun c => band c 0xFF) text).
  assert (Hbytes : isBytes bytes).
  { unfold bytes. apply List.Forall_forall. intros b Hb.
    apply in_map_iff in Hb. destruct Hb as (c & <- & _). apply band_byte. }
  assert (Lb : len bytes = len text)
    by (unfold bytes, len; now rewrite length_map).
  set (bits := segment text v ++ tail).
  assert (E1 : bits = [] ++ expand 4 4
                         ++ (expand (len text) 8
                               ++ concat (map (fun b => expand b 8) bytes)
                               ++ expand 0 4 ++ tail)).
  { unfold bits, segment, bytes.
    replace (v <? 10) with true by (symmetry; apply Z.ltb_lt; lia).
    rewrite map_map.
    change (expand 4 4) with [0; 1; 0; 0].
    change (expand 0 4) with [0; 0; 0; 0].
    cbn [app]. now rewrite <- !app_assoc. }
  assert (E2 : bits = expand 4 4 ++ expand (len text) 8
                         ++ (concat (map (fun b => expand b 8) bytes)
                               ++ expand 0 4 ++ tail))
    by exact E1.
  assert (E3 : bits = (expand 4 4 ++ expand (len text) 8)
                        ++ concat (map (fun b => expand b 8) bytes)
                        ++ (expand 0 4 ++ tail))
    by (rewrite E2, !app_assoc; reflexivity).
  assert (R1 : readBits bits 4 0 = (4, 4)).
  { rewrite E1.
    apply (readBits_expand [] _ 4 4); [change (2 ^ 4) with 16 |]; lia. }
  assert (R2 : readBits bits 8 4 = (len text, 4 + 8)).
  { rewrite E2.
    apply (readBits_expand (expand 4 4) _ (len text) 8);
      [change (2 ^ 8) with 256 |]; lia. }
  assert (R3 : forZ 0 (len text)
                    (fun _ '(pos, result) =>
                       let '(b, pos) := readBits bits 8 pos in
                       (pos, result ++ fromCharCode b))
                    (4 + 8, [])
               = (4 + 8 + 8 * len text, bytes)).
  { pose proof (readBits_bytes bits bytes (expand 4 4 ++ expand (len text) 8)
                               (expand 0 4 ++ tail) [] Hbytes E3) as H.
    rewrite len_app, !expand_length, Lb in H by lia. exact H. }
  unfold decodeData. fold bits. rewrite R1. cbv iota beta.
  change (4 =? 0) with false. change (4 =? 4) with true. cbv iota.
  rewrite R2. cbv iota beta. rewrite R3. reflexivity.
Qed.

(** [decodeData] reads eight bits of a 16-bit count: for a short text they
    are zeros. *)
Lemma decodeData_wide_count text v tail :
  10 <= v -> len text < 256 -> decodeData (segment text v ++ tail) = [].
Proof.
  intros Hv Hlen. pose proof (len_nonneg text) as Hnn.
  set (bits := segment text v ++ tail).
  assert (E1 : bits = [] ++ expand 4 4
                         ++ (expand (len text) 16
                               ++ concat (map (fun c => expand (band c 0xFF) 8)
                                              text)
                               ++ expand 0 4 ++ tail)).
  { unfold bits, segment.
    replace (v <? 10) with false by (symmetry; apply Z.ltb_ge; lia).
    change (expand 4 4) with [0; 1; 0; 0].
    change (expand 0 4) with [0; 0; 0; 0].
    cbn [app]. now rewrite <- !app_assoc. }
  assert (R1 : readBits bits 4 0 = (4, 4)).
  { rewrite E1.
    apply (readBits_expand [] _ 4 4); [change (2 ^ 4) with 16 |]; lia. }
  assert (R2 : readBits bits 8 4 = (0, 4 + 8)).
  { rewrite E1. change ([] ++ ?l) with l.
    rewrite (readBits_prefix (expand 4 4) _ (len text) 16 8)
      by (change (2 ^ 16) with 65536; lia).
    change (2 ^ (16 - 8)) with 256. rewrite Z.div_small by lia.
    reflexivity. }
  unfold decodeData. fold bits. rewrite R1. cbv iota beta.
  change (4 =? 0) with false. change (4 =? 4) with true. cbv iota.
  rewrite R2. reflexivity.
Qed.

Lemma count_table :
  forallb (fun ec =>
             forallb (fun v => getDataCapacity v ec
                               <? (if v <? 10 then 256 else 65536))
                     (range 1 41))
          levels = true.
Proof. vm_compute. reflexivity. Qed.

(** The count field is wide enough for every text that fits. *)
Lemma fits_count (text : list Z) ec v :
  1 <= v <= 40 -> fits (len text) ec v = true ->
  len text < (if v <? 10 then 256 else 65536).
Proof.
  intros Hv Hf. apply fits_bound in Hf.
  pose proof count_table as H. rewrite forallb_forall in H.
  assert (Hin : In ec levels) by (destruct ec; cbn; tauto).
  specialize (H ec Hin). rewrite forallb_forall in H.
  specialize (H v (proj2 (in_range 1 41 v) ltac:(lia))).
  apply Z.ltb_lt in H. destruct (v <? 10); lia.
Qed.

(** X18.  The first decoder reads back what the encoder wrote: on the bits
    that [placeData] lays out for the codewords of [encodeData], followed
    by anything, [decodeBits] returns the low bytes of the characters of
    the text, without the zero bytes, which it drops. *)
Theorem decodeBits_reads_encodeData (text : list Z) (v : Z) (ec : ecLevel)
  (rest : list Z) :
  1 <= v <= 40 ->
  fits (len text) ec v = true ->
  decodeBits (codewordBits (encodeData text v ec) ++ rest) v
  = List.filter nonzero (map (fun c => band c 0xFF) text).
Proof.
  intros Hv Hfits. destruct (encodeData_segment text v ec Hfits) as [pad E].
  rewrite E, <- app_assoc. apply decodeBits_segment.
  apply (fits_count text ec v Hv Hfits).
Qed.

Lemma decodeBits_reads_encodeData_witness :
  decodeBits (codewordBits (encodeData hello 1 L) ++ [1; 0; 1]) 1
  = List.filter nonzero (map (fun c => band c 0xFF) hello).
Proof.
  apply (decodeBits_reads_encodeData hello 1 L [1; 0; 1]);
    [lia | vm_compute; reflexivity].
Defined.

(** X19.  The second decoder reads an 8-bit count whatever the version.
    Below version 10 [decodeData] returns the low bytes of the characters
    of the text that [encodeData] encoded, zero bytes included; from version
    10 on, where [encodeData] writes a 16-bit count, it returns the empty
    string for every text of fewer than 256 characters. *)
Theorem decodeData_reads_encodeData (text : list Z) (v : Z) (ec : ecLevel)
  (rest : list Z) :
  1 <= v <= 40 ->
  fits (len text) ec v = true ->
  (v < 10 ->
   decodeData (codewordBits (encodeData text v ec) ++ rest)
   = map (fun c => band c 0xFF) text)
  /\ (10 <= v -> len text < 256 ->
      decodeData (codewordBits (encodeData text v ec) ++ rest) = []).
Proof.
  intros Hv Hfits. destruct (encodeData_segment text v ec Hfits) as [pad E].
  rewrite E, <- app_assoc.
  pose proof (fits_count text ec v Hv Hfits) as Hc.
  split.
  - intros Hlt. apply decodeData_segment; [exact Hlt |].
    replace (v <? 10) with true in Hc by (symmetry; apply Z.ltb_lt; lia).
    exact Hc.
  - intros Hge Hlen. apply decodeData_wide_count; assumption.
Qed.

Lemma decodeData_reads_encodeData_witness :
  decodeData (codewordBits (encodeData hello 1 L))
  = map (fun c => band c 0xFF) hello
  /\ decodeData (codewordBits (encodeData hello 10 L)) = [].
Proof.
  split.
  - rewrite <- (app_nil_r (codewordBits (encodeData hello 1 L))).
    apply (decodeData_reads_encodeData hello 1 L []);
      [lia | vm_compute; reflexivity | lia].
  - rewrite <- (app_nil_r (codewordBits (encodeData hello 10 L))).
    apply (decodeData_reads_encodeData hello 10 L []);
      [lia | vm_compute; reflexivity | lia | vm_compute; reflexivity].
Defined.

End BitFacts.

Section SymbolTables.
Import JS QREncoder QRWorkerMatrix.

Lemma versions_checked : forallb versionChecked (range 1 7) = true.
Proof. vm_compute. reflexivity. Qed.

Lemma eqCell_eq x y : eqCell x y = true -> x = y.
Proof.
  destruct x as [a b], y as [c d]. unfold eqCell. cbn [fst snd].
  intros H. apply andb_true_iff in H. destruct H as [H1 H2].
  apply Z.eqb_eq in H1, H2. congruence.
Qed.

Lemma eqCell_refl x : eqCell x x = true.
Proof. unfold eqCell. now rewrite !Z.eqb_refl. Qed.

Lemma zip_eqCell (l k : list (Z * Z)) :
  forallb (fun x => x) (zip_with eqCell l k) = true ->
  length l = length k -> l = k.
Proof.
  revert k. induction l as [| x l IH]; intros [| y k] H Hlen;
    try discriminate; [reflexivity |].
  cbn in H. apply andb_true_iff in H. destruct H as [H1 H2].
  apply eqCell_eq in H1. subst y. f_equal. apply IH; [exact H2 |].
  cbn in Hlen. congruence.
Qed.

Lemma distinct_NoDup l : distinct l = true -> List.NoDup l.
Proof.
  induction l as [| x l IH]; intros H; [constructor |].
  cbn [distinct] in H. apply andb_true_iff in H. destruct H as [H1 H2].
  constructor; [| apply IH, H2].
  intros Hin. apply negb_true_iff in H1.
  assert (E : existsb (eqCell x) l = true)
    by (apply existsb_exists; exists x; split; [exact Hin | apply eqCell_refl]).
  congruence.
Qed.

Lemma agree_cells g size v cs r c :
  agree g size v cs = true -> In (r, c) cs ->
  cell (reserved g) r c = Some (isFunc r c size v).
Proof.
  unfold agree. rewrite forallb_forall. intros H Hin.
  specialize (H (r, c) Hin). cbn [fst snd] in H.
  destruct (cell (reserved g) r c) as [b |]; [| discriminate].
  apply eqb_prop in H. now subst b.
Qed.

(** What the checks of a version give. *)
Lemma version_checked v :
  1 <= v <= 6 ->
  let size := sizeOf v in
  let cs := placeOrder (Z.to_nat size) size (size - 1) true in
  readOrder (Z.to_nat size) size (size - 1) true = cs
  /\ (forall r c, In (r, c) cs -> 0 <= r < size /\ 0 <= c < size)
  /\ List.NoDup cs
  /\ len (List.filter (dataCell size v) cs) = dataModules v
  /\ forall ec mask g r c,
       0 <= mask < 8 -> functionGrid v ec mask = Ok g -> In (r, c) cs ->
       cell (reserved g) r c = Some (isFunc r c size v).
Proof.
  intros Hv size cs.
  pose proof versions_checked as H. rewrite forallb_forall in H.
  specialize (H v (proj2 (in_range 1 7 v) ltac:(lia))).
  unfold versionChecked in H. cbv zeta in H. fold size in H. fold cs in H.
  apply andb_true_iff in H. destruct H as [H H5].
  apply andb_true_iff in H. destruct H as [H H4].
  apply andb_true_iff in H. destruct H as [H H3].
  apply andb_true_iff in H. destruct H as [H H6].
  apply andb_true_iff in H. destruct H as [H1 H2].
  apply Nat.eqb_eq in H2. apply Z.eqb_eq in H4.
  split; [symmetry; apply zip_eqCell; assumption |].
  split.
  { intros r c Hin. rewrite forallb_forall in H6. specialize (H6 (r, c) Hin).
    unfold inside in H6. cbn [fst snd] in H6.
    apply andb_true_iff in H6. destruct H6 as [H6 Hd].
    apply andb_true_iff in H6. destruct H6 as [H6 Hc].
    apply andb_true_iff in H6. destruct H6 as [Ha Hb].
    apply Z.leb_le in Ha, Hc. apply Z.ltb_lt in Hb, Hd. lia. }
  split; [apply distinct_NoDup, H3 |].
  split; [exact H4 |].
  intros ec mask g r c Hm Hg Hin.
  rewrite forallb_forall in H5.
  assert (Hec : In ec levels) by (destruct ec; cbn; tauto).
  specialize (H5 ec Hec). rewrite forallb_forall in H5.
  specialize (H5 mask (proj2 (in_range 0 8 mask) Hm)).
  rewrite Hg in H5. apply (agree_cells g size v cs r c H5 Hin).
Qed.

End SymbolTables.

Section PlacementOrder.
Import JS QREncoder QRWorkerMatrix.

Lemma fold_res_fail {S B} (f : S -> B -> res S) l (x : res S) :
  (forall s, x <> Ok s) ->
  fold_left (fun acc i => s' ← acc; f s' i) l x = x.
Proof.
  revert x. induction l as [| b l IH]; intros x Hx; cbn [fold_left];
    [reflexivity |].
  destruct x as [s | m |]; [exfalso; apply (Hx s); reflexivity | |];
    apply IH; discriminate.
Qed.

Lemma placeCells_cons bits rc cs s :
  placeCells bits (rc :: cs) s = (s' ← placeCell bits s rc; placeCells bits cs s').
Proof.
  unfold placeCells. cbn [fold_left].
  change (Ok s ≫= (fun s' => placeCell bits s' rc)) with (placeCell bits s rc).
  destruct (placeCell bits s rc) as [s1 | m |]; [reflexivity | |];
    apply fold_res_fail; discriminate.
Qed.

Lemma placeCells_app bits cs1 cs2 s :
  placeCells bits (cs1 ++ cs2) s
  = (s' ← placeCells bits cs1 s; placeCells bits cs2 s').
Proof.
  revert s. induction cs1 as [| rc cs1 IH]; intros s; [reflexivity |].
  cbn [app]. rewrite !placeCells_cons.
  destruct (placeCell bits s rc) as [s1 | m |]; [apply IH | reflexivity ..].
Qed.

(** The body of the innermost loop of [placeData] is [placeCell]. *)
Lemma placeStep bits ar ac p p' :
  (b ← isReserved (pgrid p) ar ac;
   if (b : bool) then Ok p
   else if bitIndex p <? len bits
        then g ← setModule (pgrid p) ar ac (at_ bits (bitIndex p));
             Ok (mkPlacing g (bitIndex p + 1) (upward p))
        else g ← setModule (pgrid p) ar ac 0;
             Ok (mkPlacing g (bitIndex p) (upward p))) = Ok p' ->
  placeCell bits (pgrid p, bitIndex p) (ar, ac) = Ok (pgrid p', bitIndex p')
  /\ upward p' = upward p.
Proof.
  unfold placeCell. cbn [fst snd].
  destruct (isReserved (pgrid p) ar ac) as [b | m |]; [| discriminate ..].
  change (Ok b ≫= ?f) with (f b). cbv beta.
  destruct b; [intros [= <-]; split; reflexivity |].
  destruct (bitIndex p <? len bits).
  - destruct (setModule (pgrid p) ar ac (at_ bits (bitIndex p)))
      as [g | m |]; [| discriminate ..].
    intros [= <-]. split; reflexivity.
  - destruct (setModule (pgrid p) ar ac 0) as [g | m |]; [| discriminate ..].
    intros [= <-]. split; reflexivity.
Qed.

Lemma placeRows_cells bits size col (l : list Z) : forall p p1,
  fold_left
    (fun acc row =>
       p' ← acc;
       (let actualRow := if upward p' then size - 1 - row else row in
        forR 0 2
          (fun c p =>
             let actualCol := col - c in
             b ← isReserved (pgrid p) actualRow actualCol;
             if (b : bool) then Ok p
             else if bitIndex p <? len bits
                  then
                    g ← setModule (pgrid p) actualRow actualCol
                                  (at_ bits (bitIndex p));
                    Ok (mkPlacing g (bitIndex p + 1) (upward p))
                  else
                    g ← setModule (pgrid p) actualRow actualCol 0;
                    Ok (mkPlacing g (bitIndex p) (upward p)))
          p'))
    l (Ok p) = Ok p1 ->
  placeCells bits
             (flat_map (fun row =>
                          let actualRow :=
                            if upward p then size - 1 - row else row in
                          [(actualRow, col); (actualRow, col - 1)]) l)
             (pgrid p, bitIndex p)
  = Ok (pgrid p1, bitIndex p1)
  /\ upward p1 = upward p.
Proof.
  induction l as [| row l IH]; intros p p1 H.
  - cbn in H. injection H as <-. split; reflexivity.
  - cbn [fold_left] in H.
    match type of H with
    | fold_left ?f l (Ok p ≫= ?k) = _ =>
        change (Ok p ≫= k) with (k p) in H; cbv beta zeta in H;
        destruct (forR 0 2 _ p) as [p2 | m |] eqn:E2;
        [| exfalso; revert H; rewrite fold_res_fail by discriminate;
           discriminate ..]
    end.
    unfold forR in E2. change (range 0 2) with [0; 1] in E2.
    cbn [fold_left] in E2.
    apply bind_ok in E2. destruct E2 as (pa & Ea & Eb).
    change (Ok p ≫= ?k) with (k p) in Ea. cbv beta zeta in Ea.
    cbv beta zeta in Eb.
    apply placeStep in Ea. destruct Ea as [Ea Ua].
    apply placeStep in Eb. destruct Eb as [Eb Ub].
    specialize (IH p2 p1 H). destruct IH as [IH U1].
    assert (U2 : upward p2 = upward p) by congruence.
    rewrite U2 in IH. split; [| congruence].
    cbn [flat_map app]. cbv zeta.
    rewrite Z.sub_0_r in Ea.
    rewrite placeCells_cons, Ea. change (Ok ?a ≫= ?k) with (k a). cbv beta.
    rewrite placeCells_cons, Eb. change (Ok ?a ≫= ?k) with (k a). cbv beta.
    exact IH.
Qed.

Lemma placeStrip_cells bits size col p p' :
  placeStrip bits size col p = Ok p' ->
  placeCells bits (stripCells size col (upward p)) (pgrid p, bitIndex p)
  = Ok (pgrid p', bitIndex p')
  /\ upward p' = negb (upward p).
Proof.
  unfold placeStrip. intros H. apply bind_ok in H.
  destruct H as (p1 & H1 & [= <-]). cbn [pgrid bitIndex upward].
  unfold forR in H1. apply placeRows_cells in H1.
  destruct H1 as [H1 U1]. split; [exact H1 | now rewrite U1].
Qed.

Lemma placeColumns_cells bits size (fuel : nat) : forall col p p',
  placeColumns fuel bits size col p = Ok p' ->
  placeCells bits (placeOrder fuel size col (upward p)) (pgrid p, bitIndex p)
  = Ok (pgrid p', bitIndex p').
Proof.
  induction fuel as [| fuel IH]; intros col p p' H;
    cbn [placeColumns placeOrder] in *.
  - destruct (col <? 0); [now injection H as <- | discriminate].
  - destruct (col <? 0); [now injection H as <- |].
    cbv zeta in *. apply bind_ok in H. destruct H as (p1 & H1 & H).
    apply placeStrip_cells in H1. destruct H1 as [H1 U1].
    apply IH in H. rewrite U1 in H.
    rewrite placeCells_app, H1. exact H.
Qed.

End PlacementOrder.

Section PlacedBits.
Import JS QREncoder QRWorkerMatrix.

Lemma bitAt_bit bits j : Forall isBit bits -> isBit (bitAt bits j).
Proof.
  intros H. unfold bitAt. destruct (j <? len bits); [| left; reflexivity].
  apply at_bit, H.
Qed.

(** [placeData] on modules that are all different: the reserved grid stays,
    the other modules stay, and the data modules hold the bits in the order
    of the visit, zeros once the bits are used up. *)
Lemma placeCells_values bits (F : Z -> Z -> bool) (cs : list (Z * Z)) :
  forall g k n g' k',
    List.NoDup cs ->
    (forall r c, In (r, c) cs -> cell (reserved g) r c = Some (F r c)) ->
    0 <= n -> k = Z.min n (len bits) ->
    placeCells bits cs (g, k) = Ok (g', k') ->
    reserved g' = reserved g
    /\ (forall r c, ~ In (r, c) cs ->
                    cell (matrix g') r c = cell (matrix g) r c)
    /\ map (fun rc => cell (matrix g') (fst rc) (snd rc))
           (List.filter (fun rc => negb (F (fst rc) (snd rc))) cs)
       = map (fun j => Some (bitAt bits j))
             (range n (n + len (List.filter
                                  (fun rc => negb (F (fst rc) (snd rc))) cs))).
Proof.
  induction cs as [| [r c] cs IH]; intros g k n g' k' Hnd Hres Hn Hk H.
  - cbn in H. injection H as <- <-. split; [reflexivity |].
    split; [reflexivity |]. cbn [List.filter map]. change (len []) with 0.
    rewrite range_nil by lia. reflexivity.
  - rewrite placeCells_cons in H. apply bind_ok in H.
    destruct H as ([g1 k1] & H1 & H).
    apply NoDup_cons_iff in Hnd. destruct Hnd as [Hnotin Hnd].
    pose proof (Hres r c (or_introl eq_refl)) as Hrc.
    unfold placeCell in H1. cbn [fst snd] in H1.
    unfold isReserved in H1. rewrite Hrc in H1.
    change (Ok ?b ≫= ?f) with (f b) in H1. cbv beta in H1.
    cbn [List.filter fst snd].
    destruct (F r c) eqn:EF; cbn [negb].
    + injection H1 as <- <-.
      destruct (IH g k n g' k' Hnd
                   (fun r' c' Hin => Hres r' c' (or_intror Hin)) Hn Hk H)
        as (R & Frame & Vals).
      split; [exact R |]. split; [| exact Vals].
      intros r' c' Hnin. apply Frame. intros Hin. apply Hnin. now right.
    + assert (Hset : exists v, setModule g r c v = Ok g1
                               /\ v = bitAt bits n
                               /\ k1 = Z.min (n + 1) (len bits)).
      { pose proof (len_nonneg bits) as Hl. unfold bitAt.
        destruct (k <? len bits) eqn:Ek.
        - apply Z.ltb_lt in Ek. apply bind_ok in H1.
          destruct H1 as (g2 & Hg & [= <- <-]).
          assert (Hkn : k = n) by lia. rewrite Hkn in Hg.
          replace (n <? len bits) with true by (symmetry; apply Z.ltb_lt; lia).
          exists (at_ bits n). split; [exact Hg | split; [reflexivity | lia]].
        - apply Z.ltb_ge in Ek. apply bind_ok in H1.
          destruct H1 as (g2 & Hg & [= <- <-]).
          replace (n <? len bits) with false by (symmetry; apply Z.ltb_ge; lia).
          exists 0. split; [exact Hg | split; lia]. }
      destruct Hset as (v & Hset & Hv & Hk1).
      apply setModule_cells in Hset. destruct Hset as [R1 C1].
      assert (Hres1 : forall r' c', In (r', c') cs ->
                                    cell (reserved g1) r' c' = Some (F r' c'))
        by (intros r' c' Hin; rewrite R1; apply Hres; now right).
      destruct (IH g1 k1 (n + 1) g' k' Hnd Hres1 ltac:(lia) Hk1 H)
        as (R & Frame & Vals).
      split; [congruence |]. split.
      * intros r' c' Hnin. rewrite Frame by (intros Hin; apply Hnin; now right).
        rewrite C1.
        destruct ((r' =? r) && (c' =? c)) eqn:E; [| reflexivity].
        apply andb_true_iff in E. destruct E as [E1 E2].
        apply Z.eqb_eq in E1, E2. subst. exfalso. apply Hnin. now left.
      * cbn [map fst snd].
        set (k0 := len (List.filter (fun rc => negb (F (fst rc) (snd rc))) cs))
          in *.
        replace (len ((r, c) :: List.filter
                                  (fun rc => negb (F (fst rc) (snd rc))) cs))
          with (k0 + 1) by (unfold k0, len; cbn [length]; lia).
        assert (Hk0 : 0 <= k0) by apply len_nonneg.
        rewrite (range_cons n) by lia. cbn [map].
        replace (n + (k0 + 1)) with (n + 1 + k0) by lia.
        rewrite <- Vals. f_equal.
        rewrite (Frame r c Hnotin), C1, !Z.eqb_refl. cbn [andb].
        now rewrite Hv.
Qed.

End PlacedBits.

Section MaskFacts.
Import JS QREncoder QRWorkerMatrix.

Lemma fns_maskFunction mask r c : fns mask r c = maskFunction mask r c.
Proof. reflexivity. Qed.

Lemma applyMask_row g mask size r g1 g2 :
  0 <= size ->
  reserved g1 = reserved g ->
  (forall r' c', r' = r -> cell (matrix g1) r' c' = cell (matrix g) r' c') ->
  forR 0 size
       (fun c g =>
          b ← isReserved g r c;
          if negb (b : bool) && maskFunction mask r c
          then
            match cell (matrix g) r c with
            | Some v => setModule g r c (bxor v 1)
            | None => OffGrid
            end
          else Ok g)
       g1 = Ok g2 ->
  reserved g2 = reserved g
  /\ forall r' c',
       cell (matrix g2) r' c'
       = if (r' =? r) && (0 <=? c') && (c' <? size)
         then maskedCell g mask r' c'
         else cell (matrix g1) r' c'.
Proof.
  intros Hsize R1 Hrow H.
  revert H.
  apply (forR_ok_indexed
           (fun j g' =>
              reserved g' = reserved g
              /\ forall r' c',
                   cell (matrix g') r' c'
                   = if (r' =? r) && (0 <=? c') && (c' <? j)
                     then maskedCell g mask r' c'
                     else cell (matrix g1) r' c')).
  - exact Hsize.
  - intros j ga gb Hj [Ra Ca] Hstep.
    apply bind_ok in Hstep. destruct Hstep as (b & Hb & Hstep).
    apply isReserved_cell in Hb. rewrite Ra in Hb.
    assert (Hcur : cell (matrix ga) r j = cell (matrix g) r j).
    { rewrite Ca, Z.eqb_refl.
      replace (j <? j) with false by (symmetry; apply Z.ltb_ge; lia).
      rewrite andb_false_r. apply Hrow. reflexivity. }
    assert (Hsame : forall r' c',
               (if (r' =? r) && (0 <=? c') && (c' <? j + 1)
                then maskedCell g mask r' c' else cell (matrix g1) r' c')
               = if (r' =? r) && (c' =? j)
                 then maskedCell g mask r j
                 else cell (matrix ga) r' c').
    { intros r' c'. rewrite Ca.
      destruct (Z.eqb_spec r' r) as [-> | Hr]; cbn [andb]; [| reflexivity].
      destruct (Z.eqb_spec c' j) as [-> | Hc].
      - replace (0 <=? j) with true by (symmetry; apply Z.leb_le; lia).
        replace (j <? j + 1) with true by (symmetry; apply Z.ltb_lt; lia).
        reflexivity.
      - destruct (Z.leb_spec 0 c'); cbn [andb]; [| reflexivity].
        destruct (Z.ltb_spec c' (j + 1)), (Z.ltb_spec c' j);
          try reflexivity; lia. }
    destruct (negb b && maskFunction mask r j) eqn:Eb.
    + apply andb_true_iff in Eb. destruct Eb as [Eb1 Eb2].
      apply negb_true_iff in Eb1. subst b.
      destruct (cell (matrix ga) r j) as [v |] eqn:Ev; [| discriminate].
      apply setModule_cells in Hstep. destruct Hstep as [Rb Cb].
      split; [congruence |]. intros r' c'. rewrite Hsame, Cb.
      destruct ((r' =? r) && (c' =? j)); [| reflexivity].
      unfold maskedCell. rewrite Hb, Eb2, <- Hcur. reflexivity.
    + injection Hstep as <-. split; [exact Ra |].
      intros r' c'. rewrite Hsame.
      destruct ((r' =? r) && (c' =? j)) eqn:E; [| reflexivity].
      apply andb_true_iff in E. destruct E as [E1 E2].
      apply Z.eqb_eq in E1, E2. subst r' c'. rewrite Hcur.
      unfold maskedCell. rewrite Hb.
      destruct b; [reflexivity |]. cbn [negb andb] in Eb. now rewrite Eb.
  - split; [exact R1 |]. intros r' c'.
    replace (c' <? 0) with (negb (0 <=? c'))
      by (destruct (Z.leb_spec 0 c'), (Z.ltb_spec c' 0); try reflexivity; lia).
    destruct (r' =? r), (0 <=? c'); reflexivity.
Qed.

(** [applyMask] module by module. *)
Lemma applyMask_cells g size mask g' :
  0 <= size -> applyMask g size mask = Ok g' ->
  reserved g' = reserved g
  /\ forall r c, 0 <= r < size -> 0 <= c < size ->
                 cell (matrix g') r c = maskedCell g mask r c.
Proof.
  intros Hsize H.
  assert (Hinv : reserved g' = reserved g
                 /\ forall r c,
                      cell (matrix g') r c
                      = if (0 <=? r) && (r <? size) && (0 <=? c) && (c <? size)
                        then maskedCell g mask r c
                        else cell (matrix g) r c).
  { revert H. unfold applyMask.
    apply (forR_ok_indexed
             (fun i g' =>
                reserved g' = reserved g
                /\ forall r c,
                     cell (matrix g') r c
                     = if (0 <=? r) && (r <? i) && (0 <=? c) && (c <? size)
                       then maskedCell g mask r c
                       else cell (matrix g) r c)).
    - exact Hsize.
    - intros i ga gb Hi [Ra Ca] Hrow.
      apply (applyMask_row g mask size i ga gb Hsize Ra) in Hrow.
      + destruct Hrow as [Rb Cb]. split; [exact Rb |].
        intros r c. rewrite Cb, Ca.
        destruct (Z.eqb_spec r i) as [-> | Hne]; cbn [andb].
        * replace (0 <=? i) with true by (symmetry; apply Z.leb_le; lia).
          replace (i <? i + 1) with true by (symmetry; apply Z.ltb_lt; lia).
          replace (i <? i) with false by (symmetry; apply Z.ltb_ge; lia).
          cbn [andb]. destruct ((0 <=? c) && (c <? size)); reflexivity.
        * destruct (Z.leb_spec 0 r); cbn [andb]; [| reflexivity].
          destruct (Z.ltb_spec r (i + 1)), (Z.ltb_spec r i);
            try reflexivity; lia.
      + intros r' c' ->. rewrite Ca.
        replace (i <? i) with false by (symmetry; apply Z.ltb_ge; lia).
        rewrite andb_false_r. reflexivity.
    - split; [reflexivity |]. intros r c.
      destruct (Z.leb_spec 0 r), (Z.ltb_spec r 0); cbn [andb];
        try reflexivity; lia. }
  destruct Hinv as [R C]. split; [exact R |].
  intros r c Hr Hc. rewrite C.
  replace (0 <=? r) with true by (symmetry; apply Z.leb_le; lia).
  replace (r <? size) with true by (symmetry; apply Z.ltb_lt; lia).
  replace (0 <=? c) with true by (symmetry; apply Z.leb_le; lia).
  replace (c <? size) with true by (symmetry; apply Z.ltb_lt; lia).
  reflexivity.
Qed.

(** [unmask] module by module. *)
Lemma unmask_cells m size mask v r c :
  cell (unmask m size mask v) r c
  = option_map (fun val => if negb (isFunc r c size v) && fns mask r c
                           then bxor val 1 else val)
               (cell m r c).
Proof.
  unfold cell.
  destruct ((r <? 0) || (c <? 0)) eqn:E; [reflexivity |].
  apply orb_false_iff in E. destruct E as [Er Ec].
  apply Z.ltb_ge in Er, Ec.
  unfold unmask. rewrite list_lookup_imap.
  destruct (m !! Z.to_nat r) as [row |]; [| reflexivity].
  cbn [fmap option_fmap option_map mbind option_bind].
  rewrite list_lookup_imap.
  destruct (row !! Z.to_nat c) as [val |]; [| reflexivity].
  cbn [fmap option_fmap option_map].
  rewrite !Z2Nat.id by lia. reflexivity.
Qed.

Lemma bxor_twice b : isBit b -> bxor (bxor b 1) 1 = b.
Proof. intros [-> | ->]; reflexivity. Qed.

End MaskFacts.

Section ExtractionOrder.
Import JS QREncoder QRWorkerMatrix.

Lemma readCells_app m size v l k :
  readCells m size v (l ++ k) = readCells m size v l ++ readCells m size v k.
Proof. unfold readCells. now rewrite List.filter_app, map_app. Qed.

Lemma readCells_flat_map {A} m size v (h : A -> list (Z * Z)) l :
  readCells m size v (flat_map h l)
  = concat (map (fun x => readCells m size v (h x)) l).
Proof.
  induction l as [| x l IH]; [reflexivity |].
  cbn [flat_map map concat]. now rewrite readCells_app, IH.
Qed.

Lemma extractStrip_cells m size v col bits up :
  0 < col ->
  extractStrip m size v col (bits, up)
  = (bits ++ readCells m size v (stripCells size col up), negb up).
Proof.
  intros Hcol. unfold extractStrip, stripCells. f_equal.
  rewrite readCells_flat_map. apply forZ_concat.
  intros i acc _. cbv zeta.
  replace (0 <? col) with true by (symmetry; apply Z.ltb_lt; lia).
  unfold readCells, dataCell. cbn [List.filter fst snd andb].
  destruct (isFunc _ col size v), (isFunc _ (col - 1) size v);
    cbn [negb map app]; rewrite <- ?app_assoc, ?app_nil_r; reflexivity.
Qed.

(** [extractBits] reads the data modules in the order of its visit. *)
Lemma extractColumns_cells m size v (fuel : nat) : forall col bits up,
  fst (extractColumns fuel m size v col (bits, up))
  = bits ++ readCells m size v (readOrder fuel size col up).
Proof.
  induction fuel as [| fuel IH]; intros col bits up;
    cbn [extractColumns readOrder].
  - destruct (col <? 1); cbn; now rewrite app_nil_r.
  - destruct (Z.ltb_spec col 1) as [Hlt | Hge];
      [cbn; now rewrite app_nil_r |].
    cbv zeta.
    rewrite extractStrip_cells by (destruct (col =? 6); lia).
    rewrite IH, readCells_app, <- app_assoc. reflexivity.
Qed.

(** More turns than [col] change nothing: the loop has ended. *)
Lemma extractColumns_fuel m size v (fuel : nat) : forall col st extra,
  col <= Z.of_nat fuel ->
  extractColumns (fuel + extra) m size v col st
  = extractColumns fuel m size v col st.
Proof.
  induction fuel as [| fuel IH]; intros col st extra Hcol.
  - change (Z.of_nat 0) with 0 in Hcol.
    assert (E : (col <? 1) = true) by (apply Z.ltb_lt; lia).
    destruct extra; cbn [extractColumns Nat.add]; rewrite E; reflexivity.
  - cbn [extractColumns Nat.add].
    destruct (Z.ltb_spec col 1); [reflexivity |]. cbv zeta.
    apply IH. destruct (Z.eqb_spec col 6); lia.
Qed.

Lemma map_values {A B} (f : A -> option Z) (g : A -> Z) (h : B -> Z) :
  forall (l : list A) (js : list B),
    map f l = map (fun j => Some (h j)) js ->
    (forall a j, In a l -> f a = Some (h j) -> g a = h j) ->
    map g l = map h js.
Proof.
  induction l as [| a l IH]; intros [| j js] E Hp; try discriminate;
    [reflexivity |].
  cbn [map] in *. injection E as E1 E2. f_equal.
  - apply Hp; [now left | exact E1].
  - apply IH; [exact E2 |]. intros a' j' Hin. apply Hp. now right.
Qed.

(** The bits in the order of [bitIndex], cut at [d] modules. *)
Lemma bits_take bits (d : nat) :
  map (bitAt bits) (range 0 (Z.of_nat d)) = firstn d (bits ++ repeat 0 d).
Proof.
  apply nth_ext with (d := 0) (d' := 0).
  - rewrite length_map, range_length, length_firstn, length_app, repeat_length.
    lia.
  - intros k Hk. rewrite length_map, range_length in Hk.
    rewrite (nth_indep _ 0 (bitAt bits 0))
      by (rewrite length_map, range_length; lia).
    rewrite map_nth.
    assert (Hr : nth k (range 0 (Z.of_nat d)) 0 = Z.of_nat k).
    { apply nth_error_nth.
      rewrite <- (Nat2Z.id k) at 1. rewrite range_nth_error by lia.
      reflexivity. }
    rewrite Hr. rewrite nth_firstn.
    replace (k <? d)%nat with true by (symmetry; apply Nat.ltb_lt; lia).
    unfold bitAt, at_, len. rewrite Nat2Z.id.
    destruct (Z.ltb_spec (Z.of_nat k) (Z.of_nat (length bits))) as [H | H].
    + rewrite app_nth1 by lia. reflexivity.
    + rewrite app_nth2 by lia. symmetry. apply nth_repeat.
Qed.

Lemma codewordBits_bits data : Forall isBit (codewordBits data).
Proof.
  rewrite codewordBits_concat. apply (concat_expand_bits (fun b => b)).
Qed.

End ExtractionOrder.

Section SymbolReadBack.
Import JS QREncoder QRWorkerMatrix.

(** The data modules of a symbol of version 1 to 6, read by [extractBits]
    after [unmask], hold the bits in the order of [bitIndex]. *)
Lemma symbol_bits version ec finalData mask m size :
  1 <= version <= 6 -> 0 <= mask < 8 ->
  buildSymbol version ec finalData mask = Ok (m, size) ->
  extractBits (unmask m size mask version) size version
  = map (bitAt (codewordBits finalData)) (range 0 (dataModules version)).
Proof.
  intros Hv Hmask H.
  destruct (version_checked version Hv) as (Eord & Hin & Hnd & Hcount & Hagree).
  unfold buildSymbol, createMatrix in H. cbv beta iota zeta in H.
  apply bind_ok in H. destruct H as (g1 & H1 & H).
  apply bind_ok in H. destruct H as (g2 & H2 & H).
  apply bind_ok in H. destruct H as (g3 & H3 & H).
  apply bind_ok in H. destruct H as (g4 & H4 & H).
  apply bind_ok in H. destruct H as (g5 & H5 & H).
  apply bind_ok in H. destruct H as (g6 & H6 & H).
  apply bind_ok in H. destruct H as (g7 & H7 & H).
  apply bind_ok in H. destruct H as (g8 & H8 & H).
  apply bind_ok in H. destruct H as (g9 & H9 & H).
  injection H as <- <-.
  assert (HF : functionGrid version ec mask = Ok g7).
  { unfold functionGrid, createMatrix. cbv beta iota zeta.
    rewrite H1. change (Ok ?a ≫= ?k) with (k a). cbv beta.
    rewrite H2. change (Ok ?a ≫= ?k) with (k a). cbv beta.
    rewrite H3. change (Ok ?a ≫= ?k) with (k a). cbv beta.
    rewrite H4. change (Ok ?a ≫= ?k) with (k a). cbv beta.
    rewrite H5. change (Ok ?a ≫= ?k) with (k a). cbv beta.
    rewrite H6. change (Ok ?a ≫= ?k) with (k a). cbv beta.
    exact H7. }
  set (size := sizeOf version) in *.
  set (cs := placeOrder (Z.to_nat size) size (size - 1) true) in *.
  set (bits := codewordBits finalData).
  assert (Hsize : 0 <= size) by (unfold size, sizeOf; lia).
  rewrite placeData_codewordBits in H8. fold bits in H8.
  apply bind_ok in H8. destruct H8 as (p & Hp & [= <-]).
  apply placeColumns_cells in Hp. cbn [pgrid bitIndex upward] in Hp.
  fold cs in Hp.
  destruct (placeCells_values bits (fun r c => isFunc r c size version) cs
              g7 0 0 (pgrid p) (bitIndex p) Hnd
              (fun r c Hrc => Hagree ec mask g7 r c Hmask HF Hrc)
              ltac:(lia) ltac:(pose proof (len_nonneg bits); lia) Hp)
    as (R8 & _ & Vals).
  change (fun rc : Z * Z => negb (isFunc (fst rc) (snd rc) size version))
    with (dataCell size version) in Vals.
  rewrite Hcount, Z.add_0_l in Vals.
  apply applyMask_cells in H9; [| exact Hsize]. destruct H9 as [R9 C9].
  unfold extractBits. rewrite extractColumns_cells, Eord. cbn [app].
  unfold readCells.
  apply (map_values
           (fun rc => cell (matrix (pgrid p)) (fst rc) (snd rc))
           (fun rc => QRWorker.mget (unmask (matrix g9) size mask version)
                                    (fst rc) (snd rc))
           (bitAt bits));
    [exact Vals |].
  intros [r c] j Hrc Hval. cbn [fst snd] in *.
  apply filter_In in Hrc. destruct Hrc as [Hrc Hdata].
  unfold dataCell in Hdata. cbn [fst snd] in Hdata.
  apply negb_true_iff in Hdata.
  destruct (Hin r c Hrc) as [Hr Hc].
  pose proof (Hagree ec mask g7 r c Hmask HF Hrc) as Hres.
  rewrite Hdata in Hres.
  apply cell_mget. rewrite unmask_cells, (C9 r c Hr Hc).
  unfold maskedCell. rewrite R8, Hres, Hval, Hdata, fns_maskFunction.
  cbn [negb andb].
  destruct (maskFunction mask r c); cbn [option_map]; [| reflexivity].
  f_equal. apply bxor_twice, bitAt_bit, codewordBits_bits.
Qed.

Lemma dataModules_nonneg v : 0 <= dataModules v.
Proof. unfold dataModules. cbv zeta. apply len_nonneg. Qed.

(** X20.  For versions 1 to 6 the first decoder finds the bits where the
    encoder put them: [extractBits] of [unmask] of a symbol that [generate]
    builds returns the bits of the codewords in order, followed by zeros,
    as many bits as the symbol has modules that [isFunc] leaves to the
    data.  [isFunc] tells exactly the modules that the encoder reserves,
    both visit the modules in the same order, and unmasking undoes the
    mask. *)
Theorem symbol_bits_read_back
        (version : Z) (ec : ecLevel) (finalData : list Z) (mask : Z)
        (m : list (list Z)) (size : Z) :
  1 <= version <= 6 -> 0 <= mask < 8 ->
  buildSymbol version ec finalData mask = Ok (m, size) ->
  extractBits (unmask m size mask version) size version
  = firstn (Z.to_nat (dataModules version))
           (codewordBits finalData
              ++ repeat 0 (Z.to_nat (dataModules version))).
Proof.
  intros Hv Hmask H.
  rewrite (symbol_bits version ec finalData mask m size Hv Hmask H).
  rewrite <- bits_take. f_equal. f_equal.
  rewrite Z2Nat.id by apply dataModules_nonneg. reflexivity.
Qed.

Lemma symbol_bits_read_back_witness :
  let m := default [] (symbolOf (buildSymbol 1 Q [1; 2; 3] 5)) in
  extractBits (unmask m 21 5 1) 21 1
  = firstn (Z.to_nat (dataModules 1))
           (codewordBits [1; 2; 3] ++ repeat 0 (Z.to_nat (dataModules 1))).
Proof.
  apply (symbol_bits_read_back 1 Q [1; 2; 3] 5); [lia | lia |].
  vm_compute. reflexivity.
Defined.

End SymbolReadBack.

Section RoundTrip.
Import JS QREncoder QRWorkerBits QRWorkerMatrix.

Lemma single_table :
  forallb (fun ec => forallb (singleChecked ec) (range 1 41)) levels = true.
Proof. vm_compute. reflexivity. Qed.

Lemma single_block v ec :
  1 <= v <= 40 -> blockCount (ecBlocksOf v ec) = 1 ->
  v <= 6
  /\ 8 * (getDataCapacity v ec + ecPerBlockOf v ec) <= dataModules v.
Proof.
  intros Hv Hone. pose proof single_table as H. rewrite forallb_forall in H.
  assert (Hin : In ec levels) by (destruct ec; cbn; tauto).
  specialize (H ec Hin). rewrite forallb_forall in H.
  specialize (H v (proj2 (in_range 1 41 v) ltac:(lia))).
  unfold singleChecked in H. rewrite Hone in H. cbn [Z.eqb Pos.eqb] in H.
  apply andb_true_iff in H. destruct H as [H1 H2].
  apply Z.leb_le in H1, H2. split; assumption.
Qed.

(** With a single block the codewords are the data and then its EC
    codewords. *)
Lemma addErrorCorrection_single dataBytes v ec :
  1 <= v <= 40 -> isBytes dataBytes ->
  len dataBytes = getDataCapacity v ec ->
  blockCount (ecBlocksOf v ec) = 1 ->
  addErrorCorrection dataBytes v ec
  = dataBytes ++ rsEncode dataBytes (ecPerBlockOf v ec)
  /\ len (rsEncode dataBytes (ecPerBlockOf v ec)) = ecPerBlockOf v ec.
Proof.
  intros Hv Hb Hlen Hone.
  assert (Hun := addErrorCorrection_unfold dataBytes v ec Hv Hb Hlen).
  destruct (ec_row v ec Hv) as [Hsane _].
  unfold dataBlocksOf, ecPerBlockOf, getDataCapacity, blockCount in *.
  destruct (ecBlocksOf v ec) as [[[[e0 b1] d1] b2] d2].
  unfold rowSane in Hsane.
  apply andb_true_iff in Hsane. destruct Hsane as [Hsane H6].
  apply andb_true_iff in Hsane. destruct Hsane as [Hsane H5].
  apply andb_true_iff in Hsane. destruct Hsane as [Hsane H4].
  apply andb_true_iff in Hsane. destruct Hsane as [Hsane H3].
  apply andb_true_iff in Hsane. destruct Hsane as [H1 H2].
  apply Z.ltb_lt in H1, H2, H3. apply Z.leb_le in H4, H5.
  assert (b1 = 1) by lia. assert (b2 = 0) by lia. subst b1 b2.
  assert (d2 = 0).
  { apply orb_true_iff in H6. destruct H6 as [H6 | H6];
      [apply Z.ltb_lt in H6; lia | apply Z.eqb_eq in H6; exact H6]. }
  subst d2.
  assert (Hd1 : d1 = len dataBytes) by lia.
  assert (Hblocks : blocksFrom dataBytes 0 1 d1
                      ++ blocksFrom dataBytes (1 * d1) 0 0 = [dataBytes]).
  { unfold blocksFrom.
    rewrite (range_cons 0 1), (range_nil (0 + 1) 1), (range_nil 0 0) by lia.
    cbn [map app]. f_equal.
    replace (0 + 0 * d1) with 0 by lia.
    rewrite slice_inside by lia.
    change (Z.to_nat 0) with 0%nat. rewrite drop_0.
    apply firstn_all2. unfold len in Hd1. lia. }
  destruct (rsEncode_multiple dataBytes e0 Hb ltac:(lia)) as (_ & Hr2 & _).
  split; [| exact Hr2].
  rewrite Hun, Hblocks. cbn [map].
  replace (Z.max d1 0) with (len dataBytes) by lia.
  rewrite interleave_single. cbn [app].
  rewrite <- Hr2 at 1. apply interleave_single.
Qed.

(** [readFormat] returns the level and the mask of a built symbol. *)
Lemma readFormat_symbol version ec finalData mask m size :
  1 <= version <= 40 -> 0 <= mask < 8 ->
  buildSymbol version ec finalData mask = Ok (m, size) ->
  QRWorker.readFormat m = (ec, mask).
Proof.
  intros Hv Hmask H. unfold buildSymbol, createMatrix in H.
  cbv beta iota zeta in H.
  apply bind_ok in H. destruct H as (g1 & _ & H).
  apply bind_ok in H. destruct H as (g2 & _ & H).
  apply bind_ok in H. destruct H as (g3 & _ & H).
  apply bind_ok in H. destruct H as (g4 & _ & H).
  apply bind_ok in H. destruct H as (g5 & _ & H).
  apply bind_ok in H. destruct H as (g6 & _ & H).
  apply bind_ok in H. destruct H as (g7 & H7 & H).
  apply bind_ok in H. destruct H as (g8 & H8 & H).
  apply bind_ok in H. destruct H as (g9 & H9 & H).
  injection H as <- <-.
  apply addFormatInfo_cells in H7; [| unfold sizeOf; lia].
  destruct H7 as (F1 & F2 & F3 & F4 & F5).
  pose proof (keeps_trans _ _ _ (placeData_keeps _ _ _ _ H8)
                          (applyMask_keeps _ _ _ _ H9)) as [_ Hk].
  assert (Hread : forall r c v, fixedAt g7 r c v ->
                                QRWorker.mget (matrix g9) r c = v).
  { intros r c v [Hm Hr]. apply cell_mget. rewrite Hk by exact Hr. exact Hm. }
  apply (readFormat_bits (matrix g9) (sizeOf version) ec mask); [exact Hmask | | | | |].
  - intros i Hi. apply Hread, F1, Hi.
  - apply Hread, F2.
  - apply Hread, F3.
  - apply Hread, F4.
  - intros r Hr. apply Hread, F5, Hr.
Qed.

Lemma codewordBits_len data : len (codewordBits data) = 8 * len data.
Proof.
  rewrite codewordBits_concat. apply (concat_expand_len (fun b => b)).
Qed.

(** The matrix that [generate] returns is the symbol of one of the masks. *)
Lemma generated_symbol text ec v m :
  getVersion text ec = Ok v -> Design.generated_matrix text ec = Some m ->
  exists mask,
    0 <= mask < 8
    /\ buildSymbol v ec (addErrorCorrection (encodeData text v ec) v ec) mask
       = Ok (m, sizeOf v).
Proof.
  intros Hv Hm.
  destruct (generate_selected text ec v Hv) as (mask & mx & Hleast & _ & E).
  unfold Design.generated_matrix in Hm. rewrite E in Hm.
  rewrite lookup_insert_eq in Hm. injection Hm as <-.
  destruct Hleast as (Hmask & Hb & _). exists mask. split; assumption.
Qed.

Section Reading.
Variables image binary pattern ordered : Type.
Variable binarize : image -> Z -> Z -> res binary.
Variable findFinderPatterns : binary -> Z -> Z -> res (list pattern).
Variable orderPatterns : list pattern -> res (option ordered).
Variable estimateVersion : ordered -> res Z.
Variable sampleGrid : binary -> Z -> Z -> ordered -> Z -> res (list (list Z)).

(** X21.  The first decoder reads what the encoder wrote.  When the text
    gets a version and level with a single block, and the image stages of
    [decode] find three patterns, the version of the symbol and the matrix
    that [generate] returned for the text, [decode] returns the low bytes
    of the characters of the text without the zero bytes, and null when
    nothing is left. *)
Theorem decode_reads_generate
        (text : list Z) (ec : ecLevel) (v : Z) (m : list (list Z))
        (imageData : image) (width height : Z)
        (bin : binary) (patterns : list pattern) (ord : ordered) :
  getVersion text ec = Ok v ->
  blockCount (ecBlocksOf v ec) = 1 ->
  Design.generated_matrix text ec = Some m ->
  binarize imageData width height = Ok bin ->
  findFinderPatterns bin width height = Ok patterns ->
  (3 <= length patterns)%nat ->
  orderPatterns patterns = Ok (Some ord) ->
  estimateVersion ord = Ok v ->
  sampleGrid bin width height ord (v * 4 + 17) = Ok m ->
  FirstDecoder.decode image binary pattern ordered binarize findFinderPatterns
                      orderPatterns estimateVersion sampleGrid
                      imageData width height
  = Ok (QRDecoder.orNull
          (List.filter nonzero (map (fun c => band c 0xFF) text))).
Proof.
  intros Hv Hone Hm Hbin Hpat Hthree Hord Hest Hgrid.
  pose proof (getVersion_range text ec v Hv) as Hr.
  assert (Hfits : fits (len text) ec v = true).
  { unfold getVersion in Hv.
    destruct (find _ _) as [w |] eqn:E; [| discriminate].
    injection Hv as ->. apply find_range_first in E. tauto. }
  destruct (single_block v ec Hr Hone) as [Hv6 Hroom].
  destruct (encodeData_stream text v ec Hfits) as (Hlen & Hbytes & pad & Eseg).
  destruct (addErrorCorrection_single _ v ec Hr Hbytes Hlen Hone)
    as [Efinal Hecl].
  destruct (generated_symbol text ec v m Hv Hm) as (mask & Hmask & Hsym).
  pose proof (readFormat_symbol _ _ _ _ _ _ Hr Hmask Hsym) as Hfmt.
  pose proof (symbol_bits v ec _ mask m (sizeOf v) ltac:(lia) Hmask Hsym)
    as Hbits.
  set (final := addErrorCorrection (encodeData text v ec) v ec) in *.
  assert (Hd : 0 <= dataModules v) by apply dataModules_nonneg.
  rewrite <- (Z2Nat.id (dataModules v) Hd) in Hbits.
  rewrite bits_take in Hbits.
  assert (Hfl : len (codewordBits final) <= dataModules v).
  { rewrite codewordBits_len, Efinal, len_app, Hlen, Hecl. exact Hroom. }
  rewrite firstn_app in Hbits.
  rewrite (firstn_all2 (codewordBits final)) in Hbits
    by (unfold len in Hfl; lia).
  rewrite Efinal, codewordBits_app in Hbits.
  rewrite Eseg, <- !app_assoc in Hbits.
  unfold FirstDecoder.decode, QRDecoder.decode, QRDecoder.decodeBody.
  rewrite Hbin. change (Ok ?a ≫= ?k) with (k a). cbv beta.
  rewrite Hpat. change (Ok ?a ≫= ?k) with (k a). cbv beta.
  replace (length patterns <? 3)%nat with false
    by (symmetry; apply Nat.ltb_ge; exact Hthree).
  rewrite Hord. change (Ok ?a ≫= ?k) with (k a). cbv beta iota.
  rewrite Hest. change (Ok ?a ≫= ?k) with (k a). cbv beta zeta.
  rewrite Hgrid. change (Ok ?a ≫= ?k) with (k a). cbv beta.
  change (Ok ?a ≫= ?k) with (k a). cbv beta.
  rewrite Hfmt. cbn [snd].
  change (Ok ?a ≫= ?k) with (k a). cbv beta.
  change (Ok ?a ≫= ?k) with (k a). cbv beta.
  change (Ok ?a ≫= ?k) with (k a). cbv beta.
  change (v * 4 + 17) with (sizeOf v). rewrite Hbits.
  rewrite decodeBits_segment by (apply (fits_count text ec v Hr Hfits)).
  reflexivity.
Qed.

End Reading.

Lemma decode_reads_generate_witness :
  readerOf 1 (default [] (Design.generated_matrix hello L)) tt 640 480
  = Ok (Some hello).
Proof.
  apply (decode_reads_generate unit unit unit unit
           (fun _ _ _ => Ok tt) (fun _ _ _ => Ok [tt; tt; tt])
           (fun _ => Ok (Some tt)) (fun _ => Ok 1)
           (fun _ _ _ _ _ => Ok (default [] (Design.generated_matrix hello L)))
           hello L 1 (default [] (Design.generated_matrix hello L))
           tt 640 480 tt [tt; tt; tt] tt);
    vm_compute; reflexivity.
Defined.

End RoundTrip.
